(** * Welding thermal-field engine: a shallow embedding and its properties

    The repository holds two variants of the same engine:
    - [cpp-weld/main.cpp]: [TIGConfig], [goldak_heat_flux], [TIGSimulator]
      (module [TIG] below);
    - [cpp-weld-2/WeldingSimulation.{h,cpp}] and [cpp-weld-2/main.cpp]:
      [SimulationConfig], [Material], [WeldingSimulation], [main]
      (module [Weld] below).

    Conventions of the embedding.
    - A C++ [double] is a real number ([R]): arithmetic is exact, there is no
      rounding, no NaN and no infinity.  [M_PI] and the literal
      [3.14159265358979323846] are [PI]; [std::exp] is [exp]; [std::sqrt] is
      [sqrt].  A quotient by zero, which is an infinity or a NaN in the code,
      is a number here: the properties that depend on the value of a quotient
      are stated under hypotheses that keep its divisor away from zero
      ([weld_regular_state], [tig_regular_state], [weld_well_posed],
      [tig_well_posed]).
    - A C++ [int] is an integer ([Z]); overflow is not modelled.  The
      properties that need a product of two [int] or the conversion of a
      [double] in the range of [int] say so ([INT_MAX], [in_int]).
    - A [std::vector<double>] is a [list R]; [v[i]] is [vec_get v i] and
      [v[i] = x] is [vec_set v i x].
    - A counted [for] loop is [for_range]: a left fold of the loop body over
      the index range, in the order of the sequential program.  The OpenMP
      pragmas of the solvers distribute iterations that write disjoint
      [double] cells, so the sequential order is one of the admissible
      schedules.  The loop of [computeZones] is the exception: its iterations
      write single bits of two [std::vector<bool>], which share words, so
      [WeldStats.computeZones] takes the number of threads of the team and
      has a result for a team of one thread only.
    - Console output and files do not influence the temperature fields.
      The thermal models ([Weld.run], [TIG.run_simulation]) leave them out;
      the modules [WeldOutput], [WeldStats], [TIGStats] and [TIGOutput] add
      the monitoring probes, the schedule of the exported frames and
      snapshots, the progress lines and the printed statistics.  A file or a
      console line is represented by the call that writes it and its
      arguments, not by its text. *)

From Stdlib Require Import Reals Lra Lia ZArith.
From stdpp Require Import base list list_numbers strings.

Open Scope R_scope.

(** ** C++ library functions and loops *)

(** [std::min(a, b)] is [(b < a) ? b : a]; [std::max(a, b)] is
    [(a < b) ? b : a]. *)
Definition std_min (a b : R) : R := if Rlt_dec b a then b else a.
Definition std_max (a b : R) : R := if Rlt_dec a b then b else a.

(** [std::ceil] followed by [static_cast<int>]. *)
Definition ceil_int (x : R) : Z := (1 - up (- x))%Z.

(** [v[i]] for reading.  Reading past the end is undefined in C++; every read
    made by the embedded code at a well-formed configuration is in range. *)
Definition vec_get (v : list R) (i : Z) : R := default 0 (v !! Z.to_nat i).

(** [v[i] = x]. *)
Definition vec_set (v : list R) (i : Z) (x : R) : list R := <[Z.to_nat i := x]> v.

(** [std::vector<double> v(n, x)] and [v.resize(n, x)] on an empty vector. *)
Definition vec_make (n : Z) (x : R) : list R := replicate (Z.to_nat n) x.

(** [for (int i = lo; i < hi; ++i) body]. *)
Definition for_range {S : Type} (lo hi : Z) (body : Z → S → S) (s : S) : S :=
  foldl (λ s i, body i s) s (seqZ lo (hi - lo)).

(** ** cpp-weld-2: [WeldingSimulation] *)

Module Weld.

(** [struct SimulationConfig] (WeldingSimulation.h). *)
Module SimulationConfig.
Record t : Type := mk {
  Lx : R; Ly : R; thickness : R; nx : Z; ny : Z;
  mat_1_name : string; mat_1_rho : R; mat_1_cp : R; mat_1_k : R;
  mat_1_T_melt : R; mat_1_T_crit : R;
  mat_2_name : string; mat_2_rho : R; mat_2_cp : R; mat_2_k : R;
  mat_2_T_melt : R; mat_2_T_crit : R;
  V : R; I : R; eta : R; v_weld : R; x_start : R; y_arc : R;
  a : R; b : R; cf : R; cr : R; ff : R; fr : R;
  T0 : R; h_conv : R; dt : R; theta : R;
  weld_process : string; use_gas : bool; snapshot_time : R;
  save_video_frames : bool; video_frames_per_second : Z
}.

(** The in-class default member initialisers. *)
Definition default : t := {|
  Lx := 0.15; Ly := 0.10; thickness := 0.006; nx := 151; ny := 101;
  mat_1_name := "Mild Steel"; mat_1_rho := 7850.0; mat_1_cp := 500.0;
  mat_1_k := 45.0; mat_1_T_melt := 1811.0; mat_1_T_crit := 1273.0;
  mat_2_name := "Stainless Steel 304"; mat_2_rho := 7900.0; mat_2_cp := 500.0;
  mat_2_k := 16.3; mat_2_T_melt := 1723.0; mat_2_T_crit := 1273.0;
  V := 25.0; I := 150.0; eta := 0.85; v_weld := 0.006; x_start := 0.02;
  y_arc := 0.0;
  a := 0.005; b := 0.004; cf := 0.003; cr := 0.010; ff := 0.6; fr := 1.4;
  T0 := 293.0; h_conv := 20.0; dt := 0.02; theta := 0.5;
  weld_process := "TIG"; use_gas := true; snapshot_time := -1.0;
  save_video_frames := false; video_frames_per_second := 10
|}.

Definition set_eta (c : t) (e : R) : t :=
  mk (Lx c) (Ly c) (thickness c) (nx c) (ny c)
     (mat_1_name c) (mat_1_rho c) (mat_1_cp c) (mat_1_k c) (mat_1_T_melt c) (mat_1_T_crit c)
     (mat_2_name c) (mat_2_rho c) (mat_2_cp c) (mat_2_k c) (mat_2_T_melt c) (mat_2_T_crit c)
     (V c) (I c) e (v_weld c) (x_start c) (y_arc c)
     (a c) (b c) (cf c) (cr c) (ff c) (fr c)
     (T0 c) (h_conv c) (dt c) (theta c)
     (weld_process c) (use_gas c) (snapshot_time c)
     (save_video_frames c) (video_frames_per_second c).

(** Assignments to single members. *)
Definition set_weld_process (c : t) (x : string) : t :=
  mk (Lx c) (Ly c) (thickness c) (nx c) (ny c) (mat_1_name c) (mat_1_rho c) (mat_1_cp c)
    (mat_1_k c) (mat_1_T_melt c) (mat_1_T_crit c) (mat_2_name c) (mat_2_rho c) (mat_2_cp
    c) (mat_2_k c) (mat_2_T_melt c) (mat_2_T_crit c) (V c) (I c) (eta c) (v_weld c)
    (x_start c) (y_arc c) (a c) (b c) (cf c) (cr c) (ff c) (fr c) (T0 c) (h_conv c) (dt
    c) (theta c) x (use_gas c) (snapshot_time c) (save_video_frames c)
    (video_frames_per_second c).

Definition set_use_gas (c : t) (x : bool) : t :=
  mk (Lx c) (Ly c) (thickness c) (nx c) (ny c) (mat_1_name c) (mat_1_rho c) (mat_1_cp c)
    (mat_1_k c) (mat_1_T_melt c) (mat_1_T_crit c) (mat_2_name c) (mat_2_rho c) (mat_2_cp
    c) (mat_2_k c) (mat_2_T_melt c) (mat_2_T_crit c) (V c) (I c) (eta c) (v_weld c)
    (x_start c) (y_arc c) (a c) (b c) (cf c) (cr c) (ff c) (fr c) (T0 c) (h_conv c) (dt
    c) (theta c) (weld_process c) x (snapshot_time c) (save_video_frames c)
    (video_frames_per_second c).

Definition set_snapshot_time (c : t) (x : R) : t :=
  mk (Lx c) (Ly c) (thickness c) (nx c) (ny c) (mat_1_name c) (mat_1_rho c) (mat_1_cp c)
    (mat_1_k c) (mat_1_T_melt c) (mat_1_T_crit c) (mat_2_name c) (mat_2_rho c) (mat_2_cp
    c) (mat_2_k c) (mat_2_T_melt c) (mat_2_T_crit c) (V c) (I c) (eta c) (v_weld c)
    (x_start c) (y_arc c) (a c) (b c) (cf c) (cr c) (ff c) (fr c) (T0 c) (h_conv c) (dt
    c) (theta c) (weld_process c) (use_gas c) x (save_video_frames c)
    (video_frames_per_second c).

Definition set_I (c : t) (x : R) : t :=
  mk (Lx c) (Ly c) (thickness c) (nx c) (ny c) (mat_1_name c) (mat_1_rho c) (mat_1_cp c)
    (mat_1_k c) (mat_1_T_melt c) (mat_1_T_crit c) (mat_2_name c) (mat_2_rho c) (mat_2_cp
    c) (mat_2_k c) (mat_2_T_melt c) (mat_2_T_crit c) (V c) x (eta c) (v_weld c) (x_start
    c) (y_arc c) (a c) (b c) (cf c) (cr c) (ff c) (fr c) (T0 c) (h_conv c) (dt c) (theta
    c) (weld_process c) (use_gas c) (snapshot_time c) (save_video_frames c)
    (video_frames_per_second c).

Definition set_V (c : t) (x : R) : t :=
  mk (Lx c) (Ly c) (thickness c) (nx c) (ny c) (mat_1_name c) (mat_1_rho c) (mat_1_cp c)
    (mat_1_k c) (mat_1_T_melt c) (mat_1_T_crit c) (mat_2_name c) (mat_2_rho c) (mat_2_cp
    c) (mat_2_k c) (mat_2_T_melt c) (mat_2_T_crit c) x (I c) (eta c) (v_weld c) (x_start
    c) (y_arc c) (a c) (b c) (cf c) (cr c) (ff c) (fr c) (T0 c) (h_conv c) (dt c) (theta
    c) (weld_process c) (use_gas c) (snapshot_time c) (save_video_frames c)
    (video_frames_per_second c).

Definition set_v_weld (c : t) (x : R) : t :=
  mk (Lx c) (Ly c) (thickness c) (nx c) (ny c) (mat_1_name c) (mat_1_rho c) (mat_1_cp c)
    (mat_1_k c) (mat_1_T_melt c) (mat_1_T_crit c) (mat_2_name c) (mat_2_rho c) (mat_2_cp
    c) (mat_2_k c) (mat_2_T_melt c) (mat_2_T_crit c) (V c) (I c) (eta c) x (x_start c)
    (y_arc c) (a c) (b c) (cf c) (cr c) (ff c) (fr c) (T0 c) (h_conv c) (dt c) (theta c)
    (weld_process c) (use_gas c) (snapshot_time c) (save_video_frames c)
    (video_frames_per_second c).

Definition set_mat_1_k (c : t) (x : R) : t :=
  mk (Lx c) (Ly c) (thickness c) (nx c) (ny c) (mat_1_name c) (mat_1_rho c) (mat_1_cp c)
    x (mat_1_T_melt c) (mat_1_T_crit c) (mat_2_name c) (mat_2_rho c) (mat_2_cp c)
    (mat_2_k c) (mat_2_T_melt c) (mat_2_T_crit c) (V c) (I c) (eta c) (v_weld c)
    (x_start c) (y_arc c) (a c) (b c) (cf c) (cr c) (ff c) (fr c) (T0 c) (h_conv c) (dt
    c) (theta c) (weld_process c) (use_gas c) (snapshot_time c) (save_video_frames c)
    (video_frames_per_second c).

Definition set_mat_1_cp (c : t) (x : R) : t :=
  mk (Lx c) (Ly c) (thickness c) (nx c) (ny c) (mat_1_name c) (mat_1_rho c) x (mat_1_k
    c) (mat_1_T_melt c) (mat_1_T_crit c) (mat_2_name c) (mat_2_rho c) (mat_2_cp c)
    (mat_2_k c) (mat_2_T_melt c) (mat_2_T_crit c) (V c) (I c) (eta c) (v_weld c)
    (x_start c) (y_arc c) (a c) (b c) (cf c) (cr c) (ff c) (fr c) (T0 c) (h_conv c) (dt
    c) (theta c) (weld_process c) (use_gas c) (snapshot_time c) (save_video_frames c)
    (video_frames_per_second c).

Definition set_mat_1_rho (c : t) (x : R) : t :=
  mk (Lx c) (Ly c) (thickness c) (nx c) (ny c) (mat_1_name c) x (mat_1_cp c) (mat_1_k c)
    (mat_1_T_melt c) (mat_1_T_crit c) (mat_2_name c) (mat_2_rho c) (mat_2_cp c) (mat_2_k
    c) (mat_2_T_melt c) (mat_2_T_crit c) (V c) (I c) (eta c) (v_weld c) (x_start c)
    (y_arc c) (a c) (b c) (cf c) (cr c) (ff c) (fr c) (T0 c) (h_conv c) (dt c) (theta c)
    (weld_process c) (use_gas c) (snapshot_time c) (save_video_frames c)
    (video_frames_per_second c).

Definition set_mat_1_T_melt (c : t) (x : R) : t :=
  mk (Lx c) (Ly c) (thickness c) (nx c) (ny c) (mat_1_name c) (mat_1_rho c) (mat_1_cp c)
    (mat_1_k c) x (mat_1_T_crit c) (mat_2_name c) (mat_2_rho c) (mat_2_cp c) (mat_2_k c)
    (mat_2_T_melt c) (mat_2_T_crit c) (V c) (I c) (eta c) (v_weld c) (x_start c) (y_arc
    c) (a c) (b c) (cf c) (cr c) (ff c) (fr c) (T0 c) (h_conv c) (dt c) (theta c)
    (weld_process c) (use_gas c) (snapshot_time c) (save_video_frames c)
    (video_frames_per_second c).

Definition set_mat_2_k (c : t) (x : R) : t :=
  mk (Lx c) (Ly c) (thickness c) (nx c) (ny c) (mat_1_name c) (mat_1_rho c) (mat_1_cp c)
    (mat_1_k c) (mat_1_T_melt c) (mat_1_T_crit c) (mat_2_name c) (mat_2_rho c) (mat_2_cp
    c) x (mat_2_T_melt c) (mat_2_T_crit c) (V c) (I c) (eta c) (v_weld c) (x_start c)
    (y_arc c) (a c) (b c) (cf c) (cr c) (ff c) (fr c) (T0 c) (h_conv c) (dt c) (theta c)
    (weld_process c) (use_gas c) (snapshot_time c) (save_video_frames c)
    (video_frames_per_second c).

Definition set_mat_2_cp (c : t) (x : R) : t :=
  mk (Lx c) (Ly c) (thickness c) (nx c) (ny c) (mat_1_name c) (mat_1_rho c) (mat_1_cp c)
    (mat_1_k c) (mat_1_T_melt c) (mat_1_T_crit c) (mat_2_name c) (mat_2_rho c) x
    (mat_2_k c) (mat_2_T_melt c) (mat_2_T_crit c) (V c) (I c) (eta c) (v_weld c)
    (x_start c) (y_arc c) (a c) (b c) (cf c) (cr c) (ff c) (fr c) (T0 c) (h_conv c) (dt
    c) (theta c) (weld_process c) (use_gas c) (snapshot_time c) (save_video_frames c)
    (video_frames_per_second c).

Definition set_mat_2_rho (c : t) (x : R) : t :=
  mk (Lx c) (Ly c) (thickness c) (nx c) (ny c) (mat_1_name c) (mat_1_rho c) (mat_1_cp c)
    (mat_1_k c) (mat_1_T_melt c) (mat_1_T_crit c) (mat_2_name c) x (mat_2_cp c) (mat_2_k
    c) (mat_2_T_melt c) (mat_2_T_crit c) (V c) (I c) (eta c) (v_weld c) (x_start c)
    (y_arc c) (a c) (b c) (cf c) (cr c) (ff c) (fr c) (T0 c) (h_conv c) (dt c) (theta c)
    (weld_process c) (use_gas c) (snapshot_time c) (save_video_frames c)
    (video_frames_per_second c).

Definition set_mat_2_T_melt (c : t) (x : R) : t :=
  mk (Lx c) (Ly c) (thickness c) (nx c) (ny c) (mat_1_name c) (mat_1_rho c) (mat_1_cp c)
    (mat_1_k c) (mat_1_T_melt c) (mat_1_T_crit c) (mat_2_name c) (mat_2_rho c) (mat_2_cp
    c) (mat_2_k c) x (mat_2_T_crit c) (V c) (I c) (eta c) (v_weld c) (x_start c) (y_arc
    c) (a c) (b c) (cf c) (cr c) (ff c) (fr c) (T0 c) (h_conv c) (dt c) (theta c)
    (weld_process c) (use_gas c) (snapshot_time c) (save_video_frames c)
    (video_frames_per_second c).

Definition set_save_video_frames (c : t) (x : bool) : t :=
  mk (Lx c) (Ly c) (thickness c) (nx c) (ny c) (mat_1_name c) (mat_1_rho c) (mat_1_cp c)
    (mat_1_k c) (mat_1_T_melt c) (mat_1_T_crit c) (mat_2_name c) (mat_2_rho c) (mat_2_cp
    c) (mat_2_k c) (mat_2_T_melt c) (mat_2_T_crit c) (V c) (I c) (eta c) (v_weld c)
    (x_start c) (y_arc c) (a c) (b c) (cf c) (cr c) (ff c) (fr c) (T0 c) (h_conv c) (dt
    c) (theta c) (weld_process c) (use_gas c) (snapshot_time c) x
    (video_frames_per_second c).

Definition set_video_frames_per_second (c : t) (x : Z) : t :=
  mk (Lx c) (Ly c) (thickness c) (nx c) (ny c) (mat_1_name c) (mat_1_rho c) (mat_1_cp c)
    (mat_1_k c) (mat_1_T_melt c) (mat_1_T_crit c) (mat_2_name c) (mat_2_rho c) (mat_2_cp
    c) (mat_2_k c) (mat_2_T_melt c) (mat_2_T_crit c) (V c) (I c) (eta c) (v_weld c)
    (x_start c) (y_arc c) (a c) (b c) (cf c) (cr c) (ff c) (fr c) (T0 c) (h_conv c) (dt
    c) (theta c) (weld_process c) (use_gas c) (snapshot_time c) (save_video_frames c) x.
End SimulationConfig.

(** [class Material]. *)
Module Material.
Record t : Type := mk {
  name : string; rho : R; cp : R; k : R; alpha : R; T_melt : R; T_crit : R
}.

(** [Material::Material]: [alpha = k / (rho * cp)]. *)
Definition make (name : string) (rho cp k T_melt T_crit : R) : t :=
  mk name rho cp k (k / (rho * cp)) T_melt T_crit.

Definition get_k (m : t) (T : R) : R :=
  if Rlt_dec T (T_crit m) then k m
  else if Rlt_dec T (T_melt m) then
    k m * (1.0 + (T - T_crit m) / (T_melt m - T_crit m) * 0.1)
  else k m * 1.1.

Definition get_cp (m : t) (T : R) : R :=
  if Rlt_dec T (T_crit m) then cp m
  else if Rlt_dec T (T_melt m) then
    cp m * (1.0 + (T - T_crit m) / (T_melt m - T_crit m) * 0.2)
  else cp m * 1.2.

Definition get_rho (m : t) (T : R) : R :=
  if Rlt_dec T (T_crit m) then rho m
  else if Rlt_dec T (T_melt m) then
    rho m * (1.0 - (T - T_crit m) / (T_melt m - T_crit m) * 0.05)
  else rho m * 0.95.
End Material.

(** The private members of [class WeldingSimulation] that carry the thermal
    state (the monitoring members are left out). *)
Record WeldingSimulation : Type := mkSim {
  config_ : SimulationConfig.t;
  mat_1_ : Material.t; mat_2_ : Material.t;
  nx_ : Z; ny_ : Z; N_ : Z;
  dx_ : R; dy_ : R; midpoint_ : R;
  x_ : list R; y_ : list R; X_ : list R; Y_ : list R;
  T_ : list R; T_max_ : list R;
  t_end_ : R; nt_ : Z;
  Q_total_ : R; T_melt_ : R; T_crit_ : R
}.

Definition set_fields (sim : WeldingSimulation) (T T_max : list R) : WeldingSimulation :=
  mkSim (config_ sim) (mat_1_ sim) (mat_2_ sim) (nx_ sim) (ny_ sim) (N_ sim)
        (dx_ sim) (dy_ sim) (midpoint_ sim) (x_ sim) (y_ sim) (X_ sim) (Y_ sim)
        T T_max (t_end_ sim) (nt_ sim) (Q_total_ sim) (T_melt_ sim) (T_crit_ sim).

(** [inline int idx(int i, int j) const]. *)
Definition idx (nx : Z) (i j : Z) : Z := (j * nx + i)%Z.

(** [inline bool isBoundary(int i, int j) const]. *)
Definition isBoundary (nx ny : Z) (i j : Z) : bool :=
  (i =? 0)%Z || (i =? nx - 1)%Z || (j =? 0)%Z || (j =? ny - 1)%Z.

(** The efficiency block of the constructor: the value left in
    [config_.eta] and the lines written to [std::cout]. *)
Definition adjust_efficiency (c : SimulationConfig.t) : R * list string :=
  if String.eqb (SimulationConfig.weld_process c) "TIG" then
    if SimulationConfig.use_gas c
    then (0.75, ["Simulating TIG welding."; "Using shielding gas."])
    else (0.65, ["Simulating TIG welding."; "Not using shielding gas."])
  else if String.eqb (SimulationConfig.weld_process c) "Electrode" then
    (0.85, "Simulating Electrode welding." ::
           (if SimulationConfig.use_gas c
            then ["Warning: Gas is not typically used with electrode welding."]
            else []))
  else (SimulationConfig.eta c, []).

(** [initializeGrid]: the 1D grids. *)
Definition grid_x (c : SimulationConfig.t) (nx : Z) : list R :=
  for_range 0 nx
    (λ i x, vec_set x i (IZR i * SimulationConfig.Lx c / IZR (nx - 1)))
    (vec_make nx 0).

Definition grid_y (c : SimulationConfig.t) (ny : Z) : list R :=
  for_range 0 ny
    (λ j y, vec_set y j (- SimulationConfig.Ly c / 2.0
                          + IZR j * SimulationConfig.Ly c / IZR (ny - 1)))
    (vec_make ny 0).

(** [initializeGrid]: the row-major mesh grid, both arrays written in one
    loop nest. *)
Definition meshgrid (nx ny : Z) (x y : list R) : list R * list R :=
  for_range 0 ny
    (λ j XY,
       for_range 0 nx
         (λ i XY,
            let index := idx nx i j in
            (vec_set XY.1 index (vec_get x i), vec_set XY.2 index (vec_get y j)))
         XY)
    (vec_make (nx * ny) 0, vec_make (nx * ny) 0).

(** What running the constructor can do. *)
Inductive ctor_result : Type :=
  | Constructed (sim : WeldingSimulation)
  | ThrowsLengthError
  | UndefinedBehaviour.

(** [WeldingSimulation::WeldingSimulation].  [x_.resize(nx_)] with a negative
    size throws [std::length_error]; [dx_ = x_[1] - x_[0]] reads past the end
    of [x_] when [nx_ < 2] (likewise [dy_]).  The constructor contains no
    check of its own.  The product [nx_ * ny_] is computed in [Z] and the
    step count [nt_] from a quotient in [R]: where the product leaves the
    range of [int], or [v_weld] or [dt] is zero, the code overflows or
    converts an infinity to [int], and the outcome given here does not
    describe it.  [weld_well_posed] below excludes these configurations. *)
Definition construct (config : SimulationConfig.t) : ctor_result :=
  let nx := SimulationConfig.nx config in
  let ny := SimulationConfig.ny config in
  let N := (nx * ny)%Z in
  let midpoint := SimulationConfig.Lx config / 2.0 in
  let config := SimulationConfig.set_eta config (adjust_efficiency config).1 in
  let Q_total := SimulationConfig.eta config * SimulationConfig.V config
                 * SimulationConfig.I config in
  if ((nx <? 0) || (ny <? 0))%Z then ThrowsLengthError
  else if ((nx <? 2) || (ny <? 2))%Z then UndefinedBehaviour
  else
    let x := grid_x config nx in
    let y := grid_y config ny in
    let dx := vec_get x 1 - vec_get x 0 in
    let dy := vec_get y 1 - vec_get y 0 in
    let XY := meshgrid nx ny x y in
    let mat_1 := Material.make
      (SimulationConfig.mat_1_name config) (SimulationConfig.mat_1_rho config)
      (SimulationConfig.mat_1_cp config) (SimulationConfig.mat_1_k config)
      (SimulationConfig.mat_1_T_melt config) (SimulationConfig.mat_1_T_crit config) in
    let mat_2 := Material.make
      (SimulationConfig.mat_2_name config) (SimulationConfig.mat_2_rho config)
      (SimulationConfig.mat_2_cp config) (SimulationConfig.mat_2_k config)
      (SimulationConfig.mat_2_T_melt config) (SimulationConfig.mat_2_T_crit config) in
    let T_melt := (Material.T_melt mat_1 + Material.T_melt mat_2) / 2.0 in
    let T_crit := (Material.T_crit mat_1 + Material.T_crit mat_2) / 2.0 in
    let t_end := (SimulationConfig.Lx config - SimulationConfig.x_start config)
                 / SimulationConfig.v_weld config + 10.0 in
    let nt := ceil_int (t_end / SimulationConfig.dt config) in
    Constructed
      (mkSim config mat_1 mat_2 nx ny N dx dy midpoint x y XY.1 XY.2
             (vec_make N (SimulationConfig.T0 config))
             (vec_make N (SimulationConfig.T0 config))
             t_end nt Q_total T_melt T_crit).

(** [computeGoldakHeatFlux]: the flux computed for a cell whose centre has the
    coordinates [X] and [Y]. *)
Definition goldak_point (sim : WeldingSimulation) (x_arc : R) (X Y : R) : R :=
  let c := config_ sim in
  let a := SimulationConfig.a c in
  let b := SimulationConfig.b c in
  let ff := SimulationConfig.ff c in
  let fr := SimulationConfig.fr c in
  let y_arc := SimulationConfig.y_arc c in
  let a_sq := a * a in
  let b_sq := b * b in
  let coeff_f := (ff * Q_total_ sim) / (a * b * PI) in
  let coeff_r := (fr * Q_total_ sim) / (a * b * PI) in
  let xi := X - x_arc in
  let eta := Y - y_arc in
  let exp_arg := - xi * xi / a_sq - eta * eta / b_sq in
  if Rge_dec xi 0 then coeff_f * exp exp_arg else coeff_r * exp exp_arg.

(** [computeGoldakHeatFlux]: the flux written to the cell [index]. *)
Definition goldak_cell (sim : WeldingSimulation) (x_arc : R) (index : Z) : R :=
  goldak_point sim x_arc (vec_get (X_ sim) index) (vec_get (Y_ sim) index).

(** [computeGoldakHeatFlux(x_arc, q_surf)] called on an empty [q_surf]. *)
Definition computeGoldakHeatFlux (sim : WeldingSimulation) (x_arc : R) : list R :=
  for_range 0 (ny_ sim)
    (λ j q_surf,
       for_range 0 (nx_ sim)
         (λ i q_surf,
            let index := idx (nx_ sim) i j in
            vec_set q_surf index (goldak_cell sim x_arc index))
         q_surf)
    (vec_make (N_ sim) 0).

(** The three property arrays filled by [computeMaterialProperties]. *)
Record props : Type := mkProps { k_arr : list R; cp_arr : list R; rho_arr : list R }.

(** The material of a cell: [(X_[idx] < midpoint_) ? mat_1_ : mat_2_].  In
    the column on the joint of a grid with an odd number of columns the two
    sides of the comparison are equal here and equal up to rounding in the
    code. *)
Definition material_at (sim : WeldingSimulation) (index : Z) : Material.t :=
  if Rlt_dec (vec_get (X_ sim) index) (midpoint_ sim) then mat_1_ sim else mat_2_ sim.

Definition computeMaterialProperties (sim : WeldingSimulation) (T_vec : list R) : props :=
  for_range 0 (N_ sim)
    (λ index p,
       let mat := material_at sim index in
       mkProps (vec_set (k_arr p) index (Material.get_k mat (vec_get T_vec index)))
               (vec_set (cp_arr p) index (Material.get_cp mat (vec_get T_vec index)))
               (vec_set (rho_arr p) index (Material.get_rho mat (vec_get T_vec index))))
    (mkProps (vec_make (N_ sim) 0) (vec_make (N_ sim) 0) (vec_make (N_ sim) 0)).

Definition T_MAX_REASONABLE : R := 5000.0.

(** The two-sided test that follows the update of an interior cell. *)
Definition clamp (T0 v : R) : R :=
  if Rgt_dec v T_MAX_REASONABLE then T_MAX_REASONABLE
  else if Rlt_dec v T0 then T0
  else v.

(** The value assigned to [T_new[index]] by the update statement of an
    interior cell of [solveTimeStep], before the clamp.  It is the value of
    the code where no divisor is zero ([weld_regular_state] below); with a
    zero divisor the code computes an infinity or a NaN. *)
Definition interior_update (sim : WeldingSimulation) (p : props) (Qvol : list R)
    (i j : Z) : R :=
  let nx := nx_ sim in
  let index := idx nx i j in
  let dt := SimulationConfig.dt (config_ sim) in
  let alpha := vec_get (k_arr p) index
               / (vec_get (rho_arr p) index * vec_get (cp_arr p) index) in
  let idx_xm := idx nx (i - 1) j in
  let idx_xp := idx nx (i + 1) j in
  let idx_ym := idx nx i (j - 1) in
  let idx_yp := idx nx i (j + 1) in
  let T := T_ sim in
  let d2T_dx2 := (vec_get T idx_xp - 2.0 * vec_get T index + vec_get T idx_xm)
                 / (dx_ sim * dx_ sim) in
  let d2T_dy2 := (vec_get T idx_yp - 2.0 * vec_get T index + vec_get T idx_ym)
                 / (dy_ sim * dy_ sim) in
  let heat_source := vec_get Qvol index
                     / (vec_get (rho_arr p) index * vec_get (cp_arr p) index) in
  let dx_sq := dx_ sim * dx_ sim in
  let dy_sq := dy_ sim * dy_ sim in
  let max_dt_stable := 0.4 / (alpha * (1.0 / dx_sq + 1.0 / dy_sq)) in
  let dt_effective := std_min dt max_dt_stable in
  vec_get T index + dt_effective * (alpha * (d2T_dx2 + d2T_dy2) + heat_source).

(** The value left in [T_new[index]] by one iteration of the loop nest. *)
Definition cell_value (sim : WeldingSimulation) (p : props) (Qvol : list R)
    (i j : Z) : R :=
  if isBoundary (nx_ sim) (ny_ sim) i j then SimulationConfig.T0 (config_ sim)
  else clamp (SimulationConfig.T0 (config_ sim)) (interior_update sim p Qvol i j).

(** The loop nest of [solveTimeStep] that fills [T_new]. *)
Definition sweep (sim : WeldingSimulation) (p : props) (Qvol : list R) : list R :=
  for_range 0 (ny_ sim)
    (λ j T_new,
       for_range 0 (nx_ sim)
         (λ i T_new, vec_set T_new (idx (nx_ sim) i j) (cell_value sim p Qvol i j))
         T_new)
    (vec_make (N_ sim) 0).

(** The loop that updates [T_max_]. *)
Definition update_T_max (N : Z) (T T_max : list R) : list R :=
  for_range 0 N
    (λ index T_max, vec_set T_max index (std_max (vec_get T_max index) (vec_get T index)))
    T_max.

(** [solveTimeStep(t, Qvol)]. *)
Definition solveTimeStep (sim : WeldingSimulation) (t : R) (Qvol : list R)
    : WeldingSimulation :=
  let p := computeMaterialProperties sim (T_ sim) in
  let T_new := sweep sim p Qvol in
  set_fields sim T_new (update_T_max (N_ sim) T_new (T_max_ sim)).

(** The heat-source part of one iteration of the loop of [run]: the vector
    [Qvol] handed to [solveTimeStep], and the arguments of the calls of
    [computeGoldakHeatFlux] made on the way. *)
Record source_result : Type := mkSource { Qvol_of : list R; flux_calls : list R }.

Definition heat_source (sim : WeldingSimulation) (x_arc : R) : source_result :=
  let Qvol := vec_make (N_ sim) 0.0 in
  if Rle_dec x_arc (SimulationConfig.Lx (config_ sim)) then
    let q_surf := computeGoldakHeatFlux sim x_arc in
    mkSource
      (for_range 0 (N_ sim)
         (λ index Qvol,
            vec_set Qvol index
              (vec_get q_surf index / SimulationConfig.thickness (config_ sim)))
         Qvol)
      [x_arc]
  else mkSource Qvol [].

(** The state carried round the loop of [run]: the clock [t], the object, and
    the trace of [computeGoldakHeatFlux] calls so far. *)
Record run_state : Type := mkRun {
  run_t : R; run_sim : WeldingSimulation; run_calls : list R }.

Definition arc_position (sim : WeldingSimulation) (t : R) : R :=
  SimulationConfig.x_start (config_ sim) + SimulationConfig.v_weld (config_ sim) * t.

(** One iteration of [for (int step = 1; step <= nt_; ++step)]. *)
Definition run_iteration (st : run_state) : run_state :=
  let sim := run_sim st in
  let t := run_t st + SimulationConfig.dt (config_ sim) in
  let x_arc := arc_position sim t in
  let src := heat_source sim x_arc in
  mkRun t (solveTimeStep sim t (Qvol_of src)) (run_calls st ++ flux_calls src).

(** The state after the first [n] iterations of the loop. *)
Fixpoint run_steps (n : nat) (st : run_state) : run_state :=
  match n with
  | O => st
  | S n => run_iteration (run_steps n st)
  end.

(** [WeldingSimulation::run]. *)
Definition run (sim : WeldingSimulation) : run_state :=
  run_steps (Z.to_nat (nt_ sim)) (mkRun 0.0 sim []).

End Weld.

(** ** cpp-weld-2: [main] *)

Module WeldMain.
Import Weld.

(** What has happened when the argument loop of [main] is left: [main] has
    returned from inside the loop, an exception of [std::stod] or [std::stoi]
    has escaped (they are called outside the [try] block), or the loop has
    run to its end with a configuration. *)
Inductive parse_result : Type :=
  | Return (code : Z)
  | Uncaught
  | Parsed (config : SimulationConfig.t).

Section Arguments.

(** [std::stod] and [std::stoi]; [None] when the conversion throws. *)
Variable stod : string → option R.
Variable stoi : string → option Z.

(** The options whose value is converted by [std::stod], with the member
    they assign. *)
Definition numeric_option (arg : string)
    : option (SimulationConfig.t → R → SimulationConfig.t) :=
  if String.eqb arg "--snapshot_time" then Some SimulationConfig.set_snapshot_time
  else if String.eqb arg "--current" then Some SimulationConfig.set_I
  else if String.eqb arg "--voltage" then Some SimulationConfig.set_V
  else if String.eqb arg "--speed" then Some SimulationConfig.set_v_weld
  else if String.eqb arg "--mat1_k" then Some SimulationConfig.set_mat_1_k
  else if String.eqb arg "--mat1_cp" then Some SimulationConfig.set_mat_1_cp
  else if String.eqb arg "--mat1_rho" then Some SimulationConfig.set_mat_1_rho
  else if String.eqb arg "--mat1_Tmelt" then Some SimulationConfig.set_mat_1_T_melt
  else if String.eqb arg "--mat2_k" then Some SimulationConfig.set_mat_2_k
  else if String.eqb arg "--mat2_cp" then Some SimulationConfig.set_mat_2_cp
  else if String.eqb arg "--mat2_rho" then Some SimulationConfig.set_mat_2_rho
  else if String.eqb arg "--mat2_Tmelt" then Some SimulationConfig.set_mat_2_T_melt
  else None.

(** The loop [for (int i = 1; i < argc; ++i)] over [argv[1..]]; an option
    that takes a value is recognised only when a value follows
    ([i + 1 < argc]). *)
Fixpoint parse_arguments (args : list string) (config : SimulationConfig.t)
    : parse_result :=
  match args with
  | [] => Parsed config
  | arg :: rest =>
    if String.eqb arg "--help" then Return 0
    else
      match String.eqb arg "--weld_process", rest with
      | true, value :: rest' =>
          let config := SimulationConfig.set_weld_process config value in
          if negb (String.eqb value "TIG") && negb (String.eqb value "Electrode")
          then Return 1
          else parse_arguments rest' config
      | _, _ =>
        if String.eqb arg "--use_gas"
        then parse_arguments rest (SimulationConfig.set_use_gas config true)
        else if String.eqb arg "--no-gas"
        then parse_arguments rest (SimulationConfig.set_use_gas config false)
        else
          match numeric_option arg, rest with
          | Some assign, value :: rest' =>
              match stod value with
              | Some x => parse_arguments rest' (assign config x)
              | None => Uncaught
              end
          | _, _ =>
            if String.eqb arg "--save_video"
            then parse_arguments rest (SimulationConfig.set_save_video_frames config true)
            else
              match String.eqb arg "--video_fps", rest with
              | true, value :: rest' =>
                  match stoi value with
                  | Some n =>
                      parse_arguments rest'
                        (SimulationConfig.set_video_frames_per_second config n)
                  | None => Uncaught
                  end
              | _, _ => Return 1
              end
          end
      end
  end.

(** How [main] ends. *)
Inductive main_result : Type :=
  | Exit (code : Z)
  | Terminate
  | Simulated (final : run_state)
  | Caught
  | Undefined.

(** [main(argc, argv)] with [args = argv[1..]]: the argument loop, then the
    construction and the run inside the [try] block. *)
Definition main (args : list string) : main_result :=
  match parse_arguments args SimulationConfig.default with
  | Return code => Exit code
  | Uncaught => Terminate
  | Parsed config =>
      match construct config with
      | Constructed sim => Simulated (run sim)
      | ThrowsLengthError => Caught
      | UndefinedBehaviour => Undefined
      end
  end.

End Arguments.

End WeldMain.

(** ** cpp-weld: [TIGSimulator] *)

Module TIG.

(** [struct TIGConfig] (main.cpp). *)
Module TIGConfig.
Record t : Type := mk {
  Lx : R; Ly : R; thickness : R; nx : Z; ny : Z;
  mat_1_rho : R; mat_1_cp : R; mat_1_k : R; mat_1_T_melt : R; mat_1_T_crit : R;
  mat_2_rho : R; mat_2_cp : R; mat_2_k : R; mat_2_T_melt : R; mat_2_T_crit : R;
  V : R; I : R; eta : R; v_weld : R; x_start : R; y_arc : R;
  a : R; b : R; cf : R; cr : R; ff : R; fr : R;
  T0 : R; dt : R; theta : R; output_interval : Z; frame_interval : Z
}.

Definition default : t := {|
  Lx := 0.15; Ly := 0.10; thickness := 0.006; nx := 151; ny := 101;
  mat_1_rho := 7850.0; mat_1_cp := 500.0; mat_1_k := 45.0;
  mat_1_T_melt := 1811.0; mat_1_T_crit := 1273.0;
  mat_2_rho := 7900.0; mat_2_cp := 500.0; mat_2_k := 16.3;
  mat_2_T_melt := 1723.0; mat_2_T_crit := 1273.0;
  V := 25.0; I := 150.0; eta := 0.75; v_weld := 0.006; x_start := 0.02;
  y_arc := 0.0;
  a := 0.004; b := 0.003; cf := 0.003; cr := 0.008; ff := 0.6; fr := 1.4;
  T0 := 293.0; dt := 0.02; theta := 0.5;
  output_interval := 50; frame_interval := 10
|}.
End TIGConfig.

Definition get_k (T k_base T_crit T_melt : R) : R :=
  if Rlt_dec T T_crit then k_base
  else if Rlt_dec T T_melt then k_base * (1.0 + (T - T_crit) / (T_melt - T_crit) * 0.1)
  else k_base * 1.1.

Definition get_cp (T cp_base T_crit T_melt : R) : R :=
  if Rlt_dec T T_crit then cp_base
  else if Rlt_dec T T_melt then cp_base * (1.0 + (T - T_crit) / (T_melt - T_crit) * 0.2)
  else cp_base * 1.2.

Definition get_rho (T rho_base T_crit T_melt : R) : R :=
  if Rlt_dec T T_crit then rho_base
  else if Rlt_dec T T_melt then rho_base * (1.0 - (T - T_crit) / (T_melt - T_crit) * 0.05)
  else rho_base * 0.95.

(** [goldak_heat_flux]: the flux at offsets [xi], [eta] from the arc. *)
Definition goldak_flux (Q a b cf cr ff fr : R) (xi eta : R) : R :=
  let b_sq := b * b in
  let cf_sq := cf * cf in
  let cr_sq := cr * cr in
  let SQRT_PI := sqrt PI in
  let coeff_f := (6.0 * ff * Q) / (a * b * cf * PI * SQRT_PI) in
  let coeff_r := (6.0 * fr * Q) / (a * b * cr * PI * SQRT_PI) in
  let eta_sq := eta * eta in
  if Rge_dec xi 0 then
    coeff_f * exp (- 3.0 * (xi * xi / cf_sq + eta_sq / b_sq))
  else
    coeff_r * exp (- 3.0 * (xi * xi / cr_sq + eta_sq / b_sq)).

(** [goldak_heat_flux(X, Y, x_arc, y_arc, Q, a, b, cf, cr, ff, fr, nx, ny, q)]. *)
Definition goldak_heat_flux (X Y : list R) (x_arc y_arc Q a b cf cr ff fr : R)
    (nx ny : Z) (q : list R) : list R :=
  for_range 0 ny
    (λ j q,
       for_range 0 nx
         (λ i q,
            let idx := (j * nx + i)%Z in
            let xi := vec_get X idx - x_arc in
            let eta := vec_get Y idx - y_arc in
            vec_set q idx (goldak_flux Q a b cf cr ff fr xi eta))
         q)
    q.

(** The private members of [class TIGSimulator] ([frame_steps] is left out). *)
Record TIGSimulator : Type := mkSim {
  config : TIGConfig.t;
  N : Z; dx : R; dy : R; midpoint : R;
  X : list R; Y : list R;
  T : list R; T_max : list R;
  q_surf : list R; Q_vol : list R;
  k_arr : list R; cp_arr : list R; rho_arr : list R; alpha_arr : list R
}.

Definition set_source (s : TIGSimulator) (q Qv : list R) : TIGSimulator :=
  mkSim (config s) (N s) (dx s) (dy s) (midpoint s) (X s) (Y s) (T s) (T_max s)
        q Qv (k_arr s) (cp_arr s) (rho_arr s) (alpha_arr s).

Definition set_props (s : TIGSimulator) (k cp rho alpha : list R) : TIGSimulator :=
  mkSim (config s) (N s) (dx s) (dy s) (midpoint s) (X s) (Y s) (T s) (T_max s)
        (q_surf s) (Q_vol s) k cp rho alpha.

Definition set_fields (s : TIGSimulator) (T T_max : list R) : TIGSimulator :=
  mkSim (config s) (N s) (dx s) (dy s) (midpoint s) (X s) (Y s) T T_max
        (q_surf s) (Q_vol s) (k_arr s) (cp_arr s) (rho_arr s) (alpha_arr s).

Inductive ctor_result : Type :=
  | Constructed (sim : TIGSimulator)
  | ThrowsLengthError.

(** [TIGSimulator::TIGSimulator].  [resize] with a negative size throws
    [std::length_error].  The product [nx * ny] is computed in [Z]: where it
    leaves the range of [int] the code overflows, and the outcome given here
    does not describe it.  [tig_well_posed] below excludes these
    configurations. *)
Definition construct (cfg : TIGConfig.t) : ctor_result :=
  let nx := TIGConfig.nx cfg in
  let ny := TIGConfig.ny cfg in
  let N := (nx * ny)%Z in
  let dx := TIGConfig.Lx cfg / IZR (nx - 1) in
  let dy := TIGConfig.Ly cfg / IZR (ny - 1) in
  let midpoint := TIGConfig.Lx cfg / 2.0 in
  if (N <? 0)%Z then ThrowsLengthError
  else
    let XY :=
      for_range 0 ny
        (λ j XY,
           for_range 0 nx
             (λ i XY,
                let idx := (j * nx + i)%Z in
                (vec_set XY.1 idx (IZR i * dx),
                 vec_set XY.2 idx (- TIGConfig.Ly cfg / 2.0 + IZR j * dy)))
             XY)
        (vec_make N 0, vec_make N 0) in
    Constructed
      (mkSim cfg N dx dy midpoint XY.1 XY.2
             (vec_make N (TIGConfig.T0 cfg)) (vec_make N (TIGConfig.T0 cfg))
             (vec_make N 0.0) (vec_make N 0.0)
             (vec_make N 0) (vec_make N 0) (vec_make N 0) (vec_make N 0)).

(** [compute_material_properties]: the loop writes the four property arrays
    and reads [X], [T] and the configuration, which it does not change. *)
Definition compute_material_properties (s : TIGSimulator) : TIGSimulator :=
  let c := config s in
  for_range 0 (N s)
    (λ idx s',
       let x := vec_get (X s) idx in
       let temp := vec_get (T s) idx in
       let k_val :=
         if Rlt_dec x (midpoint s)
         then get_k temp (TIGConfig.mat_1_k c) (TIGConfig.mat_1_T_crit c) (TIGConfig.mat_1_T_melt c)
         else get_k temp (TIGConfig.mat_2_k c) (TIGConfig.mat_2_T_crit c) (TIGConfig.mat_2_T_melt c) in
       let cp_val :=
         if Rlt_dec x (midpoint s)
         then get_cp temp (TIGConfig.mat_1_cp c) (TIGConfig.mat_1_T_crit c) (TIGConfig.mat_1_T_melt c)
         else get_cp temp (TIGConfig.mat_2_cp c) (TIGConfig.mat_2_T_crit c) (TIGConfig.mat_2_T_melt c) in
       let rho_val :=
         if Rlt_dec x (midpoint s)
         then get_rho temp (TIGConfig.mat_1_rho c) (TIGConfig.mat_1_T_crit c) (TIGConfig.mat_1_T_melt c)
         else get_rho temp (TIGConfig.mat_2_rho c) (TIGConfig.mat_2_T_crit c) (TIGConfig.mat_2_T_melt c) in
       set_props s'
         (vec_set (k_arr s') idx k_val)
         (vec_set (cp_arr s') idx cp_val)
         (vec_set (rho_arr s') idx rho_val)
         (vec_set (alpha_arr s') idx (k_val / (rho_val * cp_val))))
    s.

(** [apply_heat_source(t)]: the new object and the arguments [x_arc] of the
    calls of [goldak_heat_flux] made on the way. *)
Definition apply_heat_source (s : TIGSimulator) (t : R) : TIGSimulator * list R :=
  let c := config s in
  let x_arc := TIGConfig.x_start c + TIGConfig.v_weld c * t in
  if Rle_dec x_arc (TIGConfig.Lx c) then
    let Q_total := TIGConfig.eta c * TIGConfig.V c * TIGConfig.I c in
    let q := goldak_heat_flux (X s) (Y s) x_arc (TIGConfig.y_arc c) Q_total
               (TIGConfig.a c) (TIGConfig.b c) (TIGConfig.cf c) (TIGConfig.cr c)
               (TIGConfig.ff c) (TIGConfig.fr c) (TIGConfig.nx c) (TIGConfig.ny c)
               (q_surf s) in
    (set_source s q
       (for_range 0 (N s) (λ i Qv, vec_set Qv i (vec_get q i)) (Q_vol s)),
     [x_arc])
  else
    (set_source s (q_surf s)
       (for_range 0 (N s) (λ i Qv, vec_set Qv i 0.0) (Q_vol s)),
     []).

(** The value assigned to [T_new[idx]] in the interior loop nest of
    [time_step_explicit]. *)
Definition interior_update (s : TIGSimulator) (idx : Z) : R :=
  let nx := TIGConfig.nx (config s) in
  let idx_xp := (idx + 1)%Z in
  let idx_xm := (idx - 1)%Z in
  let idx_yp := (idx + nx)%Z in
  let idx_ym := (idx - nx)%Z in
  let alpha := vec_get (alpha_arr s) idx in
  let d2Tdx2 := (vec_get (T s) idx_xp - 2.0 * vec_get (T s) idx + vec_get (T s) idx_xm)
                / (dx s * dx s) in
  let d2Tdy2 := (vec_get (T s) idx_yp - 2.0 * vec_get (T s) idx + vec_get (T s) idx_ym)
                / (dy s * dy s) in
  let heat_source := vec_get (Q_vol s) idx
                     / (vec_get (rho_arr s) idx * vec_get (cp_arr s) idx) in
  vec_get (T s) idx + TIGConfig.dt (config s) * (alpha * (d2Tdx2 + d2Tdy2) + heat_source).

(** The three loops of [time_step_explicit] that fill [T_new]. *)
Definition interior_sweep (s : TIGSimulator) (T_new : list R) : list R :=
  let nx := TIGConfig.nx (config s) in
  let ny := TIGConfig.ny (config s) in
  for_range 1 (ny - 1)
    (λ j T_new,
       for_range 1 (nx - 1)
         (λ i T_new, let idx := (j * nx + i)%Z in vec_set T_new idx (interior_update s idx))
         T_new)
    T_new.

Definition boundary_rows (s : TIGSimulator) (T_new : list R) : list R :=
  let nx := TIGConfig.nx (config s) in
  let ny := TIGConfig.ny (config s) in
  let T0 := TIGConfig.T0 (config s) in
  for_range 0 nx
    (λ i T_new, vec_set (vec_set T_new i T0) ((ny - 1) * nx + i) T0)
    T_new.

Definition boundary_columns (s : TIGSimulator) (T_new : list R) : list R :=
  let nx := TIGConfig.nx (config s) in
  let ny := TIGConfig.ny (config s) in
  let T0 := TIGConfig.T0 (config s) in
  for_range 0 ny
    (λ j T_new, vec_set (vec_set T_new (j * nx) T0) (j * nx + nx - 1) T0)
    T_new.

(** The last loop of [time_step_explicit]: copy [T_new] into [T] and raise
    [T_max] where the new temperature exceeds it. *)
Definition commit (N : Z) (T_new : list R) (TT : list R * list R) : list R * list R :=
  for_range 0 N
    (λ i TT,
       let T := vec_set TT.1 i (vec_get T_new i) in
       if Rgt_dec (vec_get T i) (vec_get TT.2 i)
       then (T, vec_set TT.2 i (vec_get T i))
       else (T, TT.2))
    TT.

(** [time_step_explicit]. *)
Definition time_step_explicit (s : TIGSimulator) : TIGSimulator :=
  let T_new := vec_make (N s) 0 in
  let T_new := interior_sweep s T_new in
  let T_new := boundary_rows s T_new in
  let T_new := boundary_columns s T_new in
  let TT := commit (N s) T_new (T s, T_max s) in
  set_fields s TT.1 TT.2.

(** The state carried round the loop of [run_simulation]. *)
Record run_state : Type := mkRun { run_sim : TIGSimulator; run_calls : list R }.

(** Iteration number [step] of [for (int step = 1; step <= nt; step++)]. *)
Definition run_iteration (step : Z) (st : run_state) : run_state :=
  let s := run_sim st in
  let t := IZR step * TIGConfig.dt (config s) in
  let sc := apply_heat_source s t in
  let s := compute_material_properties sc.1 in
  let s := time_step_explicit s in
  mkRun s (run_calls st ++ sc.2).

(** The state after the first [n] iterations of the loop. *)
Fixpoint run_steps (n : nat) (st : run_state) : run_state :=
  match n with
  | O => st
  | S n => run_iteration (Z.of_nat (S n)) (run_steps n st)
  end.

Definition number_of_steps (c : TIGConfig.t) : Z :=
  let t_end := (TIGConfig.Lx c - TIGConfig.x_start c) / TIGConfig.v_weld c + 10.0 in
  ceil_int (t_end / TIGConfig.dt c).

(** [run_simulation], up to the end of the time loop. *)
Definition run_simulation (s : TIGSimulator) : run_state :=
  run_steps (Z.to_nat (number_of_steps (config s))) (mkRun s []).

End TIG.

(** * cpp-weld-2: the outputs of [run]

    The parts of [WeldingSimulation] that observe the fields: the monitoring
    probes, the schedule of the video frames and of the snapshot, the progress
    lines, the zone classifier and the printed statistics.  A file written by
    [exportVideoFrame] or [exportResults] is represented by the call and its
    arguments. *)

(** [static_cast<int>] of a [double]: truncation towards zero. *)
Definition trunc_int (x : R) : Z :=
  if Rle_dec 0 x then (up x - 1)%Z else ceil_int x.

(** [a < b], [a > b], [a >= b] on [double] as values of type [bool]. *)
Definition Rltb (a b : R) : bool := if Rlt_dec a b then true else false.
Definition Rgtb (a b : R) : bool := if Rgt_dec a b then true else false.
Definition Rgeb (a b : R) : bool := if Rge_dec a b then true else false.

Module WeldOutput.
Import Weld.

(** [setupMonitoringPoints]: the three probes [monitor_pts_], which no other
    member function writes. *)
Definition setupMonitoringPoints (nx ny : Z) : list (Z * Z) :=
  [ (trunc_int (IZR nx * 0.35), Z.quot ny 2);
    (Z.quot nx 2, Z.quot ny 2);
    (trunc_int (IZR nx * 0.65), Z.quot ny 2) ].

(** The monitoring members [T_history_] and [time_history_]. *)
Record monitoring : Type := mkMonitoring {
  T_history_ : list (list R);
  time_history_ : list R
}.

(** [setupMonitoringPoints]: [T_history_.resize(monitor_pts_.size())]. *)
Definition monitoring_init (nx ny : Z) : monitoring :=
  mkMonitoring (replicate (length (setupMonitoringPoints nx ny)) []) [].

(** [updateMonitoring(t)]. *)
Definition updateMonitoring (sim : WeldingSimulation) (m : monitoring) (t : R)
    : monitoring :=
  let monitor_pts := setupMonitoringPoints (nx_ sim) (ny_ sim) in
  mkMonitoring
    (for_range 0 (Z.of_nat (length monitor_pts))
       (λ k T_history,
          let pt := default (0%Z, 0%Z) (monitor_pts !! Z.to_nat k) in
          let index := idx (nx_ sim) pt.1 pt.2 in
          alter (λ h, h ++ [vec_get (T_ sim) index]) (Z.to_nat k) T_history)
       (T_history_ m))
    (time_history_ m ++ [t]).

(** The calls that leave the process during [run]. *)
Inductive event : Type :=
  | ExportVideoFrame (frame_number : Z) (current_time : R)
  | ExportSnapshot (seconds : Z)
  | Progress (percent : Z).

(** The local variables of [run] and the members it changes. *)
Record driver : Type := mkDriver {
  drv_state : run_state;
  drv_monitoring : monitoring;
  snapshot_taken : bool;
  frame_counter : Z;
  drv_events : list event
}.

(** The value of [frame_interval] when the loop of [run] starts. *)
Definition frame_interval (c : SimulationConfig.t) : Z :=
  if SimulationConfig.save_video_frames c
     && (0 <? SimulationConfig.video_frames_per_second c)%Z
  then
    let time_per_frame := 1.0 / IZR (SimulationConfig.video_frames_per_second c) in
    Z.max 1 (trunc_int (time_per_frame / SimulationConfig.dt c))
  else 1%Z.

(** Iteration number [step] of the loop of [run].  The progress test
    evaluates [step % (nt_ / 10)], which is undefined when [nt_ / 10] is
    zero: the iteration then has no result.  The clock [t] is the exact sum
    of the steps; the code accumulates it in [double], so where
    [t >= snapshot_time] holds with equality here the code can take the
    snapshot one step later. *)
Definition run_iteration (step : Z) (st : driver) : option driver :=
  let rs := Weld.run_iteration (drv_state st) in
  let sim := run_sim rs in
  let t := run_t rs in
  let c := config_ sim in
  let nt := nt_ sim in
  let mon := updateMonitoring sim (drv_monitoring st) t in
  let save :=
    SimulationConfig.save_video_frames c
    && ((Z.rem step (frame_interval c) =? 0)%Z || (step =? nt)%Z) in
  let frames := if save then [ExportVideoFrame (frame_counter st) t] else [] in
  let counter := if save then (frame_counter st + 1)%Z else frame_counter st in
  let snap :=
    Rgtb (SimulationConfig.snapshot_time c) 0
    && Rgeb t (SimulationConfig.snapshot_time c)
    && negb (snapshot_taken st) in
  let snaps := if snap then [ExportSnapshot (trunc_int t)] else [] in
  let taken := if snap then true else snapshot_taken st in
  if (Z.quot nt 10 =? 0)%Z then None
  else
    let progress :=
      if ((Z.rem step (Z.quot nt 10) =? 0)%Z || (step =? nt)%Z)
      then [Progress (Z.quot (100 * step) nt)] else [] in
    Some (mkDriver rs mon taken counter (drv_events st ++ frames ++ snaps ++ progress)).

(** The first [n] iterations of the loop. *)
Fixpoint run_steps (n : nat) (st : driver) : option driver :=
  match n with
  | O => Some st
  | S n =>
      match run_steps n st with
      | Some st => run_iteration (Z.of_nat (S n)) st
      | None => None
      end
  end.

(** [WeldingSimulation::run], up to the end of the time loop. *)
Definition run (sim : WeldingSimulation) : option driver :=
  run_steps (Z.to_nat (nt_ sim))
    (mkDriver (mkRun 0.0 sim []) (monitoring_init (nx_ sim) (ny_ sim)) false 0 []).

End WeldOutput.

(** * Zones and statistics *)

(** [*std::max_element(first, last)]: the first largest element; dereferencing
    the result is undefined on an empty range. *)
Definition max_element (v : list R) : option R :=
  match v with
  | [] => None
  | x :: v => Some (foldl (λ largest y, if Rlt_dec largest y then y else largest) x v)
  end.

(** [std::count(first, last, true)] on a [std::vector<bool>]. *)
Definition count_true (v : list bool) : Z :=
  foldl (λ n (b : bool), if b then (n + 1)%Z else n) 0%Z v.

Module WeldStats.
Import Weld.

(** [computeZones(fusion_zone, HAZ_zone)] called on two empty vectors, with
    [threads] threads in the team of its [#pragma omp parallel for].  Each
    iteration assigns one element of each [std::vector<bool>], that is one
    bit of a word that holds the flags of its neighbours as well; iterations
    run by different threads write such a word without synchronisation,
    which is a data race, and the program has no defined result.  A team of
    one thread runs the iterations in the order of the indices. *)
Definition computeZones (threads : Z) (sim : WeldingSimulation)
    : option (list bool * list bool) :=
  if (threads =? 1)%Z then
    Some (for_range 0 (N_ sim)
            (λ idx z,
               (<[Z.to_nat idx := Rgeb (vec_get (T_max_ sim) idx) (T_melt_ sim)]> z.1,
                <[Z.to_nat idx := Rgeb (vec_get (T_max_ sim) idx) (T_crit_ sim)
                                  && Rltb (vec_get (T_max_ sim) idx) (T_melt_ sim)]> z.2))
            (replicate (Z.to_nat (N_ sim)) false, replicate (Z.to_nat (N_ sim)) false))
  else None.

(** The three numbers that [printStatistics] prints. *)
Record statistics : Type := mkStatistics {
  T_peak : R; fusion_area_mm2 : R; HAZ_area_mm2 : R
}.

(** [printStatistics], with [threads] threads in the team of
    [computeZones]. *)
Definition printStatistics (threads : Z) (sim : WeldingSimulation) : option statistics :=
  match max_element (T_max_ sim) with
  | None => None
  | Some T_peak =>
      match computeZones threads sim with
      | None => None
      | Some zones =>
          let fusion_count := count_true zones.1 in
          let HAZ_count := count_true zones.2 in
          let cell_area := dx_ sim * dy_ sim in
          let fusion_area := IZR fusion_count * cell_area in
          let HAZ_area := IZR HAZ_count * cell_area in
          Some (mkStatistics T_peak (fusion_area * 1e6) (HAZ_area * 1e6))
      end
  end.

End WeldStats.

Module TIGStats.
Import TIG.

(** The two counters of [analyze_results] after the loop. *)
Definition zone_counts (s : TIGSimulator) (T_melt T_crit : R) : Z * Z :=
  for_range 0 (N s)
    (λ i c,
       if Rge_dec (vec_get (T_max s) i) T_melt then ((c.1 + 1)%Z, c.2)
       else if Rge_dec (vec_get (T_max s) i) T_crit then (c.1, (c.2 + 1)%Z)
       else c)
    (0%Z, 0%Z).

(** The numbers that [analyze_results] prints. *)
Record analysis : Type := mkAnalysis {
  peak_temp : R; peak_celsius : R;
  fusion_area_mm2 : R; haz_area_mm2 : R; total_area_mm2 : R
}.

(** [analyze_results]. *)
Definition analyze_results (s : TIGSimulator) : option analysis :=
  let c := config s in
  let T_melt := (TIGConfig.mat_1_T_melt c + TIGConfig.mat_2_T_melt c) / 2.0 in
  let T_crit := (TIGConfig.mat_1_T_crit c + TIGConfig.mat_2_T_crit c) / 2.0 in
  match max_element (T_max s) with
  | None => None
  | Some peak_temp =>
      let counts := zone_counts s T_melt T_crit in
      let cell_area := dx s * dy s in
      let fusion_area := IZR counts.1 * cell_area in
      let haz_area := IZR counts.2 * cell_area in
      Some (mkAnalysis peak_temp (peak_temp - 273.15)
              (fusion_area * 1e6) (haz_area * 1e6) ((fusion_area + haz_area) * 1e6))
  end.

End TIGStats.

(** * cpp-weld: the frames and the progress lines of [run_simulation] *)

Module TIGOutput.
Import TIG.

(** The calls that leave the process during the loop of [run_simulation]. *)
Inductive event : Type :=
  | SaveFrame (step : Z) (t : R)
  | ProgressLine (step : Z) (t x_arc T_max_current : R).

(** The state of the loop: the simulator, the member [frame_steps] and the
    calls made so far. *)
Record driver : Type := mkDriver {
  drv_state : run_state;
  frame_steps : list Z;
  drv_events : list event
}.

(** Iteration number [step] of the loop with [nt] steps.  [step %
    config.frame_interval] and [step % config.output_interval] are undefined
    for a zero interval, and so is [*std::max_element] on an empty [T]: the
    iteration then has no result. *)
Definition run_iteration (nt step : Z) (st : driver) : option driver :=
  let rs := TIG.run_iteration step (drv_state st) in
  let s := run_sim rs in
  let c := config s in
  let t := IZR step * TIGConfig.dt c in
  if (TIGConfig.frame_interval c =? 0)%Z then None
  else
    let save := ((Z.rem step (TIGConfig.frame_interval c) =? 0)%Z || (step =? nt)%Z) in
    let frames := if save then [SaveFrame step t] else [] in
    let steps := if save then frame_steps st ++ [step] else frame_steps st in
    if (TIGConfig.output_interval c =? 0)%Z then None
    else if ((Z.rem step (TIGConfig.output_interval c) =? 0)%Z || (step =? nt)%Z) then
      let x_arc := TIGConfig.x_start c + TIGConfig.v_weld c * t in
      match max_element (T s) with
      | None => None
      | Some T_max_current =>
          Some (mkDriver rs steps
                  (drv_events st ++ frames ++ [ProgressLine step t x_arc T_max_current]))
      end
    else Some (mkDriver rs steps (drv_events st ++ frames)).

(** The first [n] iterations of the loop. *)
Fixpoint run_steps (nt : Z) (n : nat) (st : driver) : option driver :=
  match n with
  | O => Some st
  | S n =>
      match run_steps nt n st with
      | Some st => run_iteration nt (Z.of_nat (S n)) st
      | None => None
      end
  end.

(** [run_simulation], up to the end of the time loop. *)
Definition run_simulation (s : TIGSimulator) : option driver :=
  let nt := number_of_steps (config s) in
  run_steps nt (Z.to_nat nt) (mkDriver (mkRun s []) [] []).

End TIGOutput.

(** * Properties *)

(** ** Loops that write one cell per iteration *)

Section WriteLoops.
Context {K : Type} (ix : K → nat) (v : K → R).

Definition write_all (s : list R) (keys : list K) : list R :=
  foldl (λ s k, <[ix k := v k]> s) s keys.

Lemma write_all_length s keys : length (write_all s keys) = length s.
Proof.
  unfold write_all. revert s.
  induction keys as [|k keys IH]; intros s; simpl; [done|].
  by rewrite IH, length_insert.
Qed.

Lemma write_all_other s keys n :
  (∀ k, k ∈ keys → ix k ≠ n) → write_all s keys !! n = s !! n.
Proof.
  unfold write_all. revert s.
  induction keys as [|k keys IH]; intros s Hn; simpl; [done|].
  rewrite IH by (intros k' Hk'; apply Hn; by right).
  apply list_lookup_insert_ne, Hn. by left.
Qed.

Lemma write_all_at s keys k :
  k ∈ keys → (ix k < length s)%nat →
  (∀ k', k' ∈ keys → ix k' = ix k → v k' = v k) →
  write_all s keys !! ix k = Some (v k).
Proof.
  unfold write_all. revert s.
  induction keys as [|k0 keys IH] using rev_ind; intros s Hin Hlt Hv.
  - by apply elem_of_nil in Hin.
  - rewrite foldl_snoc.
    destruct (decide (ix k0 = ix k)) as [Heq|Hne].
    + rewrite Heq, (Hv k0) by (done || (apply elem_of_app; right; by left)).
      apply list_lookup_insert_eq.
      fold (write_all s keys). by rewrite write_all_length.
    + rewrite list_lookup_insert_ne by done.
      apply elem_of_app in Hin as [Hin|Hin].
      * apply IH; [done..|]. intros k' Hk'. apply Hv, elem_of_app. by left.
      * apply list_elem_of_singleton in Hin. congruence.
Qed.
End WriteLoops.

(** The index pairs [(j, i)] visited by a loop nest over rows [j] and columns
    [i], in program order. *)
Definition cells (nx ny : Z) : list (Z * Z) :=
  j ← seqZ 0 ny; (λ i, (j, i)) <$> seqZ 0 nx.

Lemma elem_of_cells nx ny j i :
  (j, i) ∈ cells nx ny ↔ (0 ≤ j < ny)%Z ∧ (0 ≤ i < nx)%Z.
Proof.
  unfold cells. rewrite list_elem_of_bind. split.
  - intros (j' & Hi & Hj). apply list_elem_of_fmap in Hi as (i' & Heq & Hi).
    inversion Heq; subst. apply elem_of_seqZ in Hi, Hj. lia.
  - intros [Hj Hi]. exists j. split.
    + apply list_elem_of_fmap. exists i. split; [done|]. apply elem_of_seqZ. lia.
    + apply elem_of_seqZ. lia.
Qed.

Lemma for_range_nest {S : Type} (f : Z → Z → S → S) (nx ny : Z) (s : S) :
  for_range 0 ny (λ j s, for_range 0 nx (λ i s, f i j s) s) s
  = foldl (λ s p, f p.2 p.1 s) s (cells nx ny).
Proof.
  unfold for_range, cells. rewrite !Z.sub_0_r. revert s.
  induction (seqZ 0 ny) as [|j js IH]; intros s; simpl; [done|].
  rewrite foldl_app, foldl_fmap. simpl. apply IH.
Qed.

(** Row-major indexing is injective on the grid. *)
Lemma idx_inj nx i j i' j' :
  (0 ≤ i < nx)%Z → (0 ≤ i' < nx)%Z → (0 ≤ j)%Z → (0 ≤ j')%Z →
  Z.to_nat (Weld.idx nx i j) = Z.to_nat (Weld.idx nx i' j') → i = i' ∧ j = j'.
Proof.
  unfold Weld.idx. intros Hi Hi' Hj Hj' Heq.
  assert (j * nx + i = j' * nx + i')%Z as Heq' by nia.
  assert (j = j') by nia. subst. lia.
Qed.

Lemma idx_bound nx ny i j :
  (0 ≤ i < nx)%Z → (0 ≤ j < ny)%Z →
  (Z.to_nat (Weld.idx nx i j) < Z.to_nat (nx * ny))%nat.
Proof. unfold Weld.idx. intros Hi Hj. nia. Qed.

(** A loop nest that writes [g i j] to cell [idx nx i j]. *)
Lemma nest_write_lookup (g : Z → Z → R) (nx ny : Z) (s : list R) i j :
  length s = Z.to_nat (nx * ny) → (0 ≤ i < nx)%Z → (0 ≤ j < ny)%Z →
  for_range 0 ny
    (λ j s, for_range 0 nx (λ i s, vec_set s (Weld.idx nx i j) (g i j)) s) s
  !! Z.to_nat (Weld.idx nx i j) = Some (g i j).
Proof.
  intros Hlen Hi Hj.
  rewrite (for_range_nest (λ i j s, vec_set s (Weld.idx nx i j) (g i j))).
  unfold vec_set.
  change (foldl _ s (cells nx ny))
    with (write_all (λ p : Z * Z, Z.to_nat (Weld.idx nx p.2 p.1))
                    (λ p, g p.2 p.1) s (cells nx ny)).
  apply (write_all_at (λ p : Z * Z, Z.to_nat (Weld.idx nx p.2 p.1))
                      (λ p, g p.2 p.1) s (cells nx ny) (j, i)).
  - by apply elem_of_cells.
  - simpl. rewrite Hlen. by apply idx_bound.
  - intros [j' i'] Hin Heq. simpl in *. apply elem_of_cells in Hin.
    apply idx_inj in Heq as [-> ->]; [done|lia..].
Qed.

Lemma nest_write_length (g : Z → Z → R) (nx ny : Z) (s : list R) :
  length
    (for_range 0 ny
       (λ j s, for_range 0 nx (λ i s, vec_set s (Weld.idx nx i j) (g i j)) s) s)
  = length s.
Proof.
  rewrite (for_range_nest (λ i j s, vec_set s (Weld.idx nx i j) (g i j))).
  unfold vec_set.
  apply (write_all_length (λ p : Z * Z, Z.to_nat (Weld.idx nx p.2 p.1))
                          (λ p, g p.2 p.1)).
Qed.

(** A loop that rewrites every cell [i] of a vector from its own old value. *)
Lemma for_range_update_lookup (h : Z → R → R) (N : Z) (s : list R) (n : nat) :
  for_range 0 N (λ i s, vec_set s i (h i (vec_get s i))) s !! n
  = if decide (Z.of_nat n < N)%Z then h (Z.of_nat n) <$> s !! n else s !! n.
Proof.
  unfold for_range. rewrite Z.sub_0_r.
  destruct (Z_lt_le_dec N 0) as [Hneg|Hpos].
  { rewrite seqZ_nil by lia. simpl. case_decide; [lia|done]. }
  rewrite <- (Z2Nat.id N) by done. generalize (Z.to_nat N) as m. clear.
  intros m. revert n. induction m as [|m IH]; intros n.
  { simpl. case_decide; [lia|done]. }
  rewrite seqZ_S, foldl_snoc, Z.add_0_l.
  set (s' := foldl _ s _) in *. unfold vec_set, vec_get.
  rewrite Nat2Z.id.
  destruct (decide (n = m)) as [->|Hne].
  - rewrite decide_True by lia.
    rewrite IH, decide_False by lia.
    destruct (s !! m) as [x|] eqn:Hx; simpl.
    + apply list_lookup_insert_eq.
      apply lookup_lt_is_Some. rewrite IH, decide_False, Hx by lia. eauto.
    + rewrite list_insert_ge; [by rewrite IH, decide_False by lia|].
      apply lookup_ge_None. by rewrite IH, decide_False by lia.
  - rewrite list_lookup_insert_ne, IH by done.
    repeat case_decide; done || lia.
Qed.

Lemma std_min_spec_top a b : std_min a b = Rmin a b.
Proof. unfold std_min, Rmin. destruct (Rlt_dec b a), (Rle_dec a b); lra. Qed.

Lemma for_range_update_length (h : Z → R → R) (N : Z) (s : list R) :
  length (for_range 0 N (λ i s, vec_set s i (h i (vec_get s i))) s) = length s.
Proof.
  unfold for_range. generalize (seqZ 0 (N - 0)) as l. intros l. revert s.
  induction l as [|i l IH]; intros s; simpl; [done|].
  rewrite IH. apply length_insert.
Qed.

(** A loop over a compound state, seen through one of its components. *)
Lemma for_range_proj {S S' : Type} (proj : S → S') (body : Z → S → S)
    (body' : Z → S' → S') (lo hi : Z) (s : S) :
  (∀ i s, proj (body i s) = body' i (proj s)) →
  proj (for_range lo hi body s) = for_range lo hi body' (proj s).
Proof.
  intros Hb. unfold for_range. generalize (seqZ lo (hi - lo)) as l. intros l.
  revert s. induction l as [|i l IH]; intros s; simpl; [done|].
  by rewrite IH, Hb.
Qed.

Lemma vec_get_lookup (v : list R) (i : Z) (x : R) :
  v !! Z.to_nat i = Some x → vec_get v i = x.
Proof. unfold vec_get. by intros ->. Qed.

Lemma lookup_vec_make (n : Z) (x : R) (i : nat) :
  (Z.of_nat i < n)%Z → vec_make n x !! i = Some x.
Proof. intros Hi. unfold vec_make. apply lookup_replicate_2. lia. Qed.

Lemma length_vec_make (n : Z) (x : R) : length (vec_make n x) = Z.to_nat n.
Proof. apply length_replicate. Qed.

(** A loop that writes [g i] to every cell [i] below [N]. *)
Lemma for_range_write_lookup (g : Z → R) (N : Z) (s : list R) (i : Z) :
  (0 ≤ i < N)%Z → (Z.to_nat i < length s)%nat →
  for_range 0 N (λ i s, vec_set s i (g i)) s !! Z.to_nat i = Some (g i).
Proof.
  intros Hi Hlen.
  rewrite (for_range_update_lookup (λ i _, g i) N s (Z.to_nat i)).
  rewrite decide_True by lia. rewrite Z2Nat.id by lia.
  apply lookup_lt_is_Some in Hlen as [x ->]. done.
Qed.

(** ** [WeldingSimulation]: what the loops of one step compute *)

Module WeldFacts.
Import Weld.

(** The class invariant on the sizes, established by the constructor and kept
    by every step. *)
Record sizes_ok (sim : WeldingSimulation) : Prop := {
  sizes_N : N_ sim = (nx_ sim * ny_ sim)%Z;
  sizes_T : length (T_ sim) = Z.to_nat (N_ sim);
  sizes_T_max : length (T_max_ sim) = Z.to_nat (N_ sim)
}.

Lemma sweep_length sim p Qvol : length (sweep sim p Qvol) = Z.to_nat (N_ sim).
Proof.
  unfold sweep.
  rewrite (nest_write_length (cell_value sim p Qvol)). apply length_vec_make.
Qed.

Lemma sweep_lookup sim p Qvol i j :
  N_ sim = (nx_ sim * ny_ sim)%Z →
  (0 ≤ i < nx_ sim)%Z → (0 ≤ j < ny_ sim)%Z →
  sweep sim p Qvol !! Z.to_nat (idx (nx_ sim) i j) = Some (cell_value sim p Qvol i j).
Proof.
  intros HN Hi Hj. unfold sweep.
  apply (nest_write_lookup (cell_value sim p Qvol)); [|done..].
  by rewrite length_vec_make, HN.
Qed.

Lemma update_T_max_lookup N T T_max (n : nat) :
  update_T_max N T T_max !! n
  = if decide (Z.of_nat n < N)%Z
    then (λ m, std_max m (vec_get T (Z.of_nat n))) <$> T_max !! n
    else T_max !! n.
Proof.
  unfold update_T_max.
  apply (for_range_update_lookup (λ i m, std_max m (vec_get T i))).
Qed.

Lemma update_T_max_length N T T_max :
  length (update_T_max N T T_max) = length T_max.
Proof.
  unfold update_T_max.
  apply (for_range_update_length (λ i m, std_max m (vec_get T i))).
Qed.

Lemma solveTimeStep_T sim t Qvol :
  T_ (solveTimeStep sim t Qvol)
  = sweep sim (computeMaterialProperties sim (T_ sim)) Qvol.
Proof. done. Qed.

Lemma solveTimeStep_T_max sim t Qvol :
  T_max_ (solveTimeStep sim t Qvol)
  = update_T_max (N_ sim) (T_ (solveTimeStep sim t Qvol)) (T_max_ sim).
Proof. done. Qed.

Lemma solveTimeStep_sizes sim t Qvol :
  sizes_ok sim → sizes_ok (solveTimeStep sim t Qvol).
Proof.
  intros [HN HT HM]. split; simpl; [done| |].
  - apply sweep_length.
  - by rewrite update_T_max_length.
Qed.

(** The three property arrays hold the material law of the owning material
    at the temperature of the same cell. *)
Lemma computeMaterialProperties_k sim T_vec index :
  (0 ≤ index < N_ sim)%Z →
  vec_get (k_arr (computeMaterialProperties sim T_vec)) index
  = Material.get_k (material_at sim index) (vec_get T_vec index).
Proof.
  intros Hi. apply vec_get_lookup. unfold computeMaterialProperties.
  rewrite (for_range_proj k_arr _
    (λ index s, vec_set s index
       (Material.get_k (material_at sim index) (vec_get T_vec index)))) by done.
  apply (for_range_write_lookup
    (λ index, Material.get_k (material_at sim index) (vec_get T_vec index)));
    [done|]. simpl. rewrite length_vec_make. lia.
Qed.

Lemma computeMaterialProperties_cp sim T_vec index :
  (0 ≤ index < N_ sim)%Z →
  vec_get (cp_arr (computeMaterialProperties sim T_vec)) index
  = Material.get_cp (material_at sim index) (vec_get T_vec index).
Proof.
  intros Hi. apply vec_get_lookup. unfold computeMaterialProperties.
  rewrite (for_range_proj cp_arr _
    (λ index s, vec_set s index
       (Material.get_cp (material_at sim index) (vec_get T_vec index)))) by done.
  apply (for_range_write_lookup
    (λ index, Material.get_cp (material_at sim index) (vec_get T_vec index)));
    [done|]. simpl. rewrite length_vec_make. lia.
Qed.

Lemma computeMaterialProperties_rho sim T_vec index :
  (0 ≤ index < N_ sim)%Z →
  vec_get (rho_arr (computeMaterialProperties sim T_vec)) index
  = Material.get_rho (material_at sim index) (vec_get T_vec index).
Proof.
  intros Hi. apply vec_get_lookup. unfold computeMaterialProperties.
  rewrite (for_range_proj rho_arr _
    (λ index s, vec_set s index
       (Material.get_rho (material_at sim index) (vec_get T_vec index)))) by done.
  apply (for_range_write_lookup
    (λ index, Material.get_rho (material_at sim index) (vec_get T_vec index)));
    [done|]. simpl. rewrite length_vec_make. lia.
Qed.

End WeldFacts.

(** ** [WeldingSimulation]: the constructor and the time loop *)

Module WeldRun.
Import Weld WeldFacts.

Lemma construct_inv config sim :
  construct config = Constructed sim →
  (2 ≤ SimulationConfig.nx config)%Z ∧ (2 ≤ SimulationConfig.ny config)%Z ∧
  nx_ sim = SimulationConfig.nx config ∧ ny_ sim = SimulationConfig.ny config ∧
  N_ sim = (SimulationConfig.nx config * SimulationConfig.ny config)%Z ∧
  config_ sim = SimulationConfig.set_eta config (adjust_efficiency config).1 ∧
  T_ sim = vec_make (N_ sim) (SimulationConfig.T0 config) ∧
  T_max_ sim = vec_make (N_ sim) (SimulationConfig.T0 config).
Proof.
  unfold construct.
  destruct (_ || _)%Z eqn:Hneg; [done|].
  destruct ((SimulationConfig.nx config <? 2)%Z || _) eqn:Hsmall; [done|].
  intros [= <-]. simpl.
  apply orb_false_iff in Hsmall as [?%Z.ltb_ge ?%Z.ltb_ge]. done.
Qed.

Lemma construct_sizes config sim :
  construct config = Constructed sim → sizes_ok sim.
Proof.
  intros (_ & _ & Hnx & Hny & HN & _ & HT & HM)%construct_inv.
  split.
  - by rewrite HN, Hnx, Hny.
  - rewrite HT. apply length_vec_make.
  - rewrite HM. apply length_vec_make.
Qed.

(** Nothing but the two temperature fields changes in a step. *)
Lemma solveTimeStep_frame sim t Qvol :
  config_ (solveTimeStep sim t Qvol) = config_ sim ∧
  nx_ (solveTimeStep sim t Qvol) = nx_ sim ∧
  ny_ (solveTimeStep sim t Qvol) = ny_ sim ∧
  N_ (solveTimeStep sim t Qvol) = N_ sim ∧
  X_ (solveTimeStep sim t Qvol) = X_ sim ∧
  Y_ (solveTimeStep sim t Qvol) = Y_ sim ∧
  Q_total_ (solveTimeStep sim t Qvol) = Q_total_ sim.
Proof. done. Qed.

Lemma run_steps_frame n st :
  config_ (run_sim (run_steps n st)) = config_ (run_sim st) ∧
  nx_ (run_sim (run_steps n st)) = nx_ (run_sim st) ∧
  ny_ (run_sim (run_steps n st)) = ny_ (run_sim st) ∧
  N_ (run_sim (run_steps n st)) = N_ (run_sim st) ∧
  X_ (run_sim (run_steps n st)) = X_ (run_sim st) ∧
  Y_ (run_sim (run_steps n st)) = Y_ (run_sim st) ∧
  Q_total_ (run_sim (run_steps n st)) = Q_total_ (run_sim st).
Proof. induction n as [|n IH]; [done|]. simpl. apply IH. Qed.

Lemma run_steps_sizes n st :
  sizes_ok (run_sim st) → sizes_ok (run_sim (run_steps n st)).
Proof.
  intros H. induction n as [|n IH]; [done|].
  simpl. by apply solveTimeStep_sizes.
Qed.

(** Every cell of the new field is the value computed for it by the loop
    nest. *)
Lemma step_cell sim t Qvol i j :
  sizes_ok sim → (0 ≤ i < nx_ sim)%Z → (0 ≤ j < ny_ sim)%Z →
  T_ (solveTimeStep sim t Qvol) !! Z.to_nat (idx (nx_ sim) i j)
  = Some (cell_value sim (computeMaterialProperties sim (T_ sim)) Qvol i j).
Proof. intros [HN _ _] Hi Hj. rewrite solveTimeStep_T. by apply sweep_lookup. Qed.

Lemma isBoundary_false nx ny i j :
  isBoundary nx ny i j = false ↔ (i ≠ 0 ∧ i ≠ nx - 1 ∧ j ≠ 0 ∧ j ≠ ny - 1)%Z.
Proof. unfold isBoundary. rewrite !orb_false_iff, !Z.eqb_neq. tauto. Qed.

Lemma isBoundary_true nx ny i j :
  isBoundary nx ny i j = true ↔ (i = 0 ∨ i = nx - 1 ∨ j = 0 ∨ j = ny - 1)%Z.
Proof. unfold isBoundary. rewrite !orb_true_iff, !Z.eqb_eq. tauto. Qed.

Lemma step_boundary sim t Qvol i j :
  sizes_ok sim → (0 ≤ i < nx_ sim)%Z → (0 ≤ j < ny_ sim)%Z →
  isBoundary (nx_ sim) (ny_ sim) i j = true →
  T_ (solveTimeStep sim t Qvol) !! Z.to_nat (idx (nx_ sim) i j)
  = Some (SimulationConfig.T0 (config_ sim)).
Proof.
  intros Hs Hi Hj Hb. rewrite step_cell by done. unfold cell_value. by rewrite Hb.
Qed.

Lemma step_interior sim t Qvol i j :
  sizes_ok sim → (0 < i < nx_ sim - 1)%Z → (0 < j < ny_ sim - 1)%Z →
  T_ (solveTimeStep sim t Qvol) !! Z.to_nat (idx (nx_ sim) i j)
  = Some (clamp (SimulationConfig.T0 (config_ sim))
            (interior_update sim (computeMaterialProperties sim (T_ sim)) Qvol i j)).
Proof.
  intros Hs Hi Hj. rewrite step_cell by (done || lia). unfold cell_value.
  assert (isBoundary (nx_ sim) (ny_ sim) i j = false) as ->; [|done].
  apply isBoundary_false. lia.
Qed.

(** The clamp. *)
Lemma clamp_cases T0 v :
  (T_MAX_REASONABLE < v ∧ clamp T0 v = T_MAX_REASONABLE) ∨
  (v <= T_MAX_REASONABLE ∧ v < T0 ∧ clamp T0 v = T0) ∨
  (T0 <= v <= T_MAX_REASONABLE ∧ clamp T0 v = v).
Proof.
  unfold clamp. destruct (Rgt_dec v _); [left; done|].
  destruct (Rlt_dec v T0); [right; left|right; right]; repeat split; lra.
Qed.

Lemma clamp_range T0 v :
  T0 <= T_MAX_REASONABLE → T0 <= clamp T0 v <= T_MAX_REASONABLE.
Proof. intros H. destruct (clamp_cases T0 v) as [[? ->]|[(? & ? & ->)|[? ->]]]; lra. Qed.

Lemma std_max_spec a b : std_max a b = Rmax a b.
Proof.
  unfold std_max, Rmax. destruct (Rlt_dec a b), (Rle_dec a b); lra.
Qed.

Lemma std_min_spec a b : std_min a b = Rmin a b.
Proof.
  unfold std_min, Rmin. destruct (Rlt_dec b a), (Rle_dec a b); lra.
Qed.

(** One step on the running peak. *)
Lemma step_T_max sim t Qvol (n : nat) m :
  sizes_ok sim → (Z.of_nat n < N_ sim)%Z → T_max_ sim !! n = Some m →
  ∃ x, T_ (solveTimeStep sim t Qvol) !! n = Some x ∧
       T_max_ (solveTimeStep sim t Qvol) !! n = Some (Rmax m x).
Proof.
  intros [HN HT HM] Hn Hm.
  assert (is_Some (T_ (solveTimeStep sim t Qvol) !! n)) as [x Hx].
  { apply lookup_lt_is_Some. rewrite solveTimeStep_T, sweep_length. lia. }
  exists x. split; [done|].
  rewrite solveTimeStep_T_max, update_T_max_lookup, decide_True, Hm by done.
  unfold vec_get. rewrite Nat2Z.id, Hx. simpl. by rewrite std_max_spec.
Qed.

End WeldRun.

(** ** Loops of [TIGSimulator] *)

Lemma for_range_nest_from {S : Type} (f : Z → Z → S → S) (li hi lj hj : Z) (s : S) :
  for_range lj hj (λ j s, for_range li hi (λ i s, f i j s) s) s
  = foldl (λ s p, f p.2 p.1 s) s
      (j ← seqZ lj (hj - lj); (λ i, (j, i)) <$> seqZ li (hi - li)).
Proof.
  unfold for_range. revert s.
  induction (seqZ lj (hj - lj)) as [|j js IH]; intros s; simpl; [done|].
  rewrite foldl_app, foldl_fmap. simpl. apply IH.
Qed.

Lemma for_range_id {S : Type} (lo hi : Z) (s : S) : for_range lo hi (λ _ s, s) s = s.
Proof. unfold for_range. induction (seqZ lo (hi - lo)); simpl; done. Qed.

Lemma for_range_proj_inv {S S' : Type} (Inv : S → Prop) (proj : S → S')
    (body : Z → S → S) (body' : Z → S' → S') (lo hi : Z) (s : S) :
  (∀ i s, (lo ≤ i < hi)%Z → Inv s →
          Inv (body i s) ∧ proj (body i s) = body' i (proj s)) →
  Inv s →
  Inv (for_range lo hi body s) ∧
  proj (for_range lo hi body s) = for_range lo hi body' (proj s).
Proof.
  intros Hb. unfold for_range.
  assert (Forall (λ i, lo ≤ i < hi)%Z (seqZ lo (hi - lo))) as Hall.
  { apply Forall_seqZ. lia. }
  revert s. induction Hall as [|i l Hi _ IH]; intros s Hs; simpl; [done|].
  destruct (Hb i s Hi Hs) as [Hs' Hp]. rewrite <- Hp. by apply IH.
Qed.

Lemma vec_set_same (v : list R) (i : Z) : vec_set v i (vec_get v i) = v.
Proof.
  unfold vec_set, vec_get. destruct (v !! Z.to_nat i) as [x|] eqn:Hx; simpl.
  - by apply list_insert_id.
  - apply list_insert_ge. by apply lookup_ge_None.
Qed.

Lemma vec_get_set (v : list R) (i : Z) (x : R) :
  (Z.to_nat i < length v)%nat → vec_get (vec_set v i x) i = x.
Proof.
  intros Hi. unfold vec_get, vec_set. by rewrite list_lookup_insert_eq.
Qed.

(** Loops that write one constant to two cells per iteration. *)
Section TwoWrites.
Context {K : Type} (ix1 ix2 : K → nat) (c : R).

Definition write_two (s : list R) (keys : list K) : list R :=
  foldl (λ s k, <[ix2 k := c]> (<[ix1 k := c]> s)) s keys.

Lemma write_two_length s keys : length (write_two s keys) = length s.
Proof.
  unfold write_two. revert s.
  induction keys as [|k keys IH]; intros s; simpl; [done|].
  by rewrite IH, !length_insert.
Qed.

Lemma write_two_keep s keys n :
  s !! n = Some c → write_two s keys !! n = Some c.
Proof.
  unfold write_two. revert s.
  induction keys as [|k keys IH]; intros s Hn; simpl; [done|].
  apply IH.
  assert (∀ (l : list R) m, l !! n = Some c → <[m := c]> l !! n = Some c) as Hw.
  { intros l m Hl. destruct (decide (m = n)) as [->|Hne].
    - apply list_lookup_insert_eq. by apply lookup_lt_is_Some_1.
    - by rewrite list_lookup_insert_ne. }
  by apply Hw, Hw.
Qed.

Lemma write_two_hit s keys n k :
  k ∈ keys → ix1 k = n ∨ ix2 k = n → (n < length s)%nat →
  write_two s keys !! n = Some c.
Proof.
  revert s. induction keys as [|k0 keys IH]; intros s Hin Hhit Hlen.
  { by apply elem_of_nil in Hin. }
  apply elem_of_cons in Hin as [->|Hin].
  - simpl. apply write_two_keep.
    destruct (decide (ix2 k0 = n)) as [<-|Hne].
    + apply list_lookup_insert_eq. by rewrite length_insert.
    + rewrite list_lookup_insert_ne by done.
      destruct Hhit as [<-|?]; [|done]. by apply list_lookup_insert_eq.
  - simpl. apply IH; [done..|]. by rewrite !length_insert.
Qed.

Lemma write_two_miss s keys n :
  (∀ k, k ∈ keys → ix1 k ≠ n ∧ ix2 k ≠ n) → write_two s keys !! n = s !! n.
Proof.
  unfold write_two. revert s.
  induction keys as [|k keys IH]; intros s Hn; simpl; [done|].
  rewrite IH by (intros k' Hk'; apply Hn; by right).
  destruct (Hn k) as [H1 H2]; [by left|].
  by rewrite !list_lookup_insert_ne.
Qed.
End TwoWrites.

Module TIGFacts.
Import TIG.

(** The sizes of the member arrays, established by the constructor and kept by
    every member function. *)
Record sizes_ok (s : TIGSimulator) : Prop := {
  sizes_N : N s = (TIGConfig.nx (config s) * TIGConfig.ny (config s))%Z;
  sizes_T : length (T s) = Z.to_nat (N s);
  sizes_T_max : length (T_max s) = Z.to_nat (N s);
  sizes_q_surf : length (q_surf s) = Z.to_nat (N s);
  sizes_Q_vol : length (Q_vol s) = Z.to_nat (N s);
  sizes_k : length (k_arr s) = Z.to_nat (N s);
  sizes_cp : length (cp_arr s) = Z.to_nat (N s);
  sizes_rho : length (rho_arr s) = Z.to_nat (N s);
  sizes_alpha : length (alpha_arr s) = Z.to_nat (N s)
}.

(** *** [time_step_explicit] *)

Definition T_new_of (s : TIGSimulator) : list R :=
  boundary_columns s (boundary_rows s (interior_sweep s (vec_make (N s) 0))).

Lemma interior_sweep_length s v : length (interior_sweep s v) = length v.
Proof.
  unfold interior_sweep.
  rewrite (for_range_nest_from
    (λ i j T_new,
       vec_set T_new (j * TIGConfig.nx (config s) + i)
         (interior_update s (j * TIGConfig.nx (config s) + i)))).
  unfold vec_set.
  apply (write_all_length
    (λ p : Z * Z, Z.to_nat (p.1 * TIGConfig.nx (config s) + p.2))
    (λ p, interior_update s (p.1 * TIGConfig.nx (config s) + p.2))).
Qed.

Lemma interior_sweep_lookup s v i j :
  length v = Z.to_nat (TIGConfig.nx (config s) * TIGConfig.ny (config s)) →
  (0 < i < TIGConfig.nx (config s) - 1)%Z →
  (0 < j < TIGConfig.ny (config s) - 1)%Z →
  interior_sweep s v !! Z.to_nat (j * TIGConfig.nx (config s) + i)
  = Some (interior_update s (j * TIGConfig.nx (config s) + i)).
Proof.
  intros Hlen Hi Hj. unfold interior_sweep.
  rewrite (for_range_nest_from
    (λ i j T_new,
       vec_set T_new (j * TIGConfig.nx (config s) + i)
         (interior_update s (j * TIGConfig.nx (config s) + i)))).
  unfold vec_set. set (nx := TIGConfig.nx (config s)) in *.
  set (ny := TIGConfig.ny (config s)) in *.
  apply (write_all_at
    (λ p : Z * Z, Z.to_nat (p.1 * nx + p.2))
    (λ p, interior_update s (p.1 * nx + p.2)) v _ (j, i)).
  - apply list_elem_of_bind. exists j. split.
    + apply list_elem_of_fmap. exists i. split; [done|]. apply elem_of_seqZ. lia.
    + apply elem_of_seqZ. lia.
  - simpl. rewrite Hlen. apply (idx_bound nx ny i j); lia.
  - intros [j' i'] Hin Heq. simpl in *.
    apply list_elem_of_bind in Hin as (j'' & Hi' & Hj').
    apply list_elem_of_fmap in Hi' as (i'' & [= -> ->] & Hi').
    apply elem_of_seqZ in Hi', Hj'.
    apply (idx_inj nx i'' j'' i j) in Heq as [-> ->]; [done|lia..].
Qed.

Lemma boundary_rows_eq s v :
  boundary_rows s v
  = write_two (λ i : Z, Z.to_nat i)
      (λ i : Z, Z.to_nat ((TIGConfig.ny (config s) - 1) * TIGConfig.nx (config s) + i))
      (TIGConfig.T0 (config s)) v (seqZ 0 (TIGConfig.nx (config s) - 0)).
Proof. done. Qed.

Lemma boundary_columns_eq s v :
  boundary_columns s v
  = write_two (λ j : Z, Z.to_nat (j * TIGConfig.nx (config s)))
      (λ j : Z, Z.to_nat (j * TIGConfig.nx (config s) + TIGConfig.nx (config s) - 1))
      (TIGConfig.T0 (config s)) v (seqZ 0 (TIGConfig.ny (config s) - 0)).
Proof. done. Qed.

Lemma T_new_of_length s : length (T_new_of s) = Z.to_nat (N s).
Proof.
  unfold T_new_of.
  rewrite boundary_columns_eq, write_two_length.
  rewrite boundary_rows_eq, write_two_length.
  rewrite interior_sweep_length. apply length_vec_make.
Qed.

Lemma T_new_of_boundary s i j :
  N s = (TIGConfig.nx (config s) * TIGConfig.ny (config s))%Z →
  (0 ≤ i < TIGConfig.nx (config s))%Z → (0 ≤ j < TIGConfig.ny (config s))%Z →
  (i = 0 ∨ i = TIGConfig.nx (config s) - 1 ∨
   j = 0 ∨ j = TIGConfig.ny (config s) - 1)%Z →
  T_new_of s !! Z.to_nat (j * TIGConfig.nx (config s) + i)
  = Some (TIGConfig.T0 (config s)).
Proof.
  intros HN Hi Hj Hb. unfold T_new_of.
  set (nx := TIGConfig.nx (config s)) in *.
  set (ny := TIGConfig.ny (config s)) in *.
  assert (Z.to_nat (j * nx + i) < Z.to_nat (N s))%nat as Hlt.
  { rewrite HN. apply (idx_bound nx ny i j); lia. }
  destruct (decide (i = 0 ∨ i = nx - 1)%Z) as [Hcol|Hncol].
  - rewrite boundary_columns_eq.
    apply (write_two_hit _ _ _ _ _ _ j).
    + apply elem_of_seqZ. fold ny. lia.
    + fold nx. destruct Hcol as [->| ->]; [left|right]; f_equal; lia.
    + rewrite boundary_rows_eq, write_two_length, interior_sweep_length,
        length_vec_make. done.
  - rewrite boundary_columns_eq. apply write_two_keep.
    rewrite boundary_rows_eq.
    apply (write_two_hit _ _ _ _ _ _ i).
    + apply elem_of_seqZ. fold nx. lia.
    + fold nx ny. destruct Hb as [?|[?|[->| ->]]]; [lia|lia|left|right]; f_equal; lia.
    + by rewrite interior_sweep_length, length_vec_make.
Qed.

Lemma T_new_of_interior s i j :
  N s = (TIGConfig.nx (config s) * TIGConfig.ny (config s))%Z →
  (0 < i < TIGConfig.nx (config s) - 1)%Z →
  (0 < j < TIGConfig.ny (config s) - 1)%Z →
  T_new_of s !! Z.to_nat (j * TIGConfig.nx (config s) + i)
  = Some (interior_update s (j * TIGConfig.nx (config s) + i)).
Proof.
  intros HN Hi Hj. unfold T_new_of.
  rewrite boundary_columns_eq, write_two_miss.
  - rewrite boundary_rows_eq, write_two_miss.
    + apply interior_sweep_lookup; [|done..]. by rewrite length_vec_make, HN.
    + intros i' Hi'%elem_of_seqZ.
      set (nx := TIGConfig.nx (config s)) in *.
      set (ny := TIGConfig.ny (config s)) in *.
      split; intros Heq.
      * replace i' with (Weld.idx nx i' 0) in Heq at 1 by (unfold Weld.idx; lia).
        apply (idx_inj nx i' 0 i j) in Heq; lia.
      * apply (idx_inj nx i' (ny - 1) i j) in Heq; lia.
  - intros j' Hj'%elem_of_seqZ.
    set (nx := TIGConfig.nx (config s)) in *.
    set (ny := TIGConfig.ny (config s)) in *.
    split; intros Heq.
    + replace (j' * nx)%Z with (Weld.idx nx 0 j') in Heq by (unfold Weld.idx; lia).
      apply (idx_inj nx 0 j' i j) in Heq; lia.
    + replace (j' * nx + nx - 1)%Z with (Weld.idx nx (nx - 1) j') in Heq
        by (unfold Weld.idx; lia).
      apply (idx_inj nx (nx - 1) j' i j) in Heq; lia.
Qed.

End TIGFacts.

Module TIGRun.
Import TIG TIGFacts.

(** *** The last loop of [time_step_explicit] *)

Lemma commit_T N T_new T T_max :
  (commit N T_new (T, T_max)).1
  = for_range 0 N (λ i T, vec_set T i (vec_get T_new i)) T.
Proof.
  unfold commit.
  apply (for_range_proj fst _ (λ i T, vec_set T i (vec_get T_new i))).
  intros i TT. by destruct (Rgt_dec _ _).
Qed.

Lemma commit_T_max N T_new T T_max :
  (Z.to_nat N ≤ length T)%nat →
  (commit N T_new (T, T_max)).2
  = for_range 0 N
      (λ i T_max,
         vec_set T_max i
           (if Rgt_dec (vec_get T_new i) (vec_get T_max i)
            then vec_get T_new i else vec_get T_max i))
      T_max.
Proof.
  intros Hlen. unfold commit.
  apply (for_range_proj_inv (λ TT, Z.to_nat N ≤ length TT.1)%nat snd); [|done].
  intros i TT Hi HTT. simpl.
  rewrite vec_get_set by lia.
  destruct (Rgt_dec _ _); simpl.
  - split; [|done]. unfold vec_set. by rewrite length_insert.
  - split; [|by rewrite vec_set_same]. unfold vec_set. by rewrite length_insert.
Qed.

Lemma commit_T_lookup N T_new T T_max (n : nat) x :
  (Z.of_nat n < N)%Z → (n < length T)%nat → T_new !! n = Some x →
  (commit N T_new (T, T_max)).1 !! n = Some x.
Proof.
  intros Hn Hlen Hx. rewrite commit_T.
  rewrite <- (Nat2Z.id n) at 1.
  rewrite (for_range_write_lookup (λ i, vec_get T_new i)) by lia.
  unfold vec_get. by rewrite Nat2Z.id, Hx.
Qed.

Lemma commit_T_max_lookup N T_new T T_max (n : nat) x m :
  (Z.of_nat n < N)%Z → (Z.to_nat N ≤ length T)%nat →
  T_new !! n = Some x → T_max !! n = Some m →
  (commit N T_new (T, T_max)).2 !! n = Some (Rmax m x).
Proof.
  intros Hn Hlen Hx Hm. rewrite commit_T_max by done.
  rewrite (for_range_update_lookup
    (λ i m, if Rgt_dec (vec_get T_new i) m then vec_get T_new i else m)).
  rewrite decide_True, Hm by done. simpl. unfold vec_get.
  rewrite Nat2Z.id, Hx. simpl. f_equal.
  unfold Rmax. destruct (Rgt_dec x m), (Rle_dec m x); lra.
Qed.

Lemma commit_lengths N T_new T T_max :
  length (commit N T_new (T, T_max)).1 = length T ∧
  length (commit N T_new (T, T_max)).2 = length T_max.
Proof.
  unfold commit, for_range. generalize (seqZ 0 (N - 0)) as l. intros l.
  revert T T_max. induction l as [|i l IH]; intros T T_max; simpl; [done|].
  destruct (Rgt_dec _ _).
  - destruct (IH (vec_set T i (vec_get T_new i))
                 (vec_set T_max i (vec_get (vec_set T i (vec_get T_new i)) i)))
      as [-> ->].
    unfold vec_set. by rewrite !length_insert.
  - destruct (IH (vec_set T i (vec_get T_new i)) T_max) as [-> ->].
    unfold vec_set. by rewrite !length_insert.
Qed.

(** *** One call of [time_step_explicit] *)

Lemma time_step_T s (n : nat) x :
  sizes_ok s → (Z.of_nat n < N s)%Z → T_new_of s !! n = Some x →
  T (time_step_explicit s) !! n = Some x.
Proof.
  intros Hs Hn Hx. unfold time_step_explicit. simpl.
  apply commit_T_lookup; [done| |done]. rewrite (sizes_T s Hs). lia.
Qed.

Lemma time_step_T_max s (n : nat) x m :
  sizes_ok s → (Z.of_nat n < N s)%Z → T_new_of s !! n = Some x →
  T_max s !! n = Some m →
  T_max (time_step_explicit s) !! n = Some (Rmax m x).
Proof.
  intros Hs Hn Hx Hm. unfold time_step_explicit. simpl.
  apply commit_T_max_lookup; [done| |done..]. by rewrite (sizes_T s Hs).
Qed.

Lemma time_step_sizes s : sizes_ok s → sizes_ok (time_step_explicit s).
Proof.
  intros [HN HT HM Hq HQ Hk Hcp Hrho Ha].
  unfold time_step_explicit.
  destruct (commit_lengths (N s) (boundary_columns s (boundary_rows s
              (interior_sweep s (vec_make (N s) 0)))) (T s) (T_max s)) as [H1 H2].
  split; simpl; congruence.
Qed.

Lemma time_step_boundary s i j :
  sizes_ok s →
  (0 ≤ i < TIGConfig.nx (config s))%Z → (0 ≤ j < TIGConfig.ny (config s))%Z →
  (i = 0 ∨ i = TIGConfig.nx (config s) - 1 ∨
   j = 0 ∨ j = TIGConfig.ny (config s) - 1)%Z →
  T (time_step_explicit s) !! Z.to_nat (j * TIGConfig.nx (config s) + i)
  = Some (TIGConfig.T0 (config s)).
Proof.
  intros Hs Hi Hj Hb. apply time_step_T; [done| |].
  - rewrite (sizes_N s Hs). nia.
  - apply T_new_of_boundary; [apply Hs|done..].
Qed.

Lemma time_step_interior s i j :
  sizes_ok s →
  (0 < i < TIGConfig.nx (config s) - 1)%Z →
  (0 < j < TIGConfig.ny (config s) - 1)%Z →
  T (time_step_explicit s) !! Z.to_nat (j * TIGConfig.nx (config s) + i)
  = Some (interior_update s (j * TIGConfig.nx (config s) + i)).
Proof.
  intros Hs Hi Hj. apply time_step_T; [done| |].
  - rewrite (sizes_N s Hs). nia.
  - apply T_new_of_interior; [apply Hs|done..].
Qed.

End TIGRun.

Module TIGSteps.
Import TIG TIGFacts TIGRun.

(** *** [compute_material_properties] *)

Definition k_of (s : TIGSimulator) (idx : Z) : R :=
  let c := config s in
  if Rlt_dec (vec_get (X s) idx) (midpoint s)
  then get_k (vec_get (T s) idx) (TIGConfig.mat_1_k c) (TIGConfig.mat_1_T_crit c)
             (TIGConfig.mat_1_T_melt c)
  else get_k (vec_get (T s) idx) (TIGConfig.mat_2_k c) (TIGConfig.mat_2_T_crit c)
             (TIGConfig.mat_2_T_melt c).

Definition cp_of (s : TIGSimulator) (idx : Z) : R :=
  let c := config s in
  if Rlt_dec (vec_get (X s) idx) (midpoint s)
  then get_cp (vec_get (T s) idx) (TIGConfig.mat_1_cp c) (TIGConfig.mat_1_T_crit c)
              (TIGConfig.mat_1_T_melt c)
  else get_cp (vec_get (T s) idx) (TIGConfig.mat_2_cp c) (TIGConfig.mat_2_T_crit c)
              (TIGConfig.mat_2_T_melt c).

Definition rho_of (s : TIGSimulator) (idx : Z) : R :=
  let c := config s in
  if Rlt_dec (vec_get (X s) idx) (midpoint s)
  then get_rho (vec_get (T s) idx) (TIGConfig.mat_1_rho c) (TIGConfig.mat_1_T_crit c)
               (TIGConfig.mat_1_T_melt c)
  else get_rho (vec_get (T s) idx) (TIGConfig.mat_2_rho c) (TIGConfig.mat_2_T_crit c)
               (TIGConfig.mat_2_T_melt c).

(** The members that [compute_material_properties] leaves alone. *)
Definition fixed_part (s : TIGSimulator) :=
  (config s, N s, dx s, dy s, midpoint s, X s, Y s, T s, T_max s, q_surf s, Q_vol s).

Lemma compute_material_properties_frame s :
  fixed_part (compute_material_properties s) = fixed_part s.
Proof.
  unfold compute_material_properties.
  rewrite (for_range_proj fixed_part _ (λ _ x, x)) by done.
  apply for_range_id.
Qed.

Lemma compute_material_properties_fields s :
  let s' := compute_material_properties s in
  config s' = config s ∧ N s' = N s ∧ dx s' = dx s ∧ dy s' = dy s ∧
  X s' = X s ∧ Y s' = Y s ∧ T s' = T s ∧ T_max s' = T_max s ∧
  q_surf s' = q_surf s ∧ Q_vol s' = Q_vol s.
Proof.
  intros s'. pose proof (compute_material_properties_frame s) as H.
  unfold fixed_part in H. fold s' in H.
  injection H as -> -> -> -> _ -> -> -> -> -> ->. done.
Qed.

Lemma compute_material_properties_alpha s idx :
  (0 ≤ idx < N s)%Z → length (alpha_arr s) = Z.to_nat (N s) →
  vec_get (alpha_arr (compute_material_properties s)) idx
  = k_of s idx / (rho_of s idx * cp_of s idx).
Proof.
  intros Hi Hlen. apply vec_get_lookup. unfold compute_material_properties.
  rewrite (for_range_proj alpha_arr _
    (λ idx a, vec_set a idx (k_of s idx / (rho_of s idx * cp_of s idx)))) by done.
  apply (for_range_write_lookup
    (λ idx, k_of s idx / (rho_of s idx * cp_of s idx))); [done|lia].
Qed.

Lemma compute_material_properties_rho s idx :
  (0 ≤ idx < N s)%Z → length (rho_arr s) = Z.to_nat (N s) →
  vec_get (rho_arr (compute_material_properties s)) idx = rho_of s idx.
Proof.
  intros Hi Hlen. apply vec_get_lookup. unfold compute_material_properties.
  rewrite (for_range_proj rho_arr _ (λ idx a, vec_set a idx (rho_of s idx))) by done.
  apply (for_range_write_lookup (λ idx, rho_of s idx)); [done|lia].
Qed.

Lemma compute_material_properties_cp s idx :
  (0 ≤ idx < N s)%Z → length (cp_arr s) = Z.to_nat (N s) →
  vec_get (cp_arr (compute_material_properties s)) idx = cp_of s idx.
Proof.
  intros Hi Hlen. apply vec_get_lookup. unfold compute_material_properties.
  rewrite (for_range_proj cp_arr _ (λ idx a, vec_set a idx (cp_of s idx))) by done.
  apply (for_range_write_lookup (λ idx, cp_of s idx)); [done|lia].
Qed.

Lemma for_range_write_length (g : Z → R) (N : Z) (v : list R) :
  length (for_range 0 N (λ i v, vec_set v i (g i)) v) = length v.
Proof. apply (for_range_update_length (λ i _, g i)). Qed.

Lemma compute_material_properties_sizes s :
  sizes_ok s → sizes_ok (compute_material_properties s).
Proof.
  intros [HN HT HM Hq HQ Hk Hcp Hrho Ha].
  destruct (compute_material_properties_fields s)
    as (Hc & HN' & _ & _ & _ & _ & HT' & HM' & Hq' & HQ').
  split; rewrite ?Hc, ?HN', ?HT', ?HM', ?Hq', ?HQ'; try done.
  - unfold compute_material_properties.
    rewrite (for_range_proj k_arr _ (λ idx a, vec_set a idx (k_of s idx))) by done.
    by rewrite for_range_write_length.
  - unfold compute_material_properties.
    rewrite (for_range_proj cp_arr _ (λ idx a, vec_set a idx (cp_of s idx))) by done.
    by rewrite for_range_write_length.
  - unfold compute_material_properties.
    rewrite (for_range_proj rho_arr _ (λ idx a, vec_set a idx (rho_of s idx))) by done.
    by rewrite for_range_write_length.
  - unfold compute_material_properties.
    rewrite (for_range_proj alpha_arr _
      (λ idx a, vec_set a idx (k_of s idx / (rho_of s idx * cp_of s idx)))) by done.
    by rewrite for_range_write_length.
Qed.

(** *** [goldak_heat_flux] and [apply_heat_source] *)

Lemma goldak_heat_flux_lookup X Y x_arc y_arc Q a b cf cr ff fr nx ny q i j :
  length q = Z.to_nat (nx * ny) → (0 ≤ i < nx)%Z → (0 ≤ j < ny)%Z →
  goldak_heat_flux X Y x_arc y_arc Q a b cf cr ff fr nx ny q
    !! Z.to_nat (j * nx + i)
  = Some (goldak_flux Q a b cf cr ff fr
            (vec_get X (j * nx + i) - x_arc) (vec_get Y (j * nx + i) - y_arc)).
Proof.
  intros Hlen Hi Hj. unfold goldak_heat_flux.
  apply (nest_write_lookup
    (λ i j, goldak_flux Q a b cf cr ff fr
              (vec_get X (j * nx + i) - x_arc) (vec_get Y (j * nx + i) - y_arc))
    nx ny q i j); done.
Qed.

Lemma goldak_heat_flux_length X Y x_arc y_arc Q a b cf cr ff fr nx ny q :
  length (goldak_heat_flux X Y x_arc y_arc Q a b cf cr ff fr nx ny q) = length q.
Proof.
  unfold goldak_heat_flux.
  apply (nest_write_length
    (λ i j, goldak_flux Q a b cf cr ff fr
              (vec_get X (j * nx + i) - x_arc) (vec_get Y (j * nx + i) - y_arc))).
Qed.

Definition arc_position (s : TIGSimulator) (t : R) : R :=
  TIGConfig.x_start (config s) + TIGConfig.v_weld (config s) * t.

Definition Q_total (c : TIGConfig.t) : R :=
  TIGConfig.eta c * TIGConfig.V c * TIGConfig.I c.

(** The flux that [goldak_heat_flux] computes for cell [idx] of [s]. *)
Definition flux_at (s : TIGSimulator) (x_arc : R) (idx : Z) : R :=
  let c := config s in
  goldak_flux (Q_total c) (TIGConfig.a c) (TIGConfig.b c) (TIGConfig.cf c)
    (TIGConfig.cr c) (TIGConfig.ff c) (TIGConfig.fr c)
    (vec_get (X s) idx - x_arc) (vec_get (Y s) idx - TIGConfig.y_arc c).

Lemma apply_heat_source_off s t :
  TIGConfig.Lx (config s) < arc_position s t →
  (apply_heat_source s t).2 = [] ∧
  q_surf (apply_heat_source s t).1 = q_surf s ∧
  ∀ n : nat, (Z.of_nat n < N s)%Z → (n < length (Q_vol s))%nat →
             Q_vol (apply_heat_source s t).1 !! n = Some 0.
Proof.
  intros Hoff. unfold apply_heat_source. fold (arc_position s t).
  destruct (Rle_dec _ _) as [Hle|_]; [lra|]. simpl.
  split; [done|]. split; [done|]. intros n Hn Hlen.
  rewrite <- (Nat2Z.id n) at 1.
  rewrite (for_range_write_lookup (λ _, 0.0)) by lia. f_equal. lra.
Qed.

Lemma apply_heat_source_on s t i j :
  sizes_ok s → arc_position s t <= TIGConfig.Lx (config s) →
  (0 ≤ i < TIGConfig.nx (config s))%Z → (0 ≤ j < TIGConfig.ny (config s))%Z →
  let idx := (j * TIGConfig.nx (config s) + i)%Z in
  (apply_heat_source s t).2 = [arc_position s t] ∧
  q_surf (apply_heat_source s t).1 !! Z.to_nat idx
    = Some (flux_at s (arc_position s t) idx) ∧
  Q_vol (apply_heat_source s t).1 !! Z.to_nat idx
    = Some (flux_at s (arc_position s t) idx).
Proof.
  intros Hs Hon Hi Hj idx. unfold apply_heat_source. fold (arc_position s t).
  destruct (Rle_dec _ _) as [_|Hn]; [|lra]. simpl.
  assert (0 ≤ idx < N s)%Z as Hidx by (rewrite (sizes_N s Hs); unfold idx; nia).
  assert (goldak_heat_flux (X s) (Y s) (arc_position s t)
            (TIGConfig.y_arc (config s))
            (TIGConfig.eta (config s) * TIGConfig.V (config s) * TIGConfig.I (config s))
            (TIGConfig.a (config s)) (TIGConfig.b (config s))
            (TIGConfig.cf (config s)) (TIGConfig.cr (config s))
            (TIGConfig.ff (config s)) (TIGConfig.fr (config s))
            (TIGConfig.nx (config s)) (TIGConfig.ny (config s)) (q_surf s)
          !! Z.to_nat idx = Some (flux_at s (arc_position s t) idx)) as Hq.
  { apply goldak_heat_flux_lookup; [|done..].
    by rewrite (sizes_q_surf s Hs), (sizes_N s Hs). }
  split; [done|]. split; [done|].
  rewrite (for_range_write_lookup (λ i, vec_get _ i)); [|done|].
  - f_equal. by apply vec_get_lookup.
  - rewrite (sizes_Q_vol s Hs). lia.
Qed.

Lemma apply_heat_source_fields s t :
  let s' := (apply_heat_source s t).1 in
  config s' = config s ∧ N s' = N s ∧ dx s' = dx s ∧ dy s' = dy s ∧
  midpoint s' = midpoint s ∧ X s' = X s ∧ Y s' = Y s ∧ T s' = T s ∧
  T_max s' = T_max s ∧ k_arr s' = k_arr s ∧ cp_arr s' = cp_arr s ∧
  rho_arr s' = rho_arr s ∧ alpha_arr s' = alpha_arr s.
Proof. unfold apply_heat_source. by destruct (Rle_dec _ _). Qed.

Lemma apply_heat_source_sizes s t :
  sizes_ok s → sizes_ok (apply_heat_source s t).1.
Proof.
  intros [HN HT HM Hq HQ Hk Hcp Hrho Ha].
  unfold apply_heat_source. destruct (Rle_dec _ _); split; simpl; try done.
  - by rewrite goldak_heat_flux_length.
  - by rewrite for_range_write_length.
  - by rewrite (for_range_write_length (λ _, 0.0)).
Qed.

End TIGSteps.

(** ** Mesh construction *)

Lemma nest_pair_fst (gx gy : Z → Z → R) (nx ny : Z) (XY : list R * list R) :
  (for_range 0 ny
     (λ j XY,
        for_range 0 nx
          (λ i XY, (vec_set XY.1 (Weld.idx nx i j) (gx i j),
                    vec_set XY.2 (Weld.idx nx i j) (gy i j)))
          XY)
     XY).1
  = for_range 0 ny
      (λ j X, for_range 0 nx (λ i X, vec_set X (Weld.idx nx i j) (gx i j)) X) XY.1.
Proof.
  apply (for_range_proj fst). intros j XY'. by apply (for_range_proj fst).
Qed.

Lemma nest_pair_snd (gx gy : Z → Z → R) (nx ny : Z) (XY : list R * list R) :
  (for_range 0 ny
     (λ j XY,
        for_range 0 nx
          (λ i XY, (vec_set XY.1 (Weld.idx nx i j) (gx i j),
                    vec_set XY.2 (Weld.idx nx i j) (gy i j)))
          XY)
     XY).2
  = for_range 0 ny
      (λ j Y, for_range 0 nx (λ i Y, vec_set Y (Weld.idx nx i j) (gy i j)) Y) XY.2.
Proof.
  apply (for_range_proj snd). intros j XY'. by apply (for_range_proj snd).
Qed.

Module TIGCtor.
Import TIG TIGFacts TIGRun TIGSteps.

Lemma tig_construct_inv cfg s :
  construct cfg = Constructed s →
  config s = cfg ∧
  N s = (TIGConfig.nx cfg * TIGConfig.ny cfg)%Z ∧
  dx s = TIGConfig.Lx cfg / IZR (TIGConfig.nx cfg - 1) ∧
  dy s = TIGConfig.Ly cfg / IZR (TIGConfig.ny cfg - 1) ∧
  midpoint s = TIGConfig.Lx cfg / 2.0 ∧
  T s = vec_make (N s) (TIGConfig.T0 cfg) ∧
  T_max s = vec_make (N s) (TIGConfig.T0 cfg) ∧
  sizes_ok s ∧
  ∀ i j, (0 ≤ i < TIGConfig.nx cfg)%Z → (0 ≤ j < TIGConfig.ny cfg)%Z →
    X s !! Z.to_nat (j * TIGConfig.nx cfg + i) = Some (IZR i * dx s) ∧
    Y s !! Z.to_nat (j * TIGConfig.nx cfg + i)
      = Some (- TIGConfig.Ly cfg / 2.0 + IZR j * dy s).
Proof.
  unfold construct. destruct (_ <? 0)%Z eqn:Hneg; [done|].
  intros [= <-]. simpl.
  repeat (split; [done|]). split.
  { split; simpl; try done; apply length_vec_make. }
  intros i j Hi Hj.
  set (nx := TIGConfig.nx cfg). set (ny := TIGConfig.ny cfg).
  rewrite (nest_pair_fst
    (λ i j, IZR i * (TIGConfig.Lx cfg / IZR (nx - 1)))
    (λ i j, - TIGConfig.Ly cfg / 2.0 + IZR j * (TIGConfig.Ly cfg / IZR (ny - 1)))).
  rewrite (nest_pair_snd
    (λ i j, IZR i * (TIGConfig.Lx cfg / IZR (nx - 1)))
    (λ i j, - TIGConfig.Ly cfg / 2.0 + IZR j * (TIGConfig.Ly cfg / IZR (ny - 1)))).
  simpl. split.
  - apply (nest_write_lookup (λ i j, IZR i * (TIGConfig.Lx cfg / IZR (nx - 1))));
      [apply length_vec_make|done..].
  - apply (nest_write_lookup
      (λ i j, - TIGConfig.Ly cfg / 2.0 + IZR j * (TIGConfig.Ly cfg / IZR (ny - 1))));
      [apply length_vec_make|done..].
Qed.

Lemma run_iteration_sizes step st :
  sizes_ok (run_sim st) → sizes_ok (run_sim (run_iteration step st)).
Proof.
  intros Hs. unfold run_iteration. simpl.
  by apply time_step_sizes, compute_material_properties_sizes,
    apply_heat_source_sizes.
Qed.

Lemma tig_run_steps_sizes n st :
  sizes_ok (run_sim st) → sizes_ok (run_sim (run_steps n st)).
Proof.
  intros Hs. induction n as [|n IH]; [done|].
  cbn [run_steps]. by apply run_iteration_sizes.
Qed.

Lemma run_iteration_config step st :
  config (run_sim (run_iteration step st)) = config (run_sim st).
Proof.
  unfold run_iteration. simpl.
  destruct (compute_material_properties_fields
              (apply_heat_source (run_sim st)
                 (IZR step * TIGConfig.dt (config (run_sim st)))).1) as (-> & _).
  by destruct (apply_heat_source_fields (run_sim st)
                 (IZR step * TIGConfig.dt (config (run_sim st)))) as (-> & _).
Qed.

Lemma run_steps_config n st :
  config (run_sim (run_steps n st)) = config (run_sim st).
Proof.
  induction n as [|n IH]; [done|].
  cbn [run_steps]. by rewrite run_iteration_config.
Qed.

End TIGCtor.

Module WeldCtor.
Import Weld WeldFacts WeldRun.

Lemma grid_x_lookup c nx i :
  (0 ≤ i < nx)%Z →
  vec_get (grid_x c nx) i = IZR i * SimulationConfig.Lx c / IZR (nx - 1).
Proof.
  intros Hi. apply vec_get_lookup. unfold grid_x.
  apply (for_range_write_lookup
    (λ i, IZR i * SimulationConfig.Lx c / IZR (nx - 1))); [done|].
  rewrite length_vec_make. lia.
Qed.

Lemma grid_y_lookup c ny j :
  (0 ≤ j < ny)%Z →
  vec_get (grid_y c ny) j
  = - SimulationConfig.Ly c / 2.0 + IZR j * SimulationConfig.Ly c / IZR (ny - 1).
Proof.
  intros Hj. apply vec_get_lookup. unfold grid_y.
  apply (for_range_write_lookup
    (λ j, - SimulationConfig.Ly c / 2.0
          + IZR j * SimulationConfig.Ly c / IZR (ny - 1))); [done|].
  rewrite length_vec_make. lia.
Qed.

Lemma meshgrid_lookup nx ny x y i j :
  (0 ≤ i < nx)%Z → (0 ≤ j < ny)%Z →
  (meshgrid nx ny x y).1 !! Z.to_nat (idx nx i j) = Some (vec_get x i) ∧
  (meshgrid nx ny x y).2 !! Z.to_nat (idx nx i j) = Some (vec_get y j).
Proof.
  intros Hi Hj. unfold meshgrid.
  rewrite (nest_pair_fst (λ i j, vec_get x i) (λ i j, vec_get y j)).
  rewrite (nest_pair_snd (λ i j, vec_get x i) (λ i j, vec_get y j)).
  simpl. split.
  - apply (nest_write_lookup (λ i j, vec_get x i)); [apply length_vec_make|done..].
  - apply (nest_write_lookup (λ i j, vec_get y j)); [apply length_vec_make|done..].
Qed.

(** The mesh of a constructed object. *)
Lemma construct_mesh config sim i j :
  construct config = Constructed sim →
  (0 ≤ i < nx_ sim)%Z → (0 ≤ j < ny_ sim)%Z →
  vec_get (X_ sim) (idx (nx_ sim) i j)
    = IZR i * SimulationConfig.Lx config / IZR (nx_ sim - 1) ∧
  vec_get (Y_ sim) (idx (nx_ sim) i j)
    = - SimulationConfig.Ly config / 2.0
      + IZR j * SimulationConfig.Ly config / IZR (ny_ sim - 1).
Proof.
  unfold construct.
  destruct (_ || _)%Z eqn:Hneg; [done|].
  destruct ((SimulationConfig.nx config <? 2)%Z || _) eqn:Hsmall; [done|].
  intros [= <-]. simpl. intros Hi Hj.
  destruct (meshgrid_lookup (SimulationConfig.nx config) (SimulationConfig.ny config)
    (grid_x (SimulationConfig.set_eta config (adjust_efficiency config).1)
            (SimulationConfig.nx config))
    (grid_y (SimulationConfig.set_eta config (adjust_efficiency config).1)
            (SimulationConfig.ny config)) i j Hi Hj) as [HX HY].
  split; apply vec_get_lookup.
  - rewrite HX. f_equal. by rewrite grid_x_lookup.
  - rewrite HY. f_equal. by rewrite grid_y_lookup.
Qed.

Lemma construct_spacing config sim :
  construct config = Constructed sim →
  dx_ sim = SimulationConfig.Lx config / IZR (nx_ sim - 1) ∧
  dy_ sim = SimulationConfig.Ly config / IZR (ny_ sim - 1).
Proof.
  unfold construct.
  destruct (_ || _)%Z eqn:Hneg; [done|].
  destruct ((SimulationConfig.nx config <? 2)%Z || _) eqn:Hsmall; [done|].
  intros [= <-]. simpl.
  apply orb_false_iff in Hsmall as [Hx%Z.ltb_ge Hy%Z.ltb_ge].
  rewrite !grid_x_lookup, !grid_y_lookup by lia. simpl.
  split; unfold Rdiv; lra.
Qed.

End WeldCtor.

(** ** [WeldingSimulation]: the heat source of one iteration of [run] *)

Module WeldSource.
Import Weld WeldFacts WeldRun.

Lemma computeGoldakHeatFlux_lookup sim x_arc i j :
  N_ sim = (nx_ sim * ny_ sim)%Z →
  (0 ≤ i < nx_ sim)%Z → (0 ≤ j < ny_ sim)%Z →
  computeGoldakHeatFlux sim x_arc !! Z.to_nat (idx (nx_ sim) i j)
  = Some (goldak_cell sim x_arc (idx (nx_ sim) i j)).
Proof.
  intros HN Hi Hj. unfold computeGoldakHeatFlux.
  apply (nest_write_lookup (λ i j, goldak_cell sim x_arc (idx (nx_ sim) i j)));
    [|done..].
  by rewrite length_vec_make, HN.
Qed.

Lemma computeGoldakHeatFlux_length sim x_arc :
  length (computeGoldakHeatFlux sim x_arc) = Z.to_nat (N_ sim).
Proof.
  unfold computeGoldakHeatFlux.
  rewrite (nest_write_length (λ i j, goldak_cell sim x_arc (idx (nx_ sim) i j))).
  apply length_vec_make.
Qed.

Lemma heat_source_off sim x_arc :
  SimulationConfig.Lx (config_ sim) < x_arc →
  heat_source sim x_arc = mkSource (vec_make (N_ sim) 0.0) [].
Proof.
  intros Hoff. unfold heat_source. destruct (Rle_dec _ _); [lra|done].
Qed.

Lemma heat_source_on sim x_arc :
  x_arc <= SimulationConfig.Lx (config_ sim) →
  flux_calls (heat_source sim x_arc) = [x_arc] ∧
  ∀ index, (0 ≤ index < N_ sim)%Z →
    Qvol_of (heat_source sim x_arc) !! Z.to_nat index
    = Some (vec_get (computeGoldakHeatFlux sim x_arc) index
            / SimulationConfig.thickness (config_ sim)).
Proof.
  intros Hon. unfold heat_source. destruct (Rle_dec _ _); [|lra]. simpl.
  split; [done|]. intros index Hi.
  apply (for_range_write_lookup
    (λ index, vec_get (computeGoldakHeatFlux sim x_arc) index
              / SimulationConfig.thickness (config_ sim))); [done|].
  rewrite length_vec_make. lia.
Qed.

Lemma heat_source_length sim x_arc :
  length (Qvol_of (heat_source sim x_arc)) = Z.to_nat (N_ sim).
Proof.
  unfold heat_source. destruct (Rle_dec _ _); simpl.
  - rewrite (for_range_update_length
      (λ index _, vec_get (computeGoldakHeatFlux sim x_arc) index
                  / SimulationConfig.thickness (config_ sim))).
    apply length_vec_make.
  - apply length_vec_make.
Qed.

Lemma construct_succeeds config :
  (2 ≤ SimulationConfig.nx config)%Z → (2 ≤ SimulationConfig.ny config)%Z →
  ∃ sim, construct config = Constructed sim.
Proof.
  intros Hx Hy. unfold construct.
  destruct (_ || _)%Z eqn:Hneg.
  { apply orb_true_iff in Hneg as [?%Z.ltb_lt|?%Z.ltb_lt]; lia. }
  destruct ((SimulationConfig.nx config <? 2)%Z || _) eqn:Hsmall.
  { apply orb_true_iff in Hsmall as [?%Z.ltb_lt|?%Z.ltb_lt]; lia. }
  eauto.
Qed.

End WeldSource.

(** * The properties of the specification *)

(** The object after the first [n] iterations of the time loop. *)
Definition weld_after (n : nat) (sim : Weld.WeldingSimulation) : Weld.WeldingSimulation :=
  Weld.run_sim (Weld.run_steps n (Weld.mkRun 0.0 sim [])).

Definition tig_after (n : nat) (s : TIG.TIGSimulator) : TIG.TIGSimulator :=
  TIG.run_sim (TIG.run_steps n (TIG.mkRun s [])).

(** The clock [t] after the first [n] iterations. *)
Definition weld_clock (n : nat) (sim : Weld.WeldingSimulation) : R :=
  Weld.run_t (Weld.run_steps n (Weld.mkRun 0.0 sim [])).

(** The vector [Qvol] built in iteration [S n]. *)
Definition weld_Qvol (n : nat) (sim : Weld.WeldingSimulation) : list R :=
  Weld.Qvol_of
    (Weld.heat_source (weld_after n sim)
       (Weld.arc_position (weld_after n sim) (weld_clock (S n) sim))).

Lemma weld_after_S n sim :
  weld_after (S n) sim
  = Weld.solveTimeStep (weld_after n sim) (weld_clock (S n) sim) (weld_Qvol n sim).
Proof. done. Qed.

Lemma weld_after_frame n sim :
  Weld.config_ (weld_after n sim) = Weld.config_ sim ∧
  Weld.nx_ (weld_after n sim) = Weld.nx_ sim ∧
  Weld.ny_ (weld_after n sim) = Weld.ny_ sim ∧
  Weld.N_ (weld_after n sim) = Weld.N_ sim ∧
  Weld.X_ (weld_after n sim) = Weld.X_ sim ∧
  Weld.Y_ (weld_after n sim) = Weld.Y_ sim ∧
  Weld.Q_total_ (weld_after n sim) = Weld.Q_total_ sim.
Proof. apply (WeldRun.run_steps_frame n (Weld.mkRun 0.0 sim [])). Qed.

Lemma weld_after_sizes n sim :
  WeldFacts.sizes_ok sim → WeldFacts.sizes_ok (weld_after n sim).
Proof. intros H. by apply WeldRun.run_steps_sizes. Qed.

Lemma tig_after_sizes n s :
  TIGFacts.sizes_ok s → TIGFacts.sizes_ok (tig_after n s).
Proof. intros H. by apply TIGCtor.tig_run_steps_sizes. Qed.

Lemma tig_after_config n s : TIG.config (tig_after n s) = TIG.config s.
Proof. apply TIGCtor.run_steps_config. Qed.

(** The object handed to [time_step_explicit] in iteration [S n]. *)
Definition tig_before_step (n : nat) (s : TIG.TIGSimulator) : TIG.TIGSimulator :=
  TIG.compute_material_properties
    (TIG.apply_heat_source (tig_after n s)
       (IZR (Z.of_nat (S n)) * TIG.TIGConfig.dt (TIG.config (tig_after n s)))).1.

Lemma tig_after_S n s :
  tig_after (S n) s = TIG.time_step_explicit (tig_before_step n s).
Proof. done. Qed.

Lemma tig_before_step_sizes n s :
  TIGFacts.sizes_ok s → TIGFacts.sizes_ok (tig_before_step n s).
Proof.
  intros H. unfold tig_before_step.
  by apply TIGSteps.compute_material_properties_sizes,
    TIGSteps.apply_heat_source_sizes, tig_after_sizes.
Qed.

Lemma tig_before_step_fields n s :
  TIG.config (tig_before_step n s) = TIG.config s ∧
  TIG.N (tig_before_step n s) = TIG.N (tig_after n s) ∧
  TIG.T (tig_before_step n s) = TIG.T (tig_after n s) ∧
  TIG.T_max (tig_before_step n s) = TIG.T_max (tig_after n s).
Proof.
  unfold tig_before_step.
  set (t := IZR (Z.of_nat (S n)) * _).
  destruct (TIGSteps.compute_material_properties_fields
              (TIG.apply_heat_source (tig_after n s) t).1)
    as (-> & -> & _ & _ & _ & _ & -> & -> & _).
  destruct (TIGSteps.apply_heat_source_fields (tig_after n s) t)
    as (-> & -> & _ & _ & _ & _ & _ & -> & -> & _).
  by rewrite tig_after_config.
Qed.

(** C6.  Immediately after a step every boundary cell ([i = 0], [i = nx-1],
    [j = 0] or [j = ny-1]) holds exactly [T0], whatever the heat source and
    the previous field were.  This holds for one call of
    [WeldingSimulation::solveTimeStep] and of
    [TIGSimulator::time_step_explicit] on any object whose arrays have the
    sizes the constructor gives them, and so after every iteration of the time
    loop of a constructed object. *)
Theorem boundary_cells_held_at_T0 :
  (∀ sim t Qvol i j,
     WeldFacts.sizes_ok sim →
     (0 ≤ i < Weld.nx_ sim)%Z → (0 ≤ j < Weld.ny_ sim)%Z →
     (i = 0 ∨ i = Weld.nx_ sim - 1 ∨ j = 0 ∨ j = Weld.ny_ sim - 1)%Z →
     Weld.T_ (Weld.solveTimeStep sim t Qvol) !! Z.to_nat (Weld.idx (Weld.nx_ sim) i j)
     = Some (Weld.SimulationConfig.T0 (Weld.config_ sim))) ∧
  (∀ s i j,
     TIGFacts.sizes_ok s →
     (0 ≤ i < TIG.TIGConfig.nx (TIG.config s))%Z →
     (0 ≤ j < TIG.TIGConfig.ny (TIG.config s))%Z →
     (i = 0 ∨ i = TIG.TIGConfig.nx (TIG.config s) - 1 ∨
      j = 0 ∨ j = TIG.TIGConfig.ny (TIG.config s) - 1)%Z →
     TIG.T (TIG.time_step_explicit s)
       !! Z.to_nat (j * TIG.TIGConfig.nx (TIG.config s) + i)
     = Some (TIG.TIGConfig.T0 (TIG.config s))) ∧
  (∀ config sim n i j,
     Weld.construct config = Weld.Constructed sim →
     (0 ≤ i < Weld.SimulationConfig.nx config)%Z →
     (0 ≤ j < Weld.SimulationConfig.ny config)%Z →
     (i = 0 ∨ i = Weld.SimulationConfig.nx config - 1 ∨
      j = 0 ∨ j = Weld.SimulationConfig.ny config - 1)%Z →
     Weld.T_ (weld_after (S n) sim)
       !! Z.to_nat (Weld.idx (Weld.SimulationConfig.nx config) i j)
     = Some (Weld.SimulationConfig.T0 config)) ∧
  (∀ cfg s n i j,
     TIG.construct cfg = TIG.Constructed s →
     (0 ≤ i < TIG.TIGConfig.nx cfg)%Z → (0 ≤ j < TIG.TIGConfig.ny cfg)%Z →
     (i = 0 ∨ i = TIG.TIGConfig.nx cfg - 1 ∨ j = 0 ∨ j = TIG.TIGConfig.ny cfg - 1)%Z →
     TIG.T (tig_after (S n) s) !! Z.to_nat (j * TIG.TIGConfig.nx cfg + i)
     = Some (TIG.TIGConfig.T0 cfg)).
Proof.
  split; [|split; [|split]].
  - intros sim t Qvol i j Hs Hi Hj Hb.
    apply WeldRun.step_boundary; [done..|]. by apply WeldRun.isBoundary_true.
  - intros s i j Hs Hi Hj Hb. by apply TIGRun.time_step_boundary.
  - intros config sim n i j Hc Hi Hj Hb.
    pose proof (WeldRun.construct_sizes _ _ Hc) as Hs.
    destruct (WeldRun.construct_inv _ _ Hc) as (_ & _ & Hnx & Hny & _ & Hcfg & _).
    rewrite weld_after_S.
    destruct (weld_after_frame n sim) as (Hc' & Hnx' & Hny' & _).
    rewrite <- Hnx, <- Hnx'.
    rewrite WeldRun.step_boundary.
    + by rewrite Hc', Hcfg.
    + by apply weld_after_sizes.
    + rewrite Hnx', Hnx. done.
    + rewrite Hny', Hny. done.
    + apply WeldRun.isBoundary_true. rewrite Hnx', Hny', Hnx, Hny. done.
  - intros cfg s n i j Hc Hi Hj Hb.
    destruct (TIGCtor.tig_construct_inv _ _ Hc) as (Hcfg & _ & _ & _ & _ & _ & _ & Hs & _).
    rewrite tig_after_S.
    destruct (tig_before_step_fields n s) as (Hc' & _).
    rewrite <- Hcfg, <- Hc'. rewrite <- Hcfg, <- Hc' in Hi, Hj, Hb.
    apply TIGRun.time_step_boundary; [|done..].
    by apply tig_before_step_sizes.
Qed.

(** Sample configurations: the defaults with another grid size, ambient
    temperature and current. *)
Definition weld_config (nx ny : Z) (T0 I : R) : Weld.SimulationConfig.t :=
  Weld.SimulationConfig.mk 0.15 0.10 0.006 nx ny
    "Mild Steel" 7850.0 500.0 45.0 1811.0 1273.0
    "Stainless Steel 304" 7900.0 500.0 16.3 1723.0 1273.0
    25.0 I 0.85 0.006 0.02 0.0
    0.005 0.004 0.003 0.010 0.6 1.4
    T0 20.0 0.02 0.5 "TIG" true (-1.0) false 10.

Definition tig_config (nx ny : Z) (T0 I : R) : TIG.TIGConfig.t :=
  TIG.TIGConfig.mk 0.15 0.10 0.006 nx ny
    7850.0 500.0 45.0 1811.0 1273.0
    7900.0 500.0 16.3 1723.0 1273.0
    25.0 I 0.75 0.006 0.02 0.0
    0.004 0.003 0.003 0.008 0.6 1.4
    T0 0.02 0.5 50 10.

Lemma weld_config_default : weld_config 151 101 293.0 150.0 = Weld.SimulationConfig.default.
Proof. reflexivity. Qed.

Lemma tig_config_default : tig_config 151 101 293.0 150.0 = TIG.TIGConfig.default.
Proof. reflexivity. Qed.

(** ** Configurations of moderate size

    The model computes with real numbers, in which a quotient by zero is a
    number and no product is too large; the code computes with [double], in
    which a quotient by zero or an overflow is an infinity, of which the next
    operation can make a NaN, and it converts [double] to [int], which is
    undefined outside the range of [int], as is a product of two [int]
    outside that range.  The properties that depend on the value of such an
    expression are stated under hypotheses that keep the divisors away from
    zero, the numbers of moderate size and the integers in range. *)

Definition INT_MAX : Z := 2147483647.

Definition in_int (z : Z) : Prop := (-2147483648 ≤ z ≤ 2147483647)%Z.

Lemma ceil_int_spec x : IZR (ceil_int x) - 1 < x <= IZR (ceil_int x).
Proof.
  unfold ceil_int. destruct (archimed (- x)) as [H1 H2].
  rewrite minus_IZR. lra.
Qed.

Lemma ceil_int_unique x n : IZR n - 1 < x <= IZR n → ceil_int x = n.
Proof.
  intros [H1 H2]. destruct (ceil_int_spec x) as [H3 H4].
  assert (IZR (ceil_int x) < IZR (n + 1)) as Ha by (rewrite plus_IZR; lra).
  assert (IZR n < IZR (ceil_int x + 1)) as Hb by (rewrite plus_IZR; lra).
  apply lt_IZR in Ha, Hb. lia.
Qed.

(** The base properties of both materials are positive. *)
Definition weld_config_positive (c : Weld.SimulationConfig.t) : Prop :=
  (0 < Weld.SimulationConfig.mat_1_k c ∧ 0 < Weld.SimulationConfig.mat_1_cp c ∧
   0 < Weld.SimulationConfig.mat_1_rho c) ∧
  (0 < Weld.SimulationConfig.mat_2_k c ∧ 0 < Weld.SimulationConfig.mat_2_cp c ∧
   0 < Weld.SimulationConfig.mat_2_rho c).

Definition weld_materials_positive (sim : Weld.WeldingSimulation) : Prop :=
  (0 < Weld.Material.k (Weld.mat_1_ sim) ∧ 0 < Weld.Material.cp (Weld.mat_1_ sim) ∧
   0 < Weld.Material.rho (Weld.mat_1_ sim)) ∧
  (0 < Weld.Material.k (Weld.mat_2_ sim) ∧ 0 < Weld.Material.cp (Weld.mat_2_ sim) ∧
   0 < Weld.Material.rho (Weld.mat_2_ sim)).

Definition tig_materials_positive (c : TIG.TIGConfig.t) : Prop :=
  (0 < TIG.TIGConfig.mat_1_k c ∧ 0 < TIG.TIGConfig.mat_1_cp c ∧
   0 < TIG.TIGConfig.mat_1_rho c) ∧
  (0 < TIG.TIGConfig.mat_2_k c ∧ 0 < TIG.TIGConfig.mat_2_cp c ∧
   0 < TIG.TIGConfig.mat_2_rho c).

(** A number of moderate size, and a positive number of moderate size.  The
    code forms a few products and quotients of the members of a
    configuration: when the members are at most [10^12] in magnitude and the
    divisors at least [10^-12], none of the results leaves the range of
    [double]. *)
Definition moderate (x : R) : Prop := - 1e12 <= x <= 1e12.

Definition sizeable (x : R) : Prop := 1e-12 <= x <= 1e12.

(** A [WeldingSimulation] on which a step of the solver divides by no zero
    and stays within [double]: the base properties of the materials, the
    spacings, the radii [a] and [b], the thickness and the time step are
    positive and of moderate size, and the thresholds, the fractions, the
    ambient temperature, the power and the temperatures of the field are of
    moderate size. *)
Definition weld_regular_state (sim : Weld.WeldingSimulation) : Prop :=
  let c := Weld.config_ sim in
  Forall sizeable
    [Weld.Material.k (Weld.mat_1_ sim); Weld.Material.cp (Weld.mat_1_ sim);
     Weld.Material.rho (Weld.mat_1_ sim);
     Weld.Material.k (Weld.mat_2_ sim); Weld.Material.cp (Weld.mat_2_ sim);
     Weld.Material.rho (Weld.mat_2_ sim);
     Weld.dx_ sim; Weld.dy_ sim;
     Weld.SimulationConfig.a c; Weld.SimulationConfig.b c;
     Weld.SimulationConfig.thickness c; Weld.SimulationConfig.dt c] ∧
  Forall moderate
    [Weld.Material.T_melt (Weld.mat_1_ sim); Weld.Material.T_crit (Weld.mat_1_ sim);
     Weld.Material.T_melt (Weld.mat_2_ sim); Weld.Material.T_crit (Weld.mat_2_ sim);
     Weld.SimulationConfig.ff c; Weld.SimulationConfig.fr c;
     Weld.SimulationConfig.T0 c; Weld.Q_total_ sim] ∧
  Forall moderate (Weld.T_ sim).

(** The same for a [TIGSimulator], whose source has the radii [cf] and [cr]
    as well. *)
Definition tig_regular_state (s : TIG.TIGSimulator) : Prop :=
  let c := TIG.config s in
  Forall sizeable
    [TIG.TIGConfig.mat_1_k c; TIG.TIGConfig.mat_1_cp c; TIG.TIGConfig.mat_1_rho c;
     TIG.TIGConfig.mat_2_k c; TIG.TIGConfig.mat_2_cp c; TIG.TIGConfig.mat_2_rho c;
     TIG.dx s; TIG.dy s;
     TIG.TIGConfig.a c; TIG.TIGConfig.b c; TIG.TIGConfig.cf c; TIG.TIGConfig.cr c;
     TIG.TIGConfig.dt c] ∧
  Forall moderate
    [TIG.TIGConfig.mat_1_T_melt c; TIG.TIGConfig.mat_1_T_crit c;
     TIG.TIGConfig.mat_2_T_melt c; TIG.TIGConfig.mat_2_T_crit c;
     TIG.TIGConfig.ff c; TIG.TIGConfig.fr c; TIG.TIGConfig.T0 c;
     TIG.TIGConfig.eta c; TIG.TIGConfig.V c; TIG.TIGConfig.I c] ∧
  Forall moderate (TIG.T s).

(** A [SimulationConfig] on which the constructor and every step of
    [WeldingSimulation] divide by no zero, stay within [double] and stay in
    the range of [int]: the base properties of the materials, the plate, the
    radii [a] and [b], the travel speed and the time step are positive and
    of moderate size, the other numbers that the solver reads are of
    moderate size, and the number of cells and the number of steps are in
    the range of [int]. *)
Definition weld_well_posed (c : Weld.SimulationConfig.t) : Prop :=
  Forall sizeable
    [Weld.SimulationConfig.mat_1_k c; Weld.SimulationConfig.mat_1_cp c;
     Weld.SimulationConfig.mat_1_rho c;
     Weld.SimulationConfig.mat_2_k c; Weld.SimulationConfig.mat_2_cp c;
     Weld.SimulationConfig.mat_2_rho c;
     Weld.SimulationConfig.Lx c; Weld.SimulationConfig.Ly c;
     Weld.SimulationConfig.thickness c;
     Weld.SimulationConfig.a c; Weld.SimulationConfig.b c;
     Weld.SimulationConfig.v_weld c; Weld.SimulationConfig.dt c] ∧
  Forall moderate
    [Weld.SimulationConfig.mat_1_T_melt c; Weld.SimulationConfig.mat_1_T_crit c;
     Weld.SimulationConfig.mat_2_T_melt c; Weld.SimulationConfig.mat_2_T_crit c;
     Weld.SimulationConfig.V c; Weld.SimulationConfig.I c; Weld.SimulationConfig.eta c;
     Weld.SimulationConfig.x_start c;
     Weld.SimulationConfig.ff c; Weld.SimulationConfig.fr c;
     Weld.SimulationConfig.T0 c] ∧
  (Weld.SimulationConfig.nx c * Weld.SimulationConfig.ny c ≤ INT_MAX)%Z ∧
  in_int (ceil_int (((Weld.SimulationConfig.Lx c - Weld.SimulationConfig.x_start c)
                     / Weld.SimulationConfig.v_weld c + 10.0)
                    / Weld.SimulationConfig.dt c)).

(** The same for a [TIGConfig], the constructor and every step of
    [TIGSimulator], whose constructor computes no number of steps. *)
Definition tig_well_posed (c : TIG.TIGConfig.t) : Prop :=
  Forall sizeable
    [TIG.TIGConfig.mat_1_k c; TIG.TIGConfig.mat_1_cp c; TIG.TIGConfig.mat_1_rho c;
     TIG.TIGConfig.mat_2_k c; TIG.TIGConfig.mat_2_cp c; TIG.TIGConfig.mat_2_rho c;
     TIG.TIGConfig.Lx c; TIG.TIGConfig.Ly c;
     TIG.TIGConfig.a c; TIG.TIGConfig.b c; TIG.TIGConfig.cf c; TIG.TIGConfig.cr c;
     TIG.TIGConfig.dt c] ∧
  Forall moderate
    [TIG.TIGConfig.mat_1_T_melt c; TIG.TIGConfig.mat_1_T_crit c;
     TIG.TIGConfig.mat_2_T_melt c; TIG.TIGConfig.mat_2_T_crit c;
     TIG.TIGConfig.V c; TIG.TIGConfig.I c; TIG.TIGConfig.eta c;
     TIG.TIGConfig.v_weld c; TIG.TIGConfig.x_start c;
     TIG.TIGConfig.ff c; TIG.TIGConfig.fr c; TIG.TIGConfig.T0 c] ∧
  (2 ≤ TIG.TIGConfig.nx c)%Z ∧ (2 ≤ TIG.TIGConfig.ny c)%Z ∧
  (TIG.TIGConfig.nx c * TIG.TIGConfig.ny c ≤ INT_MAX)%Z.

(** The nominal step satisfies the stability condition of the explicit scheme
    for the base diffusivity of both materials. *)
Definition tig_stable (c : TIG.TIGConfig.t) (dx dy : R) : Prop :=
  2 * (TIG.TIGConfig.dt c
       * (TIG.TIGConfig.mat_1_k c / (TIG.TIGConfig.mat_1_rho c * TIG.TIGConfig.mat_1_cp c)
          * (1 / dx ^ 2 + 1 / dy ^ 2))) <= 1 ∧
  2 * (TIG.TIGConfig.dt c
       * (TIG.TIGConfig.mat_2_k c / (TIG.TIGConfig.mat_2_rho c * TIG.TIGConfig.mat_2_cp c)
          * (1 / dx ^ 2 + 1 / dy ^ 2))) <= 1.

Lemma default_step_count : ceil_int (((0.15 - 0.02) / 0.006 + 10.0) / 0.02) = 1584%Z.
Proof. apply ceil_int_unique. split; lra. Qed.

Lemma weld_config_well_posed nx ny T0 I :
  (nx * ny ≤ INT_MAX)%Z → moderate T0 → moderate I →
  weld_well_posed (weld_config nx ny T0 I).
Proof.
  intros HN HT0 HI. unfold weld_well_posed, weld_config.
  cbn [Weld.SimulationConfig.mat_1_k Weld.SimulationConfig.mat_1_cp
       Weld.SimulationConfig.mat_1_rho Weld.SimulationConfig.mat_2_k
       Weld.SimulationConfig.mat_2_cp Weld.SimulationConfig.mat_2_rho
       Weld.SimulationConfig.mat_1_T_melt Weld.SimulationConfig.mat_1_T_crit
       Weld.SimulationConfig.mat_2_T_melt Weld.SimulationConfig.mat_2_T_crit
       Weld.SimulationConfig.Lx Weld.SimulationConfig.Ly Weld.SimulationConfig.a
       Weld.SimulationConfig.b Weld.SimulationConfig.thickness
       Weld.SimulationConfig.v_weld Weld.SimulationConfig.dt
       Weld.SimulationConfig.V Weld.SimulationConfig.I Weld.SimulationConfig.eta
       Weld.SimulationConfig.ff Weld.SimulationConfig.fr Weld.SimulationConfig.T0
       Weld.SimulationConfig.nx Weld.SimulationConfig.ny
       Weld.SimulationConfig.x_start].
  rewrite default_step_count.
  split; [repeat (apply Forall_cons_2; [unfold sizeable; lra|]); apply Forall_nil_2|].
  split; [repeat (apply Forall_cons_2; [first [done|unfold moderate; lra]|]); apply Forall_nil_2|].
  split; [done|]. unfold in_int. lia.
Qed.

Lemma tig_config_well_posed nx ny T0 I :
  (2 ≤ nx)%Z → (2 ≤ ny)%Z → (nx * ny ≤ INT_MAX)%Z → moderate T0 → moderate I →
  tig_well_posed (tig_config nx ny T0 I).
Proof.
  intros Hnx Hny HN HT0 HI. unfold tig_well_posed, tig_config.
  cbn [TIG.TIGConfig.mat_1_k TIG.TIGConfig.mat_1_cp TIG.TIGConfig.mat_1_rho
       TIG.TIGConfig.mat_2_k TIG.TIGConfig.mat_2_cp TIG.TIGConfig.mat_2_rho
       TIG.TIGConfig.mat_1_T_melt TIG.TIGConfig.mat_1_T_crit
       TIG.TIGConfig.mat_2_T_melt TIG.TIGConfig.mat_2_T_crit
       TIG.TIGConfig.Lx TIG.TIGConfig.Ly TIG.TIGConfig.a TIG.TIGConfig.b
       TIG.TIGConfig.cf TIG.TIGConfig.cr TIG.TIGConfig.dt
       TIG.TIGConfig.V TIG.TIGConfig.I TIG.TIGConfig.eta TIG.TIGConfig.v_weld
       TIG.TIGConfig.x_start TIG.TIGConfig.ff TIG.TIGConfig.fr TIG.TIGConfig.T0
       TIG.TIGConfig.nx TIG.TIGConfig.ny].
  split; [repeat (apply Forall_cons_2; [unfold sizeable; lra|]); apply Forall_nil_2|].
  split; [repeat (apply Forall_cons_2; [first [done|unfold moderate; lra]|]); apply Forall_nil_2|]. done.
Qed.

Lemma tig_config_3x3_stable s :
  TIG.dx s = 0.15 / IZR (3 - 1) → TIG.dy s = 0.10 / IZR (3 - 1) →
  TIG.dx s ≠ 0 ∧ TIG.dy s ≠ 0 ∧
  2 * (0.02 * (45.0 / (7850.0 * 500.0) * (1 / TIG.dx s ^ 2 + 1 / TIG.dy s ^ 2))) <= 1 ∧
  2 * (0.02 * (16.3 / (7900.0 * 500.0) * (1 / TIG.dx s ^ 2 + 1 / TIG.dy s ^ 2))) <= 1.
Proof.
  intros -> ->. change (3 - 1)%Z with 2%Z.
  replace (0.15 / 2) with 0.075 by lra. replace (0.10 / 2) with 0.05 by lra.
  replace (0.075 ^ 2) with 0.005625 by lra. replace (0.05 ^ 2) with 0.0025 by lra.
  replace (1 / 0.005625) with (1600 / 9) by lra.
  replace (1 / 0.0025) with 400 by lra.
  repeat split; lra.
Qed.

(** ** Two configurations with a short pass of the arc *)

(** The configuration of cpp-weld-2 on a 3 x 3 grid with a start and a
    travel speed that put the arc one millimetre behind the centre cell in
    the first step and past the plate from the second step on. *)
Definition weld_pass_config (I : R) : Weld.SimulationConfig.t :=
  Weld.SimulationConfig.mk 0.15 0.10 0.006 3 3
    "Mild Steel" 7850.0 500.0 45.0 1811.0 1273.0
    "Stainless Steel 304" 7900.0 500.0 16.3 1723.0 1273.0
    25.0 I 0.85 4.0 (-0.006) 0.0
    0.005 0.004 0.003 0.010 0.6 1.4
    293.0 20.0 0.02 0.5 "TIG" true (-1.0) false 10.

Lemma weld_pass_config_well_posed I : moderate I → weld_well_posed (weld_pass_config I).
Proof.
  intros HI. unfold weld_well_posed, weld_pass_config.
  cbn [Weld.SimulationConfig.mat_1_k Weld.SimulationConfig.mat_1_cp
       Weld.SimulationConfig.mat_1_rho Weld.SimulationConfig.mat_2_k
       Weld.SimulationConfig.mat_2_cp Weld.SimulationConfig.mat_2_rho
       Weld.SimulationConfig.mat_1_T_melt Weld.SimulationConfig.mat_1_T_crit
       Weld.SimulationConfig.mat_2_T_melt Weld.SimulationConfig.mat_2_T_crit
       Weld.SimulationConfig.Lx Weld.SimulationConfig.Ly Weld.SimulationConfig.a
       Weld.SimulationConfig.b Weld.SimulationConfig.thickness
       Weld.SimulationConfig.v_weld Weld.SimulationConfig.dt
       Weld.SimulationConfig.V Weld.SimulationConfig.I Weld.SimulationConfig.eta
       Weld.SimulationConfig.ff Weld.SimulationConfig.fr Weld.SimulationConfig.T0
       Weld.SimulationConfig.nx Weld.SimulationConfig.ny
       Weld.SimulationConfig.x_start].
  assert (ceil_int (((0.15 - - 0.006) / 4.0 + 10.0) / 0.02) = 502%Z) as ->
    by (apply ceil_int_unique; split; lra).
  split; [repeat (apply Forall_cons_2; [unfold sizeable; lra|]); apply Forall_nil_2|].
  split; [repeat (apply Forall_cons_2; [first [done|unfold moderate; lra]|]); apply Forall_nil_2|].
  split; [unfold INT_MAX; lia|]. unfold in_int. lia.
Qed.

(** The same for cpp-weld. *)
Definition tig_pass_config (I : R) : TIG.TIGConfig.t :=
  TIG.TIGConfig.mk 0.15 0.10 0.006 3 3
    7850.0 500.0 45.0 1811.0 1273.0
    7900.0 500.0 16.3 1723.0 1273.0
    25.0 I 0.75 4.0 (-0.006) 0.0
    0.004 0.003 0.003 0.008 0.6 1.4
    293.0 0.02 0.5 50 10.

Lemma tig_pass_config_well_posed I : moderate I → tig_well_posed (tig_pass_config I).
Proof.
  intros HI. unfold tig_well_posed, tig_pass_config.
  cbn [TIG.TIGConfig.mat_1_k TIG.TIGConfig.mat_1_cp TIG.TIGConfig.mat_1_rho
       TIG.TIGConfig.mat_2_k TIG.TIGConfig.mat_2_cp TIG.TIGConfig.mat_2_rho
       TIG.TIGConfig.mat_1_T_melt TIG.TIGConfig.mat_1_T_crit
       TIG.TIGConfig.mat_2_T_melt TIG.TIGConfig.mat_2_T_crit
       TIG.TIGConfig.Lx TIG.TIGConfig.Ly TIG.TIGConfig.a TIG.TIGConfig.b
       TIG.TIGConfig.cf TIG.TIGConfig.cr TIG.TIGConfig.dt
       TIG.TIGConfig.V TIG.TIGConfig.I TIG.TIGConfig.eta TIG.TIGConfig.v_weld
       TIG.TIGConfig.x_start TIG.TIGConfig.ff TIG.TIGConfig.fr TIG.TIGConfig.T0
       TIG.TIGConfig.nx TIG.TIGConfig.ny].
  split; [repeat (apply Forall_cons_2; [unfold sizeable; lra|]); apply Forall_nil_2|].
  split; [repeat (apply Forall_cons_2; [first [done|unfold moderate; lra]|]);
          apply Forall_nil_2|].
  unfold INT_MAX. lia.
Qed.

(** C6 at a 3 x 3 grid: the corner cell after the first iteration, in both
    variants. *)
Lemma boundary_cells_held_at_T0_witness :
  (∃ sim, Weld.construct (weld_config 3 3 293.0 150.0) = Weld.Constructed sim ∧
          Weld.T_ (weld_after 1 sim) !! 0%nat = Some 293.0) ∧
  (∃ s, TIG.construct (tig_config 3 3 293.0 150.0) = TIG.Constructed s ∧
        TIG.T (tig_after 1 s) !! 0%nat = Some 293.0).
Proof.
  split.
  - eexists. split; [reflexivity|].
    apply (proj1 (proj2 (proj2 boundary_cells_held_at_T0))
             (weld_config 3 3 293.0 150.0) _ 0%nat 0%Z 0%Z);
      [reflexivity|cbn; lia..].
  - eexists. split; [reflexivity|].
    apply (proj2 (proj2 (proj2 boundary_cells_held_at_T0))
             (tig_config 3 3 293.0 150.0) _ 0%nat 0%Z 0%Z);
      [reflexivity|cbn; lia..].
Defined.

(** ** The running peak *)

Lemma weld_step_peak sim t Qvol index :
  WeldFacts.sizes_ok sim → (0 ≤ index < Weld.N_ sim)%Z →
  vec_get (Weld.T_max_ (Weld.solveTimeStep sim t Qvol)) index
  = Rmax (vec_get (Weld.T_max_ sim) index)
         (vec_get (Weld.T_ (Weld.solveTimeStep sim t Qvol)) index).
Proof.
  intros Hs Hi.
  assert (is_Some (Weld.T_max_ sim !! Z.to_nat index)) as [m Hm].
  { apply lookup_lt_is_Some. rewrite (WeldFacts.sizes_T_max sim Hs). lia. }
  destruct (WeldRun.step_T_max sim t Qvol (Z.to_nat index) m Hs) as (x & Hx & Hmx);
    [lia|done|].
  by rewrite (vec_get_lookup _ _ _ Hm), (vec_get_lookup _ _ _ Hx),
    (vec_get_lookup _ _ _ Hmx).
Qed.

Lemma tig_step_peak s idx :
  TIGFacts.sizes_ok s → (0 ≤ idx < TIG.N s)%Z →
  vec_get (TIG.T_max (TIG.time_step_explicit s)) idx
  = Rmax (vec_get (TIG.T_max s) idx) (vec_get (TIG.T (TIG.time_step_explicit s)) idx).
Proof.
  intros Hs Hi.
  assert (is_Some (TIG.T_max s !! Z.to_nat idx)) as [m Hm].
  { apply lookup_lt_is_Some. rewrite (TIGFacts.sizes_T_max s Hs). lia. }
  assert (is_Some (TIGFacts.T_new_of s !! Z.to_nat idx)) as [x Hx].
  { apply lookup_lt_is_Some. rewrite TIGFacts.T_new_of_length. lia. }
  rewrite (vec_get_lookup _ _ _ Hm).
  rewrite (vec_get_lookup _ _ _
             (TIGRun.time_step_T_max s (Z.to_nat idx) x m Hs ltac:(lia) Hx Hm)).
  by rewrite (vec_get_lookup _ _ _
                (TIGRun.time_step_T s (Z.to_nat idx) x Hs ltac:(lia) Hx)).
Qed.

Lemma vec_get_vec_make n x index :
  (0 ≤ index < n)%Z → vec_get (vec_make n x) index = x.
Proof. intros Hi. apply vec_get_lookup, lookup_vec_make. lia. Qed.

Lemma weld_run_peak config sim n k index :
  Weld.construct config = Weld.Constructed sim → (0 ≤ index < Weld.N_ sim)%Z →
  vec_get (Weld.T_max_ (weld_after n sim)) index
    <= vec_get (Weld.T_max_ (weld_after (n + k) sim)) index ∧
  vec_get (Weld.T_ (weld_after n sim)) index
    <= vec_get (Weld.T_max_ (weld_after n sim)) index.
Proof.
  intros Hc Hi.
  pose proof (WeldRun.construct_sizes _ _ Hc) as Hs.
  assert (∀ m, vec_get (Weld.T_max_ (weld_after (S m) sim)) index
               = Rmax (vec_get (Weld.T_max_ (weld_after m sim)) index)
                      (vec_get (Weld.T_ (weld_after (S m) sim)) index)) as Hstep.
  { intros m. rewrite weld_after_S. apply weld_step_peak.
    - by apply weld_after_sizes.
    - by destruct (weld_after_frame m sim) as (_ & _ & _ & -> & _). }
  split.
  - induction k as [|k IH]; [rewrite Nat.add_0_r; lra|].
    rewrite Nat.add_succ_r, Hstep. etrans; [exact IH|apply Rmax_l].
  - destruct n as [|n].
    + destruct (WeldRun.construct_inv _ _ Hc) as (_ & _ & _ & _ & _ & _ & HT & HM).
      unfold weld_after. simpl. rewrite HT, HM. lra.
    + rewrite Hstep. apply Rmax_r.
Qed.

Lemma tig_run_peak cfg s n k idx :
  TIG.construct cfg = TIG.Constructed s → (0 ≤ idx < TIG.N s)%Z →
  vec_get (TIG.T_max (tig_after n s)) idx
    <= vec_get (TIG.T_max (tig_after (n + k) s)) idx ∧
  vec_get (TIG.T (tig_after n s)) idx <= vec_get (TIG.T_max (tig_after n s)) idx.
Proof.
  intros Hc Hi.
  destruct (TIGCtor.tig_construct_inv _ _ Hc) as (_ & _ & _ & _ & _ & HT & HM & Hs & _).
  assert (∀ m, TIG.N (tig_after m s) = TIG.N s) as HN.
  { intros m. pose proof (TIGFacts.sizes_N _ (tig_after_sizes m s Hs)) as H1.
    rewrite tig_after_config in H1. by rewrite H1, (TIGFacts.sizes_N s Hs). }
  assert (∀ m, vec_get (TIG.T_max (tig_after (S m) s)) idx
               = Rmax (vec_get (TIG.T_max (tig_after m s)) idx)
                      (vec_get (TIG.T (tig_after (S m) s)) idx)) as Hstep.
  { intros m. rewrite tig_after_S.
    destruct (tig_before_step_fields m s) as (_ & HN' & _ & HM').
    rewrite <- HM'. apply tig_step_peak.
    - by apply tig_before_step_sizes.
    - by rewrite HN', HN. }
  split.
  - induction k as [|k IH]; [rewrite Nat.add_0_r; lra|].
    rewrite Nat.add_succ_r, Hstep. etrans; [exact IH|apply Rmax_l].
  - destruct n as [|n].
    + unfold tig_after. simpl. rewrite HT, HM. lra.
    + rewrite Hstep. apply Rmax_r.
Qed.

(** C2.  Both fields start equal to [T0]; each step sets [T_max[idx]] to the
    maximum of its old value and the new temperature of the cell; hence, for
    every cell, [T_max[idx]] never decreases in the course of the run and is
    at least [T[idx]] after every step.  In both variants.  The statement
    about the run is made where every temperature that the code computes is
    a number: on a configuration without a zero divisor and of moderate size
    ([weld_well_posed], [tig_well_posed]), and, for cpp-weld, which has no
    clamp, with a time step that satisfies the stability condition
    ([tig_stable]). *)
Theorem peak_field_monotone :
  (∀ config sim, Weld.construct config = Weld.Constructed sim →
     Weld.T_ sim = vec_make (Weld.N_ sim) (Weld.SimulationConfig.T0 config) ∧
     Weld.T_max_ sim = vec_make (Weld.N_ sim) (Weld.SimulationConfig.T0 config)) ∧
  (∀ cfg s, TIG.construct cfg = TIG.Constructed s →
     TIG.T s = vec_make (TIG.N s) (TIG.TIGConfig.T0 cfg) ∧
     TIG.T_max s = vec_make (TIG.N s) (TIG.TIGConfig.T0 cfg)) ∧
  (∀ sim t Qvol index,
     WeldFacts.sizes_ok sim → (0 ≤ index < Weld.N_ sim)%Z →
     vec_get (Weld.T_max_ (Weld.solveTimeStep sim t Qvol)) index
     = Rmax (vec_get (Weld.T_max_ sim) index)
            (vec_get (Weld.T_ (Weld.solveTimeStep sim t Qvol)) index)) ∧
  (∀ s idx,
     TIGFacts.sizes_ok s → (0 ≤ idx < TIG.N s)%Z →
     vec_get (TIG.T_max (TIG.time_step_explicit s)) idx
     = Rmax (vec_get (TIG.T_max s) idx)
            (vec_get (TIG.T (TIG.time_step_explicit s)) idx)) ∧
  (∀ config sim n k index,
     Weld.construct config = Weld.Constructed sim → weld_well_posed config →
     (0 ≤ index < Weld.N_ sim)%Z →
     vec_get (Weld.T_max_ (weld_after n sim)) index
       <= vec_get (Weld.T_max_ (weld_after (n + k) sim)) index ∧
     vec_get (Weld.T_ (weld_after n sim)) index
       <= vec_get (Weld.T_max_ (weld_after n sim)) index) ∧
  (∀ cfg s n k idx,
     TIG.construct cfg = TIG.Constructed s → tig_well_posed cfg →
     tig_stable cfg (TIG.dx s) (TIG.dy s) →
     (0 ≤ idx < TIG.N s)%Z →
     vec_get (TIG.T_max (tig_after n s)) idx
       <= vec_get (TIG.T_max (tig_after (n + k) s)) idx ∧
     vec_get (TIG.T (tig_after n s)) idx <= vec_get (TIG.T_max (tig_after n s)) idx).
Proof.
  repeat split.
  - by destruct (WeldRun.construct_inv _ _ H) as (_ & _ & _ & _ & _ & _ & -> & _).
  - by destruct (WeldRun.construct_inv _ _ H) as (_ & _ & _ & _ & _ & _ & _ & ->).
  - by destruct (TIGCtor.tig_construct_inv _ _ H) as (_ & _ & _ & _ & _ & -> & _).
  - by destruct (TIGCtor.tig_construct_inv _ _ H) as (_ & _ & _ & _ & _ & _ & -> & _).
  - intros. by apply weld_step_peak.
  - intros. by apply tig_step_peak.
  - by apply (weld_run_peak config).
  - by apply (weld_run_peak config sim n 0).
  - by apply (tig_run_peak cfg).
  - by apply (tig_run_peak cfg s n 0).
Qed.

(** C2 on the 3 x 3 grid whose centre cell the arc heats in the first step:
    the centre cell between the first and the third iteration. *)
Lemma peak_field_monotone_witness :
  (∃ sim, Weld.construct (weld_pass_config 150.0) = Weld.Constructed sim ∧
          vec_get (Weld.T_max_ (weld_after 1 sim)) 4
            <= vec_get (Weld.T_max_ (weld_after (1 + 2) sim)) 4 ∧
          vec_get (Weld.T_ (weld_after 1 sim)) 4
            <= vec_get (Weld.T_max_ (weld_after 1 sim)) 4) ∧
  (∃ s, TIG.construct (tig_pass_config 150.0) = TIG.Constructed s ∧
        vec_get (TIG.T_max (tig_after 1 s)) 4
          <= vec_get (TIG.T_max (tig_after (1 + 2) s)) 4 ∧
        vec_get (TIG.T (tig_after 1 s)) 4 <= vec_get (TIG.T_max (tig_after 1 s)) 4).
Proof.
  split.
  - eexists. split; [reflexivity|].
    apply (proj1 (proj2 (proj2 (proj2 (proj2 peak_field_monotone))))
             (weld_pass_config 150.0) _ 1%nat 2%nat 4%Z);
      [reflexivity
      |apply weld_pass_config_well_posed; unfold moderate; lra
      |cbn; lia].
  - eexists. split; [reflexivity|].
    apply (proj2 (proj2 (proj2 (proj2 (proj2 peak_field_monotone))))
             (tig_pass_config 150.0) _ 1%nat 2%nat 4%Z);
      [reflexivity
      |apply tig_pass_config_well_posed; unfold moderate; lra
      |
      |cbn; lia].
    match goal with |- tig_stable _ (TIG.dx ?s) _ =>
      destruct (tig_config_3x3_stable s eq_refl eq_refl) as (_ & _ & H1 & H2)
    end.
    split; [exact H1|exact H2].
Defined.

(** ** A uniform field and a vanishing source *)

Lemma weld_interior_update_uniform sim p Qvol i j u :
  let index := Weld.idx (Weld.nx_ sim) i j in
  vec_get (Weld.T_ sim) index = u →
  vec_get (Weld.T_ sim) (Weld.idx (Weld.nx_ sim) (i - 1) j) = u →
  vec_get (Weld.T_ sim) (Weld.idx (Weld.nx_ sim) (i + 1) j) = u →
  vec_get (Weld.T_ sim) (Weld.idx (Weld.nx_ sim) i (j - 1)) = u →
  vec_get (Weld.T_ sim) (Weld.idx (Weld.nx_ sim) i (j + 1)) = u →
  vec_get Qvol index = 0 →
  Weld.interior_update sim p Qvol i j = u.
Proof.
  intros index Hc Hxm Hxp Hym Hyp HQ. unfold Weld.interior_update.
  fold index. rewrite Hc, Hxm, Hxp, Hym, Hyp, HQ.
  replace (u - 2.0 * u + u) with 0 by lra.
  unfold Rdiv. rewrite !Rmult_0_l, Rplus_0_l, Rmult_0_r, Rplus_0_l, Rmult_0_r. lra.
Qed.

Lemma weld_neighbours_in_range nx ny i j :
  (0 < i < nx - 1)%Z → (0 < j < ny - 1)%Z →
  (0 ≤ Weld.idx nx i j < nx * ny)%Z ∧
  (0 ≤ Weld.idx nx (i - 1) j < nx * ny)%Z ∧
  (0 ≤ Weld.idx nx (i + 1) j < nx * ny)%Z ∧
  (0 ≤ Weld.idx nx i (j - 1) < nx * ny)%Z ∧
  (0 ≤ Weld.idx nx i (j + 1) < nx * ny)%Z.
Proof. unfold Weld.idx. intros Hi Hj. repeat split; nia. Qed.

(** One step from a uniform field with no source, in [WeldingSimulation]:
    every cell is [T0], except that an ambient temperature above the safety
    ceiling is cut down to the ceiling in the interior. *)
Lemma weld_step_uniform sim t Qvol i j :
  WeldFacts.sizes_ok sim →
  (∀ i j, (0 ≤ i < Weld.nx_ sim)%Z → (0 ≤ j < Weld.ny_ sim)%Z →
     vec_get (Weld.T_ sim) (Weld.idx (Weld.nx_ sim) i j)
     = Weld.SimulationConfig.T0 (Weld.config_ sim)) →
  (∀ i j, (0 ≤ i < Weld.nx_ sim)%Z → (0 ≤ j < Weld.ny_ sim)%Z →
     vec_get Qvol (Weld.idx (Weld.nx_ sim) i j) = 0) →
  (0 ≤ i < Weld.nx_ sim)%Z → (0 ≤ j < Weld.ny_ sim)%Z →
  vec_get (Weld.T_ (Weld.solveTimeStep sim t Qvol)) (Weld.idx (Weld.nx_ sim) i j)
  = if Weld.isBoundary (Weld.nx_ sim) (Weld.ny_ sim) i j
    then Weld.SimulationConfig.T0 (Weld.config_ sim)
    else Weld.clamp (Weld.SimulationConfig.T0 (Weld.config_ sim))
                    (Weld.SimulationConfig.T0 (Weld.config_ sim)).
Proof.
  intros Hs HT HQ Hi Hj. apply vec_get_lookup.
  rewrite WeldRun.step_cell by done. unfold Weld.cell_value.
  destruct (Weld.isBoundary _ _ i j) eqn:Hb; [done|].
  apply WeldRun.isBoundary_false in Hb.
  by rewrite weld_interior_update_uniform
    with (u := Weld.SimulationConfig.T0 (Weld.config_ sim))
    by (apply HT || apply HQ; lia).
Qed.

Lemma clamp_fixed T0 : T0 <= Weld.T_MAX_REASONABLE → Weld.clamp T0 T0 = T0.
Proof.
  intros H. unfold Weld.clamp.
  destruct (Rgt_dec _ _); [lra|]. destruct (Rlt_dec _ _); [lra|done].
Qed.

Lemma clamp_above T0 : Weld.T_MAX_REASONABLE < T0 → Weld.clamp T0 T0 = Weld.T_MAX_REASONABLE.
Proof. intros H. unfold Weld.clamp. destruct (Rgt_dec _ _); [done|lra]. Qed.

(** With [Q_total_ = 0] the source vector is zero whether the arc is on the
    plate or not. *)
Lemma weld_goldak_cell_zero sim x_arc index :
  Weld.Q_total_ sim = 0 → Weld.goldak_cell sim x_arc index = 0.
Proof.
  intros HQ. unfold Weld.goldak_cell, Weld.goldak_point. rewrite HQ.
  destruct (Rge_dec _ _); unfold Rdiv; rewrite Rmult_0_r, !Rmult_0_l; done.
Qed.

Lemma weld_Qvol_on sim x_arc i j :
  WeldFacts.sizes_ok sim → x_arc <= Weld.SimulationConfig.Lx (Weld.config_ sim) →
  (0 ≤ i < Weld.nx_ sim)%Z → (0 ≤ j < Weld.ny_ sim)%Z →
  vec_get (Weld.Qvol_of (Weld.heat_source sim x_arc)) (Weld.idx (Weld.nx_ sim) i j)
  = Weld.goldak_cell sim x_arc (Weld.idx (Weld.nx_ sim) i j)
    / Weld.SimulationConfig.thickness (Weld.config_ sim).
Proof.
  intros Hs Hon Hi Hj. apply vec_get_lookup.
  pose proof (WeldFacts.sizes_N sim Hs) as HN.
  destruct (WeldSource.heat_source_on sim x_arc Hon) as [_ ->].
  - f_equal. f_equal. apply vec_get_lookup.
    by apply WeldSource.computeGoldakHeatFlux_lookup.
  - rewrite HN. unfold Weld.idx. nia.
Qed.

Lemma weld_Qvol_zero sim x_arc i j :
  WeldFacts.sizes_ok sim → Weld.Q_total_ sim = 0 →
  (0 ≤ i < Weld.nx_ sim)%Z → (0 ≤ j < Weld.ny_ sim)%Z →
  vec_get (Weld.Qvol_of (Weld.heat_source sim x_arc)) (Weld.idx (Weld.nx_ sim) i j) = 0.
Proof.
  intros Hs HQ Hi Hj.
  destruct (Rle_dec x_arc (Weld.SimulationConfig.Lx (Weld.config_ sim))) as [Hon|Hoff].
  - rewrite weld_Qvol_on, weld_goldak_cell_zero by done. unfold Rdiv. apply Rmult_0_l.
  - rewrite WeldSource.heat_source_off by lra. simpl.
    apply vec_get_lookup. rewrite lookup_vec_make; [f_equal; lra|].
    rewrite (WeldFacts.sizes_N sim Hs). unfold Weld.idx. nia.
Qed.

(** The same for [TIGSimulator]. *)
Lemma tig_interior_update_uniform s idx u :
  vec_get (TIG.T s) idx = u →
  vec_get (TIG.T s) (idx + 1) = u → vec_get (TIG.T s) (idx - 1) = u →
  vec_get (TIG.T s) (idx + TIG.TIGConfig.nx (TIG.config s)) = u →
  vec_get (TIG.T s) (idx - TIG.TIGConfig.nx (TIG.config s)) = u →
  vec_get (TIG.Q_vol s) idx = 0 →
  TIG.interior_update s idx = u.
Proof.
  intros Hc Hxp Hxm Hyp Hym HQ. unfold TIG.interior_update.
  rewrite Hc, Hxp, Hxm, Hyp, Hym, HQ.
  replace (u - 2.0 * u + u) with 0 by lra.
  unfold Rdiv. rewrite !Rmult_0_l, Rplus_0_l, Rmult_0_r, Rplus_0_l, Rmult_0_r. lra.
Qed.

Lemma tig_step_uniform s i j :
  TIGFacts.sizes_ok s →
  (∀ i j, (0 ≤ i < TIG.TIGConfig.nx (TIG.config s))%Z →
          (0 ≤ j < TIG.TIGConfig.ny (TIG.config s))%Z →
     vec_get (TIG.T s) (j * TIG.TIGConfig.nx (TIG.config s) + i)
     = TIG.TIGConfig.T0 (TIG.config s)) →
  (∀ i j, (0 ≤ i < TIG.TIGConfig.nx (TIG.config s))%Z →
          (0 ≤ j < TIG.TIGConfig.ny (TIG.config s))%Z →
     vec_get (TIG.Q_vol s) (j * TIG.TIGConfig.nx (TIG.config s) + i) = 0) →
  (0 ≤ i < TIG.TIGConfig.nx (TIG.config s))%Z →
  (0 ≤ j < TIG.TIGConfig.ny (TIG.config s))%Z →
  vec_get (TIG.T (TIG.time_step_explicit s)) (j * TIG.TIGConfig.nx (TIG.config s) + i)
  = TIG.TIGConfig.T0 (TIG.config s).
Proof.
  intros Hs HT HQ Hi Hj. apply vec_get_lookup.
  destruct (decide (i = 0 ∨ i = TIG.TIGConfig.nx (TIG.config s) - 1 ∨
                    j = 0 ∨ j = TIG.TIGConfig.ny (TIG.config s) - 1)%Z) as [Hb|Hint].
  - by apply TIGRun.time_step_boundary.
  - rewrite TIGRun.time_step_interior by (done || lia). f_equal.
    set (nx := TIG.TIGConfig.nx (TIG.config s)) in *.
    apply tig_interior_update_uniform; fold nx.
    + apply HT; lia.
    + replace (j * nx + i + 1)%Z with (j * nx + (i + 1))%Z by lia. apply HT; lia.
    + replace (j * nx + i - 1)%Z with (j * nx + (i - 1))%Z by lia. apply HT; lia.
    + replace (j * nx + i + nx)%Z with ((j + 1) * nx + i)%Z by lia. apply HT; lia.
    + replace (j * nx + i - nx)%Z with ((j - 1) * nx + i)%Z by lia. apply HT; lia.
    + apply HQ; lia.
Qed.

Lemma tig_goldak_flux_zero a b cf cr ff fr xi eta :
  TIG.goldak_flux 0 a b cf cr ff fr xi eta = 0.
Proof.
  unfold TIG.goldak_flux.
  destruct (Rge_dec _ _); unfold Rdiv; rewrite Rmult_0_r, !Rmult_0_l; done.
Qed.

Lemma tig_Q_vol_zero s t i j :
  TIGFacts.sizes_ok s → TIGSteps.Q_total (TIG.config s) = 0 →
  (0 ≤ i < TIG.TIGConfig.nx (TIG.config s))%Z →
  (0 ≤ j < TIG.TIGConfig.ny (TIG.config s))%Z →
  vec_get (TIG.Q_vol (TIG.apply_heat_source s t).1)
          (j * TIG.TIGConfig.nx (TIG.config s) + i) = 0.
Proof.
  intros Hs HQ Hi Hj. apply vec_get_lookup.
  destruct (Rle_dec (TIGSteps.arc_position s t) (TIG.TIGConfig.Lx (TIG.config s)))
    as [Hon|Hoff].
  - destruct (TIGSteps.apply_heat_source_on s t i j Hs Hon Hi Hj) as (_ & _ & ->).
    unfold TIGSteps.flux_at. by rewrite HQ, tig_goldak_flux_zero.
  - destruct (TIGSteps.apply_heat_source_off s t) as (_ & _ & H); [lra|].
    apply H.
    + rewrite (TIGFacts.sizes_N s Hs). nia.
    + rewrite (TIGFacts.sizes_Q_vol s Hs), (TIGFacts.sizes_N s Hs). nia.
Qed.

Lemma weld_run_uniform config sim n i j :
  Weld.construct config = Weld.Constructed sim →
  Weld.Q_total_ sim = 0 →
  Weld.SimulationConfig.T0 config <= Weld.T_MAX_REASONABLE →
  (0 ≤ i < Weld.SimulationConfig.nx config)%Z →
  (0 ≤ j < Weld.SimulationConfig.ny config)%Z →
  vec_get (Weld.T_ (weld_after n sim)) (Weld.idx (Weld.SimulationConfig.nx config) i j)
  = Weld.SimulationConfig.T0 config.
Proof.
  intros Hc HQ Hmax.
  pose proof (WeldRun.construct_sizes _ _ Hc) as Hs.
  destruct (WeldRun.construct_inv _ _ Hc) as (_ & _ & Hnx & Hny & HN & Hcfg & HT & _).
  revert i j. induction n as [|n IH]; intros i j Hi Hj.
  - unfold weld_after. simpl. rewrite HT, vec_get_vec_make; [done|].
    rewrite HN. unfold Weld.idx. nia.
  - rewrite weld_after_S.
    destruct (weld_after_frame n sim) as (Hc' & Hnx' & Hny' & _ & _ & _ & HQ').
    assert (Weld.SimulationConfig.T0 (Weld.config_ (weld_after n sim))
            = Weld.SimulationConfig.T0 config) as HT0 by (by rewrite Hc', Hcfg).
    rewrite <- Hnx, <- Hnx'.
    rewrite weld_step_uniform.
    + rewrite HT0. destruct (Weld.isBoundary _ _ _ _); [done|]. by apply clamp_fixed.
    + by apply weld_after_sizes.
    + intros i' j' Hi' Hj'. rewrite HT0, Hnx', Hnx. apply IH; lia.
    + intros i' j' Hi' Hj'. unfold weld_Qvol.
      apply weld_Qvol_zero; [by apply weld_after_sizes|by rewrite HQ'|done..].
    + lia.
    + lia.
Qed.

Lemma tig_run_uniform cfg s n i j :
  TIG.construct cfg = TIG.Constructed s →
  TIGSteps.Q_total cfg = 0 →
  (0 ≤ i < TIG.TIGConfig.nx cfg)%Z → (0 ≤ j < TIG.TIGConfig.ny cfg)%Z →
  vec_get (TIG.T (tig_after n s)) (j * TIG.TIGConfig.nx cfg + i) = TIG.TIGConfig.T0 cfg.
Proof.
  intros Hc HQ.
  destruct (TIGCtor.tig_construct_inv _ _ Hc) as (Hcfg & HN & _ & _ & _ & HT & _ & Hs & _).
  revert i j. induction n as [|n IH]; intros i j Hi Hj.
  - unfold tig_after. simpl. rewrite HT, vec_get_vec_make; [done|].
    rewrite HN. nia.
  - rewrite tig_after_S.
    destruct (tig_before_step_fields n s) as (Hc' & HN' & HT' & _).
    rewrite <- Hcfg, <- Hc'.
    apply tig_step_uniform.
    + by apply tig_before_step_sizes.
    + intros i' j' Hi' Hj'. rewrite HT', Hc', Hcfg. rewrite Hc', Hcfg in Hi', Hj'.
      by apply IH.
    + intros i' j' Hi' Hj'. rewrite Hc' in Hi', Hj' |- *.
      unfold tig_before_step.
      destruct (TIGSteps.compute_material_properties_fields
                  (TIG.apply_heat_source (tig_after n s)
                     (IZR (Z.of_nat (S n))
                      * TIG.TIGConfig.dt (TIG.config (tig_after n s)))).1)
        as (_ & _ & _ & _ & _ & _ & _ & _ & _ & ->).
      rewrite <- (tig_after_config n s).
      apply tig_Q_vol_zero; rewrite ?tig_after_config; try done.
      * by apply tig_after_sizes.
      * by rewrite Hcfg.
    + by rewrite Hc', Hcfg.
    + by rewrite Hc', Hcfg.
Qed.

Lemma weld_construct_power config sim :
  Weld.construct config = Weld.Constructed sim →
  Weld.SimulationConfig.eta (Weld.config_ sim) = (Weld.adjust_efficiency config).1 ∧
  Weld.Q_total_ sim
  = (Weld.adjust_efficiency config).1 * Weld.SimulationConfig.V config
    * Weld.SimulationConfig.I config.
Proof.
  unfold Weld.construct.
  destruct (_ || _)%Z eqn:Hneg; [done|].
  destruct ((Weld.SimulationConfig.nx config <? 2)%Z || _) eqn:Hsmall; [done|].
  by intros [= <-].
Qed.

(** C7, as the code has it.  On a state without a zero divisor and of
    moderate size ([weld_regular_state], [tig_regular_state]), if the total
    power [eta * V * I] is zero and the field is uniformly [T0] before a
    step, then after the step every grid cell is exactly [T0]: in
    [TIGSimulator] always, in [WeldingSimulation] provided [T0] does not
    exceed the safety ceiling [T_MAX_REASONABLE].  Hence, under the same
    proviso and on a configuration without a zero divisor and of moderate
    size ([weld_well_posed], [tig_well_posed]), the field of a constructed
    object stays at [T0] in every cell for all iterations of the time
    loop. *)
Theorem zero_power_keeps_ambient :
  (∀ sim t x_arc i j,
     WeldFacts.sizes_ok sim → weld_regular_state sim → Weld.Q_total_ sim = 0 →
     (∀ i j, (0 ≤ i < Weld.nx_ sim)%Z → (0 ≤ j < Weld.ny_ sim)%Z →
        vec_get (Weld.T_ sim) (Weld.idx (Weld.nx_ sim) i j)
        = Weld.SimulationConfig.T0 (Weld.config_ sim)) →
     Weld.SimulationConfig.T0 (Weld.config_ sim) <= Weld.T_MAX_REASONABLE →
     (0 ≤ i < Weld.nx_ sim)%Z → (0 ≤ j < Weld.ny_ sim)%Z →
     vec_get (Weld.T_ (Weld.solveTimeStep sim t
                         (Weld.Qvol_of (Weld.heat_source sim x_arc))))
             (Weld.idx (Weld.nx_ sim) i j)
     = Weld.SimulationConfig.T0 (Weld.config_ sim)) ∧
  (∀ s t i j,
     TIGFacts.sizes_ok s → tig_regular_state s →
     TIGSteps.Q_total (TIG.config s) = 0 →
     (∀ i j, (0 ≤ i < TIG.TIGConfig.nx (TIG.config s))%Z →
             (0 ≤ j < TIG.TIGConfig.ny (TIG.config s))%Z →
        vec_get (TIG.T s) (j * TIG.TIGConfig.nx (TIG.config s) + i)
        = TIG.TIGConfig.T0 (TIG.config s)) →
     (0 ≤ i < TIG.TIGConfig.nx (TIG.config s))%Z →
     (0 ≤ j < TIG.TIGConfig.ny (TIG.config s))%Z →
     vec_get (TIG.T (TIG.time_step_explicit
                       (TIG.compute_material_properties (TIG.apply_heat_source s t).1)))
             (j * TIG.TIGConfig.nx (TIG.config s) + i)
     = TIG.TIGConfig.T0 (TIG.config s)) ∧
  (∀ config sim n i j,
     Weld.construct config = Weld.Constructed sim → weld_well_posed config →
     (Weld.adjust_efficiency config).1 * Weld.SimulationConfig.V config
       * Weld.SimulationConfig.I config = 0 →
     Weld.SimulationConfig.T0 config <= Weld.T_MAX_REASONABLE →
     (0 ≤ i < Weld.SimulationConfig.nx config)%Z →
     (0 ≤ j < Weld.SimulationConfig.ny config)%Z →
     vec_get (Weld.T_ (weld_after n sim))
             (Weld.idx (Weld.SimulationConfig.nx config) i j)
     = Weld.SimulationConfig.T0 config) ∧
  (∀ cfg s n i j,
     TIG.construct cfg = TIG.Constructed s → tig_well_posed cfg →
     TIG.TIGConfig.eta cfg * TIG.TIGConfig.V cfg * TIG.TIGConfig.I cfg = 0 →
     (0 ≤ i < TIG.TIGConfig.nx cfg)%Z → (0 ≤ j < TIG.TIGConfig.ny cfg)%Z →
     vec_get (TIG.T (tig_after n s)) (j * TIG.TIGConfig.nx cfg + i)
     = TIG.TIGConfig.T0 cfg).
Proof.
  split; [|split; [|split]].
  - intros sim t x_arc i j Hs _ HQ HT Hmax Hi Hj.
    rewrite weld_step_uniform; [|done..| |done|done].
    + destruct (Weld.isBoundary _ _ _ _); [done|]. by apply clamp_fixed.
    + intros i' j' Hi' Hj'. by apply weld_Qvol_zero.
  - intros s t i j Hs _ HQ HT Hi Hj.
    set (s1 := (TIG.apply_heat_source s t).1).
    destruct (TIGSteps.compute_material_properties_fields s1)
      as (Hc & _ & _ & _ & _ & _ & HT1 & _ & _ & HQ1).
    destruct (TIGSteps.apply_heat_source_fields s t)
      as (Hc0 & _ & _ & _ & _ & _ & _ & HT0 & _). fold s1 in Hc0, HT0.
    assert (TIG.config (TIG.compute_material_properties s1) = TIG.config s) as Hcfg
      by (by rewrite Hc, Hc0).
    rewrite <- Hcfg. apply tig_step_uniform.
    + by apply TIGSteps.compute_material_properties_sizes,
        TIGSteps.apply_heat_source_sizes.
    + intros i' j' Hi' Hj'. rewrite HT1, HT0, Hcfg. rewrite Hcfg in Hi', Hj'. by apply HT.
    + intros i' j' Hi' Hj'. rewrite HQ1, Hcfg. rewrite Hcfg in Hi', Hj'.
      by apply tig_Q_vol_zero.
    + by rewrite Hcfg.
    + by rewrite Hcfg.
  - intros config sim n i j Hc _ HQ Hmax Hi Hj.
    apply weld_run_uniform; [done| |done..].
    by destruct (weld_construct_power _ _ Hc) as [_ ->].
  - intros cfg s n i j Hc _ HQ Hi Hj. by apply tig_run_uniform.
Qed.

(** C7 at a 3 x 3 grid with the current set to zero: the centre cell after
    four iterations, in both variants. *)
Lemma zero_power_keeps_ambient_witness :
  (∃ sim, Weld.construct (weld_config 3 3 293.0 0.0) = Weld.Constructed sim ∧
          vec_get (Weld.T_ (weld_after 4 sim)) 4 = 293.0) ∧
  (∃ s, TIG.construct (tig_config 3 3 293.0 0.0) = TIG.Constructed s ∧
        vec_get (TIG.T (tig_after 4 s)) 4 = 293.0).
Proof.
  split.
  - eexists. split; [reflexivity|].
    apply (proj1 (proj2 (proj2 zero_power_keeps_ambient))
             (weld_config 3 3 293.0 0.0) _ 4%nat 1%Z 1%Z);
      [reflexivity
      |apply weld_config_well_posed; [unfold INT_MAX; lia|unfold moderate; lra..]
      |cbn; lra
      |unfold Weld.T_MAX_REASONABLE; cbn; lra|cbn; lia..].
  - eexists. split; [reflexivity|].
    apply (proj2 (proj2 (proj2 zero_power_keeps_ambient))
             (tig_config 3 3 293.0 0.0) _ 4%nat 1%Z 1%Z);
      [reflexivity
      |apply tig_config_well_posed; [lia|lia|unfold INT_MAX; lia|unfold moderate; lra..]
      |cbn; lra
      |cbn; lia..].
Defined.

(** C7 as stated fails in [WeldingSimulation] when the ambient temperature is
    above the ceiling: with [T0 = 6000] and no power, the field is uniformly
    [T0] before the first step, and the interior cell [(1, 1)] is 5000 after
    it. *)
Lemma zero_power_counterexample :
  ∃ sim, Weld.construct (weld_config 151 101 6000.0 0.0) = Weld.Constructed sim ∧
    Weld.Q_total_ sim = 0 ∧
    (∀ i j, (0 ≤ i < 151)%Z → (0 ≤ j < 101)%Z →
       vec_get (Weld.T_ sim) (Weld.idx 151 i j) = 6000.0) ∧
    vec_get (Weld.T_ (weld_after 1 sim)) (Weld.idx 151 1 1) = 5000.0 ∧
    5000.0 ≠ Weld.SimulationConfig.T0 (weld_config 151 101 6000.0 0.0).
Proof.
  destruct (WeldSource.construct_succeeds (weld_config 151 101 6000.0 0.0))
    as [sim Hc]; [cbn; lia..|].
  exists sim. split; [done|].
  pose proof (WeldRun.construct_sizes _ _ Hc) as Hs.
  destruct (WeldRun.construct_inv _ _ Hc) as (_ & _ & Hnx & Hny & HN & Hcfg & HT & _).
  destruct (weld_construct_power _ _ Hc) as [_ HQ].
  assert (Weld.Q_total_ sim = 0) as HQ0 by (rewrite HQ; cbn; lra).
  assert (∀ i j, (0 ≤ i < 151)%Z → (0 ≤ j < 101)%Z →
            vec_get (Weld.T_ sim) (Weld.idx 151 i j) = 6000.0) as Hunif.
  { intros i j Hi Hj. rewrite HT, vec_get_vec_make; [done|].
    rewrite HN. unfold Weld.idx. cbn. lia. }
  split; [done|]. split; [done|]. split; [|cbn; lra].
  rewrite weld_after_S.
  change (weld_after 0 sim) with sim.
  change 151%Z with (Weld.SimulationConfig.nx (weld_config 151 101 6000.0 0.0)).
  rewrite <- Hnx.
  rewrite weld_step_uniform.
  - assert (Weld.isBoundary (Weld.nx_ sim) (Weld.ny_ sim) 1 1 = false) as ->.
    { rewrite Hnx, Hny. reflexivity. }
    rewrite Hcfg. cbn [Weld.SimulationConfig.T0 Weld.SimulationConfig.set_eta weld_config].
    rewrite clamp_above; unfold Weld.T_MAX_REASONABLE; lra.
  - done.
  - intros i j Hi Hj. rewrite Hcfg, Hnx.
    rewrite Hnx in Hi. rewrite Hny in Hj. by apply Hunif.
  - intros i j Hi Hj. unfold weld_Qvol. by apply weld_Qvol_zero.
  - rewrite Hnx. cbn. lia.
  - rewrite Hny. cbn. lia.
Qed.

(** ** The update of an interior cell *)

(** The update of the specification (section 4.4, steps 1 to 6) for one
    interior cell: [k], [rho], [cp] are the properties of the owning material
    at the previous temperature [Tc] of the cell, [Txm], [Txp], [Tym], [Typ]
    the previous temperatures of its four neighbours, [Q] the volumetric
    source of the cell. *)
Definition effective_step (dt dx dy : R) (alpha : R) : R :=
  let dt_max := 0.4 / (alpha * (1 / dx ^ 2 + 1 / dy ^ 2)) in
  Rmin dt dt_max.

Definition spec_update (dt dx dy : R) (k rho cp : R) (Tc Txm Txp Tym Typ : R)
    (Q : R) : R :=
  let alpha := k / (rho * cp) in
  let d2T_dx2 := (Txp - 2 * Tc + Txm) / dx ^ 2 in
  let d2T_dy2 := (Typ - 2 * Tc + Tym) / dy ^ 2 in
  let dt_eff := effective_step dt dx dy alpha in
  Tc + dt_eff * (alpha * (d2T_dx2 + d2T_dy2) + Q / (rho * cp)).

(** The same update with the nominal step [dt] in place of [dt_eff]. *)
Definition nominal_update (dt dx dy : R) (k rho cp : R) (Tc Txm Txp Tym Typ : R)
    (Q : R) : R :=
  let alpha := k / (rho * cp) in
  let d2T_dx2 := (Txp - 2 * Tc + Txm) / dx ^ 2 in
  let d2T_dy2 := (Typ - 2 * Tc + Tym) / dy ^ 2 in
  Tc + dt * (alpha * (d2T_dx2 + d2T_dy2) + Q / (rho * cp)).

(** The specification's update at cell [(i, j)] of a [WeldingSimulation]. *)
Definition weld_spec_update (sim : Weld.WeldingSimulation) (Qvol : list R)
    (i j : Z) : R :=
  let nx := Weld.nx_ sim in
  let index := Weld.idx nx i j in
  let mat := Weld.material_at sim index in
  let Tc := vec_get (Weld.T_ sim) index in
  spec_update (Weld.SimulationConfig.dt (Weld.config_ sim)) (Weld.dx_ sim) (Weld.dy_ sim)
    (Weld.Material.get_k mat Tc) (Weld.Material.get_rho mat Tc)
    (Weld.Material.get_cp mat Tc)
    Tc
    (vec_get (Weld.T_ sim) (Weld.idx nx (i - 1) j))
    (vec_get (Weld.T_ sim) (Weld.idx nx (i + 1) j))
    (vec_get (Weld.T_ sim) (Weld.idx nx i (j - 1)))
    (vec_get (Weld.T_ sim) (Weld.idx nx i (j + 1)))
    (vec_get Qvol index).

(** The specification's update, and the update with the nominal step, at cell
    [idx] of a [TIGSimulator] [s] whose property arrays are about to be
    recomputed from its field [T]. *)
Definition tig_spec_update (s : TIG.TIGSimulator) (idx : Z) : R :=
  let nx := TIG.TIGConfig.nx (TIG.config s) in
  spec_update (TIG.TIGConfig.dt (TIG.config s)) (TIG.dx s) (TIG.dy s)
    (TIGSteps.k_of s idx) (TIGSteps.rho_of s idx) (TIGSteps.cp_of s idx)
    (vec_get (TIG.T s) idx)
    (vec_get (TIG.T s) (idx - 1)) (vec_get (TIG.T s) (idx + 1))
    (vec_get (TIG.T s) (idx - nx)) (vec_get (TIG.T s) (idx + nx))
    (vec_get (TIG.Q_vol s) idx).

Definition tig_nominal_update (s : TIG.TIGSimulator) (idx : Z) : R :=
  let nx := TIG.TIGConfig.nx (TIG.config s) in
  nominal_update (TIG.TIGConfig.dt (TIG.config s)) (TIG.dx s) (TIG.dy s)
    (TIGSteps.k_of s idx) (TIGSteps.rho_of s idx) (TIGSteps.cp_of s idx)
    (vec_get (TIG.T s) idx)
    (vec_get (TIG.T s) (idx - 1)) (vec_get (TIG.T s) (idx + 1))
    (vec_get (TIG.T s) (idx - nx)) (vec_get (TIG.T s) (idx + nx))
    (vec_get (TIG.Q_vol s) idx).

(** The object after the heat source of iteration [S n] has been applied. *)
Definition tig_source_step (n : nat) (s : TIG.TIGSimulator) : TIG.TIGSimulator :=
  (TIG.apply_heat_source (tig_after n s)
     (IZR (Z.of_nat (S n)) * TIG.TIGConfig.dt (TIG.config (tig_after n s)))).1.

Lemma weld_interior_update_spec sim Qvol i j :
  WeldFacts.sizes_ok sim →
  (0 < i < Weld.nx_ sim - 1)%Z → (0 < j < Weld.ny_ sim - 1)%Z →
  Weld.interior_update sim (Weld.computeMaterialProperties sim (Weld.T_ sim)) Qvol i j
  = weld_spec_update sim Qvol i j.
Proof.
  intros Hs Hi Hj.
  assert (0 ≤ Weld.idx (Weld.nx_ sim) i j < Weld.N_ sim)%Z as Hidx.
  { rewrite (WeldFacts.sizes_N sim Hs). unfold Weld.idx. nia. }
  unfold Weld.interior_update, weld_spec_update, spec_update, effective_step.
  rewrite WeldFacts.computeMaterialProperties_k,
    WeldFacts.computeMaterialProperties_rho,
    WeldFacts.computeMaterialProperties_cp by done.
  rewrite std_min_spec_top. simpl. rewrite !Rmult_1_r.
  replace 2.0 with 2 by lra. replace 1.0 with 1 by lra. done.
Qed.

Lemma tig_interior_update_nominal s i j :
  TIGFacts.sizes_ok s →
  (0 < i < TIG.TIGConfig.nx (TIG.config s) - 1)%Z →
  (0 < j < TIG.TIGConfig.ny (TIG.config s) - 1)%Z →
  TIG.T (TIG.time_step_explicit (TIG.compute_material_properties s))
    !! Z.to_nat (j * TIG.TIGConfig.nx (TIG.config s) + i)
  = Some (tig_nominal_update s (j * TIG.TIGConfig.nx (TIG.config s) + i)).
Proof.
  intros Hs Hi Hj.
  destruct (TIGSteps.compute_material_properties_fields s)
    as (Hc & HN & Hdx & Hdy & _ & _ & HT & _ & _ & HQ).
  pose proof (TIGSteps.compute_material_properties_sizes s Hs) as Hs'.
  rewrite <- Hc at 1.
  rewrite TIGRun.time_step_interior by (done || by rewrite Hc).
  f_equal. rewrite Hc.
  set (idx := (j * TIG.TIGConfig.nx (TIG.config s) + i)%Z).
  assert (0 ≤ idx < TIG.N s)%Z as Hidx.
  { rewrite (TIGFacts.sizes_N s Hs). unfold idx. nia. }
  unfold TIG.interior_update, tig_nominal_update, nominal_update.
  rewrite Hc, HT, HQ, Hdx, Hdy.
  rewrite TIGSteps.compute_material_properties_alpha,
    TIGSteps.compute_material_properties_rho,
    TIGSteps.compute_material_properties_cp by (done || apply Hs).
  simpl. rewrite !Rmult_1_r. replace 2.0 with 2 by lra. done.
Qed.

(** *** The first step of [TIGSimulator] at its default configuration *)

Lemma tig_goldak_flux_pos Q a b cf cr ff fr xi eta :
  0 < Q → 0 < a → 0 < b → 0 < cf → 0 < cr → 0 < ff → 0 < fr →
  0 < TIG.goldak_flux Q a b cf cr ff fr xi eta.
Proof.
  intros HQ Ha Hb Hcf Hcr Hff Hfr. unfold TIG.goldak_flux.
  pose proof PI_RGT_0 as Hpi.
  pose proof (sqrt_lt_R0 PI Hpi) as Hsq.
  assert (∀ f c, 0 < f → 0 < c → 0 < 6.0 * f * Q / (a * b * c * PI * sqrt PI)) as Hc.
  { intros f c Hf Hc0. apply Rdiv_lt_0_compat.
    - apply Rmult_lt_0_compat; [|done]. lra.
    - repeat (apply Rmult_lt_0_compat; [|done]). done. }
  destruct (Rge_dec _ _); (apply Rmult_lt_0_compat; [by apply Hc|apply exp_pos]).
Qed.

(** Mild steel at room temperature on the default 1 mm grid: the stability
    bound is below the default step of 0.02 s. *)
Lemma default_dt_max :
  0.4 / (45.0 / (7850.0 * 500.0)
         * (1 / (0.15 / IZR (151 - 1)) ^ 2 + 1 / (0.10 / IZR (101 - 1)) ^ 2)) < 0.02.
Proof.
  change (151 - 1)%Z with 150%Z. change (101 - 1)%Z with 100%Z.
  replace (0.15 / 150) with 0.001 by lra.
  replace (0.10 / 100) with 0.001 by lra.
  replace (0.001 ^ 2) with 0.000001 by lra.
  replace (1 / 0.000001) with 1000000 by lra.
  lra.
Qed.

Lemma tig_construct_succeeds cfg :
  (0 ≤ TIG.TIGConfig.nx cfg * TIG.TIGConfig.ny cfg)%Z →
  ∃ s, TIG.construct cfg = TIG.Constructed s.
Proof.
  intros H. unfold TIG.construct.
  destruct (_ <? 0)%Z eqn:Hneg; [apply Z.ltb_lt in Hneg; lia|eauto].
Qed.

Lemma tig_source_step_fields n s :
  let s' := tig_source_step n s in
  TIG.config s' = TIG.config s ∧ TIG.N s' = TIG.N (tig_after n s) ∧
  TIG.dx s' = TIG.dx (tig_after n s) ∧ TIG.dy s' = TIG.dy (tig_after n s) ∧
  TIG.midpoint s' = TIG.midpoint (tig_after n s) ∧
  TIG.X s' = TIG.X (tig_after n s) ∧ TIG.Y s' = TIG.Y (tig_after n s) ∧
  TIG.T s' = TIG.T (tig_after n s).
Proof.
  intros s'. unfold s', tig_source_step.
  destruct (TIGSteps.apply_heat_source_fields (tig_after n s)
    (IZR (Z.of_nat (S n)) * TIG.TIGConfig.dt (TIG.config (tig_after n s))))
    as (-> & -> & -> & -> & -> & -> & -> & -> & _).
  by rewrite tig_after_config.
Qed.

(** C1 as stated fails in [TIGSimulator]: at the default configuration, in
    the first step, the cell [(20, 50)] next to the arc (index 7570, mild
    steel) is advanced by the nominal step 0.02 s, although the stability
    bound of the cell is smaller; the value stored is strictly above the one
    the effective step of the specification gives. *)
Lemma interior_cell_update_counterexample :
  ∃ s, TIG.construct TIG.TIGConfig.default = TIG.Constructed s ∧
    vec_get (TIG.T (tig_after 1 s)) 7570 = tig_nominal_update (tig_source_step 0 s) 7570 ∧
    tig_spec_update (tig_source_step 0 s) 7570
      < tig_nominal_update (tig_source_step 0 s) 7570.
Proof.
  destruct (tig_construct_succeeds TIG.TIGConfig.default) as [s Hc]; [cbn; lia|].
  exists s. split; [done|].
  destruct (TIGCtor.tig_construct_inv _ _ Hc)
    as (Hcfg & HN & Hdx & Hdy & Hmid & HT & _ & Hs & HXY).
  set (s1 := tig_source_step 0 s).
  destruct (tig_source_step_fields 0 s)
    as (Hc1 & HN1 & Hdx1 & Hdy1 & Hmid1 & HX1 & _ & HT1).
  fold s1 in Hc1, HN1, Hdx1, Hdy1, Hmid1, HX1, HT1.
  change (tig_after 0 s) with s in *.
  assert (TIGFacts.sizes_ok s1) as Hs1 by (by apply TIGSteps.apply_heat_source_sizes).
  split.
  - apply vec_get_lookup.
    pose proof (tig_interior_update_nominal s1 20 50 Hs1) as H.
    rewrite Hc1, Hcfg in H. apply H; cbn; lia.
  - assert (∀ idx, (0 ≤ idx < 15251)%Z → vec_get (TIG.T s1) idx = 293.0) as HTv.
    { intros idx Hidx. rewrite HT1, HT, vec_get_vec_make; [done|]. rewrite HN. cbn. lia. }
    assert (vec_get (TIG.X s1) 7570 = 0.02) as HX.
    { rewrite HX1. destruct (HXY 20%Z 50%Z) as [HXv _]; [cbn; lia..|].
      assert (vec_get (TIG.X s) 7570 = IZR 20 * TIG.dx s) as ->
        by (apply vec_get_lookup; exact HXv).
      rewrite Hdx. cbn. change (151 - 1)%Z with 150%Z. lra. }
    assert (0 < vec_get (TIG.Q_vol s1) 7570) as HQ.
    { assert (TIGSteps.arc_position s (IZR (Z.of_nat 1) * TIG.TIGConfig.dt (TIG.config s))
              <= TIG.TIGConfig.Lx (TIG.config s)) as Hon.
      { unfold TIGSteps.arc_position. rewrite Hcfg. cbn.
        change (Z.of_nat 1) with 1%Z. lra. }
      destruct (TIGSteps.apply_heat_source_on s _ 20 50 Hs Hon) as (_ & _ & HQv);
        [rewrite Hcfg; cbn; lia..|].
      unfold s1, tig_source_step. change (tig_after 0 s) with s.
      rewrite Hcfg in HQv |- *.
      erewrite vec_get_lookup by exact HQv.
      unfold TIGSteps.flux_at, TIGSteps.Q_total. rewrite Hcfg.
      apply tig_goldak_flux_pos; cbn; lra. }
    unfold tig_spec_update, tig_nominal_update, spec_update, nominal_update,
      effective_step.
    unfold TIGSteps.k_of, TIGSteps.rho_of, TIGSteps.cp_of.
    rewrite Hc1, Hcfg, Hmid1, Hmid, Hdx1, Hdx, Hdy1, Hdy, HX.
    rewrite !HTv by (cbn; lia).
    destruct (Rlt_dec 0.02 _) as [_|Hn]; [|exfalso; apply Hn; cbn; lra].
    unfold TIG.get_k, TIG.get_rho, TIG.get_cp.
    cbn [TIG.TIGConfig.mat_1_k TIG.TIGConfig.mat_1_rho TIG.TIGConfig.mat_1_cp
         TIG.TIGConfig.mat_1_T_crit TIG.TIGConfig.mat_1_T_melt TIG.TIGConfig.default
         TIG.TIGConfig.dt TIG.TIGConfig.Lx TIG.TIGConfig.Ly TIG.TIGConfig.nx
         TIG.TIGConfig.ny].
    destruct (Rlt_dec 293.0 1273.0) as [_|Hn]; [|lra].
    rewrite Rmin_right by (left; apply default_dt_max).
    set (q := vec_get (TIG.Q_vol s1) 7570) in *.
    replace (293.0 - 2 * 293.0 + 293.0) with 0 by lra.
    replace (0 / (0.15 / IZR (151 - 1)) ^ 2) with 0 by (unfold Rdiv; ring).
    replace (0 / (0.10 / IZR (101 - 1)) ^ 2) with 0 by (unfold Rdiv; ring).
    rewrite Rplus_0_r, Rmult_0_r, Rplus_0_l.
    apply Rplus_lt_compat_l. apply Rmult_lt_compat_r.
    + apply Rdiv_lt_0_compat; lra.
    + apply default_dt_max.
Qed.

(** C1, as the code has it.  In [WeldingSimulation::solveTimeStep] the update
    statement of every interior cell assigns
    [T_old + dt_eff * (alpha * (d2T/dx2 + d2T/dy2) + Q_vol / (rho * cp))],
    with [alpha], [rho], [cp] taken at the previous temperature of the cell,
    the five-point Laplacian of the previous field and
    [dt_eff = min(dt, 0.4 / (alpha * (1/dx^2 + 1/dy^2)))] computed for the
    cell; the value is then clamped and stored.  In
    [TIGSimulator::time_step_explicit] the same expression is stored with the
    nominal [dt] in place of [dt_eff].  The effective step differs between
    cells: at room temperature on the default grid it is below [dt] for mild
    steel and equal to [dt] for stainless steel. *)
Theorem interior_cell_update :
  (∀ sim t Qvol i j,
     WeldFacts.sizes_ok sim →
     (0 < i < Weld.nx_ sim - 1)%Z → (0 < j < Weld.ny_ sim - 1)%Z →
     Weld.interior_update sim (Weld.computeMaterialProperties sim (Weld.T_ sim)) Qvol i j
       = weld_spec_update sim Qvol i j ∧
     Weld.T_ (Weld.solveTimeStep sim t Qvol) !! Z.to_nat (Weld.idx (Weld.nx_ sim) i j)
       = Some (Weld.clamp (Weld.SimulationConfig.T0 (Weld.config_ sim))
                 (weld_spec_update sim Qvol i j))) ∧
  (∀ s i j,
     TIGFacts.sizes_ok s →
     (0 < i < TIG.TIGConfig.nx (TIG.config s) - 1)%Z →
     (0 < j < TIG.TIGConfig.ny (TIG.config s) - 1)%Z →
     TIG.T (TIG.time_step_explicit (TIG.compute_material_properties s))
       !! Z.to_nat (j * TIG.TIGConfig.nx (TIG.config s) + i)
     = Some (tig_nominal_update s (j * TIG.TIGConfig.nx (TIG.config s) + i))) ∧
  effective_step 0.02 0.001 0.001 (45.0 / (7850.0 * 500.0))
    < effective_step 0.02 0.001 0.001 (16.3 / (7900.0 * 500.0)).
Proof.
  split; [|split].
  - intros sim t Qvol i j Hs Hi Hj. split.
    + by apply weld_interior_update_spec.
    + rewrite WeldRun.step_interior by done.
      by rewrite weld_interior_update_spec.
  - intros s i j Hs Hi Hj. by apply tig_interior_update_nominal.
  - unfold effective_step.
    replace (0.001 ^ 2) with 0.000001 by lra.
    replace (1 / 0.000001) with 1000000 by lra.
    rewrite Rmin_right by lra. rewrite Rmin_left by lra. lra.
Qed.

(** C1 at a 3 x 3 grid: the centre cell in the first step, in both variants. *)
Lemma interior_cell_update_witness :
  (∃ sim, Weld.construct (weld_config 3 3 293.0 150.0) = Weld.Constructed sim ∧
     Weld.T_ (Weld.solveTimeStep sim 0.02 (weld_Qvol 0 sim)) !! 4%nat
     = Some (Weld.clamp 293.0 (weld_spec_update sim (weld_Qvol 0 sim) 1 1))) ∧
  (∃ s, TIG.construct (tig_config 3 3 293.0 150.0) = TIG.Constructed s ∧
     TIG.T (TIG.time_step_explicit (TIG.compute_material_properties s)) !! 4%nat
     = Some (tig_nominal_update s 4)).
Proof.
  split.
  - eexists. split; [reflexivity|].
    lazymatch goal with
    | |- Weld.T_ (Weld.solveTimeStep ?sim _ ?Q) !! _ = _ =>
        exact (proj2 (proj1 interior_cell_update sim 0.02 Q 1%Z 1%Z
                        (WeldFacts.Build_sizes_ok sim eq_refl eq_refl eq_refl)
                        (conj eq_refl eq_refl) (conj eq_refl eq_refl)))
    end.
  - eexists. split; [reflexivity|].
    lazymatch goal with
    | |- TIG.T (TIG.time_step_explicit (TIG.compute_material_properties ?s)) !! _ = _ =>
        exact (proj1 (proj2 interior_cell_update) s 1%Z 1%Z
                 (TIGFacts.Build_sizes_ok s eq_refl eq_refl eq_refl eq_refl eq_refl
                    eq_refl eq_refl eq_refl eq_refl)
                 (conj eq_refl eq_refl) (conj eq_refl eq_refl))
    end.
Defined.

(** ** The safety clamp *)

Lemma weld_step_range sim t Qvol i j :
  WeldFacts.sizes_ok sim →
  Weld.SimulationConfig.T0 (Weld.config_ sim) <= Weld.T_MAX_REASONABLE →
  (0 ≤ i < Weld.nx_ sim)%Z → (0 ≤ j < Weld.ny_ sim)%Z →
  Weld.SimulationConfig.T0 (Weld.config_ sim)
    <= vec_get (Weld.T_ (Weld.solveTimeStep sim t Qvol)) (Weld.idx (Weld.nx_ sim) i j)
    <= Weld.T_MAX_REASONABLE.
Proof.
  intros Hs Hmax Hi Hj.
  rewrite (vec_get_lookup _ _ _ (WeldRun.step_cell sim t Qvol i j Hs Hi Hj)).
  unfold Weld.cell_value. destruct (Weld.isBoundary _ _ _ _); [lra|].
  by apply WeldRun.clamp_range.
Qed.

Lemma weld_run_range config sim n i j :
  Weld.construct config = Weld.Constructed sim →
  Weld.SimulationConfig.T0 config <= Weld.T_MAX_REASONABLE →
  (0 ≤ i < Weld.SimulationConfig.nx config)%Z →
  (0 ≤ j < Weld.SimulationConfig.ny config)%Z →
  Weld.SimulationConfig.T0 config
    <= vec_get (Weld.T_ (weld_after n sim))
               (Weld.idx (Weld.SimulationConfig.nx config) i j)
    <= Weld.T_MAX_REASONABLE.
Proof.
  intros Hc Hmax Hi Hj.
  pose proof (WeldRun.construct_sizes _ _ Hc) as Hs.
  destruct (WeldRun.construct_inv _ _ Hc) as (_ & _ & Hnx & Hny & HN & Hcfg & HT & _).
  destruct n as [|n].
  - unfold weld_after. simpl. rewrite HT, vec_get_vec_make; [lra|].
    rewrite HN. unfold Weld.idx. nia.
  - rewrite weld_after_S.
    destruct (weld_after_frame n sim) as (Hc' & Hnx' & Hny' & _).
    assert (Weld.SimulationConfig.T0 (Weld.config_ (weld_after n sim))
            = Weld.SimulationConfig.T0 config) as HT0 by (by rewrite Hc', Hcfg).
    rewrite <- HT0, <- Hnx, <- Hnx'.
    apply weld_step_range.
    + by apply weld_after_sizes.
    + by rewrite HT0.
    + lia.
    + lia.
Qed.

(** C5, as the code has it.  In [WeldingSimulation::solveTimeStep] the result
    of every interior-cell update is passed through the clamp: a value above
    [T_MAX_REASONABLE = 5000] becomes 5000, otherwise a value below [T0]
    becomes [T0], otherwise it is kept; the step returns the next state in
    every case, there is no error outcome.  The three cases are those of a
    number: they are stated for a state without a zero divisor and of
    moderate size ([weld_regular_state]) and a source of moderate size,
    where the update is one.  Consequently, when [T0 <= 5000], every grid
    cell satisfies [T0 <= T[idx] <= 5000] after every step from such a
    state, and after every step of the run of a configuration without a zero
    divisor and of moderate size ([weld_well_posed]).
    [TIGSimulator::time_step_explicit] has no clamp: it stores the update of
    an interior cell as computed. *)
Theorem interior_update_clamped :
  (∀ sim t Qvol i j,
     WeldFacts.sizes_ok sim → weld_regular_state sim → Forall moderate Qvol →
     (0 < i < Weld.nx_ sim - 1)%Z → (0 < j < Weld.ny_ sim - 1)%Z →
     let v := Weld.interior_update sim
                (Weld.computeMaterialProperties sim (Weld.T_ sim)) Qvol i j in
     let T0 := Weld.SimulationConfig.T0 (Weld.config_ sim) in
     Weld.T_ (Weld.solveTimeStep sim t Qvol) !! Z.to_nat (Weld.idx (Weld.nx_ sim) i j)
       = Some (Weld.clamp T0 v) ∧
     ((5000 < v ∧ Weld.clamp T0 v = 5000) ∨
      (v <= 5000 ∧ v < T0 ∧ Weld.clamp T0 v = T0) ∨
      (T0 <= v <= 5000 ∧ Weld.clamp T0 v = v))) ∧
  (∀ sim t Qvol i j,
     WeldFacts.sizes_ok sim → weld_regular_state sim → Forall moderate Qvol →
     Weld.SimulationConfig.T0 (Weld.config_ sim) <= 5000 →
     (0 ≤ i < Weld.nx_ sim)%Z → (0 ≤ j < Weld.ny_ sim)%Z →
     Weld.SimulationConfig.T0 (Weld.config_ sim)
       <= vec_get (Weld.T_ (Weld.solveTimeStep sim t Qvol)) (Weld.idx (Weld.nx_ sim) i j)
       <= 5000) ∧
  (∀ config sim n i j,
     Weld.construct config = Weld.Constructed sim → weld_well_posed config →
     Weld.SimulationConfig.T0 config <= 5000 →
     (0 ≤ i < Weld.SimulationConfig.nx config)%Z →
     (0 ≤ j < Weld.SimulationConfig.ny config)%Z →
     Weld.SimulationConfig.T0 config
       <= vec_get (Weld.T_ (weld_after n sim))
                  (Weld.idx (Weld.SimulationConfig.nx config) i j)
       <= 5000) ∧
  (∀ s i j,
     TIGFacts.sizes_ok s →
     (0 < i < TIG.TIGConfig.nx (TIG.config s) - 1)%Z →
     (0 < j < TIG.TIGConfig.ny (TIG.config s) - 1)%Z →
     TIG.T (TIG.time_step_explicit s)
       !! Z.to_nat (j * TIG.TIGConfig.nx (TIG.config s) + i)
     = Some (TIG.interior_update s (j * TIG.TIGConfig.nx (TIG.config s) + i))).
Proof.
  assert (Weld.T_MAX_REASONABLE = 5000) as Hmax
    by (unfold Weld.T_MAX_REASONABLE; lra).
  split; [|split; [|split]].
  - intros sim t Qvol i j Hs _ _ Hi Hj v T0. split.
    + by apply WeldRun.step_interior.
    + rewrite <- Hmax. apply WeldRun.clamp_cases.
  - intros sim t Qvol i j Hs _ _ H0 Hi Hj. rewrite <- Hmax in *.
    by apply weld_step_range.
  - intros config sim n i j Hc _ H0 Hi Hj. rewrite <- Hmax in *.
    by apply weld_run_range.
  - intros s i j Hs Hi Hj. by apply TIGRun.time_step_interior.
Qed.

(** C5 on the 3 x 3 grid whose centre cell the arc heats in the first step:
    the centre cell after three iterations. *)
Lemma interior_update_clamped_witness :
  ∃ sim, Weld.construct (weld_pass_config 150.0) = Weld.Constructed sim ∧
    293.0 <= vec_get (Weld.T_ (weld_after 3 sim)) 4 <= 5000.
Proof.
  eexists. split; [reflexivity|].
  apply (proj1 (proj2 (proj2 interior_update_clamped))
           (weld_pass_config 150.0) _ 3%nat 1%Z 1%Z);
    [reflexivity
    |apply weld_pass_config_well_posed; unfold moderate; lra
    |cbn; lra
    |cbn; lia..].
Defined.

(** *** Without a clamp: the first step of [TIGSimulator] next to the arc *)

Lemma Rle_div_r (a b c : R) : 0 < c → a * c <= b → a <= b / c.
Proof.
  intros Hc H. apply (Rmult_le_reg_r c); [done|].
  unfold Rdiv. rewrite Rmult_assoc, Rinv_l, Rmult_1_r by lra. done.
Qed.

Lemma PI_sqrt_PI_le_8 : PI * sqrt PI <= 8.
Proof.
  pose proof PI_4 as H4. pose proof PI_RGT_0 as H0.
  assert (sqrt PI <= 2) as Hs.
  { replace 2 with (sqrt 4) by (replace 4 with (2 * 2) by lra; apply sqrt_square; lra).
    apply sqrt_le_1; lra. }
  pose proof (sqrt_pos PI). nra.
Qed.

Lemma hot_flux_bound :
  1000000000000 <
  TIG.goldak_flux (0.75 * 25.0 * 15000.0) 0.004 0.003 0.003 0.008 0.6 1.4
    (0.02 - (0.02 + 0.006 * (1 * 0.02))) (0 - 0.0).
Proof.
  unfold TIG.goldak_flux.
  destruct (Rge_dec _ _) as [Hge|_]; [lra|].
  set (arg := - 3.0 * _).
  assert (-0.001 <= arg) as Harg by (unfold arg; lra).
  pose proof (exp_ineq1_le arg) as Hexp.
  pose proof PI_sqrt_PI_le_8 as H8.
  pose proof PI_RGT_0 as Hpi. pose proof (sqrt_lt_R0 PI Hpi) as Hsq.
  assert (0 < PI * sqrt PI) as Hp by (by apply Rmult_lt_0_compat).
  set (c := 6.0 * 1.4 * (0.75 * 25.0 * 15000.0) / (0.004 * 0.003 * 0.008 * PI * sqrt PI)).
  assert (3000000000000 <= c) as Hc.
  { unfold c. replace (0.004 * 0.003 * 0.008 * PI * sqrt PI)
      with (0.000000096 * (PI * sqrt PI)) by lra.
    apply Rle_div_r; nra. }
  nra.
Qed.

Lemma tig_first_step_near_arc I :
  ∃ s, TIG.construct (tig_config 151 101 293.0 I) = TIG.Constructed s ∧
    vec_get (TIG.T (tig_after 1 s)) 7570
    = 293.0 + 0.02 *
        (TIG.goldak_flux (0.75 * 25.0 * I) 0.004 0.003 0.003 0.008 0.6 1.4
           (0.02 - (0.02 + 0.006 * (1 * 0.02))) (0 - 0.0)
         / (7850.0 * 500.0)).
Proof.
  set (cfg := tig_config 151 101 293.0 I).
  destruct (tig_construct_succeeds cfg) as [s Hc]; [cbn; lia|].
  exists s. split; [done|].
  destruct (TIGCtor.tig_construct_inv _ _ Hc)
    as (Hcfg & HN & Hdx & Hdy & Hmid & HT & _ & Hs & HXY).
  set (s1 := tig_source_step 0 s).
  destruct (tig_source_step_fields 0 s)
    as (Hc1 & HN1 & Hdx1 & Hdy1 & Hmid1 & HX1 & HY1 & HT1).
  fold s1 in Hc1, HN1, Hdx1, Hdy1, Hmid1, HX1, HY1, HT1.
  change (tig_after 0 s) with s in *.
  assert (TIGFacts.sizes_ok s1) as Hs1 by (by apply TIGSteps.apply_heat_source_sizes).
  assert (vec_get (TIG.T (tig_after 1 s)) 7570 = tig_nominal_update s1 7570) as ->.
  { apply vec_get_lookup.
    pose proof (tig_interior_update_nominal s1 20 50 Hs1) as H.
    rewrite Hc1, Hcfg in H. apply H; cbn; lia. }
  assert (∀ idx, (0 ≤ idx < 15251)%Z → vec_get (TIG.T s1) idx = 293.0) as HTv.
  { intros idx Hidx. rewrite HT1, HT, vec_get_vec_make; [done|]. rewrite HN. cbn. lia. }
  destruct (HXY 20%Z 50%Z) as [HXv HYv]; [cbn; lia..|].
  assert (vec_get (TIG.X s) 7570 = 0.02) as HX.
  { erewrite vec_get_lookup by exact HXv.
    rewrite Hdx. cbn. change (151 - 1)%Z with 150%Z. lra. }
  assert (vec_get (TIG.Y s) 7570 = 0) as HY.
  { erewrite vec_get_lookup by exact HYv.
    rewrite Hdy. cbn. change (101 - 1)%Z with 100%Z. lra. }
  assert (vec_get (TIG.Q_vol s1) 7570
          = TIG.goldak_flux (0.75 * 25.0 * I) 0.004 0.003 0.003 0.008 0.6 1.4
              (0.02 - (0.02 + 0.006 * (1 * 0.02))) (0 - 0.0)) as HQ.
  { assert (TIGSteps.arc_position s (IZR (Z.of_nat 1) * TIG.TIGConfig.dt (TIG.config s))
            <= TIG.TIGConfig.Lx (TIG.config s)) as Hon.
    { unfold TIGSteps.arc_position. rewrite Hcfg. cbn.
      change (Z.of_nat 1) with 1%Z. lra. }
    destruct (TIGSteps.apply_heat_source_on s _ 20 50 Hs Hon) as (_ & _ & HQv);
      [rewrite Hcfg; cbn; lia..|].
    unfold s1, tig_source_step. change (tig_after 0 s) with s.
    rewrite Hcfg in HQv |- *.
    erewrite vec_get_lookup by exact HQv.
    unfold TIGSteps.flux_at, TIGSteps.Q_total, TIGSteps.arc_position.
    rewrite Hcfg. cbn -[TIG.goldak_flux]. fold cfg.
    change (50 * 151 + 20)%Z with 7570%Z. rewrite HX, HY. done. }
  unfold tig_nominal_update, nominal_update.
  unfold TIGSteps.k_of, TIGSteps.rho_of, TIGSteps.cp_of.
  rewrite Hc1, Hcfg, Hmid1, Hmid, Hdx1, Hdx, Hdy1, Hdy, HX1, HX, HQ.
  rewrite !HTv by (cbn; lia).
  destruct (Rlt_dec 0.02 _) as [_|Hn]; [|exfalso; apply Hn; cbn; lra].
  unfold TIG.get_k, TIG.get_rho, TIG.get_cp.
  cbn [TIG.TIGConfig.mat_1_k TIG.TIGConfig.mat_1_rho TIG.TIGConfig.mat_1_cp
       TIG.TIGConfig.mat_1_T_crit TIG.TIGConfig.mat_1_T_melt cfg tig_config
       TIG.TIGConfig.dt TIG.TIGConfig.Lx TIG.TIGConfig.Ly TIG.TIGConfig.nx
       TIG.TIGConfig.ny].
  destruct (Rlt_dec 293.0 1273.0) as [_|Hn]; [|lra].
  replace (293.0 - 2 * 293.0 + 293.0) with 0 by lra.
  replace (0 / (0.15 / IZR (151 - 1)) ^ 2) with 0 by (unfold Rdiv; ring).
  replace (0 / (0.10 / IZR (101 - 1)) ^ 2) with 0 by (unfold Rdiv; ring).
  by rewrite Rplus_0_r, Rmult_0_r, Rplus_0_l.
Qed.

Lemma weld_run_boundary config sim n i j :
  Weld.construct config = Weld.Constructed sim →
  (0 ≤ i < Weld.SimulationConfig.nx config)%Z →
  (0 ≤ j < Weld.SimulationConfig.ny config)%Z →
  (i = 0 ∨ i = Weld.SimulationConfig.nx config - 1 ∨
   j = 0 ∨ j = Weld.SimulationConfig.ny config - 1)%Z →
  Weld.T_ (weld_after (S n) sim)
    !! Z.to_nat (Weld.idx (Weld.SimulationConfig.nx config) i j)
  = Some (Weld.SimulationConfig.T0 config).
Proof.
  intros Hc Hi Hj Hb.
  pose proof (WeldRun.construct_sizes _ _ Hc) as Hs.
  destruct (WeldRun.construct_inv _ _ Hc) as (_ & _ & Hnx & Hny & _ & Hcfg & _).
  rewrite weld_after_S.
  destruct (weld_after_frame n sim) as (Hc' & Hnx' & Hny' & _).
  rewrite <- Hnx, <- Hnx'.
  rewrite WeldRun.step_boundary.
  - by rewrite Hc', Hcfg.
  - by apply weld_after_sizes.
  - rewrite Hnx', Hnx. done.
  - rewrite Hny', Hny. done.
  - apply WeldRun.isBoundary_true. rewrite Hnx', Hny', Hnx, Hny. done.
Qed.

(** C5 as stated fails in both variants.  In [WeldingSimulation] an ambient
    temperature above the ceiling is written to the boundary cells as it is:
    with [T0 = 6000] the corner cell is 6000 after the first step.  In
    [TIGSimulator] nothing bounds the update: with the current raised to
    15000 A the cell [(20, 50)] next to the arc is above 5000 after the first
    step. *)
Lemma interior_update_clamped_counterexample :
  (∃ sim, Weld.construct (weld_config 151 101 6000.0 150.0) = Weld.Constructed sim ∧
     vec_get (Weld.T_ (weld_after 1 sim)) 0 = 6000.0 ∧ 5000 < 6000.0) ∧
  (∃ s, TIG.construct (tig_config 151 101 293.0 15000.0) = TIG.Constructed s ∧
     5000 < vec_get (TIG.T (tig_after 1 s)) 7570).
Proof.
  split.
  - destruct (WeldSource.construct_succeeds (weld_config 151 101 6000.0 150.0))
      as [sim Hc]; [cbn; lia..|].
    exists sim. split; [done|]. split; [|lra].
    apply vec_get_lookup.
    apply (weld_run_boundary _ sim 0%nat 0%Z 0%Z Hc); cbn; lia.
  - destruct (tig_first_step_near_arc 15000.0) as (s & Hc & Hv).
    exists s. split; [done|]. rewrite Hv.
    pose proof hot_flux_bound as Hq.
    set (q := TIG.goldak_flux _ _ _ _ _ _ _ _ _) in *.
    assert (0.02 * (q / (7850.0 * 500.0)) = q * (0.02 / (7850.0 * 500.0))) as ->
      by (unfold Rdiv; ring).
    lra.
Qed.

(** ** The heat source of one iteration *)

Lemma tig_Q_vol_copies_q_surf s t (n : nat) :
  TIGFacts.sizes_ok s →
  TIGSteps.arc_position s t <= TIG.TIGConfig.Lx (TIG.config s) →
  (Z.of_nat n < TIG.N s)%Z →
  ∃ q, TIG.q_surf (TIG.apply_heat_source s t).1 !! n = Some q ∧
       TIG.Q_vol (TIG.apply_heat_source s t).1 !! n = Some q.
Proof.
  intros Hs Hon Hn. unfold TIG.apply_heat_source.
  fold (TIGSteps.arc_position s t).
  destruct (Rle_dec _ _) as [_|Hoff]; [|lra]. simpl.
  set (q := TIG.goldak_heat_flux _ _ _ _ _ _ _ _ _ _ _ _ _ _).
  assert (length q = Z.to_nat (TIG.N s)) as Hlen.
  { unfold q. by rewrite TIGSteps.goldak_heat_flux_length, (TIGFacts.sizes_q_surf s Hs). }
  assert (is_Some (q !! n)) as [x Hx] by (apply lookup_lt_is_Some; lia).
  exists x. split; [done|].
  rewrite <- (Nat2Z.id n) at 1.
  rewrite (for_range_write_lookup (λ i, vec_get q i)).
  - f_equal. apply vec_get_lookup. by rewrite Nat2Z.id.
  - lia.
  - rewrite (TIGFacts.sizes_Q_vol s Hs). lia.
Qed.

(** C4, as the code has it.  In every iteration of the time loop: when the
    arc position [x_start + v_weld * t] exceeds [Lx], the volumetric source
    is zero in every cell and the Goldak flux is not computed (the trace of
    calls gains nothing); otherwise the flux is computed once, at this arc
    position, and in [WeldingSimulation::run] [Qvol[idx]] is
    [q_surf[idx] / thickness], whereas [TIGSimulator::apply_heat_source]
    copies [q_surf[idx]] to [Q_vol[idx]] undivided. *)
Theorem heat_source_gating :
  (∀ st,
     let sim := Weld.run_sim st in
     let t := Weld.run_t st + Weld.SimulationConfig.dt (Weld.config_ sim) in
     let x_arc := Weld.SimulationConfig.x_start (Weld.config_ sim)
                  + Weld.SimulationConfig.v_weld (Weld.config_ sim) * t in
     let src := Weld.heat_source sim x_arc in
     Weld.run_iteration st
       = Weld.mkRun t (Weld.solveTimeStep sim t (Weld.Qvol_of src))
                    (Weld.run_calls st ++ Weld.flux_calls src) ∧
     (Weld.SimulationConfig.Lx (Weld.config_ sim) < x_arc →
        Weld.flux_calls src = [] ∧
        ∀ index, (0 ≤ index < Weld.N_ sim)%Z →
          Weld.Qvol_of src !! Z.to_nat index = Some 0) ∧
     (x_arc <= Weld.SimulationConfig.Lx (Weld.config_ sim) →
        Weld.flux_calls src = [x_arc] ∧
        ∀ index, (0 ≤ index < Weld.N_ sim)%Z →
          Weld.Qvol_of src !! Z.to_nat index
          = Some (vec_get (Weld.computeGoldakHeatFlux sim x_arc) index
                  / Weld.SimulationConfig.thickness (Weld.config_ sim)))) ∧
  (∀ s t,
     TIGFacts.sizes_ok s →
     let x_arc := TIG.TIGConfig.x_start (TIG.config s)
                  + TIG.TIGConfig.v_weld (TIG.config s) * t in
     (TIG.TIGConfig.Lx (TIG.config s) < x_arc →
        (TIG.apply_heat_source s t).2 = [] ∧
        ∀ n : nat, (Z.of_nat n < TIG.N s)%Z →
          TIG.Q_vol (TIG.apply_heat_source s t).1 !! n = Some 0) ∧
     (x_arc <= TIG.TIGConfig.Lx (TIG.config s) →
        (TIG.apply_heat_source s t).2 = [x_arc] ∧
        ∀ n : nat, (Z.of_nat n < TIG.N s)%Z →
          ∃ q, TIG.q_surf (TIG.apply_heat_source s t).1 !! n = Some q ∧
               TIG.Q_vol (TIG.apply_heat_source s t).1 !! n = Some q)).
Proof.
  split.
  - intros st sim t x_arc src. split; [done|]. split.
    + intros Hoff. unfold src. rewrite WeldSource.heat_source_off by done.
      split; [done|]. intros index Hi. simpl.
      rewrite lookup_vec_make by lia. f_equal. lra.
    + intros Hon. by apply WeldSource.heat_source_on.
  - intros s t Hs x_arc. split.
    + intros Hoff.
      destruct (TIGSteps.apply_heat_source_off s t Hoff) as (Hcalls & _ & HQ).
      split; [done|]. intros n Hn. apply HQ; [done|].
      rewrite (TIGFacts.sizes_Q_vol s Hs). lia.
    + intros Hon. split.
      * unfold TIG.apply_heat_source. fold x_arc.
        destruct (Rle_dec _ _); [done|lra].
      * intros n Hn. by apply tig_Q_vol_copies_q_surf.
Qed.

(** C4 at the 3 x 3 grid: the first iteration of both variants, where the arc
    is on the plate. *)
Lemma heat_source_gating_witness :
  (∃ sim, Weld.construct (weld_config 3 3 293.0 150.0) = Weld.Constructed sim ∧
     Weld.flux_calls (Weld.heat_source sim (0.02 + 0.006 * (0.0 + 0.02)))
     = [0.02 + 0.006 * (0.0 + 0.02)]) ∧
  (∃ s, TIG.construct (tig_config 3 3 293.0 150.0) = TIG.Constructed s ∧
     (TIG.apply_heat_source s 0.02).2 = [0.02 + 0.006 * 0.02]).
Proof.
  split.
  - eexists. split; [reflexivity|].
    lazymatch goal with
    | |- Weld.flux_calls (Weld.heat_source ?sim _) = _ =>
        refine (proj1 (proj2 (proj2 (proj1 heat_source_gating (Weld.mkRun 0.0 sim []))) _))
    end.
    cbn. lra.
  - eexists. split; [reflexivity|].
    lazymatch goal with
    | |- (TIG.apply_heat_source ?s _).2 = _ =>
        refine (proj1 (proj2 (proj2 heat_source_gating s 0.02
                  (TIGFacts.Build_sizes_ok s eq_refl eq_refl eq_refl eq_refl eq_refl
                     eq_refl eq_refl eq_refl eq_refl)) _))
    end.
    cbn. lra.
Defined.

(** C4 as stated fails in [TIGSimulator]: at the default configuration, in
    the first iteration, the arc is on the plate and the cell at index 7570
    receives the surface flux itself, which is strictly less than the flux
    divided by the plate thickness of 0.006 m. *)
Lemma heat_source_gating_counterexample :
  ∃ s, TIG.construct TIG.TIGConfig.default = TIG.Constructed s ∧
    TIGSteps.arc_position s (1 * 0.02) <= TIG.TIGConfig.Lx TIG.TIGConfig.default ∧
    vec_get (TIG.Q_vol (TIG.apply_heat_source s (1 * 0.02)).1) 7570
      = vec_get (TIG.q_surf (TIG.apply_heat_source s (1 * 0.02)).1) 7570 ∧
    vec_get (TIG.Q_vol (TIG.apply_heat_source s (1 * 0.02)).1) 7570
      < vec_get (TIG.q_surf (TIG.apply_heat_source s (1 * 0.02)).1) 7570
        / TIG.TIGConfig.thickness TIG.TIGConfig.default.
Proof.
  destruct (tig_construct_succeeds TIG.TIGConfig.default) as [s Hc]; [cbn; lia|].
  exists s. split; [done|].
  destruct (TIGCtor.tig_construct_inv _ _ Hc) as (Hcfg & HN & _ & _ & _ & _ & _ & Hs & _).
  assert (TIGSteps.arc_position s (1 * 0.02) <= TIG.TIGConfig.Lx TIG.TIGConfig.default)
    as Hon.
  { unfold TIGSteps.arc_position. rewrite Hcfg. cbn. lra. }
  split; [done|].
  destruct (TIGSteps.apply_heat_source_on s (1 * 0.02) 20 50 Hs) as (_ & Hq & HQ);
    [by rewrite Hcfg|rewrite Hcfg; cbn; lia..|].
  rewrite Hcfg in Hq, HQ.
  erewrite !vec_get_lookup by (exact HQ || exact Hq).
  split; [done|].
  set (q := TIGSteps.flux_at _ _ _).
  assert (0 < q) as Hpos.
  { unfold q, TIGSteps.flux_at, TIGSteps.Q_total. rewrite Hcfg.
    apply tig_goldak_flux_pos; cbn; lra. }
  cbn. lra.
Qed.

(** ** Grid dimensions at construction *)

Lemma weld_construct_iff config :
  (∃ sim, Weld.construct config = Weld.Constructed sim)
  ↔ (2 ≤ Weld.SimulationConfig.nx config)%Z ∧ (2 ≤ Weld.SimulationConfig.ny config)%Z.
Proof.
  split.
  - intros [sim Hc]. by destruct (WeldRun.construct_inv _ _ Hc) as (? & ? & _).
  - intros [Hx Hy]. by apply WeldSource.construct_succeeds.
Qed.

Lemma small_grid_all_boundary nx ny i j :
  (nx ≤ 2 ∨ ny ≤ 2)%Z → (0 ≤ i < nx)%Z → (0 ≤ j < ny)%Z →
  Weld.isBoundary nx ny i j = true.
Proof. intros Hsmall Hi Hj. apply WeldRun.isBoundary_true. lia. Qed.

(** C8 as stated fails: a 2 x 2 grid, below the stencil minimum, is
    constructed by both variants. *)
Lemma small_grid_counterexample :
  (∃ sim, Weld.construct (weld_config 2 2 293.0 150.0) = Weld.Constructed sim) ∧
  (∃ s, TIG.construct (tig_config 2 2 293.0 150.0) = TIG.Constructed s).
Proof. split; eexists; reflexivity. Qed.

(** C8, as the code has it.  Neither constructor compares the grid
    dimensions with the stencil minimum of 3: a grid with two columns or two
    rows, at least two cells in the other direction and at most a million
    cells in all (so that the storage of the fields is not in question) is
    constructed.  For [WeldingSimulation] the step count of the constructor
    has to be defined as well: [v_weld] and [dt] are positive, they and [Lx]
    and [x_start] are of moderate size, and [ceil(t_end / dt)] is in the
    range of [int].  On such a grid every cell is a boundary cell, so there
    is no interior cell to update. *)
Theorem small_grid_is_constructed :
  (∀ config,
     (2 ≤ Weld.SimulationConfig.nx config)%Z → (2 ≤ Weld.SimulationConfig.ny config)%Z →
     (Weld.SimulationConfig.nx config = 2 ∨ Weld.SimulationConfig.ny config = 2)%Z →
     (Weld.SimulationConfig.nx config * Weld.SimulationConfig.ny config ≤ 1000000)%Z →
     Forall sizeable
       [Weld.SimulationConfig.v_weld config; Weld.SimulationConfig.dt config] →
     Forall moderate
       [Weld.SimulationConfig.Lx config; Weld.SimulationConfig.x_start config] →
     in_int (ceil_int (((Weld.SimulationConfig.Lx config
                         - Weld.SimulationConfig.x_start config)
                        / Weld.SimulationConfig.v_weld config + 10.0)
                       / Weld.SimulationConfig.dt config)) →
     ∃ sim, Weld.construct config = Weld.Constructed sim) ∧
  (∀ cfg,
     (2 ≤ TIG.TIGConfig.nx cfg)%Z → (2 ≤ TIG.TIGConfig.ny cfg)%Z →
     (TIG.TIGConfig.nx cfg = 2 ∨ TIG.TIGConfig.ny cfg = 2)%Z →
     (TIG.TIGConfig.nx cfg * TIG.TIGConfig.ny cfg ≤ 1000000)%Z →
     ∃ s, TIG.construct cfg = TIG.Constructed s) ∧
  (∀ nx ny i j,
     (nx ≤ 2 ∨ ny ≤ 2)%Z → (0 ≤ i < nx)%Z → (0 ≤ j < ny)%Z →
     Weld.isBoundary nx ny i j = true).
Proof.
  split; [|split].
  - intros config Hnx Hny _ _ _ _ _. by apply WeldSource.construct_succeeds.
  - intros cfg Hnx Hny _ _. apply tig_construct_succeeds. nia.
  - apply small_grid_all_boundary.
Qed.

(** C8 at the grid sizes 2 x 101 and 151 x 2. *)
Lemma small_grid_is_constructed_witness :
  (∃ sim, Weld.construct (weld_config 2 101 293.0 150.0) = Weld.Constructed sim) ∧
  (∃ s, TIG.construct (tig_config 151 2 293.0 150.0) = TIG.Constructed s) ∧
  Weld.isBoundary 2 101 1 50 = true.
Proof.
  split; [|split].
  - apply (proj1 small_grid_is_constructed (weld_config 2 101 293.0 150.0)).
    + cbn. lia.
    + cbn. lia.
    + cbn. lia.
    + cbn. lia.
    + unfold weld_config.
      cbn [Weld.SimulationConfig.v_weld Weld.SimulationConfig.dt].
      repeat (apply Forall_cons_2; [unfold sizeable; lra|]). apply Forall_nil_2.
    + unfold weld_config.
      cbn [Weld.SimulationConfig.Lx Weld.SimulationConfig.x_start].
      repeat (apply Forall_cons_2; [unfold moderate; lra|]). apply Forall_nil_2.
    + unfold weld_config.
      cbn [Weld.SimulationConfig.Lx Weld.SimulationConfig.x_start
           Weld.SimulationConfig.v_weld Weld.SimulationConfig.dt].
      rewrite default_step_count. unfold in_int. lia.
  - apply (proj1 (proj2 small_grid_is_constructed) (tig_config 151 2 293.0 150.0));
      cbn; lia.
  - apply (proj2 (proj2 small_grid_is_constructed)); lia.
Defined.

(** ** The arc efficiency and the welding process *)

Definition valid_process (c : Weld.SimulationConfig.t) : Prop :=
  Weld.SimulationConfig.weld_process c = "TIG" ∨
  Weld.SimulationConfig.weld_process c = "Electrode".

Lemma numeric_option_process arg assign c x :
  WeldMain.numeric_option arg = Some assign →
  Weld.SimulationConfig.weld_process (assign c x) = Weld.SimulationConfig.weld_process c.
Proof.
  unfold WeldMain.numeric_option.
  repeat (destruct (String.eqb arg _); [by intros [= <-]|]). done.
Qed.

Lemma parse_arguments_valid stod stoi n args config config' :
  (length args ≤ n)%nat → valid_process config →
  WeldMain.parse_arguments stod stoi args config = WeldMain.Parsed config' →
  valid_process config'.
Proof.
  revert args config. induction n as [|n IH]; intros args config Hlen Hv.
  { destruct args; [|simpl in Hlen; lia]. by intros [= <-]. }
  destruct args as [|arg rest]; [by intros [= <-]|]. simpl in Hlen.
  cbn [WeldMain.parse_arguments].
  destruct (String.eqb arg "--help"); [done|].
  assert (∀ c, valid_process c →
            WeldMain.parse_arguments stod stoi rest c = WeldMain.Parsed config' →
            valid_process config') as IHrest by (intros c; apply IH; lia).
  assert (∀ a rest' c, rest = a :: rest' → valid_process c →
            WeldMain.parse_arguments stod stoi rest' c = WeldMain.Parsed config' →
            valid_process config') as IHrest'.
  { intros a rest' c -> . apply IH. simpl in Hlen. lia. }
  assert ((if String.eqb arg "--use_gas"
           then WeldMain.parse_arguments stod stoi rest
                  (Weld.SimulationConfig.set_use_gas config true)
           else if String.eqb arg "--no-gas"
           then WeldMain.parse_arguments stod stoi rest
                  (Weld.SimulationConfig.set_use_gas config false)
           else
             match WeldMain.numeric_option arg, rest with
             | Some assign, value :: rest' =>
                 match stod value with
                 | Some x => WeldMain.parse_arguments stod stoi rest' (assign config x)
                 | None => WeldMain.Uncaught
                 end
             | _, _ =>
               if String.eqb arg "--save_video"
               then WeldMain.parse_arguments stod stoi rest
                      (Weld.SimulationConfig.set_save_video_frames config true)
               else
                 match String.eqb arg "--video_fps", rest with
                 | true, value :: rest' =>
                     match stoi value with
                     | Some n =>
                         WeldMain.parse_arguments stod stoi rest'
                           (Weld.SimulationConfig.set_video_frames_per_second config n)
                     | None => WeldMain.Uncaught
                     end
                 | _, _ => WeldMain.Return 1
                 end
             end) = WeldMain.Parsed config' → valid_process config') as Hother.
  { destruct (String.eqb arg "--use_gas"); [by apply IHrest|].
    destruct (String.eqb arg "--no-gas"); [by apply IHrest|].
    assert ((if String.eqb arg "--save_video"
             then WeldMain.parse_arguments stod stoi rest
                    (Weld.SimulationConfig.set_save_video_frames config true)
             else
               match String.eqb arg "--video_fps", rest with
               | true, value :: rest' =>
                   match stoi value with
                   | Some n =>
                       WeldMain.parse_arguments stod stoi rest'
                         (Weld.SimulationConfig.set_video_frames_per_second config n)
                   | None => WeldMain.Uncaught
                   end
               | _, _ => WeldMain.Return 1
               end) = WeldMain.Parsed config' → valid_process config') as Hlast.
    { destruct (String.eqb arg "--save_video"); [by apply IHrest|].
      destruct (String.eqb arg "--video_fps"), rest as [|value rest']; try done.
      destruct (stoi value); [|done]. by apply (IHrest' value rest'). }
    destruct (WeldMain.numeric_option arg) as [assign|] eqn:Hnum; [|done].
    destruct rest as [|value rest']; [done|].
    destruct (stod value) as [x|]; [|done].
    apply (IHrest' value rest'); [done|].
    unfold valid_process. by rewrite (numeric_option_process _ _ _ _ Hnum). }
  destruct (String.eqb arg "--weld_process"); [|done].
  destruct rest as [|value rest']; [done|].
  destruct (String.eqb value "TIG") eqn:HT; simpl.
  - apply (IHrest' value rest'); [done|]. left. by apply String.eqb_eq.
  - destruct (String.eqb value "Electrode") eqn:HE; simpl; [|done].
    apply (IHrest' value rest'); [done|]. right. by apply String.eqb_eq.
Qed.

Lemma parse_arguments_rejects stod stoi value rest config :
  value ≠ "TIG" → value ≠ "Electrode" →
  WeldMain.parse_arguments stod stoi ("--weld_process" :: value :: rest) config
  = WeldMain.Return 1.
Proof.
  intros HT HE. cbn.
  apply String.eqb_neq in HT, HE. by rewrite HT, HE.
Qed.

(** C9.  The constructor leaves in [config_.eta] a value that depends only
    on [weld_process] and [use_gas]: 0.75 for TIG with gas, 0.65 for TIG
    without gas, 0.85 for Electrode whatever the gas flag (which only adds a
    warning line to the output); [Q_total_] is computed from it.  [main]
    rejects any other process: the option [--weld_process] with a value other
    than TIG and Electrode makes it return 1 from the argument loop, and
    the loop never ends with a configuration whose process is not one of the
    two, so that no simulation is constructed for it. *)
Theorem efficiency_from_process :
  (∀ config sim,
     Weld.construct config = Weld.Constructed sim →
     let eta := Weld.SimulationConfig.eta (Weld.config_ sim) in
     let process := Weld.SimulationConfig.weld_process config in
     let gas := Weld.SimulationConfig.use_gas config in
     Weld.Q_total_ sim
       = eta * Weld.SimulationConfig.V config * Weld.SimulationConfig.I config ∧
     (process = "TIG" → gas = true → eta = 0.75) ∧
     (process = "TIG" → gas = false → eta = 0.65) ∧
     (process = "Electrode" → eta = 0.85)) ∧
  (∀ config,
     Weld.SimulationConfig.weld_process config = "Electrode" →
     Weld.adjust_efficiency config
     = (0.85, "Simulating Electrode welding." ::
              (if Weld.SimulationConfig.use_gas config
               then ["Warning: Gas is not typically used with electrode welding."]
               else []))) ∧
  (∀ stod stoi value rest config,
     value ≠ "TIG" → value ≠ "Electrode" →
     WeldMain.parse_arguments stod stoi ("--weld_process" :: value :: rest) config
     = WeldMain.Return 1) ∧
  (∀ stod stoi args config,
     WeldMain.parse_arguments stod stoi args Weld.SimulationConfig.default
       = WeldMain.Parsed config →
     Weld.SimulationConfig.weld_process config = "TIG" ∨
     Weld.SimulationConfig.weld_process config = "Electrode") ∧
  (∀ stod stoi args final,
     WeldMain.main stod stoi args = WeldMain.Simulated final →
     ∃ config sim,
       WeldMain.parse_arguments stod stoi args Weld.SimulationConfig.default
         = WeldMain.Parsed config ∧
       Weld.construct config = Weld.Constructed sim ∧
       (Weld.SimulationConfig.weld_process config = "TIG" ∨
        Weld.SimulationConfig.weld_process config = "Electrode") ∧
       Weld.SimulationConfig.eta (Weld.config_ sim)
       = (if String.eqb (Weld.SimulationConfig.weld_process config) "TIG"
          then if Weld.SimulationConfig.use_gas config then 0.75 else 0.65
          else 0.85)).
Proof.
  split; [|split; [|split; [|split]]].
  - intros config sim Hc eta process gas.
    destruct (weld_construct_power _ _ Hc) as [Heta HQ].
    unfold eta. rewrite Heta. split; [done|].
    unfold Weld.adjust_efficiency. fold process gas.
    split; [|split].
    + by intros -> ->.
    + by intros -> ->.
    + intros ->. simpl. by destruct gas.
  - intros config HE. unfold Weld.adjust_efficiency. by rewrite HE.
  - apply parse_arguments_rejects.
  - intros stod stoi args config Hp.
    apply (parse_arguments_valid stod stoi (length args) args
             Weld.SimulationConfig.default config); [done| |done].
    by left.
  - intros stod stoi args final. unfold WeldMain.main.
    destruct (WeldMain.parse_arguments stod stoi args Weld.SimulationConfig.default)
      as [code| |config] eqn:Hp; [done..|].
    destruct (Weld.construct config) as [sim| |] eqn:Hc; [|done..].
    intros _. exists config, sim. split; [done|]. split; [done|].
    assert (valid_process config) as Hv.
    { apply (parse_arguments_valid stod stoi (length args) args
               Weld.SimulationConfig.default config); [done|by left|done]. }
    split; [done|].
    destruct (weld_construct_power _ _ Hc) as [-> _].
    unfold Weld.adjust_efficiency.
    destruct Hv as [-> | ->]; simpl;
      by destruct (Weld.SimulationConfig.use_gas config).
Qed.

(** C9 on concrete inputs: an unknown process on the command line, and the
    default configuration (TIG with gas). *)
Lemma efficiency_from_process_witness :
  WeldMain.parse_arguments (λ _, None) (λ _, None)
    ["--weld_process"; "MIG"; "--no-gas"] Weld.SimulationConfig.default
    = WeldMain.Return 1 ∧
  (∃ sim, Weld.construct Weld.SimulationConfig.default = Weld.Constructed sim ∧
          Weld.SimulationConfig.eta (Weld.config_ sim) = 0.75).
Proof.
  split.
  - apply (proj1 (proj2 (proj2 efficiency_from_process))); discriminate.
  - eexists. split; [reflexivity|].
    refine (proj1 (proj2 (proj1 efficiency_from_process
                            Weld.SimulationConfig.default _ eq_refl)) _ _);
      reflexivity.
Defined.

(** ** Mirror symmetry across the centreline *)

(** A field whose rows [j] and [ny - 1 - j] coincide. *)
Definition mirror_symmetric (nx ny : Z) (v : list R) : Prop :=
  ∀ i j, (0 ≤ i < nx)%Z → (0 ≤ j < ny)%Z →
    vec_get v (Weld.idx nx i (ny - 1 - j)) = vec_get v (Weld.idx nx i j).

(** The mesh grid repeats the 1D grids: [X_[idx(i,j)] = x_[i]] and
    [Y_[idx(i,j)] = y_[j]]. *)
Definition mesh_of_grids (sim : Weld.WeldingSimulation) : Prop :=
  ∀ i j, (0 ≤ i < Weld.nx_ sim)%Z → (0 ≤ j < Weld.ny_ sim)%Z →
    vec_get (Weld.X_ sim) (Weld.idx (Weld.nx_ sim) i j) = vec_get (Weld.x_ sim) i ∧
    vec_get (Weld.Y_ sim) (Weld.idx (Weld.nx_ sim) i j) = vec_get (Weld.y_ sim) j.

(** The 1D grid [y_] is symmetric about [y = 0]. *)
Definition y_grid_symmetric (sim : Weld.WeldingSimulation) : Prop :=
  ∀ j, (0 ≤ j < Weld.ny_ sim)%Z →
    vec_get (Weld.y_ sim) (Weld.ny_ sim - 1 - j) = - vec_get (Weld.y_ sim) j.

Lemma isBoundary_mirror nx ny i j :
  Weld.isBoundary nx ny i (ny - 1 - j) = Weld.isBoundary nx ny i j.
Proof.
  unfold Weld.isBoundary.
  destruct (Z.eqb_spec i 0), (Z.eqb_spec i (nx - 1)); simpl; try done.
  destruct (Z.eqb_spec (ny - 1 - j) 0), (Z.eqb_spec (ny - 1 - j) (ny - 1)),
    (Z.eqb_spec j 0), (Z.eqb_spec j (ny - 1)); simpl; done || lia.
Qed.

Lemma spec_update_swap dt dx dy k rho cp Tc Txm Txp Tym Typ Q :
  spec_update dt dx dy k rho cp Tc Txm Txp Typ Tym Q
  = spec_update dt dx dy k rho cp Tc Txm Txp Tym Typ Q.
Proof.
  unfold spec_update.
  replace (Tym - 2 * Tc + Typ) with (Typ - 2 * Tc + Tym) by lra. done.
Qed.

Lemma weld_goldak_cell_mirror sim x_arc i j :
  mesh_of_grids sim → y_grid_symmetric sim →
  Weld.SimulationConfig.y_arc (Weld.config_ sim) = 0 →
  (0 ≤ i < Weld.nx_ sim)%Z → (0 ≤ j < Weld.ny_ sim)%Z →
  Weld.goldak_cell sim x_arc (Weld.idx (Weld.nx_ sim) i (Weld.ny_ sim - 1 - j))
  = Weld.goldak_cell sim x_arc (Weld.idx (Weld.nx_ sim) i j).
Proof.
  intros Hmesh Hy Harc Hi Hj. unfold Weld.goldak_cell, Weld.goldak_point.
  destruct (Hmesh i j Hi Hj) as [HX HY].
  destruct (Hmesh i (Weld.ny_ sim - 1 - j)%Z Hi) as [HX' HY']; [lia|].
  rewrite HX', HY', HX, HY, Hy, Harc by done.
  set (y := vec_get (Weld.y_ sim) j).
  replace ((- y - 0) * (- y - 0)) with ((y - 0) * (y - 0)) by lra.
  done.
Qed.

Lemma weld_Qvol_mirror sim x_arc :
  WeldFacts.sizes_ok sim → mesh_of_grids sim → y_grid_symmetric sim →
  Weld.SimulationConfig.y_arc (Weld.config_ sim) = 0 →
  mirror_symmetric (Weld.nx_ sim) (Weld.ny_ sim)
    (Weld.Qvol_of (Weld.heat_source sim x_arc)).
Proof.
  intros Hs Hmesh Hy Harc i j Hi Hj.
  destruct (Rle_dec x_arc (Weld.SimulationConfig.Lx (Weld.config_ sim))) as [Hon|Hoff].
  - rewrite !weld_Qvol_on by (done || lia).
    by rewrite weld_goldak_cell_mirror.
  - rewrite WeldSource.heat_source_off by lra. simpl.
    pose proof (WeldFacts.sizes_N sim Hs) as HN.
    rewrite !vec_get_vec_make; [done|rewrite HN; unfold Weld.idx; nia..].
Qed.

Lemma weld_spec_update_mirror sim Qvol i j :
  mesh_of_grids sim →
  mirror_symmetric (Weld.nx_ sim) (Weld.ny_ sim) (Weld.T_ sim) →
  mirror_symmetric (Weld.nx_ sim) (Weld.ny_ sim) Qvol →
  (0 < i < Weld.nx_ sim - 1)%Z → (0 < j < Weld.ny_ sim - 1)%Z →
  weld_spec_update sim Qvol i (Weld.ny_ sim - 1 - j) = weld_spec_update sim Qvol i j.
Proof.
  intros Hmesh HT HQ Hi Hj. unfold weld_spec_update.
  assert (Weld.material_at sim (Weld.idx (Weld.nx_ sim) i (Weld.ny_ sim - 1 - j))
          = Weld.material_at sim (Weld.idx (Weld.nx_ sim) i j)) as ->.
  { unfold Weld.material_at.
    destruct (Hmesh i j) as [-> _]; [lia..|].
    by destruct (Hmesh i (Weld.ny_ sim - 1 - j)%Z) as [-> _]; [lia..|]. }
  cbv zeta.
  rewrite (HT i j), (HT (i - 1)%Z j), (HT (i + 1)%Z j), (HQ i j) by lia.
  replace (Weld.ny_ sim - 1 - j - 1)%Z with (Weld.ny_ sim - 1 - (j + 1))%Z by lia.
  replace (Weld.ny_ sim - 1 - j + 1)%Z with (Weld.ny_ sim - 1 - (j - 1))%Z by lia.
  rewrite (HT i (j + 1)%Z), (HT i (j - 1)%Z) by lia.
  apply spec_update_swap.
Qed.

(** One step keeps the field mirror-symmetric. *)
Lemma weld_step_mirror sim t Qvol :
  WeldFacts.sizes_ok sim → mesh_of_grids sim →
  mirror_symmetric (Weld.nx_ sim) (Weld.ny_ sim) (Weld.T_ sim) →
  mirror_symmetric (Weld.nx_ sim) (Weld.ny_ sim) Qvol →
  mirror_symmetric (Weld.nx_ sim) (Weld.ny_ sim) (Weld.T_ (Weld.solveTimeStep sim t Qvol)).
Proof.
  intros Hs Hmesh HT HQ i j Hi Hj.
  rewrite (vec_get_lookup _ _ _ (WeldRun.step_cell sim t Qvol i j Hs Hi Hj)).
  rewrite (vec_get_lookup _ _ _
             (WeldRun.step_cell sim t Qvol i (Weld.ny_ sim - 1 - j) Hs Hi ltac:(lia))).
  unfold Weld.cell_value. rewrite isBoundary_mirror.
  destruct (Weld.isBoundary _ _ i j) eqn:Hb; [done|].
  apply WeldRun.isBoundary_false in Hb.
  rewrite !weld_interior_update_spec by (done || lia).
  by rewrite weld_spec_update_mirror by (done || lia).
Qed.

Lemma weld_step_mirror_peak sim t Qvol :
  WeldFacts.sizes_ok sim →
  mirror_symmetric (Weld.nx_ sim) (Weld.ny_ sim) (Weld.T_max_ sim) →
  mirror_symmetric (Weld.nx_ sim) (Weld.ny_ sim) (Weld.T_ (Weld.solveTimeStep sim t Qvol)) →
  mirror_symmetric (Weld.nx_ sim) (Weld.ny_ sim)
    (Weld.T_max_ (Weld.solveTimeStep sim t Qvol)).
Proof.
  intros Hs HM HT i j Hi Hj.
  pose proof (WeldFacts.sizes_N sim Hs) as HN.
  rewrite !weld_step_peak by (done || rewrite HN; unfold Weld.idx; nia).
  by rewrite (HM i j), (HT i j).
Qed.

Lemma construct_grids config sim :
  Weld.construct config = Weld.Constructed sim →
  mesh_of_grids sim ∧ y_grid_symmetric sim.
Proof.
  intros Hc.
  destruct (WeldRun.construct_inv _ _ Hc) as (Hx2 & Hy2 & Hnx & Hny & _).
  revert Hc Hnx Hny. unfold Weld.construct.
  destruct (_ || _)%Z eqn:Hneg; [done|].
  destruct ((Weld.SimulationConfig.nx config <? 2)%Z || _) eqn:Hsmall; [done|].
  intros [= <-] _ _. split.
  - intros i j Hi Hj. simpl in *.
    destruct (WeldCtor.meshgrid_lookup
      (Weld.SimulationConfig.nx config) (Weld.SimulationConfig.ny config)
      (Weld.grid_x (Weld.SimulationConfig.set_eta config (Weld.adjust_efficiency config).1)
         (Weld.SimulationConfig.nx config))
      (Weld.grid_y (Weld.SimulationConfig.set_eta config (Weld.adjust_efficiency config).1)
         (Weld.SimulationConfig.ny config)) i j Hi Hj) as [HX HY].
    split; by apply vec_get_lookup.
  - intros j Hj. simpl in *.
    rewrite !WeldCtor.grid_y_lookup by lia.
    set (Ly := Weld.SimulationConfig.Ly _).
    rewrite !minus_IZR.
    assert (IZR (Weld.SimulationConfig.ny config) - 1 ≠ 0) as Hnz.
    { apply (IZR_le 2) in Hy2. lra. }
    replace 2.0 with 2 by lra. field. done.
Qed.

Lemma weld_after_grids n sim :
  Weld.x_ (weld_after n sim) = Weld.x_ sim ∧ Weld.y_ (weld_after n sim) = Weld.y_ sim.
Proof. induction n as [|n IH]; [done|]. rewrite weld_after_S. simpl. apply IH. Qed.

Lemma mirror_symmetric_uniform nx ny x :
  mirror_symmetric nx ny (vec_make (nx * ny) x).
Proof.
  intros i j Hi Hj. unfold Weld.idx. rewrite !vec_get_vec_make; [done|nia..].
Qed.

Lemma weld_run_mirror config sim n :
  Weld.construct config = Weld.Constructed sim →
  Weld.SimulationConfig.y_arc config = 0 →
  mirror_symmetric (Weld.SimulationConfig.nx config) (Weld.SimulationConfig.ny config)
    (Weld.T_ (weld_after n sim)) ∧
  mirror_symmetric (Weld.SimulationConfig.nx config) (Weld.SimulationConfig.ny config)
    (Weld.T_max_ (weld_after n sim)).
Proof.
  intros Hc Harc.
  pose proof (WeldRun.construct_sizes _ _ Hc) as Hs.
  destruct (WeldRun.construct_inv _ _ Hc) as (_ & _ & Hnx & Hny & HN & Hcfg & HT & HM).
  destruct (construct_grids _ _ Hc) as [Hmesh Hy].
  induction n as [|n [IHT IHM]].
  - unfold weld_after. simpl. rewrite HT, HM, HN.
    split; apply mirror_symmetric_uniform.
  - destruct (weld_after_frame n sim) as (Hc' & Hnx' & Hny' & _ & HX' & HY' & _).
    destruct (weld_after_grids n sim) as [Hx' Hy'].
    pose proof (weld_after_sizes n sim Hs) as Hs'.
    assert (mesh_of_grids (weld_after n sim)) as Hmesh'.
    { intros i j Hi Hj. rewrite Hnx', HX', HY', Hx', Hy'.
      rewrite Hnx' in Hi. rewrite Hny' in Hj. by apply Hmesh. }
    assert (y_grid_symmetric (weld_after n sim)) as Hysym'.
    { intros j Hj. rewrite Hny', Hy'. rewrite Hny' in Hj. by apply Hy. }
    assert (mirror_symmetric (Weld.nx_ (weld_after n sim)) (Weld.ny_ (weld_after n sim))
              (Weld.T_ (weld_after (S n) sim))) as HT'.
    { rewrite weld_after_S. apply weld_step_mirror; [done..| |].
      - by rewrite Hnx', Hny', Hnx, Hny.
      - unfold weld_Qvol. apply weld_Qvol_mirror; [done..|].
        by rewrite Hc', Hcfg. }
    split.
    + by rewrite <- Hnx, <- Hny, <- Hnx', <- Hny'.
    + rewrite <- Hnx, <- Hny, <- Hnx', <- Hny'.
      rewrite weld_after_S. apply weld_step_mirror_peak; [done| |].
      * by rewrite Hnx', Hny', Hnx, Hny.
      * by rewrite <- weld_after_S.
Qed.

(** C10.  With [y_arc = 0] and a grid symmetric about [y = 0]
    ([y_[ny-1-j] = -y_[j]]), one step of [WeldingSimulation] keeps the field
    mirror-symmetric across the centreline: if
    [T[idx(i,j)] = T[idx(i,ny-1-j)]] for all cells before the step, the same
    holds after it (in exact real arithmetic).  The grid built by the
    constructor is symmetric, and so, starting from the uniform initial field,
    [T] and [T_max] are mirror-symmetric after every iteration of the time
    loop. *)
Theorem mirror_symmetry_preserved :
  (∀ sim t x_arc,
     WeldFacts.sizes_ok sim → mesh_of_grids sim → y_grid_symmetric sim →
     Weld.SimulationConfig.y_arc (Weld.config_ sim) = 0 →
     mirror_symmetric (Weld.nx_ sim) (Weld.ny_ sim) (Weld.T_ sim) →
     mirror_symmetric (Weld.nx_ sim) (Weld.ny_ sim)
       (Weld.T_ (Weld.solveTimeStep sim t (Weld.Qvol_of (Weld.heat_source sim x_arc))))) ∧
  (∀ config sim,
     Weld.construct config = Weld.Constructed sim →
     mesh_of_grids sim ∧ y_grid_symmetric sim) ∧
  (∀ config sim n,
     Weld.construct config = Weld.Constructed sim →
     Weld.SimulationConfig.y_arc config = 0 →
     mirror_symmetric (Weld.SimulationConfig.nx config) (Weld.SimulationConfig.ny config)
       (Weld.T_ (weld_after n sim)) ∧
     mirror_symmetric (Weld.SimulationConfig.nx config) (Weld.SimulationConfig.ny config)
       (Weld.T_max_ (weld_after n sim))).
Proof.
  split; [|split].
  - intros sim t x_arc Hs Hmesh Hy Harc HT.
    apply weld_step_mirror; [done..|]. by apply weld_Qvol_mirror.
  - apply construct_grids.
  - intros config sim n Hc Harc. by apply weld_run_mirror.
Qed.

(** C10 at the default configuration: the field after 100 iterations,
    compared in the rows 10 and 90 of column 20. *)
Lemma mirror_symmetry_preserved_witness :
  ∃ sim, Weld.construct Weld.SimulationConfig.default = Weld.Constructed sim ∧
    vec_get (Weld.T_ (weld_after 100 sim)) (Weld.idx 151 20 (101 - 1 - 10))
    = vec_get (Weld.T_ (weld_after 100 sim)) (Weld.idx 151 20 10).
Proof.
  destruct (WeldSource.construct_succeeds Weld.SimulationConfig.default)
    as [sim Hc]; [cbn; lia..|].
  exists sim. split; [exact Hc|].
  refine (proj1 (proj2 (proj2 mirror_symmetry_preserved)
                   Weld.SimulationConfig.default sim 100%nat Hc _) 20%Z 10%Z _ _).
  - cbn. lra.
  - cbn. lia.
  - cbn. lia.
Defined.

(** * The normalization of the heat source

    The flux of both variants is a product of two Gaussians on each side of
    the arc.  Its integral over a half-plane is taken as the limit of the
    iterated Riemann integrals over rectangles that exhaust the half-plane.
    The value of the Gaussian integral is obtained from the identity
    [gauss_int t * gauss_int t + kern_int t = PI / 4]. *)

(** ** Integrals of real functions *)

(** [v] is the Riemann integral of [f] from [a] to [b]. *)
Definition is_RInt (f : R → R) (a b v : R) : Prop :=
  ∃ pr : Riemann_integrable f a b, RiemannInt pr = v.

Lemma is_RInt_unique f a b v w : is_RInt f a b v → is_RInt f a b w → v = w.
Proof. intros [pr1 <-] [pr2 <-]. apply RiemannInt_P5. Qed.

Lemma dlim_ext (f g : R → R) x l :
  (∀ y, f y = g y) → derivable_pt_lim f x l → derivable_pt_lim g x l.
Proof.
  intros Heq Hf eps Heps. destruct (Hf eps Heps) as [delta Hd].
  exists delta. intros h Hh Hlt. rewrite <- !Heq. by apply Hd.
Qed.

(** Two functions that agree near [x] have the same derivative at [x]. *)
Lemma dlim_ext_loc (f g : R → R) x l (r : R) :
  0 < r → (∀ y, Rabs (y - x) < r → f y = g y) →
  derivable_pt_lim f x l → derivable_pt_lim g x l.
Proof.
  intros Hr Heq Hf eps Heps. destruct (Hf eps Heps) as [delta Hd].
  assert (0 < Rmin delta r) as Hm by (apply Rmin_pos; [apply cond_pos|done]).
  exists (mkposreal _ Hm). intros h Hh Hlt. simpl in Hlt.
  rewrite <- (Heq (x + h)), <- (Heq x).
  - apply Hd; [done|]. eapply Rlt_le_trans; [exact Hlt|apply Rmin_l].
  - replace (x - x) with 0 by lra. by rewrite Rabs_R0.
  - replace (x + h - x) with h by lra.
    eapply Rlt_le_trans; [exact Hlt|apply Rmin_r].
Qed.

(** The fundamental theorem of calculus for a continuous integrand with a known
    antiderivative. *)
Lemma FTC_anti (f G : R → R) (a b : R) :
  a <= b →
  (∀ x, a <= x <= b → continuity_pt f x) →
  (∀ x, a <= x <= b → derivable_pt_lim G x (f x)) →
  is_RInt f a b (G b - G a).
Proof.
  intros Hab Hc HG.
  exists (continuity_implies_RiemannInt Hab Hc).
  rewrite (RiemannInt_P20 Hab (FTC_P1 Hab Hc)).
  assert (antiderivative f G a b) as HGa.
  { split; [|done]. intros x Hx. exists (exist _ (f x) (HG x Hx)). done. }
  destruct (antiderivative_Ucte f _ _ a b (RiemannInt_P29 Hab Hc) HGa) as [c Hcst].
  rewrite (Hcst a), (Hcst b) by lra. lra.
Qed.

(** Integrability and the integral only depend on the values on [[a, b]]. *)
Lemma Riemann_integrable_ext (f g : R → R) (a b : R) :
  (∀ x, Rmin a b <= x <= Rmax a b → f x = g x) →
  Riemann_integrable f a b → Riemann_integrable g a b.
Proof.
  intros Heq pr eps. destruct (pr eps) as (phi & psi & H1 & H2).
  exists phi, psi. split; [|done]. intros t Ht. rewrite <- Heq by done. by apply H1.
Qed.

Lemma is_RInt_ext (f g : R → R) (a b v : R) :
  a <= b → (∀ x, a <= x <= b → f x = g x) → is_RInt f a b v → is_RInt g a b v.
Proof.
  intros Hab Heq [pr <-].
  assert (∀ x, Rmin a b <= x <= Rmax a b → f x = g x) as Heq'.
  { intros x. rewrite Rmin_left, Rmax_right by done. apply Heq. }
  exists (Riemann_integrable_ext f g a b Heq' pr).
  symmetry. apply RiemannInt_P18; [done|]. intros x Hx. apply Heq. lra.
Qed.

Lemma is_RInt_le (f g : R → R) (a b v w : R) :
  a <= b → (∀ x, a < x < b → f x <= g x) →
  is_RInt f a b v → is_RInt g a b w → v <= w.
Proof. intros Hab Hle [pr1 <-] [pr2 <-]. by apply RiemannInt_P19. Qed.

Lemma is_RInt_const (c a b : R) : is_RInt (λ _, c) a b (c * (b - a)).
Proof.
  assert (Riemann_integrable (fct_cte c) a b) as pr by apply RiemannInt_P14.
  exists pr. apply RiemannInt_P15.
Qed.

Lemma is_RInt_continuous (f : R → R) (a b : R) :
  a <= b → (∀ x, a <= x <= b → continuity_pt f x) → ∃ v, is_RInt f a b v.
Proof.
  intros Hab Hc. exists (RiemannInt (continuity_implies_RiemannInt Hab Hc)).
  by eexists.
Qed.

Lemma is_RInt_lin (f g : R → R) (a b l v w : R) :
  is_RInt f a b v → is_RInt g a b w → is_RInt (λ x, f x + l * g x) a b (v + l * w).
Proof.
  intros [pr1 <-] [pr2 <-]. exists (RiemannInt_P10 l pr1 pr2). apply RiemannInt_P13.
Qed.

(** ** Derivatives of functions written as abstractions *)

Lemma dlim_const (c x : R) : derivable_pt_lim (λ _, c) x 0.
Proof. exact (derivable_pt_lim_const c x). Qed.

Lemma dlim_id (x : R) : derivable_pt_lim (λ y, y) x 1.
Proof. exact (derivable_pt_lim_id x). Qed.

Lemma dlim_plus (f g : R → R) x l m :
  derivable_pt_lim f x l → derivable_pt_lim g x m →
  derivable_pt_lim (λ y, f y + g y) x (l + m).
Proof. exact (derivable_pt_lim_plus f g x l m). Qed.

Lemma dlim_mult (f g : R → R) x l m :
  derivable_pt_lim f x l → derivable_pt_lim g x m →
  derivable_pt_lim (λ y, f y * g y) x (l * g x + f x * m).
Proof. exact (derivable_pt_lim_mult f g x l m). Qed.

Lemma dlim_scal (f : R → R) c x l :
  derivable_pt_lim f x l → derivable_pt_lim (λ y, c * f y) x (c * l).
Proof. exact (derivable_pt_lim_scal f c x l). Qed.

Lemma dlim_comp (f g : R → R) x l m :
  derivable_pt_lim f x l → derivable_pt_lim g (f x) m →
  derivable_pt_lim (λ y, g (f y)) x (m * l).
Proof. exact (derivable_pt_lim_comp f g x l m). Qed.

Lemma dlim_eq (f : R → R) x l m :
  l = m → derivable_pt_lim f x l → derivable_pt_lim f x m.
Proof. by intros ->. Qed.

Lemma dlim_continuity (f : R → R) x l : derivable_pt_lim f x l → continuity_pt f x.
Proof. intros H. apply derivable_continuous_pt. by exists l. Qed.

(** An affine change of variable [y ↦ (y - c) * s] inside [f]. *)
Lemma dlim_affine (f : R → R) c s x l :
  derivable_pt_lim f ((x - c) * s) l →
  derivable_pt_lim (λ y, f ((y - c) * s)) x (l * s).
Proof.
  intros Hf. apply (dlim_comp (λ y, (y - c) * s) f); [|done].
  apply (dlim_eq _ _ ((1 + 0) * s + (x - c) * 0)); [ring|].
  apply (dlim_mult (λ y, y - c) (λ _, s)); [|apply dlim_const].
  apply (dlim_plus (λ y, y) (λ _, - c)); [apply dlim_id|apply dlim_const].
Qed.

(** ** The Gaussian and its primitive *)

Definition gauss (u : R) : R := exp (- (u * u)).

Lemma gauss_dlim u : derivable_pt_lim gauss u (gauss u * (- (2 * u))).
Proof.
  apply (dlim_comp (λ y, - (y * y)) exp); [|apply derivable_pt_lim_exp].
  apply (dlim_eq _ _ (-1 * (1 * u + u * 1))); [ring|].
  apply (dlim_ext (λ y, -1 * (y * y))); [intros; ring|].
  apply dlim_scal. apply (dlim_mult (λ y, y) (λ y, y)); apply dlim_id.
Qed.

Lemma gauss_continuity u : continuity_pt gauss u.
Proof. eapply dlim_continuity, gauss_dlim. Qed.

Lemma gauss_pos u : 0 < gauss u.
Proof. apply exp_pos. Qed.

Lemma gauss_le_1 u : gauss u <= 1.
Proof.
  unfold gauss. rewrite <- exp_0.
  destruct (Req_dec u 0) as [->|Hu]; [rewrite Rmult_0_l, Ropp_0; lra|].
  left. apply exp_increasing. nra.
Qed.

Lemma gauss_even u : gauss (- u) = gauss u.
Proof. unfold gauss. f_equal. ring. Qed.

Definition gauss_integrable (a b : R) : Riemann_integrable gauss a b :=
  match Rle_dec a b with
  | left h => continuity_implies_RiemannInt h (λ x _, gauss_continuity x)
  | right h =>
      RiemannInt_P1
        (continuity_implies_RiemannInt (Rlt_le _ _ (Rnot_le_lt _ _ h))
           (λ x _, gauss_continuity x))
  end.

(** [gauss_int t] is the integral of the Gaussian from [0] to [t]. *)
Definition gauss_int (t : R) : R := RiemannInt (gauss_integrable 0 t).

Lemma gauss_int_0 : gauss_int 0 = 0.
Proof. apply RiemannInt_P9. Qed.

Lemma gauss_int_is_RInt a b : is_RInt gauss a b (gauss_int b - gauss_int a).
Proof.
  exists (gauss_integrable a b). unfold gauss_int.
  rewrite <- (RiemannInt_P26 (gauss_integrable 0 a) (gauss_integrable a b)
                (gauss_integrable 0 b)).
  ring.
Qed.

Lemma gauss_int_dlim t : derivable_pt_lim gauss_int t (gauss t).
Proof.
  assert (t - 1 <= t + 1) as h by lra.
  pose (C0 := λ (x : R) (_ : t - 1 <= x <= t + 1), gauss_continuity x).
  pose proof (RiemannInt_P28 (x:=t) h C0 ltac:(lra)) as HP.
  apply (dlim_ext_loc (λ y, primitive h (FTC_P1 h C0) y + gauss_int (t - 1))
           gauss_int t _ 1); [lra| |].
  - intros y Hy. apply Rabs_def2 in Hy. unfold primitive.
    destruct (Rle_dec (t - 1) y) as [H1|]; [|lra].
    destruct (Rle_dec y (t + 1)) as [H2|]; [|lra].
    destruct (gauss_int_is_RInt (t - 1) y) as [pr Hpr].
    rewrite (RiemannInt_P5 _ pr), Hpr. ring.
  - apply (dlim_eq _ _ (gauss t + 0)); [ring|].
    apply (dlim_plus _ (λ _, gauss_int (t - 1))); [exact HP|apply dlim_const].
Qed.

Lemma gauss_int_continuity t : continuity_pt gauss_int t.
Proof. eapply dlim_continuity, gauss_int_dlim. Qed.

Lemma gauss_int_nonneg t : 0 <= t → 0 <= gauss_int t.
Proof.
  intros Ht.
  pose proof (is_RInt_le (λ _, 0) gauss 0 t _ _ Ht
                (λ x _, Rlt_le _ _ (gauss_pos x)) (is_RInt_const 0 0 t)
                (gauss_int_is_RInt 0 t)) as H.
  rewrite gauss_int_0 in H. lra.
Qed.

Lemma gauss_int_le t : 0 <= t → gauss_int t <= t.
Proof.
  intros Ht.
  pose proof (is_RInt_le gauss (λ _, 1) 0 t _ _ Ht
                (λ x _, gauss_le_1 x) (gauss_int_is_RInt 0 t) (is_RInt_const 1 0 t)) as H.
  rewrite gauss_int_0 in H. lra.
Qed.

(** [gauss_int] is odd. *)
Lemma gauss_int_opp t : gauss_int (- t) = - gauss_int t.
Proof.
  assert (∀ s, gauss_int (- s) + gauss_int s = 0) as H; [|specialize (H t); lra].
  intros s.
  assert (derivable (λ s, gauss_int (- s) + gauss_int s)) as pr.
  { intros x. exists (gauss (- x) * -1 + gauss x).
    apply (dlim_plus (λ s, gauss_int (- s)) gauss_int); [|apply gauss_int_dlim].
    apply (dlim_comp Ropp gauss_int); [|apply gauss_int_dlim].
    apply (dlim_ext (λ y, -1 * y)); [intros; ring|].
    apply (dlim_eq _ _ (-1 * 1)); [ring|]. apply dlim_scal, dlim_id. }
  assert (constant (λ s, gauss_int (- s) + gauss_int s)) as Hc.
  { apply (null_derivative_1 _ pr). intros x. apply derive_pt_eq_0.
    apply (dlim_eq _ _ (gauss (- x) * -1 + gauss x)); [rewrite gauss_even; ring|].
    apply (dlim_plus (λ s, gauss_int (- s)) gauss_int); [|apply gauss_int_dlim].
    apply (dlim_comp Ropp gauss_int); [|apply gauss_int_dlim].
    apply (dlim_ext (λ y, -1 * y)); [intros; ring|].
    apply (dlim_eq _ _ (-1 * 1)); [ring|]. apply dlim_scal, dlim_id. }
  rewrite (Hc s 0). rewrite Ropp_0, gauss_int_0. ring.
Qed.

Lemma exp_quadratic z : z <= 1 / 2 → 0 <= exp z - 1 - z <= 2 * (z * z).
Proof.
  intros Hz. split; [pose proof (exp_ineq1_le z); lra|].
  pose proof (exp_ineq1_le (- z)) as H. rewrite exp_Ropp in H.
  pose proof (exp_pos z) as Hp.
  assert (exp z * (1 - z) <= 1) as H1.
  { apply (Rmult_le_compat_l (exp z)) in H; [|lra].
    rewrite Rinv_r in H by lra. lra. }
  assert (0 <= z * z * (1 - 2 * z)) as H2.
  { apply Rmult_le_pos; [apply Rle_0_sqr|lra]. }
  assert (exp z * (1 - z) <= (1 + z + 2 * (z * z)) * (1 - z)) as H3 by nra.
  apply Rmult_le_reg_r in H3; lra.
Qed.

(** A function within a quadratic distance of an affine one is differentiable. *)
Lemma dlim_quadratic (f : R → R) x l r M :
  0 < r → (∀ s, Rabs s <= r → Rabs (f (x + s) - f x - s * l) <= M * (s * s)) →
  derivable_pt_lim f x l.
Proof.
  intros Hr Hq eps Heps.
  assert (0 <= M) as HM.
  { specialize (Hq r). rewrite Rabs_right in Hq by lra.
    pose proof (Rabs_pos (f (x + r) - f x - r * l)). specialize (Hq ltac:(lra)).
    assert (0 <= M * (r * r)) as H1 by lra.
    destruct (Rle_dec 0 M) as [|Hn]; [done|]. exfalso.
    assert (0 < r * r) as H2 by (by apply Rmult_lt_0_compat).
    assert (0 < (- M) * (r * r)) by (apply Rmult_lt_0_compat; lra). lra. }
  assert (0 < Rmin r (eps / (M + 1))) as Hd.
  { apply Rmin_pos; [done|]. apply Rdiv_lt_0_compat; lra. }
  exists (mkposreal _ Hd). intros h Hh Hlt. simpl in Hlt.
  assert (Rabs h < r) as Hhr by (eapply Rlt_le_trans; [exact Hlt|apply Rmin_l]).
  assert (Rabs h < eps / (M + 1)) as Hhe by (eapply Rlt_le_trans; [exact Hlt|apply Rmin_r]).
  specialize (Hq h ltac:(lra)).
  replace ((f (x + h) - f x) / h - l) with ((f (x + h) - f x - h * l) / h) by (by field).
  unfold Rdiv. rewrite Rabs_mult, Rabs_inv.
  assert (0 < Rabs h) as Hpos by (by apply Rabs_pos_lt).
  apply (Rmult_lt_reg_r (Rabs h)); [done|].
  rewrite Rmult_assoc, Rinv_l, Rmult_1_r by lra.
  eapply Rle_lt_trans; [exact Hq|].
  replace (h * h) with (Rabs h * Rabs h)
    by (rewrite <- Rabs_mult; apply Rabs_right, Rle_ge, Rle_0_sqr).
  assert (Rabs h * (M + 1) < eps) as H1.
  { apply (Rmult_lt_compat_r (M + 1)) in Hhe; [|lra].
    unfold Rdiv in Hhe. rewrite Rmult_assoc, Rinv_l, Rmult_1_r in Hhe; lra. }
  nra.
Qed.

(** ** The auxiliary integral [kern_int] *)

Definition kern (t x : R) : R := exp (- (t * t) * (1 + x * x)) * / (1 + x * x).

(** The derivative of [kern t x] in [t]. *)
Definition kern_t (t x : R) : R := - 2 * t * exp (- (t * t) * (1 + x * x)).

Lemma one_plus_sqr_pos x : 0 < 1 + x * x.
Proof. pose proof (Rle_0_sqr x) as H. unfold Rsqr in H. lra. Qed.

Lemma poly_dlim c x : derivable_pt_lim (λ y, c * (1 + y * y)) x (c * (2 * x)).
Proof.
  apply dlim_scal. apply (dlim_eq _ _ (0 + (1 * x + x * 1))); [ring|].
  apply (dlim_plus (λ _, 1) (λ y, y * y)); [apply dlim_const|].
  apply (dlim_mult (λ y, y) (λ y, y)); apply dlim_id.
Qed.

Lemma exp_poly_continuity c x : continuity_pt (λ y, exp (c * (1 + y * y))) x.
Proof.
  eapply dlim_continuity. apply (dlim_comp (λ y, c * (1 + y * y)) exp).
  - apply poly_dlim.
  - apply derivable_pt_lim_exp.
Qed.

Lemma inv_sqr_continuity x : continuity_pt (λ y, / (1 + y * y)) x.
Proof.
  apply (continuity_pt_inv (λ y, 1 + y * y)).
  - eapply dlim_continuity. apply (dlim_ext (λ y, 1 * (1 + y * y))); [intros; ring|].
    apply poly_dlim.
  - pose proof (one_plus_sqr_pos x). lra.
Qed.

Lemma kern_continuity t x : continuity_pt (kern t) x.
Proof.
  apply (continuity_pt_mult (λ y, exp (- (t * t) * (1 + y * y))) (λ y, / (1 + y * y))).
  - apply exp_poly_continuity.
  - apply inv_sqr_continuity.
Qed.

Lemma kern_t_continuity t x : continuity_pt (kern_t t) x.
Proof.
  apply (continuity_pt_mult (λ _, - 2 * t) (λ y, exp (- (t * t) * (1 + y * y)))).
  - eapply dlim_continuity, dlim_const.
  - apply exp_poly_continuity.
Qed.

Definition kern_int (t : R) : R :=
  RiemannInt (continuity_implies_RiemannInt Rle_0_1 (λ x _, kern_continuity t x)).

Lemma kern_int_is_RInt t : is_RInt (kern t) 0 1 (kern_int t).
Proof. by eexists. Qed.

Lemma gauss_mult t x : gauss t * gauss (x * t) = exp (- (t * t) * (1 + x * x)).
Proof. unfold gauss. rewrite <- exp_plus. f_equal. ring. Qed.

Lemma kern_t_is_RInt t : is_RInt (kern_t t) 0 1 (- 2 * gauss t * gauss_int t).
Proof.
  pose (G := λ x, - 2 * gauss t * gauss_int ((x - 0) * t)).
  replace (- 2 * gauss t * gauss_int t) with (G 1 - G 0).
  2:{ unfold G. replace ((1 - 0) * t) with t by ring.
      replace ((0 - 0) * t) with 0 by ring. rewrite gauss_int_0. ring. }
  apply FTC_anti; [lra|intros; apply kern_t_continuity|].
  intros x _. unfold G.
  apply (dlim_eq _ _ (- 2 * gauss t * (gauss ((x - 0) * t) * t))).
  - unfold kern_t. rewrite <- gauss_mult. replace ((x - 0) * t) with (x * t) by ring. ring.
  - apply dlim_scal. apply (dlim_affine gauss_int 0 t). apply gauss_int_dlim.
Qed.

Lemma kern_0_is_RInt : is_RInt (kern 0) 0 1 (PI / 4).
Proof.
  replace (PI / 4) with (atan 1 - atan 0) by (rewrite atan_1, atan_0; lra).
  apply (is_RInt_ext (λ x, / (1 + x * x))); [lra| |].
  - intros x _. unfold kern. rewrite Rmult_0_l, Ropp_0, Rmult_0_l, exp_0. ring.
  - apply FTC_anti; [lra|intros; apply inv_sqr_continuity|].
    intros x _. apply (dlim_eq _ _ (/ (1 + x ^ 2))); [f_equal; ring|].
    apply derivable_pt_lim_atan.
Qed.

Lemma kern_int_0 : kern_int 0 = PI / 4.
Proof. exact (is_RInt_unique _ _ _ _ _ (kern_int_is_RInt 0) kern_0_is_RInt). Qed.

Lemma kern_bounds t x : 0 <= kern t x <= gauss t.
Proof.
  pose proof (one_plus_sqr_pos x) as Hw. pose proof (Rle_0_sqr x) as Hx.
  unfold Rsqr in Hx. unfold kern.
  pose proof (exp_pos (- (t * t) * (1 + x * x))) as He.
  assert (0 < / (1 + x * x) <= 1) as [Hi1 Hi2].
  { split; [by apply Rinv_0_lt_compat|].
    rewrite <- Rinv_1 at 2. apply Rinv_le_contravar; lra. }
  assert (exp (- (t * t) * (1 + x * x)) <= gauss t) as Hg.
  { unfold gauss. pose proof (Rle_0_sqr t) as Ht. unfold Rsqr in Ht.
    destruct (Rle_lt_or_eq_dec (- (t * t) * (1 + x * x)) (- (t * t))) as [Hlt|Heq];
      [nra|left; by apply exp_increasing|rewrite Heq; lra]. }
  split; [apply Rmult_le_pos; lra|].
  replace (gauss t) with (gauss t * 1) by ring.
  apply Rmult_le_compat; lra.
Qed.

Lemma kern_int_bounds t : 0 <= kern_int t <= gauss t.
Proof.
  split.
  - pose proof (is_RInt_le (λ _, 0) (kern t) 0 1 _ _ Rle_0_1
                  (λ x _, proj1 (kern_bounds t x)) (is_RInt_const 0 0 1) (kern_int_is_RInt t)).
    lra.
  - pose proof (is_RInt_le (kern t) (λ _, gauss t) 0 1 _ _ Rle_0_1
                  (λ x _, proj2 (kern_bounds t x)) (kern_int_is_RInt t) (is_RInt_const _ 0 1)).
    lra.
Qed.

Lemma Rabs_bounds a b : Rabs a <= b → - b <= a <= b.
Proof. unfold Rabs. destruct (Rcase_abs a); lra. Qed.

Lemma Rabs_sqr a : Rabs a * Rabs a = a * a.
Proof. rewrite <- Rabs_mult. apply Rabs_right, Rle_ge, Rle_0_sqr. Qed.

Lemma kern_quadratic t s x :
  0 <= x <= 1 → Rabs s <= / (4 * (2 * Rabs t + 1)) →
  Rabs (kern (t + s) x - kern t x - s * kern_t t x)
  <= (1 + 8 * ((2 * Rabs t + 1) * (2 * Rabs t + 1))) * (s * s).
Proof.
  intros Hx Hs. set (K := 2 * Rabs t + 1) in *.
  pose proof (Rabs_pos t) as Ht0. pose proof (Rabs_pos s) as Hs0.
  assert (1 <= K) as HK by (unfold K; lra).
  assert (Rabs s * K <= / 4) as HsK.
  { apply (Rmult_le_compat_r K) in Hs; [|lra].
    replace (/ (4 * K) * K) with (/ 4) in Hs by (field; lra). done. }
  assert (Rabs s <= / 4) as Hs4 by nra.
  set (w := 1 + x * x). assert (1 <= w <= 2) as Hw by (unfold w; nra).
  set (u := s * (2 * t + s)).
  assert (Rabs (2 * t + s) <= K) as H2ts.
  { eapply Rle_trans; [apply Rabs_triang|]. rewrite Rabs_mult, (Rabs_right 2) by lra.
    unfold K. lra. }
  pose proof (Rabs_pos (2 * t + s)) as H2ts0.
  assert (Rabs u <= Rabs s * K) as Hu.
  { unfold u. rewrite Rabs_mult. apply Rmult_le_compat_l; lra. }
  assert (u * u <= s * s * (K * K)) as Hu2.
  { rewrite <- (Rabs_sqr u), <- (Rabs_sqr s). pose proof (Rabs_pos u).
    replace (Rabs s * Rabs s * (K * K)) with ((Rabs s * K) * (Rabs s * K)) by ring.
    apply Rmult_le_compat; lra. }
  assert (- / 4 <= u <= / 4) as Hu4 by (apply Rabs_bounds; lra).
  set (z := - u * w).
  assert (z <= 1 / 2) as Hz by (unfold z; nra).
  assert (z * z <= 4 * (s * s * (K * K))) as Hz2.
  { unfold z. replace (- u * w * (- u * w)) with (u * u * (w * w)) by ring.
    pose proof (Rle_0_sqr u) as Hq. unfold Rsqr in Hq.
    assert (w * w <= 4) by nra.
    assert (u * u * (w * w) <= u * u * 4) by (apply Rmult_le_compat_l; lra). lra. }
  set (A := exp (- (t * t) * w)).
  assert (0 < A <= 1) as HA.
  { split; [apply exp_pos|]. unfold A. rewrite <- exp_0.
    pose proof (Rle_0_sqr t) as Hq. unfold Rsqr in Hq.
    destruct (Rle_lt_or_eq_dec (- (t * t) * w) 0) as [Hlt|Heq];
      [nra|left; by apply exp_increasing|rewrite Heq; lra]. }
  pose proof (exp_quadratic z Hz) as HR. set (r := exp z - 1 - z) in *.
  assert (kern (t + s) x - kern t x - s * kern_t t x = A * (r * / w - s * s)) as ->.
  { unfold kern, kern_t. fold w. fold A.
    replace (- ((t + s) * (t + s)) * w) with (- (t * t) * w + z) by (unfold z, u; ring).
    rewrite exp_plus. fold A. unfold r, z, u. field. lra. }
  assert (0 < / w <= 1) as Hiw.
  { split; [apply Rinv_0_lt_compat; lra|]. rewrite <- Rinv_1.
    apply Rinv_le_contravar; lra. }
  assert (0 <= r * / w <= 2 * (z * z)) as Hrw.
  { split; [apply Rmult_le_pos; lra|].
    replace (2 * (z * z)) with (2 * (z * z) * 1) by ring.
    apply Rmult_le_compat; lra. }
  pose proof (Rle_0_sqr s) as Hss. unfold Rsqr in Hss.
  rewrite Rabs_mult, (Rabs_right A) by lra.
  assert (Rabs (r * / w - s * s) <= 2 * (z * z) + s * s) as Hb.
  { apply Rabs_le. lra. }
  pose proof (Rabs_pos (r * / w - s * s)) as Hp.
  assert (A * Rabs (r * / w - s * s) <= 1 * Rabs (r * / w - s * s)) as Hc
    by (apply Rmult_le_compat_r; lra).
  lra.
Qed.

Lemma kern_int_dlim t : derivable_pt_lim kern_int t (- 2 * gauss t * gauss_int t).
Proof.
  set (K := 2 * Rabs t + 1). pose proof (Rabs_pos t) as Ht0.
  assert (0 < / (4 * K)) as Hr by (apply Rinv_0_lt_compat; unfold K; lra).
  apply (dlim_quadratic kern_int t _ (/ (4 * K)) (1 + 8 * (K * K))); [done|].
  intros s Hs. set (M := 1 + 8 * (K * K)).
  pose proof (is_RInt_lin _ _ 0 1 (- s) _ _
                (is_RInt_lin _ _ 0 1 (-1) _ _ (kern_int_is_RInt (t + s)) (kern_int_is_RInt t))
                (kern_t_is_RInt t)) as Hint.
  cbv beta in Hint.
  assert (∀ x, 0 < x < 1 →
            - (M * (s * s)) <= kern (t + s) x + -1 * kern t x + - s * kern_t t x
            <= M * (s * s)) as Hb.
  { intros x Hx. apply Rabs_bounds.
    replace (kern (t + s) x + -1 * kern t x + - s * kern_t t x)
      with (kern (t + s) x - kern t x - s * kern_t t x) by ring.
    apply kern_quadratic; [lra|done]. }
  pose proof (is_RInt_le _ _ 0 1 _ _ Rle_0_1 (λ x Hx, proj1 (Hb x Hx))
                (is_RInt_const _ 0 1) Hint) as H1.
  pose proof (is_RInt_le _ _ 0 1 _ _ Rle_0_1 (λ x Hx, proj2 (Hb x Hx))
                Hint (is_RInt_const _ 0 1)) as H2.
  apply Rabs_le. lra.
Qed.

(** [gauss_int t * gauss_int t + kern_int t] does not depend on [t]. *)
Lemma gauss_int_sqr_plus_kern_int t : gauss_int t * gauss_int t + kern_int t = PI / 4.
Proof.
  assert (∀ x, derivable_pt_lim (λ y, gauss_int y * gauss_int y + kern_int y) x 0) as Hd.
  { intros x.
    apply (dlim_eq _ _ ((gauss x * gauss_int x + gauss_int x * gauss x)
                        + - 2 * gauss x * gauss_int x)); [ring|].
    apply (dlim_plus (λ y, gauss_int y * gauss_int y) kern_int); [|apply kern_int_dlim].
    apply (dlim_mult gauss_int gauss_int); apply gauss_int_dlim. }
  pose (pr := (λ x, exist _ 0 (Hd x))
          : derivable (λ y, gauss_int y * gauss_int y + kern_int y)).
  rewrite (null_derivative_1 _ pr (λ x, eq_refl) t 0), gauss_int_0, kern_int_0. ring.
Qed.

(** The integral of the Gaussian over [[0, t]] tends to [sqrt PI / 2]. *)
Lemma gauss_int_limit_bound t : 0 <= t → Rabs (gauss_int t - sqrt PI / 2) <= 2 * gauss t.
Proof.
  intros Ht. pose proof (gauss_int_sqr_plus_kern_int t) as HF.
  pose proof (kern_int_bounds t) as HJ.
  pose proof (gauss_int_nonneg t Ht) as HE. pose proof PI_RGT_0 as Hpi.
  pose proof PI2_3_2 as Hpi3.
  pose proof (sqrt_sqrt PI ltac:(lra)) as Hsq.
  pose proof (sqrt_lt_R0 PI ltac:(lra)) as Hs0.
  set (h := sqrt PI / 2) in *.
  assert (0 < h) as Hh0 by (unfold h; lra).
  assert (h * h = PI / 4) as Hh.
  { unfold h. replace (sqrt PI / 2 * (sqrt PI / 2)) with (sqrt PI * sqrt PI / 4) by field.
    by rewrite Hsq. }
  assert (1 / 2 <= h) as Hh1.
  { destruct (Rle_dec (1 / 2) h); [done|]. exfalso. assert (h * h < /4) by nra. lra. }
  assert ((gauss_int t - h) * (gauss_int t + h) = - kern_int t) as Hprod by (ring_simplify; lra).
  assert (gauss_int t <= h) as Hle.
  { destruct (Rle_dec (gauss_int t) h); [done|]. exfalso.
    assert (0 < (gauss_int t - h) * (gauss_int t + h)) by (apply Rmult_lt_0_compat; lra). lra. }
  rewrite Rabs_left1 by lra.
  assert ((h - gauss_int t) * (1 / 2) <= (h - gauss_int t) * (gauss_int t + h))
    by (apply Rmult_le_compat_l; lra).
  pose proof (gauss_pos t). lra.
Qed.

Lemma gauss_le_inv t : 0 < t → gauss t <= / t.
Proof.
  intros Ht. unfold gauss. rewrite exp_Ropp.
  apply Rinv_le_contravar; [done|].
  pose proof (exp_ineq1_le (t * t)). nra.
Qed.

Lemma gauss_int_near eta t : 0 < eta → 2 / eta <= t → Rabs (gauss_int t - sqrt PI / 2) <= eta.
Proof.
  intros Heta Ht.
  assert (0 < 2 / eta) as H0 by (apply Rdiv_lt_0_compat; lra).
  eapply Rle_trans; [apply gauss_int_limit_bound; lra|].
  pose proof (gauss_le_inv t ltac:(lra)) as Hg.
  assert (/ t <= / (2 / eta)) as Hi by (apply Rinv_le_contravar; lra).
  replace (/ (2 / eta)) with (eta / 2) in Hi by (field; lra). lra.
Qed.

Lemma gauss_int_abs_le t : Rabs (gauss_int t) <= Rabs t.
Proof.
  destruct (Rle_dec 0 t) as [Ht|Ht].
  - rewrite !Rabs_right; [by apply gauss_int_le| lra | apply Rle_ge; by apply gauss_int_nonneg].
  - assert (0 <= - t) as Hn by lra.
    pose proof (gauss_int_le _ Hn) as H1. pose proof (gauss_int_nonneg _ Hn) as H2.
    rewrite gauss_int_opp in H1, H2. rewrite !Rabs_left1; lra.
Qed.

(** ** Integrals over rectangles and half-planes *)

(** [v] is the iterated integral of [q] over [[x0, x1] × [y0, y1]]. *)
Definition is_RInt2 (q : R → R → R) (x0 x1 y0 y1 v : R) : Prop :=
  ∃ F : R → R,
    (∀ x, x0 <= x <= x1 → is_RInt (q x) y0 y1 (F x)) ∧ is_RInt F x0 x1 v.

Lemma is_RInt2_unique q x0 x1 y0 y1 v w :
  x0 <= x1 → is_RInt2 q x0 x1 y0 y1 v → is_RInt2 q x0 x1 y0 y1 w → v = w.
Proof.
  intros Hx (F & HF & Hv) (G & HG & Hw).
  apply (is_RInt_unique G x0 x1); [|done].
  apply (is_RInt_ext F); [done| |done].
  intros x Hx'. exact (is_RInt_unique _ _ _ _ _ (HF x Hx') (HG x Hx')).
Qed.

Lemma is_RInt2_ext (q q' : R → R → R) x0 x1 y0 y1 v :
  y0 <= y1 →
  (∀ x y, x0 <= x <= x1 → y0 <= y <= y1 → q x y = q' x y) →
  is_RInt2 q x0 x1 y0 y1 v → is_RInt2 q' x0 x1 y0 y1 v.
Proof.
  intros Hy Heq (F & HF & Hv). exists F. split; [|done].
  intros x Hx. apply (is_RInt_ext (q x)); [done| |by apply HF].
  intros y Hy'. by apply Heq.
Qed.

(** The family of rectangles exhausting the half-plane [x >= x_arc]. *)
Definition forward_boxes (x_arc M x0 x1 : R) : Prop :=
  x0 = x_arc ∧ x_arc + M <= x1.

(** The family of rectangles exhausting the half-plane [x < x_arc]. *)
Definition rearward_boxes (x_arc M x0 x1 : R) : Prop :=
  x0 <= x_arc - M ∧ x_arc - / M <= x1 ∧ x1 < x_arc ∧ x0 <= x1.

(** [q] integrates to [v] over the region exhausted by [boxes] in [x] and by
    [[-M, M]] in [y]. *)
Definition integrates_to (boxes : R → R → R → Prop) (q : R → R → R) (v : R) : Prop :=
  ∀ eps, 0 < eps →
    ∃ M, 0 < M ∧
      ∀ x0 x1 y0 y1, boxes M x0 x1 → y0 <= - M → M <= y1 →
        ∃ w, is_RInt2 q x0 x1 y0 y1 w ∧ Rabs (w - v) < eps.

Lemma forward_boxes_mono x_arc M M' x0 x1 :
  M <= M' → forward_boxes x_arc M' x0 x1 → forward_boxes x_arc M x0 x1.
Proof. intros HM [-> H]. split; [done|lra]. Qed.

Lemma rearward_boxes_mono x_arc M M' x0 x1 :
  0 < M → M <= M' → rearward_boxes x_arc M' x0 x1 → rearward_boxes x_arc M x0 x1.
Proof.
  intros H0 HM (H1 & H2 & H3 & H4).
  assert (/ M' <= / M) by (apply Rinv_le_contravar; lra).
  repeat split; lra.
Qed.

Lemma forward_boxes_inhabited x_arc M :
  0 < M → ∃ x0 x1, forward_boxes x_arc M x0 x1 ∧ x0 <= x1.
Proof. intros HM. exists x_arc, (x_arc + M). repeat split; lra. Qed.

Lemma rearward_boxes_inhabited x_arc M :
  0 < M → ∃ x0 x1, rearward_boxes x_arc M x0 x1 ∧ x0 <= x1.
Proof.
  intros HM. assert (0 < / M) by (by apply Rinv_0_lt_compat).
  exists (x_arc - M - / M), (x_arc - / M). repeat split; lra.
Qed.

Lemma integrates_to_unique boxes q v w :
  (∀ M M' x0 x1, 0 < M → M <= M' → boxes M' x0 x1 → boxes M x0 x1) →
  (∀ M, 0 < M → ∃ x0 x1, boxes M x0 x1 ∧ x0 <= x1) →
  integrates_to boxes q v → integrates_to boxes q w → v = w.
Proof.
  intros Hmono Hinh Hv Hw.
  destruct (Req_dec v w) as [|Hne]; [done|exfalso].
  assert (0 < Rabs (v - w) / 2) as Heps.
  { apply Rdiv_lt_0_compat; [apply Rabs_pos_lt|]; lra. }
  destruct (Hv _ Heps) as (M1 & HM1 & H1). destruct (Hw _ Heps) as (M2 & HM2 & H2).
  set (M := Rmax M1 M2).
  assert (M1 <= M ∧ M2 <= M) as [Hle1 Hle2] by (split; [apply Rmax_l|apply Rmax_r]).
  destruct (Hinh M ltac:(lra)) as (x0 & x1 & Hb & Hx).
  destruct (H1 x0 x1 (- M) M) as (w1 & Hi1 & Hd1); [by eapply Hmono|lra..|].
  destruct (H2 x0 x1 (- M) M) as (w2 & Hi2 & Hd2); [by eapply Hmono|lra..|].
  rewrite (is_RInt2_unique _ _ _ _ _ _ _ Hx Hi2 Hi1) in Hd2.
  assert (Rabs (v - w) <= Rabs (w1 - v) + Rabs (w1 - w)) as Ht; [|lra].
  replace (v - w) with (- (w1 - v) + (w1 - w)) by ring.
  eapply Rle_trans; [apply Rabs_triang|]. rewrite Rabs_Ropp. lra.
Qed.

(** The integrand may be changed outside the region that the boxes cover. *)
Lemma integrates_to_ext boxes (D : R → Prop) (q q' : R → R → R) v :
  (∀ M x0 x1 x, 0 < M → boxes M x0 x1 → x0 <= x <= x1 → D x) →
  (∀ x y, D x → q x y = q' x y) →
  integrates_to boxes q v → integrates_to boxes q' v.
Proof.
  intros HD Heq Hq eps Heps. destruct (Hq eps Heps) as (M & HM & H).
  exists M. split; [done|]. intros x0 x1 y0 y1 Hb Hy0 Hy1.
  destruct (H x0 x1 y0 y1 Hb Hy0 Hy1) as (w & Hw & Hd).
  exists w. split; [|done].
  apply (is_RInt2_ext q); [lra| |done].
  intros x y Hx _. apply Heq. by eapply HD.
Qed.

Lemma is_RInt_scal (g : R → R) (a b l w : R) :
  a <= b → is_RInt g a b w → is_RInt (λ x, l * g x) a b (l * w).
Proof.
  intros Hab Hg.
  pose proof (is_RInt_lin (λ _, 0) g a b l _ _ (is_RInt_const 0 a b) Hg) as H.
  replace (0 * (b - a) + l * w) with (l * w) in H by ring.
  apply (is_RInt_ext (λ x, 0 + l * g x)); [done| |done]. intros; ring.
Qed.

(** The integral of a shifted and scaled Gaussian over an interval. *)
Lemma gauss_affine_is_RInt c k a b :
  0 < k → a <= b →
  is_RInt (λ x, gauss ((x - c) * k)) a b
    (/ k * (gauss_int ((b - c) * k) - gauss_int ((a - c) * k))).
Proof.
  intros Hk Hab.
  replace (/ k * (gauss_int ((b - c) * k) - gauss_int ((a - c) * k)))
    with (/ k * gauss_int ((b - c) * k) - / k * gauss_int ((a - c) * k)) by ring.
  apply (FTC_anti _ (λ x, / k * gauss_int ((x - c) * k))); [done| |].
  - intros x _. eapply dlim_continuity. apply (dlim_affine gauss). apply gauss_dlim.
  - intros x _. apply (dlim_eq _ _ (/ k * (gauss ((x - c) * k) * k))); [field; lra|].
    apply dlim_scal. apply (dlim_affine gauss_int). apply gauss_int_dlim.
Qed.

(** The integral of a product of two Gaussians over a rectangle. *)
Lemma gauss_box C kx ky cx cy x0 x1 y0 y1 :
  0 < kx → 0 < ky → x0 <= x1 → y0 <= y1 →
  is_RInt2 (λ x y, C * gauss ((x - cx) * kx) * gauss ((y - cy) * ky)) x0 x1 y0 y1
    (C * / kx * / ky
     * (gauss_int ((x1 - cx) * kx) - gauss_int ((x0 - cx) * kx))
     * (gauss_int ((y1 - cy) * ky) - gauss_int ((y0 - cy) * ky))).
Proof.
  intros Hkx Hky Hx Hy.
  set (wy := / ky * (gauss_int ((y1 - cy) * ky) - gauss_int ((y0 - cy) * ky))).
  exists (λ x, C * wy * gauss ((x - cx) * kx)). split.
  - intros x _.
    replace (C * wy * gauss ((x - cx) * kx)) with (C * gauss ((x - cx) * kx) * wy) by ring.
    apply is_RInt_scal; [done|]. by apply gauss_affine_is_RInt.
  - replace (C * / kx * / ky * (gauss_int ((x1 - cx) * kx) - gauss_int ((x0 - cx) * kx))
             * (gauss_int ((y1 - cy) * ky) - gauss_int ((y0 - cy) * ky)))
      with (C * wy * (/ kx * (gauss_int ((x1 - cx) * kx) - gauss_int ((x0 - cx) * kx))))
      by (unfold wy; ring).
    apply is_RInt_scal; [done|]. by apply gauss_affine_is_RInt.
Qed.

Lemma half_sqrt_PI : 0 <= sqrt PI / 2 <= 1 ∧ sqrt PI / 2 * (sqrt PI / 2) = PI / 4.
Proof.
  pose proof PI_RGT_0 as Hpi. pose proof PI_4 as Hpi4.
  pose proof (sqrt_sqrt PI ltac:(lra)) as Hsq.
  pose proof (sqrt_pos PI) as Hs0.
  assert (sqrt PI / 2 * (sqrt PI / 2) = PI / 4) as Hh.
  { replace (sqrt PI / 2 * (sqrt PI / 2)) with (sqrt PI * sqrt PI / 4) by field.
    by rewrite Hsq. }
  split; [|done]. split; [lra|].
  destruct (Rle_dec (sqrt PI / 2) 1); [done|]. exfalso. 
  assert (1 < sqrt PI / 2 * (sqrt PI / 2)) by nra. lra.
Qed.

Lemma product_near C h eta d1 d2 :
  0 <= h <= 1 → 0 < eta <= 1 → Rabs d1 <= 2 * eta → Rabs d2 <= 2 * eta →
  Rabs (C * (h + d1) * (2 * h + d2) - C * (2 * (h * h))) <= Rabs C * (10 * eta).
Proof.
  intros Hh Heta H1 H2.
  replace (C * (h + d1) * (2 * h + d2) - C * (2 * (h * h)))
    with (C * (h * d2 + 2 * h * d1 + d1 * d2)) by ring.
  rewrite Rabs_mult. apply Rmult_le_compat_l; [apply Rabs_pos|].
  apply Rabs_bounds in H1, H2. apply Rabs_le. nra.
Qed.

Lemma gauss_box_near C kx ky cx cy x0 x1 y0 y1 eta :
  0 < kx → 0 < ky → 0 < eta <= 1 → x0 <= x1 → y0 <= y1 →
  Rabs (gauss_int ((x1 - cx) * kx) - gauss_int ((x0 - cx) * kx) - sqrt PI / 2) <= 2 * eta →
  Rabs (gauss_int ((y1 - cy) * ky) - gauss_int ((y0 - cy) * ky) - 2 * (sqrt PI / 2))
  <= 2 * eta →
  ∃ w, is_RInt2 (λ x y, C * gauss ((x - cx) * kx) * gauss ((y - cy) * ky)) x0 x1 y0 y1 w
       ∧ Rabs (w - C * / kx * / ky * (PI / 2)) <= Rabs (C * / kx * / ky) * (10 * eta).
Proof.
  intros Hkx Hky Heta Hx Hy H1 H2. eexists. split; [by apply gauss_box|].
  destruct half_sqrt_PI as [Hh Hhh]. set (h := sqrt PI / 2) in *.
  replace (PI / 2) with (2 * (h * h)) by lra.
  set (d1 := gauss_int ((x1 - cx) * kx) - gauss_int ((x0 - cx) * kx) - h) in *.
  set (d2 := gauss_int ((y1 - cy) * ky) - gauss_int ((y0 - cy) * ky) - 2 * h) in *.
  replace (gauss_int ((x1 - cx) * kx) - gauss_int ((x0 - cx) * kx)) with (h + d1)
    by (unfold d1; ring).
  replace (gauss_int ((y1 - cy) * ky) - gauss_int ((y0 - cy) * ky)) with (2 * h + d2)
    by (unfold d2; ring).
  by apply product_near.
Qed.

(** Far from the centre on both sides, the Gaussian integral is nearly [sqrt PI]. *)
Lemma gauss_int_span_near eta k c y0 y1 M :
  0 < k → 0 < eta → y0 <= - M → M <= y1 → 2 / eta <= (M - Rabs c) * k →
  Rabs (gauss_int ((y1 - c) * k) - gauss_int ((y0 - c) * k) - 2 * (sqrt PI / 2)) <= 2 * eta.
Proof.
  intros Hk Heta Hy0 Hy1 HM.
  pose proof (Rle_abs c) as Hc1. pose proof (Rle_abs (- c)) as Hc2.
  rewrite Rabs_Ropp in Hc2.
  assert ((M - Rabs c) * k <= (y1 - c) * k) as H1 by (apply Rmult_le_compat_r; lra).
  assert ((M - Rabs c) * k <= (c - y0) * k) as H2 by (apply Rmult_le_compat_r; lra).
  pose proof (gauss_int_near eta _ Heta (Rle_trans _ _ _ HM H1)) as Hn1.
  pose proof (gauss_int_near eta _ Heta (Rle_trans _ _ _ HM H2)) as Hn2.
  replace ((y0 - c) * k) with (- ((c - y0) * k)) by ring. rewrite gauss_int_opp.
  apply Rabs_bounds in Hn1, Hn2. apply Rabs_le. lra.
Qed.

Lemma eta_choice C eps :
  0 < eps → ∃ eta, 0 < eta <= 1 ∧ Rabs C * (10 * eta) < eps.
Proof.
  intros Heps. pose proof (Rabs_pos C) as HC.
  assert (0 < eps / (10 * Rabs C + 1)) as Hq by (apply Rdiv_lt_0_compat; lra).
  exists (Rmin 1 (eps / (10 * Rabs C + 1))). split.
  - split; [by apply Rmin_pos; [lra|]|apply Rmin_l].
  - pose proof (Rmin_r 1 (eps / (10 * Rabs C + 1))) as Hr.
    set (eta := Rmin 1 _) in *.
    assert (0 < eta) as He by (by apply Rmin_pos; [lra|]).
    assert (eta * (10 * Rabs C + 1) <= eps) as Hm.
    { apply (Rmult_le_compat_r (10 * Rabs C + 1)) in Hr; [|lra].
      unfold Rdiv in Hr. rewrite Rmult_assoc, Rinv_l, Rmult_1_r in Hr; lra. }
    lra.
Qed.

(** The product of two Gaussians centred at [(cx, cy)], integrated over the
    half-plane ahead of [cx]. *)
Lemma gauss_forward C kx ky cx cy :
  0 < kx → 0 < ky →
  integrates_to (forward_boxes cx)
    (λ x y, C * gauss ((x - cx) * kx) * gauss ((y - cy) * ky))
    (C * / kx * / ky * (PI / 2)).
Proof.
  intros Hkx Hky eps Heps.
  destruct (eta_choice (C * / kx * / ky) eps Heps) as (eta & Heta & Hsmall).
  assert (0 < 2 / eta) as H2e by (apply Rdiv_lt_0_compat; lra).
  pose proof (Rabs_pos cy) as Hcy.
  assert (0 < / kx ∧ 0 < / ky) as [Hikx Hiky] by (split; by apply Rinv_0_lt_compat).
  assert (0 < 2 / eta * / kx ∧ 0 < 2 / eta * / ky) as [Hax Hay]
    by (split; by apply Rmult_lt_0_compat).
  exists (2 / eta * / kx + 2 / eta * / ky + Rabs cy + 1). split; [lra|].
  set (M := 2 / eta * / kx + 2 / eta * / ky + Rabs cy + 1).
  intros x0 x1 y0 y1 [-> Hx1] Hy0 Hy1.
  destruct (gauss_box_near C kx ky cx cy cx x1 y0 y1 eta) as (w & Hw & Hd);
    [done|done|done|unfold M in *; lra|unfold M in *; lra| | |].
  - replace ((cx - cx) * kx) with 0 by ring. rewrite gauss_int_0, Rminus_0_r.
    apply Rle_trans with eta; [apply gauss_int_near; [lra|]|lra].
    apply Rle_trans with (M * kx); [|apply Rmult_le_compat_r; lra].
    replace (2 / eta) with (2 / eta * / kx * kx) by (field; lra).
    apply Rmult_le_compat_r; unfold M; lra.
  - apply (gauss_int_span_near eta ky cy y0 y1 M); [done|lra|done|done|].
    replace (2 / eta) with (2 / eta * / ky * ky) by (field; lra).
    apply Rmult_le_compat_r; unfold M; lra.
  - exists w. split; [done|lra].
Qed.

(** The same product integrated over the half-plane behind [cx]. *)
Lemma gauss_rearward C kx ky cx cy :
  0 < kx → 0 < ky →
  integrates_to (rearward_boxes cx)
    (λ x y, C * gauss ((x - cx) * kx) * gauss ((y - cy) * ky))
    (C * / kx * / ky * (PI / 2)).
Proof.
  intros Hkx Hky eps Heps.
  destruct (eta_choice (C * / kx * / ky) eps Heps) as (eta & Heta & Hsmall).
  assert (0 < 2 / eta) as H2e by (apply Rdiv_lt_0_compat; lra).
  assert (0 < kx / eta) as Hke by (apply Rdiv_lt_0_compat; lra).
  pose proof (Rabs_pos cy) as Hcy.
  assert (0 < / kx ∧ 0 < / ky) as [Hikx Hiky] by (split; by apply Rinv_0_lt_compat).
  assert (0 < 2 / eta * / kx ∧ 0 < 2 / eta * / ky) as [Hax Hay]
    by (split; by apply Rmult_lt_0_compat).
  exists (2 / eta * / kx + 2 / eta * / ky + Rabs cy + kx / eta + 1). split; [lra|].
  set (M := 2 / eta * / kx + 2 / eta * / ky + Rabs cy + kx / eta + 1).
  assert (0 < M) as HM by (unfold M; lra).
  intros x0 x1 y0 y1 (Hx0 & Hx1 & Hx1' & Hx01) Hy0 Hy1.
  destruct (gauss_box_near C kx ky cx cy x0 x1 y0 y1 eta) as (w & Hw & Hd);
    [done|done|done|done|lra| | |].
  - assert (2 / eta <= (cx - x0) * kx) as HT.
    { apply Rle_trans with (M * kx); [|apply Rmult_le_compat_r; lra].
      replace (2 / eta) with (2 / eta * / kx * kx) by (field; lra).
      apply Rmult_le_compat_r; unfold M; lra. }
    pose proof (gauss_int_near eta _ ltac:(lra) HT) as Hn.
    replace ((x0 - cx) * kx) with (- ((cx - x0) * kx)) by ring. rewrite gauss_int_opp.
    pose proof (gauss_int_abs_le ((x1 - cx) * kx)) as Hs.
    assert (Rabs ((x1 - cx) * kx) <= eta) as Hs'.
    { rewrite Rabs_left1 by nra.
      assert (/ M <= eta / kx) as HiM.
      { replace (eta / kx) with (/ (kx / eta)) by (field; lra).
        apply Rinv_le_contravar; unfold M; lra. }
      assert ((cx - x1) * kx <= / M * kx) by (apply Rmult_le_compat_r; lra).
      assert (/ M * kx <= eta / kx * kx) by (apply Rmult_le_compat_r; lra).
      replace (eta / kx * kx) with eta in * by (field; lra). lra. }
    apply Rabs_bounds in Hn. apply Rabs_bounds in Hs.
    apply Rabs_le. lra.
  - apply (gauss_int_span_near eta ky cy y0 y1 M); [done|lra|done|done|].
    replace (2 / eta) with (2 / eta * / ky * ky) by (field; lra).
    apply Rmult_le_compat_r; unfold M; lra.
  - exists w. split; [done|lra].
Qed.

(** ** The two heat-flux functions as products of Gaussians *)

Lemma gauss_pair (u v : R) : gauss u * gauss v = exp (- (u * u) - v * v).
Proof. unfold gauss. rewrite <- exp_plus. f_equal. Qed.

Lemma weld_goldak_point_product sim x_arc x y :
  let c := Weld.config_ sim in
  let a := Weld.SimulationConfig.a c in
  let b := Weld.SimulationConfig.b c in
  a ≠ 0 → b ≠ 0 →
  Weld.goldak_point sim x_arc x y
  = (if Rge_dec (x - x_arc) 0 then Weld.SimulationConfig.ff c else Weld.SimulationConfig.fr c)
    * Weld.Q_total_ sim / (a * b * PI)
    * gauss ((x - x_arc) * / a)
    * gauss ((y - Weld.SimulationConfig.y_arc c) * / b).
Proof.
  intros c a b Ha Hb. unfold Weld.goldak_point. fold c. fold a. fold b.
  cbv zeta.
  set (xi := x - x_arc). set (eta := y - Weld.SimulationConfig.y_arc c).
  assert (exp (- xi * xi / (a * a) - eta * eta / (b * b))
          = gauss (xi * / a) * gauss (eta * / b)) as ->.
  { rewrite gauss_pair. f_equal. by field. }
  destruct (Rge_dec xi 0); ring.
Qed.

Lemma sqrt_3 : 0 < sqrt 3 ∧ sqrt 3 * sqrt 3 = 3.
Proof. split; [apply sqrt_lt_R0; lra|apply sqrt_sqrt; lra]. Qed.

Lemma tig_goldak_flux_product Q a b cf cr ff fr xi eta :
  b ≠ 0 → cf ≠ 0 → cr ≠ 0 →
  TIG.goldak_flux Q a b cf cr ff fr xi eta
  = (if Rge_dec xi 0 then 6 * ff * Q / (a * b * cf * PI * sqrt PI)
     else 6 * fr * Q / (a * b * cr * PI * sqrt PI))
    * gauss (xi * (sqrt 3 / (if Rge_dec xi 0 then cf else cr)))
    * gauss (eta * (sqrt 3 / b)).
Proof.
  intros Hb Hcf Hcr. unfold TIG.goldak_flux. cbv zeta.
  destruct sqrt_3 as [_ H3].
  replace 6.0 with 6 by lra. replace (-3.0) with (-3) by lra.
  destruct (Rge_dec xi 0).
  - rewrite (Rmult_assoc _ (gauss _) (gauss _)), gauss_pair. f_equal. f_equal.
    replace (xi * (sqrt 3 / cf) * (xi * (sqrt 3 / cf)))
      with (sqrt 3 * sqrt 3 * (xi * xi / (cf * cf))) by (by field).
    replace (eta * (sqrt 3 / b) * (eta * (sqrt 3 / b)))
      with (sqrt 3 * sqrt 3 * (eta * eta / (b * b))) by (by field).
    rewrite H3. ring.
  - rewrite (Rmult_assoc _ (gauss _) (gauss _)), gauss_pair. f_equal. f_equal.
    replace (xi * (sqrt 3 / cr) * (xi * (sqrt 3 / cr)))
      with (sqrt 3 * sqrt 3 * (xi * xi / (cr * cr))) by (by field).
    replace (eta * (sqrt 3 / b) * (eta * (sqrt 3 / b)))
      with (sqrt 3 * sqrt 3 * (eta * eta / (b * b))) by (by field).
    rewrite H3. ring.
Qed.

(** The flux of [TIGSimulator] as a function of the position on the plate. *)
Definition tig_flux (c : TIG.TIGConfig.t) (x_arc : R) (x y : R) : R :=
  TIG.goldak_flux (TIGSteps.Q_total c) (TIG.TIGConfig.a c) (TIG.TIGConfig.b c)
    (TIG.TIGConfig.cf c) (TIG.TIGConfig.cr c) (TIG.TIGConfig.ff c) (TIG.TIGConfig.fr c)
    (x - x_arc) (y - TIG.TIGConfig.y_arc c).

Lemma forward_boxes_region x_arc M x0 x1 x :
  0 < M → forward_boxes x_arc M x0 x1 → x0 <= x <= x1 → x - x_arc >= 0.
Proof. intros _ [-> _] ?. lra. Qed.

Lemma rearward_boxes_region x_arc M x0 x1 x :
  0 < M → rearward_boxes x_arc M x0 x1 → x0 <= x <= x1 → ¬ x - x_arc >= 0.
Proof. intros _ (_ & _ & ? & _) ?. lra. Qed.

Lemma weld_forward_integral sim x_arc :
  let c := Weld.config_ sim in
  0 < Weld.SimulationConfig.a c → 0 < Weld.SimulationConfig.b c →
  integrates_to (forward_boxes x_arc) (Weld.goldak_point sim x_arc)
    (Weld.SimulationConfig.ff c * Weld.Q_total_ sim / 2).
Proof.
  intros c Ha Hb. set (a := Weld.SimulationConfig.a c) in *.
  set (b := Weld.SimulationConfig.b c) in *.
  pose proof PI_RGT_0 as Hpi.
  pose proof (gauss_forward (Weld.SimulationConfig.ff c * Weld.Q_total_ sim / (a * b * PI))
                (/ a) (/ b) x_arc (Weld.SimulationConfig.y_arc c)
                ltac:(by apply Rinv_0_lt_compat) ltac:(by apply Rinv_0_lt_compat)) as H.
  replace (Weld.SimulationConfig.ff c * Weld.Q_total_ sim / (a * b * PI) * / / a * / / b
           * (PI / 2))
    with (Weld.SimulationConfig.ff c * Weld.Q_total_ sim / 2) in H by (field; lra).
  revert H. apply (integrates_to_ext _ (λ x, x - x_arc >= 0)).
  - apply forward_boxes_region.
  - intros x y Hx. rewrite weld_goldak_point_product by (fold c; fold a; fold b; lra).
    fold c. fold a. fold b. by destruct (Rge_dec _ _).
Qed.

Lemma weld_rearward_integral sim x_arc :
  let c := Weld.config_ sim in
  0 < Weld.SimulationConfig.a c → 0 < Weld.SimulationConfig.b c →
  integrates_to (rearward_boxes x_arc) (Weld.goldak_point sim x_arc)
    (Weld.SimulationConfig.fr c * Weld.Q_total_ sim / 2).
Proof.
  intros c Ha Hb. set (a := Weld.SimulationConfig.a c) in *.
  set (b := Weld.SimulationConfig.b c) in *.
  pose proof PI_RGT_0 as Hpi.
  pose proof (gauss_rearward (Weld.SimulationConfig.fr c * Weld.Q_total_ sim / (a * b * PI))
                (/ a) (/ b) x_arc (Weld.SimulationConfig.y_arc c)
                ltac:(by apply Rinv_0_lt_compat) ltac:(by apply Rinv_0_lt_compat)) as H.
  replace (Weld.SimulationConfig.fr c * Weld.Q_total_ sim / (a * b * PI) * / / a * / / b
           * (PI / 2))
    with (Weld.SimulationConfig.fr c * Weld.Q_total_ sim / 2) in H by (field; lra).
  revert H. apply (integrates_to_ext _ (λ x, ¬ x - x_arc >= 0)).
  - apply rearward_boxes_region.
  - intros x y Hx. rewrite weld_goldak_point_product by (fold c; fold a; fold b; lra).
    fold c. fold a. fold b. by destruct (Rge_dec _ _).
Qed.

Lemma tig_forward_integral c x_arc :
  0 < TIG.TIGConfig.a c → 0 < TIG.TIGConfig.b c →
  0 < TIG.TIGConfig.cf c → 0 < TIG.TIGConfig.cr c →
  integrates_to (forward_boxes x_arc) (tig_flux c x_arc)
    (TIG.TIGConfig.ff c * TIGSteps.Q_total c / (TIG.TIGConfig.a c * sqrt PI)).
Proof.
  intros Ha Hb Hcf Hcr. destruct sqrt_3 as [H3 H33].
  pose proof PI_RGT_0 as Hpi. pose proof (sqrt_lt_R0 PI Hpi) as Hspi.
  set (a := TIG.TIGConfig.a c) in *. set (b := TIG.TIGConfig.b c) in *.
  set (cf := TIG.TIGConfig.cf c) in *. set (cr := TIG.TIGConfig.cr c) in *.
  set (Q := TIGSteps.Q_total c). set (ff := TIG.TIGConfig.ff c).
  pose proof (gauss_forward (6 * ff * Q / (a * b * cf * PI * sqrt PI))
                (sqrt 3 / cf) (sqrt 3 / b) x_arc (TIG.TIGConfig.y_arc c)
                ltac:(by apply Rdiv_lt_0_compat) ltac:(by apply Rdiv_lt_0_compat)) as H.
  replace (6 * ff * Q / (a * b * cf * PI * sqrt PI) * / (sqrt 3 / cf) * / (sqrt 3 / b)
           * (PI / 2))
    with (ff * Q / (a * sqrt PI)) in H.
  2:{ replace (6 * ff * Q / (a * b * cf * PI * sqrt PI) * / (sqrt 3 / cf) * / (sqrt 3 / b)
               * (PI / 2))
        with (3 * ff * Q / (a * sqrt PI * (sqrt 3 * sqrt 3))) by (field; lra).
      rewrite H33. field; lra. }
  revert H. apply (integrates_to_ext _ (λ x, x - x_arc >= 0)).
  - apply forward_boxes_region.
  - intros x y Hx. unfold tig_flux.
    rewrite tig_goldak_flux_product by (fold b; fold cf; fold cr; lra).
    fold a b cf cr Q ff. by destruct (Rge_dec _ _).
Qed.

Lemma tig_rearward_integral c x_arc :
  0 < TIG.TIGConfig.a c → 0 < TIG.TIGConfig.b c →
  0 < TIG.TIGConfig.cf c → 0 < TIG.TIGConfig.cr c →
  integrates_to (rearward_boxes x_arc) (tig_flux c x_arc)
    (TIG.TIGConfig.fr c * TIGSteps.Q_total c / (TIG.TIGConfig.a c * sqrt PI)).
Proof.
  intros Ha Hb Hcf Hcr. destruct sqrt_3 as [H3 H33].
  pose proof PI_RGT_0 as Hpi. pose proof (sqrt_lt_R0 PI Hpi) as Hspi.
  set (a := TIG.TIGConfig.a c) in *. set (b := TIG.TIGConfig.b c) in *.
  set (cf := TIG.TIGConfig.cf c) in *. set (cr := TIG.TIGConfig.cr c) in *.
  set (Q := TIGSteps.Q_total c). set (fr := TIG.TIGConfig.fr c).
  pose proof (gauss_rearward (6 * fr * Q / (a * b * cr * PI * sqrt PI))
                (sqrt 3 / cr) (sqrt 3 / b) x_arc (TIG.TIGConfig.y_arc c)
                ltac:(by apply Rdiv_lt_0_compat) ltac:(by apply Rdiv_lt_0_compat)) as H.
  replace (6 * fr * Q / (a * b * cr * PI * sqrt PI) * / (sqrt 3 / cr) * / (sqrt 3 / b)
           * (PI / 2))
    with (fr * Q / (a * sqrt PI)) in H.
  2:{ replace (6 * fr * Q / (a * b * cr * PI * sqrt PI) * / (sqrt 3 / cr) * / (sqrt 3 / b)
               * (PI / 2))
        with (3 * fr * Q / (a * sqrt PI * (sqrt 3 * sqrt 3))) by (field; lra).
      rewrite H33. field; lra. }
  revert H. apply (integrates_to_ext _ (λ x, ¬ x - x_arc >= 0)).
  - apply rearward_boxes_region.
  - intros x y Hx. unfold tig_flux.
    rewrite tig_goldak_flux_product by (fold b; fold cf; fold cr; lra).
    fold a b cf cr Q fr. by destruct (Rge_dec _ _).
Qed.

Lemma forward_integral_unique x_arc q v w :
  integrates_to (forward_boxes x_arc) q v → integrates_to (forward_boxes x_arc) q w →
  v = w.
Proof.
  apply integrates_to_unique.
  - intros M M' x0 x1 _. apply forward_boxes_mono.
  - apply forward_boxes_inhabited.
Qed.

Lemma rearward_integral_unique x_arc q v w :
  integrates_to (rearward_boxes x_arc) q v → integrates_to (rearward_boxes x_arc) q w →
  v = w.
Proof.
  apply integrates_to_unique.
  - intros M M' x0 x1. apply rearward_boxes_mono.
  - apply rearward_boxes_inhabited.
Qed.

(** C3 as stated fails under both normalizations.  In [WeldingSimulation] at
    the default configuration (arc at [x_arc = 0.02], [Q_total_ > 0]) the
    forward half of [computeGoldakHeatFlux] integrates to [ff * Q_total_ / 2],
    so it does not integrate to [ff * Q_total_].  In [TIGSimulator] at the
    default configuration the forward half of [goldak_heat_flux] integrates to
    [ff * Q / (a * sqrt PI)], which is larger than [ff * Q]. *)
Lemma goldak_normalization_counterexample :
  (∃ sim, Weld.construct Weld.SimulationConfig.default = Weld.Constructed sim ∧
     0 < Weld.Q_total_ sim ∧
     integrates_to (forward_boxes 0.02) (Weld.goldak_point sim 0.02)
       (Weld.SimulationConfig.ff (Weld.config_ sim) * Weld.Q_total_ sim / 2) ∧
     ¬ integrates_to (forward_boxes 0.02) (Weld.goldak_point sim 0.02)
         (Weld.SimulationConfig.ff (Weld.config_ sim) * Weld.Q_total_ sim)) ∧
  0 < TIGSteps.Q_total TIG.TIGConfig.default ∧
  integrates_to (forward_boxes 0.02) (tig_flux TIG.TIGConfig.default 0.02)
    (0.6 * TIGSteps.Q_total TIG.TIGConfig.default / (0.004 * sqrt PI)) ∧
  0.6 * TIGSteps.Q_total TIG.TIGConfig.default
  < 0.6 * TIGSteps.Q_total TIG.TIGConfig.default / (0.004 * sqrt PI) ∧
  ¬ integrates_to (forward_boxes 0.02) (tig_flux TIG.TIGConfig.default 0.02)
      (0.6 * TIGSteps.Q_total TIG.TIGConfig.default).
Proof.
  split.
  - destruct (WeldSource.construct_succeeds Weld.SimulationConfig.default)
      as [sim Hc]; [cbn; lia..|].
    exists sim. split; [exact Hc|].
    destruct (weld_construct_power _ _ Hc) as [_ HQ].
    destruct (WeldRun.construct_inv _ _ Hc) as (_ & _ & _ & _ & _ & Hcfg & _).
    assert (0 < Weld.Q_total_ sim) as HQpos by (rewrite HQ; cbn; lra).
    assert (Weld.SimulationConfig.ff (Weld.config_ sim) = 0.6) as Hff by (by rewrite Hcfg).
    assert (integrates_to (forward_boxes 0.02) (Weld.goldak_point sim 0.02)
              (Weld.SimulationConfig.ff (Weld.config_ sim) * Weld.Q_total_ sim / 2)) as Hint.
    { apply weld_forward_integral; rewrite Hcfg; cbn; lra. }
    split; [done|]. split; [done|]. intros Hbad.
    pose proof (forward_integral_unique _ _ _ _ Hint Hbad) as Heq.
    rewrite Hff in Heq. lra.
  - assert (0 < TIGSteps.Q_total TIG.TIGConfig.default) as HQ
      by (unfold TIGSteps.Q_total; cbn; lra).
    assert (integrates_to (forward_boxes 0.02) (tig_flux TIG.TIGConfig.default 0.02)
              (0.6 * TIGSteps.Q_total TIG.TIGConfig.default / (0.004 * sqrt PI))) as Hint.
    { apply (tig_forward_integral TIG.TIGConfig.default 0.02); cbn; lra. }
    pose proof PI_RGT_0 as Hpi. pose proof (sqrt_lt_R0 PI Hpi) as Hs.
    destruct half_sqrt_PI as [[_ Hle] _].
    assert (0.6 * TIGSteps.Q_total TIG.TIGConfig.default
            < 0.6 * TIGSteps.Q_total TIG.TIGConfig.default / (0.004 * sqrt PI)) as Hlt.
    { set (Q := TIGSteps.Q_total _) in *.
      apply (Rmult_lt_reg_r (0.004 * sqrt PI)); [lra|].
      replace (0.6 * Q / (0.004 * sqrt PI) * (0.004 * sqrt PI)) with (0.6 * Q)
        by (field; lra).
      assert (0.6 * Q * (0.004 * sqrt PI) <= 0.6 * Q * 0.008)
        by (apply Rmult_le_compat_l; lra).
      lra. }
    split; [done|]. split; [done|]. split; [done|]. intros Hbad.
    pose proof (forward_integral_unique _ _ _ _ Hint Hbad) as Heq. lra.
Qed.

(** C3, amended.  Over the half-plane ahead of the arc ([xi >= 0]) and over the
    half-plane behind it ([xi < 0]), for every arc position and every total
    power:
    - the flux of [WeldingSimulation::computeGoldakHeatFlux], coefficient
      [(f * Q_total) / (a * b * PI)], integrates to [ff * Q_total / 2] and to
      [fr * Q_total / 2];
    - the flux of [goldak_heat_flux], coefficient
      [(6 * f * Q) / (a * b * c * PI * sqrt PI)], integrates to
      [ff * Q / (a * sqrt PI)] and to [fr * Q / (a * sqrt PI)].
    The length scales are positive. *)
Theorem goldak_half_plane_integrals :
  (∀ sim x_arc,
     0 < Weld.SimulationConfig.a (Weld.config_ sim) →
     0 < Weld.SimulationConfig.b (Weld.config_ sim) →
     integrates_to (forward_boxes x_arc) (Weld.goldak_point sim x_arc)
       (Weld.SimulationConfig.ff (Weld.config_ sim) * Weld.Q_total_ sim / 2) ∧
     integrates_to (rearward_boxes x_arc) (Weld.goldak_point sim x_arc)
       (Weld.SimulationConfig.fr (Weld.config_ sim) * Weld.Q_total_ sim / 2)) ∧
  (∀ c x_arc,
     0 < TIG.TIGConfig.a c → 0 < TIG.TIGConfig.b c →
     0 < TIG.TIGConfig.cf c → 0 < TIG.TIGConfig.cr c →
     integrates_to (forward_boxes x_arc) (tig_flux c x_arc)
       (TIG.TIGConfig.ff c * TIGSteps.Q_total c / (TIG.TIGConfig.a c * sqrt PI)) ∧
     integrates_to (rearward_boxes x_arc) (tig_flux c x_arc)
       (TIG.TIGConfig.fr c * TIGSteps.Q_total c / (TIG.TIGConfig.a c * sqrt PI))).
Proof.
  split.
  - intros sim x_arc Ha Hb. split.
    + by apply weld_forward_integral.
    + by apply weld_rearward_integral.
  - intros c x_arc Ha Hb Hcf Hcr. split.
    + by apply tig_forward_integral.
    + by apply tig_rearward_integral.
Qed.

(** C3 (amended) on the 3 x 3 grid of [WeldingSimulation] and at the default
    configuration of [TIGSimulator], with the arc at [x_arc = 0.02]. *)
Lemma goldak_half_plane_integrals_witness :
  (∃ sim, Weld.construct (weld_config 3 3 293.0 150.0) = Weld.Constructed sim ∧
     integrates_to (rearward_boxes 0.02) (Weld.goldak_point sim 0.02)
       (Weld.SimulationConfig.fr (Weld.config_ sim) * Weld.Q_total_ sim / 2)) ∧
  integrates_to (forward_boxes 0.02) (tig_flux TIG.TIGConfig.default 0.02)
    (TIG.TIGConfig.ff TIG.TIGConfig.default * TIGSteps.Q_total TIG.TIGConfig.default
     / (TIG.TIGConfig.a TIG.TIGConfig.default * sqrt PI)).
Proof.
  split.
  - eexists. split; [reflexivity|].
    lazymatch goal with
    | |- integrates_to _ (Weld.goldak_point ?sim _) _ =>
        refine (proj2 (proj1 goldak_half_plane_integrals sim 0.02 _ _))
    end; cbn; lra.
  - refine (proj1 (proj2 goldak_half_plane_integrals TIG.TIGConfig.default 0.02 _ _ _ _));
      cbn; lra.
Defined.

(** * Further properties of the code *)

(** ** The temperature-dependent material laws *)

(** The three member functions of [Material] are the free functions of
    cpp-weld/main.cpp applied to the members. *)
Lemma weld_get_k_tig m T :
  Weld.Material.get_k m T
  = TIG.get_k T (Weld.Material.k m) (Weld.Material.T_crit m) (Weld.Material.T_melt m).
Proof. reflexivity. Qed.

Lemma weld_get_cp_tig m T :
  Weld.Material.get_cp m T
  = TIG.get_cp T (Weld.Material.cp m) (Weld.Material.T_crit m) (Weld.Material.T_melt m).
Proof. reflexivity. Qed.

Lemma weld_get_rho_tig m T :
  Weld.Material.get_rho m T
  = TIG.get_rho T (Weld.Material.rho m) (Weld.Material.T_crit m) (Weld.Material.T_melt m).
Proof. reflexivity. Qed.

(** The interpolation fraction, on the branch that evaluates it. *)
Definition melt_fraction (T T_crit T_melt : R) : R := (T - T_crit) / (T_melt - T_crit).

Lemma melt_fraction_range T T_crit T_melt :
  ¬ T < T_crit → T < T_melt → 0 <= melt_fraction T T_crit T_melt < 1.
Proof.
  intros H1 H2. unfold melt_fraction.
  assert (0 < T_melt - T_crit) as Hd by lra.
  split.
  - apply Rmult_le_pos; [lra|]. left. by apply Rinv_0_lt_compat.
  - apply (Rmult_lt_reg_r (T_melt - T_crit)); [done|].
    unfold Rdiv. rewrite Rmult_assoc, Rinv_l by lra. lra.
Qed.

Lemma melt_fraction_mono T T' T_crit T_melt :
  T_crit < T_melt → T <= T' →
  melt_fraction T T_crit T_melt <= melt_fraction T' T_crit T_melt.
Proof.
  intros Hd HT. unfold melt_fraction, Rdiv.
  apply Rmult_le_compat_r; [|lra]. left. apply Rinv_0_lt_compat. lra.
Qed.

(** The three laws as one shape: the base value times a factor that goes
    from [1] to [1 + slope] between [T_crit] and [T_melt]. *)
Definition law_factor (slope T T_crit T_melt : R) : R :=
  if Rlt_dec T T_crit then 1
  else if Rlt_dec T T_melt then 1 + melt_fraction T T_crit T_melt * slope
  else 1 + slope.

Lemma tig_get_k_factor T base T_crit T_melt :
  TIG.get_k T base T_crit T_melt = base * law_factor 0.1 T T_crit T_melt.
Proof.
  unfold TIG.get_k, law_factor, melt_fraction.
  destruct (Rlt_dec T T_crit); [lra|]. destruct (Rlt_dec T T_melt); lra.
Qed.

Lemma tig_get_cp_factor T base T_crit T_melt :
  TIG.get_cp T base T_crit T_melt = base * law_factor 0.2 T T_crit T_melt.
Proof.
  unfold TIG.get_cp, law_factor, melt_fraction.
  destruct (Rlt_dec T T_crit); [lra|]. destruct (Rlt_dec T T_melt); lra.
Qed.

Lemma tig_get_rho_factor T base T_crit T_melt :
  TIG.get_rho T base T_crit T_melt = base * law_factor (-0.05) T T_crit T_melt.
Proof.
  unfold TIG.get_rho, law_factor, melt_fraction.
  destruct (Rlt_dec T T_crit); [lra|]. destruct (Rlt_dec T T_melt); lra.
Qed.

(** The share of the interval [[T_crit, T_melt]] that [T] has passed: the
    factor is [1 + share * slope] with a share in [[0, 1]], whatever the order
    of [T_crit] and [T_melt]. *)
Lemma law_factor_shares T T_crit T_melt :
  ∃ s, 0 <= s <= 1 ∧ ∀ slope, law_factor slope T T_crit T_melt = 1 + s * slope.
Proof.
  unfold law_factor. destruct (Rlt_dec T T_crit) as [|H1].
  - exists 0. split; [lra|]. intros; lra.
  - destruct (Rlt_dec T T_melt) as [H2|].
    + exists (melt_fraction T T_crit T_melt). split; [|done].
      pose proof (melt_fraction_range _ _ _ H1 H2). lra.
    + exists 1. split; [lra|]. intros; lra.
Qed.

Lemma law_factor_mono slope T T' T_crit T_melt :
  0 <= slope → T <= T' →
  law_factor slope T T_crit T_melt <= law_factor slope T' T_crit T_melt.
Proof.
  intros Hs HT. unfold law_factor.
  pose proof (melt_fraction_range T T_crit T_melt) as Hr.
  pose proof (melt_fraction_range T' T_crit T_melt) as Hr'.
  pose proof (melt_fraction_mono T T' T_crit T_melt) as Hm.
  destruct (Rlt_dec T T_crit), (Rlt_dec T' T_crit), (Rlt_dec T T_melt),
    (Rlt_dec T' T_melt); try lra;
    try (specialize (Hr ltac:(done) ltac:(done)));
    try (specialize (Hr' ltac:(done) ltac:(done)));
    try (specialize (Hm ltac:(lra) HT)); nra.
Qed.

Lemma law_factor_antimono slope T T' T_crit T_melt :
  slope <= 0 → T <= T' →
  law_factor slope T' T_crit T_melt <= law_factor slope T T_crit T_melt.
Proof.
  intros Hs HT. unfold law_factor.
  pose proof (melt_fraction_range T T_crit T_melt) as Hr.
  pose proof (melt_fraction_range T' T_crit T_melt) as Hr'.
  pose proof (melt_fraction_mono T T' T_crit T_melt) as Hm.
  destruct (Rlt_dec T T_crit), (Rlt_dec T' T_crit), (Rlt_dec T T_melt),
    (Rlt_dec T' T_melt); try lra;
    try (specialize (Hr ltac:(done) ltac:(done)));
    try (specialize (Hr' ltac:(done) ltac:(done)));
    try (specialize (Hm ltac:(lra) HT)); nra.
Qed.

Lemma tig_property_bounds T T_crit T_melt k cp rho :
  0 <= k → 0 <= cp → 0 <= rho →
  k <= TIG.get_k T k T_crit T_melt <= 1.1 * k ∧
  cp <= TIG.get_cp T cp T_crit T_melt <= 1.2 * cp ∧
  0.95 * rho <= TIG.get_rho T rho T_crit T_melt <= rho.
Proof.
  intros Hk Hcp Hrho.
  rewrite tig_get_k_factor, tig_get_cp_factor, tig_get_rho_factor.
  destruct (law_factor_shares T T_crit T_melt) as (s & Hs & Hshare). rewrite !Hshare.
  assert (0 <= k * s <= k) by nra.
  assert (0 <= cp * s <= cp) by nra.
  assert (0 <= rho * s <= rho) by nra.
  repeat split; lra.
Qed.

Lemma tig_property_monotone T T' T_crit T_melt k cp rho :
  0 <= k → 0 <= cp → 0 <= rho → T <= T' →
  TIG.get_k T k T_crit T_melt <= TIG.get_k T' k T_crit T_melt ∧
  TIG.get_cp T cp T_crit T_melt <= TIG.get_cp T' cp T_crit T_melt ∧
  TIG.get_rho T' rho T_crit T_melt <= TIG.get_rho T rho T_crit T_melt.
Proof.
  intros Hk Hcp Hrho HT.
  rewrite !tig_get_k_factor, !tig_get_cp_factor, !tig_get_rho_factor.
  pose proof (law_factor_mono 0.1 T T' T_crit T_melt ltac:(lra) HT).
  pose proof (law_factor_mono 0.2 T T' T_crit T_melt ltac:(lra) HT).
  pose proof (law_factor_antimono (-0.05) T T' T_crit T_melt ltac:(lra) HT).
  repeat split; apply Rmult_le_compat_l; done.
Qed.

(** The diffusivity [k / (rho * cp)] at temperature [T], as both variants
    compute it for a cell. *)
Definition diffusivity (T T_crit T_melt k cp rho : R) : R :=
  TIG.get_k T k T_crit T_melt
  / (TIG.get_rho T rho T_crit T_melt * TIG.get_cp T cp T_crit T_melt).

Lemma diffusivity_range T T_crit T_melt k cp rho :
  0 < k → 0 < cp → 0 < rho →
  0 < TIG.get_rho T rho T_crit T_melt * TIG.get_cp T cp T_crit T_melt ∧
  0 < diffusivity T T_crit T_melt k cp rho <= k / (rho * cp).
Proof.
  intros Hk Hcp Hrho. unfold diffusivity.
  rewrite tig_get_k_factor, tig_get_cp_factor, tig_get_rho_factor.
  destruct (law_factor_shares T T_crit T_melt) as (s & Hs & Hshare). rewrite !Hshare.
  assert (0 < rho * cp) as Hrc by (by apply Rmult_lt_0_compat).
  assert (0 < (1 + s * -0.05) * (1 + s * 0.2)) as Hf by (apply Rmult_lt_0_compat; lra).
  assert (1 + s * 0.1 <= (1 + s * -0.05) * (1 + s * 0.2)) as Hle by nra.
  replace (rho * (1 + s * -0.05) * (cp * (1 + s * 0.2)))
    with (rho * cp * ((1 + s * -0.05) * (1 + s * 0.2))) by ring.
  assert (0 < rho * cp * ((1 + s * -0.05) * (1 + s * 0.2))) as Hden
    by (by apply Rmult_lt_0_compat).
  split; [done|]. split.
  - apply Rdiv_lt_0_compat; [|done]. apply Rmult_lt_0_compat; lra.
  - apply (Rmult_le_reg_r (rho * cp * ((1 + s * -0.05) * (1 + s * 0.2)))); [done|].
    unfold Rdiv at 1. rewrite Rmult_assoc, Rinv_l, Rmult_1_r by lra.
    replace (k / (rho * cp) * (rho * cp * ((1 + s * -0.05) * (1 + s * 0.2))))
      with (k * ((1 + s * -0.05) * (1 + s * 0.2))) by (field; lra).
    apply Rmult_le_compat_l; lra.
Qed.

(** ** The explicit update as a weighted mean of the stencil *)

(** The five-point update is a sum of the five stencil values with the
    weights [1 - 2 * p - 2 * q], [p], [p], [q], [q]. *)
Lemma stencil_mean_upper (p q Tc Txm Txp Tym Typ hi : R) :
  0 <= p → 0 <= q → 2 * (p + q) <= 1 →
  Tc <= hi → Txm <= hi → Txp <= hi → Tym <= hi → Typ <= hi →
  Tc + (p * (Txp - 2 * Tc + Txm) + q * (Typ - 2 * Tc + Tym)) <= hi.
Proof.
  intros Hp Hq Hpq Hc Hxm Hxp Hym Hyp.
  replace (Tc + (p * (Txp - 2 * Tc + Txm) + q * (Typ - 2 * Tc + Tym)))
    with ((1 - 2 * p - 2 * q) * Tc + p * Txp + p * Txm + q * Typ + q * Tym) by ring.
  assert ((1 - 2 * p - 2 * q) * Tc <= (1 - 2 * p - 2 * q) * hi)
    by (apply Rmult_le_compat_l; lra).
  assert (p * Txp <= p * hi) by (by apply Rmult_le_compat_l).
  assert (p * Txm <= p * hi) by (by apply Rmult_le_compat_l).
  assert (q * Typ <= q * hi) by (by apply Rmult_le_compat_l).
  assert (q * Tym <= q * hi) by (by apply Rmult_le_compat_l).
  lra.
Qed.

Lemma stencil_mean_lower (p q Tc Txm Txp Tym Typ lo : R) :
  0 <= p → 0 <= q → 2 * (p + q) <= 1 →
  lo <= Tc → lo <= Txm → lo <= Txp → lo <= Tym → lo <= Typ →
  lo <= Tc + (p * (Txp - 2 * Tc + Txm) + q * (Typ - 2 * Tc + Tym)).
Proof.
  intros Hp Hq Hpq Hc Hxm Hxp Hym Hyp.
  pose proof (stencil_mean_upper p q (- Tc) (- Txm) (- Txp) (- Tym) (- Typ) (- lo)
                Hp Hq Hpq ltac:(lra) ltac:(lra) ltac:(lra) ltac:(lra) ltac:(lra)) as H.
  lra.
Qed.

Lemma inv_sqr_pos (d : R) : d ≠ 0 → 0 < 1 / d ^ 2.
Proof.
  intros Hd. apply Rdiv_lt_0_compat; [lra|]. simpl. rewrite Rmult_1_r.
  destruct (Rtotal_order d 0) as [H|[H|H]]; [|done|]; nra.
Qed.

(** The step that the stability bound allows: [alpha * (1/dx² + 1/dy²)] times
    the effective step is at most [0.4]. *)
Lemma effective_step_range dt dx dy alpha :
  0 <= dt → dx ≠ 0 → dy ≠ 0 → 0 < alpha →
  0 <= effective_step dt dx dy alpha <= dt ∧
  effective_step dt dx dy alpha * (alpha * (1 / dx ^ 2 + 1 / dy ^ 2)) <= 0.4.
Proof.
  intros Hdt Hdx Hdy Ha. unfold effective_step. cbv zeta.
  pose proof (inv_sqr_pos dx Hdx) as Hx. pose proof (inv_sqr_pos dy Hdy) as Hy.
  set (L := alpha * (1 / dx ^ 2 + 1 / dy ^ 2)).
  assert (0 < L) as HL by (apply Rmult_lt_0_compat; lra).
  assert (0 < 0.4 / L) as Hm by (apply Rdiv_lt_0_compat; lra).
  assert (0.4 / L * L = 0.4) as Hml by (field; lra).
  unfold Rmin. destruct (Rle_dec dt (0.4 / L)) as [Hle|Hgt].
  - split; [lra|]. rewrite <- Hml. apply Rmult_le_compat_r; lra.
  - split; lra.
Qed.

Section SteppedUpdate.
Context (tau dx dy alpha : R).
Context (Htau : 0 <= tau) (Hdx : dx ≠ 0) (Hdy : dy ≠ 0) (Halpha : 0 < alpha).
Context (Hcfl : 2 * (tau * (alpha * (1 / dx ^ 2 + 1 / dy ^ 2))) <= 1).

(** The update with step [tau] and source term [src]. *)
Definition stepped_update (Tc Txm Txp Tym Typ src : R) : R :=
  Tc + tau * (alpha * ((Txp - 2 * Tc + Txm) / dx ^ 2 + (Typ - 2 * Tc + Tym) / dy ^ 2)
              + src).

Lemma stepped_update_mean Tc Txm Txp Tym Typ src :
  ∃ p q, 0 <= p ∧ 0 <= q ∧ 2 * (p + q) <= 1 ∧
    stepped_update Tc Txm Txp Tym Typ src
    = Tc + (p * (Txp - 2 * Tc + Txm) + q * (Typ - 2 * Tc + Tym)) + tau * src.
Proof.
  pose proof (inv_sqr_pos dx Hdx) as Hx. pose proof (inv_sqr_pos dy Hdy) as Hy.
  exists (tau * alpha * (1 / dx ^ 2)), (tau * alpha * (1 / dy ^ 2)).
  split; [apply Rmult_le_pos; [apply Rmult_le_pos|]; lra|].
  split; [apply Rmult_le_pos; [apply Rmult_le_pos|]; lra|].
  split.
  - replace (tau * alpha * (1 / dx ^ 2) + tau * alpha * (1 / dy ^ 2))
      with (tau * (alpha * (1 / dx ^ 2 + 1 / dy ^ 2))) by ring. done.
  - unfold stepped_update, Rdiv. ring.
Qed.

Lemma stepped_update_upper Tc Txm Txp Tym Typ src hi :
  Tc <= hi → Txm <= hi → Txp <= hi → Tym <= hi → Typ <= hi →
  stepped_update Tc Txm Txp Tym Typ src <= hi + tau * src.
Proof.
  intros Hc Hxm Hxp Hym Hyp.
  destruct (stepped_update_mean Tc Txm Txp Tym Typ src) as (p & q & Hp & Hq & Hpq & ->).
  pose proof (stencil_mean_upper p q Tc Txm Txp Tym Typ hi Hp Hq Hpq Hc Hxm Hxp Hym Hyp).
  lra.
Qed.

Lemma stepped_update_lower Tc Txm Txp Tym Typ src lo :
  lo <= Tc → lo <= Txm → lo <= Txp → lo <= Tym → lo <= Typ →
  lo + tau * src <= stepped_update Tc Txm Txp Tym Typ src.
Proof.
  intros Hc Hxm Hxp Hym Hyp.
  destruct (stepped_update_mean Tc Txm Txp Tym Typ src) as (p & q & Hp & Hq & Hpq & ->).
  pose proof (stencil_mean_lower p q Tc Txm Txp Tym Typ lo Hp Hq Hpq Hc Hxm Hxp Hym Hyp).
  lra.
Qed.

End SteppedUpdate.

Lemma spec_update_stepped dt dx dy k rho cp Tc Txm Txp Tym Typ Q :
  spec_update dt dx dy k rho cp Tc Txm Txp Tym Typ Q
  = stepped_update (effective_step dt dx dy (k / (rho * cp))) dx dy (k / (rho * cp))
      Tc Txm Txp Tym Typ (Q / (rho * cp)).
Proof. reflexivity. Qed.

Lemma nominal_update_stepped dt dx dy k rho cp Tc Txm Txp Tym Typ Q :
  nominal_update dt dx dy k rho cp Tc Txm Txp Tym Typ Q
  = stepped_update dt dx dy (k / (rho * cp)) Tc Txm Txp Tym Typ (Q / (rho * cp)).
Proof. reflexivity. Qed.

Lemma effective_step_cfl dt dx dy alpha :
  0 <= dt → dx ≠ 0 → dy ≠ 0 → 0 < alpha →
  2 * (effective_step dt dx dy alpha * (alpha * (1 / dx ^ 2 + 1 / dy ^ 2))) <= 1.
Proof.
  intros Hdt Hdx Hdy Ha.
  destruct (effective_step_range dt dx dy alpha Hdt Hdx Hdy Ha) as [_ H]. lra.
Qed.

(** ** [WeldingSimulation]: members that the time loop never writes *)

(** The members other than [T_] and [T_max_]. *)
Definition weld_static (sim : Weld.WeldingSimulation) :=
  (Weld.config_ sim, Weld.mat_1_ sim, Weld.mat_2_ sim, Weld.nx_ sim, Weld.ny_ sim,
   Weld.N_ sim, Weld.dx_ sim, Weld.dy_ sim, Weld.midpoint_ sim,
   Weld.x_ sim, Weld.y_ sim, Weld.X_ sim, Weld.Y_ sim,
   Weld.t_end_ sim, Weld.nt_ sim, Weld.Q_total_ sim, Weld.T_melt_ sim, Weld.T_crit_ sim).

Lemma weld_solveTimeStep_static sim t Qvol :
  weld_static (Weld.solveTimeStep sim t Qvol) = weld_static sim.
Proof. reflexivity. Qed.

Lemma weld_run_steps_static n st :
  weld_static (Weld.run_sim (Weld.run_steps n st)) = weld_static (Weld.run_sim st).
Proof.
  induction n as [|n IH]; [done|]. simpl. unfold Weld.run_iteration. simpl.
  by rewrite weld_solveTimeStep_static.
Qed.

Lemma weld_after_static n sim : weld_static (weld_after n sim) = weld_static sim.
Proof. apply weld_run_steps_static. Qed.

(** What the constructor stores besides the fields. *)
Lemma weld_construct_static config sim :
  Weld.construct config = Weld.Constructed sim →
  Weld.mat_1_ sim
  = Weld.Material.make
      (Weld.SimulationConfig.mat_1_name config) (Weld.SimulationConfig.mat_1_rho config)
      (Weld.SimulationConfig.mat_1_cp config) (Weld.SimulationConfig.mat_1_k config)
      (Weld.SimulationConfig.mat_1_T_melt config)
      (Weld.SimulationConfig.mat_1_T_crit config) ∧
  Weld.mat_2_ sim
  = Weld.Material.make
      (Weld.SimulationConfig.mat_2_name config) (Weld.SimulationConfig.mat_2_rho config)
      (Weld.SimulationConfig.mat_2_cp config) (Weld.SimulationConfig.mat_2_k config)
      (Weld.SimulationConfig.mat_2_T_melt config)
      (Weld.SimulationConfig.mat_2_T_crit config) ∧
  Weld.midpoint_ sim = Weld.SimulationConfig.Lx config / 2.0 ∧
  Weld.T_melt_ sim
  = (Weld.SimulationConfig.mat_1_T_melt config
     + Weld.SimulationConfig.mat_2_T_melt config) / 2.0 ∧
  Weld.T_crit_ sim
  = (Weld.SimulationConfig.mat_1_T_crit config
     + Weld.SimulationConfig.mat_2_T_crit config) / 2.0 ∧
  Weld.t_end_ sim
  = (Weld.SimulationConfig.Lx config - Weld.SimulationConfig.x_start config)
    / Weld.SimulationConfig.v_weld config + 10.0 ∧
  Weld.nt_ sim = ceil_int (Weld.t_end_ sim / Weld.SimulationConfig.dt config).
Proof.
  unfold Weld.construct.
  destruct (_ || _)%Z eqn:Hneg; [done|].
  destruct ((Weld.SimulationConfig.nx config <? 2)%Z || _) eqn:Hsmall; [done|].
  by intros [= <-].
Qed.

(** ** [WeldingSimulation::solveTimeStep]: the update stays within the stencil *)

Lemma weld_material_range sim index T :
  weld_materials_positive sim →
  let m := Weld.material_at sim index in
  0 < Weld.Material.get_rho m T * Weld.Material.get_cp m T ∧
  0 < Weld.Material.get_k m T / (Weld.Material.get_rho m T * Weld.Material.get_cp m T).
Proof.
  intros [(Hk1 & Hc1 & Hr1) (Hk2 & Hc2 & Hr2)] m.
  rewrite weld_get_k_tig, weld_get_cp_tig, weld_get_rho_tig.
  assert (0 < Weld.Material.k m ∧ 0 < Weld.Material.cp m ∧ 0 < Weld.Material.rho m)
    as (Hk & Hc & Hr).
  { unfold m, Weld.material_at. by destruct (Rlt_dec _ _). }
  destruct (diffusivity_range T (Weld.Material.T_crit m) (Weld.Material.T_melt m)
              _ _ _ Hk Hc Hr) as (H1 & H2 & _).
  split; done.
Qed.

Section WeldCell.
Context (sim : Weld.WeldingSimulation) (Qvol : list R) (i j : Z).
Context (Hs : WeldFacts.sizes_ok sim).
Context (Hi : (0 < i < Weld.nx_ sim - 1)%Z) (Hj : (0 < j < Weld.ny_ sim - 1)%Z).
Context (Hpos : weld_materials_positive sim).
Context (Hdx : Weld.dx_ sim ≠ 0) (Hdy : Weld.dy_ sim ≠ 0).
Context (Hdt : 0 <= Weld.SimulationConfig.dt (Weld.config_ sim)).

Lemma weld_interior_update_upper hi :
  vec_get (Weld.T_ sim) (Weld.idx (Weld.nx_ sim) i j) <= hi →
  vec_get (Weld.T_ sim) (Weld.idx (Weld.nx_ sim) (i - 1) j) <= hi →
  vec_get (Weld.T_ sim) (Weld.idx (Weld.nx_ sim) (i + 1) j) <= hi →
  vec_get (Weld.T_ sim) (Weld.idx (Weld.nx_ sim) i (j - 1)) <= hi →
  vec_get (Weld.T_ sim) (Weld.idx (Weld.nx_ sim) i (j + 1)) <= hi →
  vec_get Qvol (Weld.idx (Weld.nx_ sim) i j) <= 0 →
  Weld.interior_update sim (Weld.computeMaterialProperties sim (Weld.T_ sim)) Qvol i j
  <= hi.
Proof.
  intros Hc Hxm Hxp Hym Hyp HQ.
  rewrite weld_interior_update_spec by done.
  unfold weld_spec_update. cbv zeta. rewrite spec_update_stepped.
  set (index := Weld.idx (Weld.nx_ sim) i j) in *.
  set (Tc := vec_get (Weld.T_ sim) index) in *.
  destruct (weld_material_range sim index Tc Hpos) as [Hrc Ha].
  destruct (effective_step_range _ _ _ _ Hdt Hdx Hdy Ha) as [Htau _].
  pose proof (effective_step_cfl _ _ _ _ Hdt Hdx Hdy Ha) as Hcfl.
  eapply Rle_trans; [apply stepped_update_upper; try done; apply Htau|].
  set (tau := effective_step _ _ _ _) in *.
  assert (tau * (vec_get Qvol index
                 / (Weld.Material.get_rho (Weld.material_at sim index) Tc
                    * Weld.Material.get_cp (Weld.material_at sim index) Tc)) <= 0); [|lra].
  assert (vec_get Qvol index
          / (Weld.Material.get_rho (Weld.material_at sim index) Tc
             * Weld.Material.get_cp (Weld.material_at sim index) Tc) <= 0) as Hsrc.
  { unfold Rdiv. apply Rinv_0_lt_compat in Hrc. nra. }
  nra.
Qed.

Lemma weld_interior_update_lower lo :
  lo <= vec_get (Weld.T_ sim) (Weld.idx (Weld.nx_ sim) i j) →
  lo <= vec_get (Weld.T_ sim) (Weld.idx (Weld.nx_ sim) (i - 1) j) →
  lo <= vec_get (Weld.T_ sim) (Weld.idx (Weld.nx_ sim) (i + 1) j) →
  lo <= vec_get (Weld.T_ sim) (Weld.idx (Weld.nx_ sim) i (j - 1)) →
  lo <= vec_get (Weld.T_ sim) (Weld.idx (Weld.nx_ sim) i (j + 1)) →
  0 <= vec_get Qvol (Weld.idx (Weld.nx_ sim) i j) →
  lo <= Weld.interior_update sim (Weld.computeMaterialProperties sim (Weld.T_ sim))
          Qvol i j.
Proof.
  intros Hc Hxm Hxp Hym Hyp HQ.
  rewrite weld_interior_update_spec by done.
  unfold weld_spec_update. cbv zeta. rewrite spec_update_stepped.
  set (index := Weld.idx (Weld.nx_ sim) i j) in *.
  set (Tc := vec_get (Weld.T_ sim) index) in *.
  destruct (weld_material_range sim index Tc Hpos) as [Hrc Ha].
  destruct (effective_step_range _ _ _ _ Hdt Hdx Hdy Ha) as [Htau _].
  pose proof (effective_step_cfl _ _ _ _ Hdt Hdx Hdy Ha) as Hcfl.
  eapply Rle_trans; [|apply stepped_update_lower; try done; apply Htau].
  set (tau := effective_step _ _ _ _) in *.
  assert (0 <= tau * (vec_get Qvol index
                 / (Weld.Material.get_rho (Weld.material_at sim index) Tc
                    * Weld.Material.get_cp (Weld.material_at sim index) Tc))); [|lra].
  assert (0 <= vec_get Qvol index
          / (Weld.Material.get_rho (Weld.material_at sim index) Tc
             * Weld.Material.get_cp (Weld.material_at sim index) Tc)) as Hsrc.
  { unfold Rdiv. apply Rinv_0_lt_compat in Hrc. nra. }
  nra.
Qed.

End WeldCell.

(** Every cell of [v], addressed by its grid position, is at most [M]. *)
Definition field_le (nx ny : Z) (v : list R) (M : R) : Prop :=
  ∀ i j, (0 ≤ i < nx)%Z → (0 ≤ j < ny)%Z → vec_get v (Weld.idx nx i j) <= M.

Definition field_ge (nx ny : Z) (v : list R) (m : R) : Prop :=
  ∀ i j, (0 ≤ i < nx)%Z → (0 ≤ j < ny)%Z → m <= vec_get v (Weld.idx nx i j).

Lemma clamp_le T0 v M : v <= M → T0 <= M → Weld.clamp T0 v <= M.
Proof.
  intros Hv HT0.
  destruct (WeldRun.clamp_cases T0 v) as [[? ->]|[(_ & _ & ->)|[_ ->]]]; lra.
Qed.

Lemma weld_interior_iff nx ny i j :
  (0 ≤ i < nx)%Z → (0 ≤ j < ny)%Z →
  Weld.isBoundary nx ny i j = false → (0 < i < nx - 1)%Z ∧ (0 < j < ny - 1)%Z.
Proof. intros Hi Hj Hb%WeldRun.isBoundary_false. lia. Qed.

(** One step without heat input does not raise the maximum of the field. *)
Lemma weld_step_upper sim t Qvol M :
  WeldFacts.sizes_ok sim → weld_materials_positive sim →
  Weld.dx_ sim ≠ 0 → Weld.dy_ sim ≠ 0 →
  0 <= Weld.SimulationConfig.dt (Weld.config_ sim) →
  Weld.SimulationConfig.T0 (Weld.config_ sim) <= M →
  field_le (Weld.nx_ sim) (Weld.ny_ sim) (Weld.T_ sim) M →
  field_le (Weld.nx_ sim) (Weld.ny_ sim) Qvol 0 →
  field_le (Weld.nx_ sim) (Weld.ny_ sim) (Weld.T_ (Weld.solveTimeStep sim t Qvol)) M.
Proof.
  intros Hs Hpos Hdx Hdy Hdt HT0 HT HQ i j Hi Hj.
  unfold vec_get. rewrite WeldRun.step_cell by done. simpl.
  unfold Weld.cell_value.
  destruct (Weld.isBoundary _ _ i j) eqn:Hb; [done|].
  destruct (weld_interior_iff _ _ _ _ Hi Hj Hb) as [Hi' Hj'].
  apply clamp_le; [|done].
  apply weld_interior_update_upper; try done;
    try (apply HT; lia). apply HQ; lia.
Qed.

(** ** [WeldingSimulation::run]: the clock and the position of the arc *)

Lemma weld_clock_S n sim :
  weld_clock (S n) sim
  = weld_clock n sim + Weld.SimulationConfig.dt (Weld.config_ sim).
Proof.
  unfold weld_clock. simpl. f_equal.
  destruct (WeldRun.run_steps_frame n (Weld.mkRun 0.0 sim [])) as [-> _]. done.
Qed.

Lemma weld_clock_linear n sim :
  weld_clock n sim = INR n * Weld.SimulationConfig.dt (Weld.config_ sim).
Proof.
  induction n as [|n IH].
  - unfold weld_clock. simpl. lra.
  - rewrite weld_clock_S, IH, S_INR. ring.
Qed.

(** The arc position used in iteration [S n]. *)
Definition weld_arc (n : nat) (sim : Weld.WeldingSimulation) : R :=
  Weld.arc_position (weld_after n sim) (weld_clock (S n) sim).

Lemma weld_arc_eq n sim :
  weld_arc n sim
  = Weld.SimulationConfig.x_start (Weld.config_ sim)
    + Weld.SimulationConfig.v_weld (Weld.config_ sim)
      * (INR (S n) * Weld.SimulationConfig.dt (Weld.config_ sim)).
Proof.
  unfold weld_arc, Weld.arc_position.
  destruct (weld_after_frame n sim) as [-> _]. by rewrite weld_clock_linear.
Qed.

Lemma weld_arc_mono n k sim :
  0 <= Weld.SimulationConfig.v_weld (Weld.config_ sim)
       * Weld.SimulationConfig.dt (Weld.config_ sim) →
  weld_arc n sim <= weld_arc (n + k) sim.
Proof.
  intros Hv. rewrite !weld_arc_eq, !S_INR, plus_INR.
  pose proof (pos_INR k) as Hk.
  set (v := Weld.SimulationConfig.v_weld _) in *.
  set (dt := Weld.SimulationConfig.dt _) in *.
  assert (0 <= INR k * (v * dt)) by (by apply Rmult_le_pos). nra.
Qed.

Lemma weld_Qvol_off n sim :
  Weld.SimulationConfig.Lx (Weld.config_ sim) < weld_arc n sim →
  weld_Qvol n sim = vec_make (Weld.N_ sim) 0.0 ∧
  Weld.flux_calls
    (Weld.heat_source (weld_after n sim)
       (Weld.arc_position (weld_after n sim) (weld_clock (S n) sim))) = [].
Proof.
  intros Hoff. unfold weld_Qvol. fold (weld_arc n sim).
  destruct (weld_after_frame n sim) as (Hc & _ & _ & HN & _).
  rewrite WeldSource.heat_source_off by (by rewrite Hc). simpl. by rewrite HN.
Qed.

Lemma field_le_zeros nx ny N : field_le nx ny (vec_make N 0.0) 0.
Proof.
  intros i j _ _. unfold vec_get, vec_make.
  destruct (replicate _ _ !! _) as [x|] eqn:Hx; simpl; [|lra].
  apply lookup_replicate in Hx as [-> _]. lra.
Qed.

(** Once the arc is beyond the end of the plate, the maximum of the field
    does not rise any more. *)
Lemma weld_run_upper sim n k M :
  WeldFacts.sizes_ok sim → weld_materials_positive sim →
  Weld.dx_ sim ≠ 0 → Weld.dy_ sim ≠ 0 →
  0 <= Weld.SimulationConfig.dt (Weld.config_ sim) →
  0 <= Weld.SimulationConfig.v_weld (Weld.config_ sim) →
  Weld.SimulationConfig.T0 (Weld.config_ sim) <= M →
  Weld.SimulationConfig.Lx (Weld.config_ sim) < weld_arc n sim →
  field_le (Weld.nx_ sim) (Weld.ny_ sim) (Weld.T_ (weld_after n sim)) M →
  field_le (Weld.nx_ sim) (Weld.ny_ sim) (Weld.T_ (weld_after (n + k) sim)) M.
Proof.
  intros Hs Hpos Hdx Hdy Hdt Hv HT0 Hoff HT.
  induction k as [|k IH]; [by rewrite Nat.add_0_r|].
  replace (n + S k)%nat with (S (n + k)) by lia. rewrite weld_after_S.
  pose proof (weld_after_static (n + k) sim) as Hst.
  injection Hst as Hcfg Hm1 Hm2 Hnx Hny HN Hdx' Hdy' _ _ _ _ _ _ _ _ _ _.
  rewrite <- Hnx, <- Hny. apply weld_step_upper.
  - by apply weld_after_sizes.
  - unfold weld_materials_positive. by rewrite Hm1, Hm2.
  - by rewrite Hdx'.
  - by rewrite Hdy'.
  - by rewrite Hcfg.
  - by rewrite Hcfg.
  - by rewrite Hnx, Hny.
  - destruct (weld_Qvol_off (n + k) sim) as [-> _].
    + eapply Rlt_le_trans; [exact Hoff|]. apply weld_arc_mono.
      by apply Rmult_le_pos.
    + apply field_le_zeros.
Qed.

(** ** [TIGSimulator]: members that the time loop never writes *)

Definition tig_static (s : TIG.TIGSimulator) :=
  (TIG.config s, TIG.N s, TIG.dx s, TIG.dy s, TIG.midpoint s, TIG.X s, TIG.Y s).

Lemma tig_apply_heat_source_static s t :
  tig_static (TIG.apply_heat_source s t).1 = tig_static s.
Proof.
  unfold TIG.apply_heat_source. cbv zeta. by destruct (Rle_dec _ _).
Qed.

Lemma tig_compute_material_properties_static s :
  tig_static (TIG.compute_material_properties s) = tig_static s.
Proof.
  pose proof (TIGSteps.compute_material_properties_frame s) as H.
  unfold TIGSteps.fixed_part in H. unfold tig_static. congruence.
Qed.

Lemma tig_time_step_static s : tig_static (TIG.time_step_explicit s) = tig_static s.
Proof. reflexivity. Qed.

Lemma tig_run_iteration_static step st :
  tig_static (TIG.run_sim (TIG.run_iteration step st)) = tig_static (TIG.run_sim st).
Proof.
  unfold TIG.run_iteration. cbv zeta. simpl.
  by rewrite tig_time_step_static, tig_compute_material_properties_static,
    tig_apply_heat_source_static.
Qed.

Lemma tig_after_static n s : tig_static (tig_after n s) = tig_static s.
Proof.
  unfold tig_after. induction n as [|n IH]; [done|].
  rewrite <- IH. apply (tig_run_iteration_static (Z.of_nat (S n))).
Qed.

Lemma tig_source_step_static n s : tig_static (tig_source_step n s) = tig_static s.
Proof.
  unfold tig_source_step. by rewrite tig_apply_heat_source_static, tig_after_static.
Qed.

(** ** [TIGSimulator::time_step_explicit] under the stability condition *)

Lemma tig_cell_range s idx :
  tig_materials_positive (TIG.config s) →
  TIG.dx s ≠ 0 → TIG.dy s ≠ 0 → 0 <= TIG.TIGConfig.dt (TIG.config s) →
  tig_stable (TIG.config s) (TIG.dx s) (TIG.dy s) →
  let alpha := TIGSteps.k_of s idx / (TIGSteps.rho_of s idx * TIGSteps.cp_of s idx) in
  0 < TIGSteps.rho_of s idx * TIGSteps.cp_of s idx ∧ 0 < alpha ∧
  2 * (TIG.TIGConfig.dt (TIG.config s)
       * (alpha * (1 / TIG.dx s ^ 2 + 1 / TIG.dy s ^ 2))) <= 1.
Proof.
  intros [(Hk1 & Hc1 & Hr1) (Hk2 & Hc2 & Hr2)] Hdx Hdy Hdt [Hst1 Hst2] alpha.
  pose proof (inv_sqr_pos _ Hdx) as Hx. pose proof (inv_sqr_pos _ Hdy) as Hy.
  set (L := 1 / TIG.dx s ^ 2 + 1 / TIG.dy s ^ 2) in *.
  assert (0 < L) as HL by (unfold L; lra).
  unfold alpha, TIGSteps.k_of, TIGSteps.rho_of, TIGSteps.cp_of. cbv zeta.
  set (T := vec_get (TIG.T s) idx).
  destruct (Rlt_dec _ _).
  - destruct (diffusivity_range T (TIG.TIGConfig.mat_1_T_crit (TIG.config s))
                (TIG.TIGConfig.mat_1_T_melt (TIG.config s)) _ _ _ Hk1 Hc1 Hr1)
      as (H1 & H2 & H3).
    unfold diffusivity in H2, H3. split; [done|]. split; [done|].
    eapply Rle_trans; [|exact Hst1].
    apply Rmult_le_compat_l; [lra|]. apply Rmult_le_compat_l; [done|].
    by apply Rmult_le_compat_r; [lra|].
  - destruct (diffusivity_range T (TIG.TIGConfig.mat_2_T_crit (TIG.config s))
                (TIG.TIGConfig.mat_2_T_melt (TIG.config s)) _ _ _ Hk2 Hc2 Hr2)
      as (H1 & H2 & H3).
    unfold diffusivity in H2, H3. split; [done|]. split; [done|].
    eapply Rle_trans; [|exact Hst2].
    apply Rmult_le_compat_l; [lra|]. apply Rmult_le_compat_l; [done|].
    by apply Rmult_le_compat_r; [lra|].
Qed.

Section TIGCell.
Context (s : TIG.TIGSimulator) (idx : Z).
Context (Hpos : tig_materials_positive (TIG.config s)).
Context (Hdx : TIG.dx s ≠ 0) (Hdy : TIG.dy s ≠ 0).
Context (Hdt : 0 <= TIG.TIGConfig.dt (TIG.config s)).
Context (Hst : tig_stable (TIG.config s) (TIG.dx s) (TIG.dy s)).

Lemma tig_nominal_update_lower lo :
  lo <= vec_get (TIG.T s) idx →
  lo <= vec_get (TIG.T s) (idx - 1) → lo <= vec_get (TIG.T s) (idx + 1) →
  lo <= vec_get (TIG.T s) (idx - TIG.TIGConfig.nx (TIG.config s)) →
  lo <= vec_get (TIG.T s) (idx + TIG.TIGConfig.nx (TIG.config s)) →
  0 <= vec_get (TIG.Q_vol s) idx →
  lo <= tig_nominal_update s idx.
Proof.
  intros Hc Hxm Hxp Hym Hyp HQ.
  unfold tig_nominal_update. cbv zeta. rewrite nominal_update_stepped.
  destruct (tig_cell_range s idx Hpos Hdx Hdy Hdt Hst) as (Hrc & Ha & Hcfl).
  eapply Rle_trans; [|by apply stepped_update_lower].
  assert (0 <= vec_get (TIG.Q_vol s) idx
               / (TIGSteps.rho_of s idx * TIGSteps.cp_of s idx)) as Hsrc.
  { unfold Rdiv. apply Rinv_0_lt_compat in Hrc. nra. }
  set (dt := TIG.TIGConfig.dt _) in *.
  assert (0 <= dt * (vec_get (TIG.Q_vol s) idx
                     / (TIGSteps.rho_of s idx * TIGSteps.cp_of s idx)))
    by (by apply Rmult_le_pos).
  lra.
Qed.

Lemma tig_nominal_update_upper hi :
  vec_get (TIG.T s) idx <= hi →
  vec_get (TIG.T s) (idx - 1) <= hi → vec_get (TIG.T s) (idx + 1) <= hi →
  vec_get (TIG.T s) (idx - TIG.TIGConfig.nx (TIG.config s)) <= hi →
  vec_get (TIG.T s) (idx + TIG.TIGConfig.nx (TIG.config s)) <= hi →
  vec_get (TIG.Q_vol s) idx <= 0 →
  tig_nominal_update s idx <= hi.
Proof.
  intros Hc Hxm Hxp Hym Hyp HQ.
  unfold tig_nominal_update. cbv zeta. rewrite nominal_update_stepped.
  destruct (tig_cell_range s idx Hpos Hdx Hdy Hdt Hst) as (Hrc & Ha & Hcfl).
  eapply Rle_trans; [by apply stepped_update_upper|].
  assert (vec_get (TIG.Q_vol s) idx
          / (TIGSteps.rho_of s idx * TIGSteps.cp_of s idx) <= 0) as Hsrc.
  { unfold Rdiv. apply Rinv_0_lt_compat in Hrc. nra. }
  set (dt := TIG.TIGConfig.dt _) in *.
  assert (dt * (vec_get (TIG.Q_vol s) idx
                / (TIGSteps.rho_of s idx * TIGSteps.cp_of s idx)) <= 0) by nra.
  lra.
Qed.

End TIGCell.

(** The step made from a state [s] whose source has been set: the field it
    leaves, cell by cell. *)
Lemma tig_step_cell s i j :
  TIGFacts.sizes_ok s →
  (0 ≤ i < TIG.TIGConfig.nx (TIG.config s))%Z →
  (0 ≤ j < TIG.TIGConfig.ny (TIG.config s))%Z →
  vec_get (TIG.T (TIG.time_step_explicit (TIG.compute_material_properties s)))
          (Weld.idx (TIG.TIGConfig.nx (TIG.config s)) i j)
  = if Weld.isBoundary (TIG.TIGConfig.nx (TIG.config s))
         (TIG.TIGConfig.ny (TIG.config s)) i j
    then TIG.TIGConfig.T0 (TIG.config s)
    else tig_nominal_update s (Weld.idx (TIG.TIGConfig.nx (TIG.config s)) i j).
Proof.
  intros Hs Hi Hj. unfold vec_get, Weld.idx.
  destruct (Weld.isBoundary _ _ i j) eqn:Hb.
  - apply WeldRun.isBoundary_true in Hb.
    pose proof (TIGSteps.compute_material_properties_sizes s Hs) as Hs'.
    destruct (TIGSteps.compute_material_properties_fields s) as (Hc & _).
    pose proof (TIGRun.time_step_boundary (TIG.compute_material_properties s) i j Hs')
      as H.
    rewrite Hc in H. by rewrite H.
  - destruct (weld_interior_iff _ _ _ _ Hi Hj Hb) as [Hi' Hj'].
    by rewrite tig_interior_update_nominal.
Qed.

Lemma tig_step_lower s lo :
  TIGFacts.sizes_ok s → tig_materials_positive (TIG.config s) →
  TIG.dx s ≠ 0 → TIG.dy s ≠ 0 → 0 <= TIG.TIGConfig.dt (TIG.config s) →
  tig_stable (TIG.config s) (TIG.dx s) (TIG.dy s) →
  lo <= TIG.TIGConfig.T0 (TIG.config s) →
  field_ge (TIG.TIGConfig.nx (TIG.config s)) (TIG.TIGConfig.ny (TIG.config s))
    (TIG.T s) lo →
  field_ge (TIG.TIGConfig.nx (TIG.config s)) (TIG.TIGConfig.ny (TIG.config s))
    (TIG.Q_vol s) 0 →
  field_ge (TIG.TIGConfig.nx (TIG.config s)) (TIG.TIGConfig.ny (TIG.config s))
    (TIG.T (TIG.time_step_explicit (TIG.compute_material_properties s))) lo.
Proof.
  intros Hs Hpos Hdx Hdy Hdt Hst HT0 HT HQ i j Hi Hj.
  rewrite tig_step_cell by done.
  destruct (Weld.isBoundary _ _ i j) eqn:Hb; [done|].
  destruct (weld_interior_iff _ _ _ _ Hi Hj Hb) as [Hi' Hj'].
  set (nx := TIG.TIGConfig.nx (TIG.config s)) in *.
  apply tig_nominal_update_lower; try done; fold nx.
  - apply HT; lia.
  - replace (Weld.idx nx i j - 1)%Z with (Weld.idx nx (i - 1) j)
      by (unfold Weld.idx; lia). apply HT; lia.
  - replace (Weld.idx nx i j + 1)%Z with (Weld.idx nx (i + 1) j)
      by (unfold Weld.idx; lia). apply HT; lia.
  - replace (Weld.idx nx i j - nx)%Z with (Weld.idx nx i (j - 1))
      by (unfold Weld.idx; lia). apply HT; lia.
  - replace (Weld.idx nx i j + nx)%Z with (Weld.idx nx i (j + 1))
      by (unfold Weld.idx; lia). apply HT; lia.
  - apply HQ; lia.
Qed.

Lemma tig_step_upper s hi :
  TIGFacts.sizes_ok s → tig_materials_positive (TIG.config s) →
  TIG.dx s ≠ 0 → TIG.dy s ≠ 0 → 0 <= TIG.TIGConfig.dt (TIG.config s) →
  tig_stable (TIG.config s) (TIG.dx s) (TIG.dy s) →
  TIG.TIGConfig.T0 (TIG.config s) <= hi →
  field_le (TIG.TIGConfig.nx (TIG.config s)) (TIG.TIGConfig.ny (TIG.config s))
    (TIG.T s) hi →
  field_le (TIG.TIGConfig.nx (TIG.config s)) (TIG.TIGConfig.ny (TIG.config s))
    (TIG.Q_vol s) 0 →
  field_le (TIG.TIGConfig.nx (TIG.config s)) (TIG.TIGConfig.ny (TIG.config s))
    (TIG.T (TIG.time_step_explicit (TIG.compute_material_properties s))) hi.
Proof.
  intros Hs Hpos Hdx Hdy Hdt Hst HT0 HT HQ i j Hi Hj.
  rewrite tig_step_cell by done.
  destruct (Weld.isBoundary _ _ i j) eqn:Hb; [done|].
  destruct (weld_interior_iff _ _ _ _ Hi Hj Hb) as [Hi' Hj'].
  set (nx := TIG.TIGConfig.nx (TIG.config s)) in *.
  apply tig_nominal_update_upper; try done; fold nx.
  - apply HT; lia.
  - replace (Weld.idx nx i j - 1)%Z with (Weld.idx nx (i - 1) j)
      by (unfold Weld.idx; lia). apply HT; lia.
  - replace (Weld.idx nx i j + 1)%Z with (Weld.idx nx (i + 1) j)
      by (unfold Weld.idx; lia). apply HT; lia.
  - replace (Weld.idx nx i j - nx)%Z with (Weld.idx nx i (j - 1))
      by (unfold Weld.idx; lia). apply HT; lia.
  - replace (Weld.idx nx i j + nx)%Z with (Weld.idx nx i (j + 1))
      by (unfold Weld.idx; lia). apply HT; lia.
  - apply HQ; lia.
Qed.

(** ** The sign of the heat flux *)

Definition tig_source_nonneg (c : TIG.TIGConfig.t) : Prop :=
  0 <= TIGSteps.Q_total c ∧ 0 < TIG.TIGConfig.a c ∧ 0 < TIG.TIGConfig.b c ∧
  0 < TIG.TIGConfig.cf c ∧ 0 < TIG.TIGConfig.cr c ∧
  0 <= TIG.TIGConfig.ff c ∧ 0 <= TIG.TIGConfig.fr c.

Lemma tig_goldak_flux_nonneg Q a b cf cr ff fr xi eta :
  0 <= Q → 0 < a → 0 < b → 0 < cf → 0 < cr → 0 <= ff → 0 <= fr →
  0 <= TIG.goldak_flux Q a b cf cr ff fr xi eta.
Proof.
  intros HQ Ha Hb Hcf Hcr Hff Hfr. unfold TIG.goldak_flux.
  pose proof PI_RGT_0 as Hpi.
  pose proof (sqrt_lt_R0 PI Hpi) as Hsq.
  assert (∀ f c, 0 <= f → 0 < c → 0 <= 6.0 * f * Q / (a * b * c * PI * sqrt PI)) as Hc.
  { intros f c Hf Hc0. apply Rmult_le_pos.
    - apply Rmult_le_pos; [|done]. apply Rmult_le_pos; lra.
    - left. apply Rinv_0_lt_compat.
      repeat (apply Rmult_lt_0_compat; [|done]). done. }
  destruct (Rge_dec _ _);
    (apply Rmult_le_pos; [by apply Hc|left; apply exp_pos]).
Qed.

(** The arc position used in iteration [S n] of [run_simulation]. *)
Definition tig_arc (n : nat) (c : TIG.TIGConfig.t) : R :=
  TIG.TIGConfig.x_start c
  + TIG.TIGConfig.v_weld c * (IZR (Z.of_nat (S n)) * TIG.TIGConfig.dt c).

Lemma tig_arc_mono n k c :
  0 <= TIG.TIGConfig.v_weld c * TIG.TIGConfig.dt c → tig_arc n c <= tig_arc (n + k) c.
Proof.
  intros Hv. unfold tig_arc.
  replace (Z.of_nat (S (n + k))) with (Z.of_nat (S n) + Z.of_nat k)%Z by lia.
  rewrite plus_IZR.
  assert (0 <= IZR (Z.of_nat k)) as Hk by (apply IZR_le; lia).
  set (v := TIG.TIGConfig.v_weld c) in *. set (dt := TIG.TIGConfig.dt c) in *.
  assert (0 <= IZR (Z.of_nat k) * (v * dt)) by (by apply Rmult_le_pos). nra.
Qed.

(** The source array after [apply_heat_source] in iteration [S n]. *)
Lemma tig_source_step_Q_vol n s i j :
  TIGFacts.sizes_ok s →
  (0 ≤ i < TIG.TIGConfig.nx (TIG.config s))%Z →
  (0 ≤ j < TIG.TIGConfig.ny (TIG.config s))%Z →
  vec_get (TIG.Q_vol (tig_source_step n s)) (Weld.idx (TIG.TIGConfig.nx (TIG.config s)) i j)
  = if Rle_dec (tig_arc n (TIG.config s)) (TIG.TIGConfig.Lx (TIG.config s))
    then TIGSteps.flux_at (tig_after n s) (tig_arc n (TIG.config s))
           (Weld.idx (TIG.TIGConfig.nx (TIG.config s)) i j)
    else 0.
Proof.
  intros Hs Hi Hj. unfold tig_source_step.
  pose proof (tig_after_sizes n s Hs) as Hs'.
  pose proof (tig_after_config n s) as Hc.
  set (s' := tig_after n s) in *. rewrite Hc.
  set (t := IZR (Z.of_nat (S n)) * TIG.TIGConfig.dt (TIG.config s)).
  unfold vec_get, Weld.idx.
  destruct (Rle_dec _ _) as [Hon|Hoff].
  - pose proof (TIGSteps.apply_heat_source_on s' t i j Hs') as H.
    unfold TIGSteps.arc_position in H. rewrite Hc in H.
    destruct (H Hon Hi Hj) as (_ & _ & ->). done.
  - pose proof (TIGSteps.apply_heat_source_off s' t) as H.
    unfold TIGSteps.arc_position in H. rewrite Hc in H.
    destruct H as (_ & _ & H); [unfold tig_arc in Hoff; fold t in Hoff; lra|].
    rewrite H; [done| |].
    + rewrite (TIGFacts.sizes_N s' Hs'), Hc. nia.
    + rewrite (TIGFacts.sizes_Q_vol s' Hs'), (TIGFacts.sizes_N s' Hs'), Hc. nia.
Qed.

Section TIGRunBounds.
Context (cfg : TIG.TIGConfig.t) (s : TIG.TIGSimulator).
Context (Hc : TIG.construct cfg = TIG.Constructed s).
Context (Hpos : tig_materials_positive cfg).
Context (Hdx : TIG.dx s ≠ 0) (Hdy : TIG.dy s ≠ 0).
Context (Hdt : 0 <= TIG.TIGConfig.dt cfg).
Context (Hst : tig_stable cfg (TIG.dx s) (TIG.dy s)).

Lemma tig_source_step_ready n :
  let s' := tig_source_step n s in
  TIG.config s' = cfg ∧ TIGFacts.sizes_ok s' ∧
  tig_materials_positive (TIG.config s') ∧ TIG.dx s' ≠ 0 ∧ TIG.dy s' ≠ 0 ∧
  0 <= TIG.TIGConfig.dt (TIG.config s') ∧
  tig_stable (TIG.config s') (TIG.dx s') (TIG.dy s') ∧
  TIG.T s' = TIG.T (tig_after n s).
Proof.
  intros s'.
  destruct (TIGCtor.tig_construct_inv _ _ Hc) as (Hcfg & _ & _ & _ & _ & _ & _ & Hs & _).
  pose proof (tig_source_step_static n s) as Hst'. fold s' in Hst'.
  injection Hst' as Hc' _ Hdx' Hdy' _ _ _.
  destruct (tig_source_step_fields n s) as (_ & _ & _ & _ & _ & _ & _ & HT).
  rewrite Hc', Hdx', Hdy', Hcfg.
  split; [done|]. split.
  { unfold s', tig_source_step. apply TIGSteps.apply_heat_source_sizes.
    by apply tig_after_sizes. }
  done.
Qed.

(** With a non-negative source, no cell ever falls below [T0]. *)
Lemma tig_run_lower n :
  tig_source_nonneg cfg →
  field_ge (TIG.TIGConfig.nx cfg) (TIG.TIGConfig.ny cfg) (TIG.T (tig_after n s))
    (TIG.TIGConfig.T0 cfg).
Proof.
  intros (HQ & Ha & Hb & Hcf & Hcr & Hff & Hfr).
  destruct (TIGCtor.tig_construct_inv _ _ Hc) as (Hcfg & HN & _ & _ & _ & HT & _ & Hs & _).
  induction n as [|n IH]; intros i j Hi Hj.
  - unfold tig_after. simpl. rewrite HT, vec_get_vec_make; [lra|].
    rewrite HN. unfold Weld.idx. nia.
  - rewrite tig_after_S. unfold tig_before_step. fold (tig_source_step n s).
    destruct (tig_source_step_ready n) as (Hc' & Hs' & Hpos' & Hdx' & Hdy' & Hdt' & Hst' & HT').
    pose proof (tig_step_lower (tig_source_step n s) (TIG.TIGConfig.T0 cfg)
                  Hs' Hpos' Hdx' Hdy' Hdt' Hst') as Hstep.
    rewrite Hc' in Hstep. apply Hstep; [lra| | |done|done].
    + by rewrite HT'.
    + intros i' j' Hi' Hj'. rewrite <- Hcfg in Hi', Hj' |- *.
      rewrite tig_source_step_Q_vol by done.
      destruct (Rle_dec _ _); [|lra].
      apply tig_goldak_flux_nonneg; rewrite ?tig_after_config, ?Hcfg; done.
Qed.

(** Once the arc is beyond the end of the plate, the maximum of the field
    does not rise any more. *)
Lemma tig_run_upper n k M :
  0 <= TIG.TIGConfig.v_weld cfg →
  TIG.TIGConfig.T0 cfg <= M →
  TIG.TIGConfig.Lx cfg < tig_arc n cfg →
  field_le (TIG.TIGConfig.nx cfg) (TIG.TIGConfig.ny cfg) (TIG.T (tig_after n s)) M →
  field_le (TIG.TIGConfig.nx cfg) (TIG.TIGConfig.ny cfg)
    (TIG.T (tig_after (n + k) s)) M.
Proof.
  intros Hv HT0 Hoff HT.
  destruct (TIGCtor.tig_construct_inv _ _ Hc) as (Hcfg & HN & _ & _ & _ & _ & _ & Hs & _).
  induction k as [|k IH]; [by rewrite Nat.add_0_r|].
  replace (n + S k)%nat with (S (n + k)) by lia.
  rewrite tig_after_S. unfold tig_before_step. fold (tig_source_step (n + k) s).
  destruct (tig_source_step_ready (n + k))
    as (Hc' & Hs' & Hpos' & Hdx' & Hdy' & Hdt' & Hst' & HT').
  pose proof (tig_step_upper (tig_source_step (n + k) s) M
                Hs' Hpos' Hdx' Hdy' Hdt' Hst') as Hstep.
  rewrite Hc' in Hstep. apply Hstep; [done| |].
  - by rewrite HT'.
  - intros i' j' Hi' Hj'. rewrite <- Hcfg in Hi', Hj' |- *.
    rewrite tig_source_step_Q_vol by done.
    destruct (Rle_dec _ _) as [Hon|]; [|lra]. exfalso.
    pose proof (tig_arc_mono n k (TIG.config s)) as Hm. rewrite Hcfg in Hm, Hon.
    specialize (Hm ltac:(by apply Rmult_le_pos)). lra.
Qed.

End TIGRunBounds.

(** ** The time loop with its outputs *)

Lemma weld_output_steps_state n st st' :
  WeldOutput.run_steps n st = Some st' →
  WeldOutput.drv_state st' = Weld.run_steps n (WeldOutput.drv_state st).
Proof.
  revert st'. induction n as [|n IH]; intros st' H; simpl in *.
  - by injection H as <-.
  - destruct (WeldOutput.run_steps n st) as [st1|]; [|done].
    rewrite <- (IH st1 eq_refl). unfold WeldOutput.run_iteration in H.
    cbv zeta in H. destruct (_ =? 0)%Z; [done|]. by injection H as <-.
Qed.

Lemma weld_output_steps_nt n st st' :
  WeldOutput.run_steps n st = Some st' →
  Weld.nt_ (Weld.run_sim (WeldOutput.drv_state st'))
  = Weld.nt_ (Weld.run_sim (WeldOutput.drv_state st)).
Proof.
  intros H. rewrite (weld_output_steps_state _ _ _ H).
  pose proof (weld_run_steps_static n (WeldOutput.drv_state st)) as Hst.
  by injection Hst.
Qed.

Lemma weld_output_iteration_defined step st :
  is_Some (WeldOutput.run_iteration step st)
  ↔ Z.quot (Weld.nt_ (Weld.run_sim (WeldOutput.drv_state st))) 10 ≠ 0%Z.
Proof.
  unfold WeldOutput.run_iteration. cbv zeta.
  assert (Weld.nt_ (Weld.run_sim (Weld.run_iteration (WeldOutput.drv_state st)))
          = Weld.nt_ (Weld.run_sim (WeldOutput.drv_state st))) as ->.
  { reflexivity. }
  destruct (_ =? 0)%Z eqn:Hq.
  - apply Z.eqb_eq in Hq. split; [by intros [? ?]|done].
  - apply Z.eqb_neq in Hq. split; [done|eauto].
Qed.

Lemma weld_output_steps_defined n st :
  is_Some (WeldOutput.run_steps n st)
  ↔ n = O ∨ Z.quot (Weld.nt_ (Weld.run_sim (WeldOutput.drv_state st))) 10 ≠ 0%Z.
Proof.
  induction n as [|n IH]; simpl.
  - split; [by left|eauto].
  - destruct (WeldOutput.run_steps n st) as [st1|] eqn:H1.
    + rewrite weld_output_iteration_defined, (weld_output_steps_nt _ _ _ H1).
      split; [by right|]. by intros [|].
    + split; [by intros [? ?]|]. intros [|Hq]; [done|].
      destruct IH as [_ IH]. destruct IH as [? ?]; [by right|done].
Qed.

(** ** Truncation *)

Lemma trunc_int_nonneg x :
  0 <= x → (0 ≤ trunc_int x)%Z ∧ IZR (trunc_int x) <= x < IZR (trunc_int x) + 1.
Proof.
  intros Hx. unfold trunc_int. destruct (Rle_dec 0 x) as [_|]; [|lra].
  destruct (archimed x) as [H1 H2]. rewrite minus_IZR.
  split; [|lra].
  assert (0 < IZR (up x)) as H by lra. apply lt_IZR in H. lia.
Qed.

Lemma trunc_int_mono x y : 0 <= x → x <= y → (trunc_int x ≤ trunc_int y)%Z.
Proof.
  intros Hx Hxy.
  destruct (trunc_int_nonneg x Hx) as (_ & H1 & _).
  destruct (trunc_int_nonneg y ltac:(lra)) as (_ & _ & H2).
  assert (IZR (trunc_int x) < IZR (trunc_int y + 1)) as H by (rewrite plus_IZR; lra).
  apply lt_IZR in H. lia.
Qed.

(** ** [setupMonitoringPoints] and [updateMonitoring] *)

(** The probes lie on the grid. *)
Lemma monitor_points_in_range nx ny i j :
  (1 ≤ nx)%Z → (1 ≤ ny)%Z →
  (i, j) ∈ WeldOutput.setupMonitoringPoints nx ny →
  (0 ≤ i < nx)%Z ∧ (0 ≤ j < ny)%Z.
Proof.
  intros Hnx Hny Hin.
  assert (1 <= IZR nx) as Hx by (by apply IZR_le).
  assert (∀ c, 0 <= c → c < 1 → (0 ≤ trunc_int (IZR nx * c) < nx)%Z) as Ht.
  { intros c Hc0 Hc1.
    destruct (trunc_int_nonneg (IZR nx * c)) as (H0 & H1 & _);
      [apply Rmult_le_pos; lra|].
    split; [done|]. apply lt_IZR. nra. }
  assert (0 ≤ Z.quot ny 2 < ny)%Z as Hj
    by (rewrite Z.quot_div_nonneg by lia; split;
        [apply Z.div_pos; lia|apply Z.div_lt_upper_bound; lia]).
  assert (0 ≤ Z.quot nx 2 < nx)%Z as Hi
    by (rewrite Z.quot_div_nonneg by lia; split;
        [apply Z.div_pos; lia|apply Z.div_lt_upper_bound; lia]).
  unfold WeldOutput.setupMonitoringPoints in Hin.
  repeat (apply elem_of_cons in Hin as [[= -> ->]|Hin]);
    [split; [apply Ht; lra|done]|done|split; [apply Ht; lra|done]|].
  by apply elem_of_nil in Hin.
Qed.

(** The value that [updateMonitoring] appends for the probe [pt]. *)
Definition probe (sim : Weld.WeldingSimulation) (pt : Z * Z) : R :=
  vec_get (Weld.T_ sim) (Weld.idx (Weld.nx_ sim) pt.1 pt.2).

Lemma updateMonitoring_eq sim h0 h1 h2 ts t :
  WeldOutput.updateMonitoring sim (WeldOutput.mkMonitoring [h0; h1; h2] ts) t
  = WeldOutput.mkMonitoring
      (zip_with (λ h pt, h ++ [probe sim pt]) [h0; h1; h2]
         (WeldOutput.setupMonitoringPoints (Weld.nx_ sim) (Weld.ny_ sim)))
      (ts ++ [t]).
Proof. reflexivity. Qed.

(** The histories after [n] iterations, in closed form. *)
Definition history_of (sim : Weld.WeldingSimulation) (n : nat) : WeldOutput.monitoring :=
  WeldOutput.mkMonitoring
    ((λ pt, (λ m, probe (weld_after (S m) sim) pt) <$> seq 0 n)
       <$> WeldOutput.setupMonitoringPoints (Weld.nx_ sim) (Weld.ny_ sim))
    ((λ m, weld_clock (S m) sim) <$> seq 0 n).

(** What one iteration does to each component of the driver state. *)
Lemma weld_output_iteration_inv step st st' :
  WeldOutput.run_iteration step st = Some st' →
  let rs := Weld.run_iteration (WeldOutput.drv_state st) in
  let c := Weld.config_ (Weld.run_sim rs) in
  let nt := Weld.nt_ (Weld.run_sim rs) in
  let save :=
    Weld.SimulationConfig.save_video_frames c
    && ((Z.rem step (WeldOutput.frame_interval c) =? 0)%Z || (step =? nt)%Z) in
  let snap :=
    Rgtb (Weld.SimulationConfig.snapshot_time c) 0
    && Rgeb (Weld.run_t rs) (Weld.SimulationConfig.snapshot_time c)
    && negb (WeldOutput.snapshot_taken st) in
  WeldOutput.drv_state st' = rs ∧
  WeldOutput.drv_monitoring st'
  = WeldOutput.updateMonitoring (Weld.run_sim rs) (WeldOutput.drv_monitoring st)
      (Weld.run_t rs) ∧
  WeldOutput.snapshot_taken st' = (if snap then true else WeldOutput.snapshot_taken st) ∧
  WeldOutput.frame_counter st'
  = (if save then WeldOutput.frame_counter st + 1 else WeldOutput.frame_counter st)%Z ∧
  WeldOutput.drv_events st'
  = WeldOutput.drv_events st
    ++ (if save then [WeldOutput.ExportVideoFrame (WeldOutput.frame_counter st)
                        (Weld.run_t rs)] else [])
    ++ (if snap then [WeldOutput.ExportSnapshot (trunc_int (Weld.run_t rs))] else [])
    ++ (if ((Z.rem step (Z.quot nt 10) =? 0)%Z || (step =? nt)%Z)
        then [WeldOutput.Progress (Z.quot (100 * step) nt)] else []).
Proof.
  unfold WeldOutput.run_iteration. cbv zeta.
  destruct (_ =? 0)%Z; [done|]. by intros [= <-].
Qed.

(** The initial state of the loop of [run]. *)
Definition weld_output_init (sim : Weld.WeldingSimulation) : WeldOutput.driver :=
  WeldOutput.mkDriver (Weld.mkRun 0.0 sim [])
    (WeldOutput.monitoring_init (Weld.nx_ sim) (Weld.ny_ sim)) false 0 [].

Lemma weld_output_steps_S sim n st :
  WeldOutput.run_steps (S n) (weld_output_init sim) = Some st →
  ∃ st1, WeldOutput.run_steps n (weld_output_init sim) = Some st1 ∧
         WeldOutput.run_iteration (Z.of_nat (S n)) st1 = Some st ∧
         WeldOutput.drv_state st1 = Weld.run_steps n (Weld.mkRun 0.0 sim []) ∧
         Weld.run_sim (Weld.run_iteration (WeldOutput.drv_state st1))
         = weld_after (S n) sim ∧
         Weld.run_t (Weld.run_iteration (WeldOutput.drv_state st1))
         = weld_clock (S n) sim.
Proof.
  intros H. cbn [WeldOutput.run_steps] in H.
  destruct (WeldOutput.run_steps n _) as [st1|] eqn:H1; [|done].
  exists st1. split; [done|]. split; [done|].
  pose proof (weld_output_steps_state _ _ _ H1) as Hst1.
  split; [done|]. by rewrite Hst1.
Qed.

Lemma weld_output_steps_monitoring sim n st :
  WeldOutput.run_steps n (weld_output_init sim) = Some st →
  WeldOutput.drv_monitoring st = history_of sim n.
Proof.
  revert st. induction n as [|n IH]; intros st H.
  - simpl in H. by injection H as <-.
  - destruct (weld_output_steps_S sim n st H) as (st1 & H1 & Hit & _ & Hsim & Ht).
    destruct (weld_output_iteration_inv _ _ _ Hit) as (_ & -> & _).
    rewrite Hsim, Ht, (IH st1 H1).
    destruct (weld_after_frame (S n) sim) as (_ & Hnx & Hny & _).
    unfold history_of at 1.
    cbn [WeldOutput.setupMonitoringPoints fmap list_fmap].
    rewrite updateMonitoring_eq, Hnx, Hny.
    unfold history_of. rewrite !seq_S. unfold WeldOutput.setupMonitoringPoints.
    cbn [fmap list_fmap zip_with Nat.add]. rewrite !fmap_app. reflexivity.
Qed.

(** ** The schedule of the video frames *)

Definition frame_numbers (evs : list WeldOutput.event) : list Z :=
  omap (λ e, match e with WeldOutput.ExportVideoFrame k _ => Some k | _ => None end) evs.

Definition snapshot_seconds (evs : list WeldOutput.event) : list Z :=
  omap (λ e, match e with WeldOutput.ExportSnapshot k => Some k | _ => None end) evs.

Lemma frame_numbers_iteration evs (b1 b2 b3 : bool) k t sec p :
  frame_numbers
    (evs ++ (if b1 then [WeldOutput.ExportVideoFrame k t] else [])
         ++ (if b2 then [WeldOutput.ExportSnapshot sec] else [])
         ++ (if b3 then [WeldOutput.Progress p] else []))
  = frame_numbers evs ++ (if b1 then [k] else []).
Proof.
  unfold frame_numbers. rewrite !omap_app.
  destruct b1, b2, b3; simpl; by rewrite ?app_nil_r.
Qed.

Lemma snapshot_seconds_iteration evs (b1 b2 b3 : bool) k t sec p :
  snapshot_seconds
    (evs ++ (if b1 then [WeldOutput.ExportVideoFrame k t] else [])
         ++ (if b2 then [WeldOutput.ExportSnapshot sec] else [])
         ++ (if b3 then [WeldOutput.Progress p] else []))
  = snapshot_seconds evs ++ (if b2 then [sec] else []).
Proof.
  unfold snapshot_seconds. rewrite !omap_app.
  destruct b1, b2, b3; simpl; by rewrite ?app_nil_r.
Qed.

Lemma weld_output_steps_config sim n st :
  WeldOutput.run_steps n (weld_output_init sim) = Some st →
  Weld.config_ (Weld.run_sim (Weld.run_iteration (WeldOutput.drv_state st)))
  = Weld.config_ sim ∧
  Weld.nt_ (Weld.run_sim (Weld.run_iteration (WeldOutput.drv_state st)))
  = Weld.nt_ sim.
Proof.
  intros H. rewrite (weld_output_steps_state _ _ _ H).
  pose proof (weld_run_steps_static (S n) (Weld.mkRun 0.0 sim [])) as Hst.
  injection Hst as Hc _ _ _ _ _ _ _ _ _ _ _ _ _ Hnt _ _ _. done.
Qed.

(** The frames are numbered consecutively from zero, in the order in which
    they are written. *)
Lemma weld_output_frames_numbered sim n st :
  WeldOutput.run_steps n (weld_output_init sim) = Some st →
  (0 ≤ WeldOutput.frame_counter st)%Z ∧
  frame_numbers (WeldOutput.drv_events st) = seqZ 0 (WeldOutput.frame_counter st).
Proof.
  revert st. induction n as [|n IH]; intros st H.
  - simpl in H. injection H as <-. done.
  - destruct (weld_output_steps_S sim n st H) as (st1 & H1 & Hit & _).
    destruct (weld_output_iteration_inv _ _ _ Hit) as (_ & _ & _ & Hfc & Hev).
    destruct (IH st1 H1) as [H0 Hnum].
    rewrite Hfc, Hev, frame_numbers_iteration, Hnum.
    destruct (_ && _).
    + split; [lia|]. by rewrite seqZ_app, Z.add_0_l by lia.
    + split; [done|]. by rewrite app_nil_r.
Qed.

Lemma frame_interval_pos c : (1 ≤ WeldOutput.frame_interval c)%Z.
Proof. unfold WeldOutput.frame_interval. destruct (_ && _); lia. Qed.

Lemma div_succ (n d : Z) :
  (0 ≤ n)%Z → (0 < d)%Z →
  ((n + 1) `div` d = n `div` d + (if ((n + 1) `rem` d =? 0) then 1 else 0))%Z.
Proof.
  intros Hn Hd. rewrite Z.rem_mod_nonneg by lia.
  pose proof (Z.div_mod n d ltac:(lia)) as H1.
  pose proof (Z.mod_pos_bound n d Hd) as H2.
  pose proof (Z.div_mod (n + 1) d ltac:(lia)) as H3.
  pose proof (Z.mod_pos_bound (n + 1) d Hd) as H4.
  destruct (_ =? 0)%Z eqn:Hz; [apply Z.eqb_eq in Hz|apply Z.eqb_neq in Hz]; nia.
Qed.

(** Before the last iteration, the number of frames written so far is the
    number of multiples of [frame_interval] among the steps made. *)
Lemma weld_output_frames_count sim n st :
  WeldOutput.run_steps n (weld_output_init sim) = Some st →
  (Z.of_nat n < Weld.nt_ sim)%Z →
  WeldOutput.frame_counter st
  = if Weld.SimulationConfig.save_video_frames (Weld.config_ sim)
    then (Z.of_nat n `div` WeldOutput.frame_interval (Weld.config_ sim))%Z
    else 0%Z.
Proof.
  revert st. induction n as [|n IH]; intros st H Hlt.
  - simpl in H. injection H as <-. simpl. by destruct (Weld.SimulationConfig.save_video_frames _).
  - destruct (weld_output_steps_S sim n st H) as (st1 & H1 & Hit & _).
    destruct (weld_output_iteration_inv _ _ _ Hit) as (_ & _ & _ & Hfc & _).
    destruct (weld_output_steps_config sim n st1 H1) as [Hc Hnt].
    rewrite Hfc, Hc, Hnt, (IH st1 H1) by lia. clear Hfc IH.
    pose proof (frame_interval_pos (Weld.config_ sim)) as Hfi.
    destruct (Weld.SimulationConfig.save_video_frames _); cbn [andb]; [|done].
    replace (Z.of_nat (S n)) with (Z.of_nat n + 1)%Z by lia.
    rewrite (div_succ (Z.of_nat n)) by lia.
    replace (Z.of_nat n + 1 =? Weld.nt_ sim)%Z with false
      by (symmetry; apply Z.eqb_neq; lia).
    rewrite orb_false_r. destruct (_ =? 0)%Z; [reflexivity|by rewrite Z.add_0_r].
Qed.

(** The last iteration always writes a frame when frames are saved. *)
Lemma weld_output_last_frame sim st :
  (0 < Weld.nt_ sim)%Z →
  Weld.SimulationConfig.save_video_frames (Weld.config_ sim) = true →
  WeldOutput.run sim = Some st →
  WeldOutput.frame_counter st
  = ((Weld.nt_ sim - 1) `div` WeldOutput.frame_interval (Weld.config_ sim) + 1)%Z ∧
  WeldOutput.ExportVideoFrame (WeldOutput.frame_counter st - 1)
    (weld_clock (Z.to_nat (Weld.nt_ sim)) sim)
  ∈ WeldOutput.drv_events st.
Proof.
  intros Hnt Hsave H. unfold WeldOutput.run in H. fold (weld_output_init sim) in H.
  destruct (Z.to_nat (Weld.nt_ sim)) as [|n] eqn:Hn; [lia|].
  destruct (weld_output_steps_S sim n st H) as (st1 & H1 & Hit & _ & _ & Ht).
  destruct (weld_output_iteration_inv _ _ _ Hit) as (_ & _ & _ & Hfc & Hev).
  destruct (weld_output_steps_config sim n st1 H1) as [Hc Hnt'].
  rewrite Hc, Hnt', Ht in *.
  rewrite (weld_output_frames_count sim n st1 H1), Hsave in Hfc, Hev by lia.
  replace (Z.of_nat (S n) =? Weld.nt_ sim)%Z with true in Hfc, Hev
    by (symmetry; apply Z.eqb_eq; lia).
  rewrite orb_true_r in Hfc, Hev. simpl in Hfc, Hev.
  replace (Weld.nt_ sim - 1)%Z with (Z.of_nat n) by lia.
  split; [done|]. rewrite Hev, Hfc.
  replace (Z.of_nat n `div` WeldOutput.frame_interval (Weld.config_ sim) + 1 - 1)%Z
    with (Z.of_nat n `div` WeldOutput.frame_interval (Weld.config_ sim))%Z by lia.
  apply elem_of_app. right. apply elem_of_cons. by left.
Qed.

(** ** The snapshot *)

Lemma weld_output_snapshot sim n st :
  WeldOutput.run_steps n (weld_output_init sim) = Some st →
  let ts := Weld.SimulationConfig.snapshot_time (Weld.config_ sim) in
  if WeldOutput.snapshot_taken st
  then 0 < ts ∧
       ∃ m, (m < n)%nat ∧ ts <= weld_clock (S m) sim ∧
            (∀ m', (m' < m)%nat → weld_clock (S m') sim < ts) ∧
            snapshot_seconds (WeldOutput.drv_events st)
            = [trunc_int (weld_clock (S m) sim)]
  else snapshot_seconds (WeldOutput.drv_events st) = [] ∧
       (0 < ts → ∀ m, (m < n)%nat → weld_clock (S m) sim < ts).
Proof.
  intros H ts. revert st H. induction n as [|n IH]; intros st H.
  - simpl in H. injection H as <-. simpl. split; [done|]. intros; lia.
  - destruct (weld_output_steps_S sim n st H) as (st1 & H1 & Hit & _ & _ & Ht).
    destruct (weld_output_iteration_inv _ _ _ Hit) as (_ & _ & Htk & _ & Hev).
    destruct (weld_output_steps_config sim n st1 H1) as [Hc Hnt].
    rewrite Hc, Ht in Htk, Hev. fold ts in Htk, Hev.
    specialize (IH st1 H1). rewrite Htk, Hev, snapshot_seconds_iteration.
    destruct (WeldOutput.snapshot_taken st1).
    + rewrite andb_false_r. destruct IH as (Hts & m & Hm & Hge & Hlt & Hsn).
      split; [done|]. exists m. split; [lia|]. split; [done|]. split; [done|].
      by rewrite Hsn, app_nil_r.
    + destruct IH as [Hsn Hlt]. rewrite Hsn, andb_true_r.
      unfold Rgtb, Rgeb. destruct (Rgt_dec ts 0) as [Hpos|Hneg]; cbn [andb].
      * destruct (Rge_dec _ ts) as [Hge|Hnge].
        -- split; [lra|]. exists n. split; [lia|]. split; [lra|].
           split; [intros m' Hm'; apply Hlt; [lra|lia]|done].
        -- split; [done|].
           intros _ m Hm. destruct (decide (m = n)) as [->|]; [lra|].
           apply Hlt; [lra|lia].
      * split; [done|]. intros; lra.
Qed.

(** ** [std::max_element] and [std::count] *)

Lemma foldl_max_spec (x : R) (v : list R) :
  let m := foldl (λ largest y, if Rlt_dec largest y then y else largest) x v in
  m ∈ x :: v ∧ ∀ y, y ∈ x :: v → y <= m.
Proof.
  revert x. induction v as [|z v IH]; intros x; simpl.
  - split; [by left|]. intros y Hy. apply list_elem_of_singleton in Hy. lra.
  - destruct (Rlt_dec x z) as [Hlt|Hge].
    + destruct (IH z) as [Hin Hmax]. split; [by right|].
      intros y Hy. apply elem_of_cons in Hy as [->|Hy]; [|by apply Hmax].
      specialize (Hmax z ltac:(by left)). lra.
    + destruct (IH x) as [Hin Hmax]. split.
      * apply elem_of_cons in Hin as [->|Hin]; [by left|by do 2 right].
      * intros y Hy. apply elem_of_cons in Hy as [->|Hy]; [apply Hmax; by left|].
        apply elem_of_cons in Hy as [->|Hy]; [|apply Hmax; by right].
        specialize (Hmax x ltac:(by left)). lra.
Qed.

Lemma max_element_spec (v : list R) :
  match max_element v with
  | None => v = []
  | Some m => m ∈ v ∧ ∀ y, y ∈ v → y <= m
  end.
Proof. destruct v as [|x v]; [done|]. apply foldl_max_spec. Qed.

Lemma count_true_foldl (v : list bool) (n : Z) :
  foldl (λ n (b : bool), if b then (n + 1)%Z else n) n v = (n + count_true v)%Z.
Proof.
  unfold count_true. revert n. induction v as [|b v IH]; intros n; simpl; [lia|].
  rewrite IH, (IH (if b then _ else _)). destruct b; lia.
Qed.

Lemma count_true_cons (b : bool) (v : list bool) :
  count_true (b :: v) = ((if b then 1 else 0) + count_true v)%Z.
Proof. unfold count_true at 1. simpl. rewrite count_true_foldl. by destruct b. Qed.

Lemma count_true_range (v : list bool) : (0 ≤ count_true v ≤ Z.of_nat (length v))%Z.
Proof.
  induction v as [|b v IH]; [done|]. rewrite count_true_cons. simpl length.
  destruct b; lia.
Qed.

Lemma count_true_zero (v : list bool) :
  count_true v = 0%Z ↔ ∀ b, b ∈ v → b = false.
Proof.
  induction v as [|b v IH].
  - split; [|done]. intros _ b Hb. by apply elem_of_nil in Hb.
  - rewrite count_true_cons. pose proof (count_true_range v). split.
    + intros H0 b' Hb'. destruct b; [lia|].
      apply elem_of_cons in Hb' as [->|Hb']; [done|]. apply IH; [lia|done].
    + intros Hall. rewrite (Hall b) by (by left).
      apply IH. intros b' Hb'. apply Hall. by right.
Qed.

(** Cell by cell, a vector has at most as many [true] as one that it implies. *)
Lemma count_true_mono (v w : list bool) :
  length v = length w →
  (∀ n, v !! n = Some true → w !! n = Some true) →
  (count_true v ≤ count_true w)%Z.
Proof.
  revert w. induction v as [|b v IH]; intros [|c w] Hlen Himp; try done.
  rewrite !count_true_cons.
  assert (count_true v ≤ count_true w)%Z as Hle.
  { apply IH; [by injection Hlen|]. intros n. apply (Himp (S n)). }
  destruct b; [|destruct c; lia].
  specialize (Himp O eq_refl). injection Himp as ->. lia.
Qed.

(** ** A loop that writes one value to every cell of a vector *)

Lemma for_range_insert_lookup {A : Type} (g : Z → A) (N : Z) (s : list A) (n : nat) :
  for_range 0 N (λ i s, <[Z.to_nat i := g i]> s) s !! n
  = if decide (Z.of_nat n < N)%Z then (λ _, g (Z.of_nat n)) <$> s !! n else s !! n.
Proof.
  unfold for_range. rewrite Z.sub_0_r.
  destruct (Z_lt_le_dec N 0) as [Hneg|Hpos].
  { rewrite seqZ_nil by lia. simpl. case_decide; [lia|done]. }
  rewrite <- (Z2Nat.id N) by done. generalize (Z.to_nat N) as m. clear.
  intros m. revert n. induction m as [|m IH]; intros n.
  { simpl. case_decide; [lia|done]. }
  rewrite seqZ_S, foldl_snoc, Z.add_0_l, Nat2Z.id.
  set (s' := foldl _ s _) in *.
  destruct (decide (n = m)) as [->|Hne].
  - rewrite decide_True by lia.
    destruct (s !! m) as [x|] eqn:Hx; simpl.
    + apply list_lookup_insert_eq.
      apply lookup_lt_is_Some. rewrite IH, decide_False, Hx by lia. eauto.
    + rewrite list_insert_ge; [by rewrite IH, decide_False by lia|].
      apply lookup_ge_None. by rewrite IH, decide_False by lia.
  - rewrite list_lookup_insert_ne, IH by done.
    repeat case_decide; done || lia.
Qed.

Lemma for_range_insert_length {A : Type} (g : Z → A) (N : Z) (s : list A) :
  length (for_range 0 N (λ i s, <[Z.to_nat i := g i]> s) s) = length s.
Proof.
  unfold for_range. generalize (seqZ 0 (N - 0)) as l. intros l. revert s.
  induction l as [|i l IH]; intros s; simpl; [done|].
  rewrite IH. apply length_insert.
Qed.

(** ** [computeZones] *)

(** The two tests of [computeZones] on one peak temperature. *)
Definition in_fusion (T_melt x : R) : bool := Rgeb x T_melt.
Definition in_HAZ (T_melt T_crit x : R) : bool := Rgeb x T_crit && Rltb x T_melt.

Lemma in_fusion_true T_melt x : in_fusion T_melt x = true ↔ T_melt <= x.
Proof. unfold in_fusion, Rgeb. destruct (Rge_dec _ _); split; (done || lra). Qed.

Lemma in_HAZ_true T_melt T_crit x :
  in_HAZ T_melt T_crit x = true ↔ T_crit <= x < T_melt.
Proof.
  unfold in_HAZ, Rgeb, Rltb. destruct (Rge_dec _ _), (Rlt_dec _ _); simpl;
    split; (done || lra).
Qed.

Lemma computeZones_eq sim :
  length (Weld.T_max_ sim) = Z.to_nat (Weld.N_ sim) →
  WeldStats.computeZones 1 sim
  = Some (in_fusion (Weld.T_melt_ sim) <$> Weld.T_max_ sim,
          in_HAZ (Weld.T_melt_ sim) (Weld.T_crit_ sim) <$> Weld.T_max_ sim).
Proof.
  intros Hlen. unfold WeldStats.computeZones.
  change (1 =? 1)%Z with true. cbv iota. f_equal.
  set (f := λ idx : Z, in_fusion (Weld.T_melt_ sim) (vec_get (Weld.T_max_ sim) idx)).
  set (h := λ idx : Z,
         in_HAZ (Weld.T_melt_ sim) (Weld.T_crit_ sim) (vec_get (Weld.T_max_ sim) idx)).
  set (z0 := (replicate (Z.to_nat (Weld.N_ sim)) false,
              replicate (Z.to_nat (Weld.N_ sim)) false)).
  change (for_range 0 (Weld.N_ sim) _ z0)
    with (for_range 0 (Weld.N_ sim)
            (λ idx (z : list bool * list bool),
               (<[Z.to_nat idx := f idx]> z.1, <[Z.to_nat idx := h idx]> z.2)) z0).
  apply injective_projections.
  - rewrite (for_range_proj fst _ (λ idx z, <[Z.to_nat idx := f idx]> z)) by done.
    cbn [fst snd z0]. apply list_eq. intros n. rewrite for_range_insert_lookup, list_lookup_fmap.
    simpl. destruct (decide (n < Z.to_nat (Weld.N_ sim))%nat) as [Hn|Hn].
    + rewrite decide_True by lia. rewrite lookup_replicate_2 by done.
      destruct (lookup_lt_is_Some_2 (Weld.T_max_ sim) n) as [x Hx]; [lia|].
      rewrite Hx. simpl. unfold f, vec_get.
      by rewrite Nat2Z.id, Hx.
    + rewrite (lookup_ge_None_2 (Weld.T_max_ sim)) by lia.
      rewrite lookup_ge_None_2 by (rewrite length_replicate; lia).
      by case_decide.
  - rewrite (for_range_proj snd _ (λ idx z, <[Z.to_nat idx := h idx]> z)) by done.
    cbn [fst snd z0]. apply list_eq. intros n. rewrite for_range_insert_lookup, list_lookup_fmap.
    simpl. destruct (decide (n < Z.to_nat (Weld.N_ sim))%nat) as [Hn|Hn].
    + rewrite decide_True by lia. rewrite lookup_replicate_2 by done.
      destruct (lookup_lt_is_Some_2 (Weld.T_max_ sim) n) as [x Hx]; [lia|].
      rewrite Hx. simpl. unfold h, vec_get.
      by rewrite Nat2Z.id, Hx.
    + rewrite (lookup_ge_None_2 (Weld.T_max_ sim)) by lia.
      rewrite lookup_ge_None_2 by (rewrite length_replicate; lia).
      by case_decide.
Qed.

(** ** [analyze_results]: the counting loop *)

Lemma foldl_seqZ_read {S : Type} (f : R → S → S) (v w : list R) (c : S) :
  foldl (λ c i, f (vec_get (v ++ w) i) c) c (seqZ 0 (Z.of_nat (length v)))
  = foldl (λ c x, f x c) c v.
Proof.
  revert w. induction v as [|x v IH] using rev_ind; intros w; [done|].
  rewrite length_app, Nat.add_1_r, seqZ_S, !foldl_snoc, Z.add_0_l.
  rewrite <- app_assoc, IH. unfold vec_get.
  rewrite Nat2Z.id, lookup_app_r, Nat.sub_diag by done. done.
Qed.

Lemma for_range_read {S : Type} (f : R → S → S) (v : list R) (c : S) :
  for_range 0 (Z.of_nat (length v)) (λ i c, f (vec_get v i) c) c
  = foldl (λ c x, f x c) c v.
Proof.
  unfold for_range. rewrite Z.sub_0_r.
  pose proof (foldl_seqZ_read f v [] c) as H. by rewrite app_nil_r in H.
Qed.

Lemma zone_counts_foldl (v : list R) (T_melt T_crit : R) (c : Z * Z) :
  foldl (λ (c : Z * Z) x,
           if Rge_dec x T_melt then ((c.1 + 1)%Z, c.2)
           else if Rge_dec x T_crit then (c.1, (c.2 + 1)%Z) else c) c v
  = ((c.1 + count_true (in_fusion T_melt <$> v))%Z,
     (c.2 + count_true (in_HAZ T_melt T_crit <$> v))%Z).
Proof.
  revert c. induction v as [|x v IH]; intros [c1 c2].
  - unfold count_true. simpl. f_equal; lia.
  - assert ((if Rge_dec x T_melt then ((c1 + 1)%Z, c2)
             else if Rge_dec x T_crit then (c1, (c2 + 1)%Z) else (c1, c2))
            = ((c1 + (if in_fusion T_melt x then 1 else 0))%Z,
               (c2 + (if in_HAZ T_melt T_crit x then 1 else 0))%Z)) as Hstep.
    { unfold in_fusion, in_HAZ, Rgeb, Rltb.
      destruct (Rge_dec x T_melt), (Rge_dec x T_crit), (Rlt_dec x T_melt);
        simpl; try (exfalso; lra); f_equal; lia. }
    cbn [foldl fst snd]. rewrite Hstep, IH, !fmap_cons, !count_true_cons.
    cbn [fst snd]. f_equal; lia.
Qed.

Lemma zone_counts_eq s T_melt T_crit :
  length (TIG.T_max s) = Z.to_nat (TIG.N s) → (0 ≤ TIG.N s)%Z →
  TIGStats.zone_counts s T_melt T_crit
  = (count_true (in_fusion T_melt <$> TIG.T_max s),
     count_true (in_HAZ T_melt T_crit <$> TIG.T_max s)).
Proof.
  intros Hlen HN. unfold TIGStats.zone_counts.
  replace (TIG.N s) with (Z.of_nat (length (TIG.T_max s))) by lia.
  rewrite (for_range_read
             (λ x (c : Z * Z),
                if Rge_dec x T_melt then ((c.1 + 1)%Z, c.2)
                else if Rge_dec x T_crit then (c.1, (c.2 + 1)%Z) else c)).
  by rewrite zone_counts_foldl.
Qed.

Lemma computeZones_lookup sim index :
  WeldFacts.sizes_ok sim → (0 ≤ index < Weld.N_ sim)%Z →
  ∃ zones, WeldStats.computeZones 1 sim = Some zones ∧
    zones.1 !! Z.to_nat index
    = Some (in_fusion (Weld.T_melt_ sim) (vec_get (Weld.T_max_ sim) index)) ∧
    zones.2 !! Z.to_nat index
    = Some (in_HAZ (Weld.T_melt_ sim) (Weld.T_crit_ sim)
              (vec_get (Weld.T_max_ sim) index)).
Proof.
  intros Hs Hi. eexists. split; [apply computeZones_eq; apply Hs|]. simpl.
  rewrite !list_lookup_fmap. unfold vec_get.
  destruct (lookup_lt_is_Some_2 (Weld.T_max_ sim) (Z.to_nat index)) as [x ->];
    [rewrite (WeldFacts.sizes_T_max sim Hs); lia|done].
Qed.

Lemma zones_disjoint T_melt T_crit x :
  in_fusion T_melt x && in_HAZ T_melt T_crit x = false.
Proof.
  unfold in_fusion, in_HAZ, Rgeb, Rltb.
  destruct (Rge_dec x T_melt), (Rge_dec x T_crit), (Rlt_dec x T_melt); simpl;
    done || lra.
Qed.

(** [T_max_] on the boundary stays at [T0]. *)
Lemma weld_run_boundary_peak config sim n i j :
  Weld.construct config = Weld.Constructed sim →
  (0 ≤ i < Weld.SimulationConfig.nx config)%Z →
  (0 ≤ j < Weld.SimulationConfig.ny config)%Z →
  (i = 0 ∨ i = Weld.SimulationConfig.nx config - 1 ∨
   j = 0 ∨ j = Weld.SimulationConfig.ny config - 1)%Z →
  vec_get (Weld.T_max_ (weld_after n sim))
          (Weld.idx (Weld.SimulationConfig.nx config) i j)
  = Weld.SimulationConfig.T0 config.
Proof.
  intros Hc Hi Hj Hb.
  pose proof (WeldRun.construct_sizes _ _ Hc) as Hs.
  destruct (WeldRun.construct_inv _ _ Hc) as (_ & _ & Hnx & Hny & HN & Hcfg & _ & HTm).
  assert (0 ≤ Weld.idx (Weld.SimulationConfig.nx config) i j < Weld.N_ sim)%Z as Hidx.
  { rewrite HN. unfold Weld.idx. nia. }
  induction n as [|n IH].
  - unfold weld_after. simpl. by rewrite HTm, vec_get_vec_make.
  - rewrite weld_after_S.
    destruct (weld_after_frame n sim) as (_ & _ & _ & HN' & _).
    rewrite weld_step_peak; [|by apply weld_after_sizes|by rewrite HN'].
    rewrite IH, <- weld_after_S.
    rewrite (vec_get_lookup _ _ _ (weld_run_boundary config sim n i j Hc Hi Hj Hb)).
    unfold Rmax. by destruct (Rle_dec _ _).
Qed.

(** ** [printStatistics] *)

Lemma count_true_disjoint (v w : list bool) :
  length v = length w →
  (∀ n b c, v !! n = Some b → w !! n = Some c → b && c = false) →
  (count_true v + count_true w ≤ Z.of_nat (length v))%Z.
Proof.
  revert w. induction v as [|b v IH]; intros [|c w] Hlen Hd; try done.
  rewrite !count_true_cons. simpl length.
  assert (count_true v + count_true w ≤ Z.of_nat (length v))%Z as Hle.
  { apply IH; [by injection Hlen|]. intros n. apply (Hd (S n)). }
  specialize (Hd O b c eq_refl eq_refl). destruct b, c; simpl in *; (done || lia).
Qed.

Lemma count_true_fmap_false {A : Type} (p : A → bool) (v : list A) :
  (∀ x, x ∈ v → p x = false) → count_true (p <$> v) = 0%Z.
Proof.
  intros H. apply count_true_zero. intros b Hb.
  apply list_elem_of_fmap in Hb as (x & -> & Hx). by apply H.
Qed.

Lemma printStatistics_spec sim :
  WeldFacts.sizes_ok sim →
  match WeldStats.printStatistics 1 sim with
  | None => Weld.T_max_ sim = []
  | Some st =>
      WeldStats.T_peak st ∈ Weld.T_max_ sim ∧
      (∀ x, x ∈ Weld.T_max_ sim → x <= WeldStats.T_peak st) ∧
      (WeldStats.T_peak st < Weld.T_melt_ sim → WeldStats.fusion_area_mm2 st = 0) ∧
      (WeldStats.T_peak st < Weld.T_crit_ sim → WeldStats.HAZ_area_mm2 st = 0) ∧
      ∃ fusion_count HAZ_count : Z,
        (0 ≤ fusion_count)%Z ∧ (0 ≤ HAZ_count)%Z ∧
        (fusion_count + HAZ_count ≤ Z.of_nat (length (Weld.T_max_ sim)))%Z ∧
        WeldStats.fusion_area_mm2 st
        = IZR fusion_count * (Weld.dx_ sim * Weld.dy_ sim) * 1e6 ∧
        WeldStats.HAZ_area_mm2 st
        = IZR HAZ_count * (Weld.dx_ sim * Weld.dy_ sim) * 1e6
  end.
Proof.
  intros Hs. unfold WeldStats.printStatistics.
  pose proof (max_element_spec (Weld.T_max_ sim)) as Hmax.
  destruct (max_element (Weld.T_max_ sim)) as [m|]; [|done].
  destruct Hmax as [Hin Hub]. cbv zeta.
  rewrite computeZones_eq by apply Hs. cbn [fst snd WeldStats.T_peak
    WeldStats.fusion_area_mm2 WeldStats.HAZ_area_mm2].
  split; [done|]. split; [done|]. split; [|split].
  - intros Hlt. rewrite count_true_fmap_false; [lra|].
    intros x Hx. specialize (Hub x Hx).
    destruct (in_fusion _ x) eqn:Hf; [|done]. apply in_fusion_true in Hf. lra.
  - intros Hlt. rewrite count_true_fmap_false; [lra|].
    intros x Hx. specialize (Hub x Hx).
    destruct (in_HAZ _ _ x) eqn:Hf; [|done]. apply in_HAZ_true in Hf. lra.
  - eexists _, _. split; [apply count_true_range|]. split; [apply count_true_range|].
    split; [|done].
    pose proof (count_true_disjoint
                  (in_fusion (Weld.T_melt_ sim) <$> Weld.T_max_ sim)
                  (in_HAZ (Weld.T_melt_ sim) (Weld.T_crit_ sim) <$> Weld.T_max_ sim))
      as Hd.
    rewrite !length_fmap in Hd. apply Hd; [done|].
    intros n b c. rewrite !list_lookup_fmap.
    destruct (Weld.T_max_ sim !! n) as [x|]; [|done]. simpl.
    intros [= <-] [= <-]. apply zones_disjoint.
Qed.

(** ** The two classifiers on the same peak field *)

Lemma analyze_results_spec s :
  TIGFacts.sizes_ok s →
  let c := TIG.config s in
  let T_melt := (TIG.TIGConfig.mat_1_T_melt c + TIG.TIGConfig.mat_2_T_melt c) / 2.0 in
  let T_crit := (TIG.TIGConfig.mat_1_T_crit c + TIG.TIGConfig.mat_2_T_crit c) / 2.0 in
  match TIGStats.analyze_results s with
  | None => TIG.T_max s = []
  | Some a =>
      max_element (TIG.T_max s) = Some (TIGStats.peak_temp a) ∧
      TIGStats.fusion_area_mm2 a
      = IZR (count_true (in_fusion T_melt <$> TIG.T_max s)) * (TIG.dx s * TIG.dy s) * 1e6 ∧
      TIGStats.haz_area_mm2 a
      = IZR (count_true (in_HAZ T_melt T_crit <$> TIG.T_max s))
        * (TIG.dx s * TIG.dy s) * 1e6 ∧
      TIGStats.total_area_mm2 a
      = TIGStats.fusion_area_mm2 a + TIGStats.haz_area_mm2 a
  end.
Proof.
  intros Hs c T_melt T_crit. unfold TIGStats.analyze_results. cbv zeta.
  fold c. fold T_melt. fold T_crit.
  pose proof (max_element_spec (TIG.T_max s)) as Hmax.
  destruct (max_element (TIG.T_max s)) as [m|] eqn:Hm; [|done].
  destruct Hmax as [Hin _].
  assert (0 ≤ TIG.N s)%Z as HN.
  { destruct (Z_lt_le_dec (TIG.N s) 0) as [Hneg|]; [|done].
    pose proof (TIGFacts.sizes_T_max s Hs) as Hlen.
    destruct (TIG.T_max s); [by apply elem_of_nil in Hin|]. simpl in Hlen. lia. }
  rewrite zone_counts_eq by (done || apply Hs). simpl.
  repeat split; lra.
Qed.

(** * cpp-weld-2: the command line *)

Section CommandLine.
Context (stod : string → option R) (stoi : string → option Z).

(** What the body of the argument loop does with the argument at hand. *)
Inductive arg_step : Type :=
  | StepReturn (code : Z)
  | StepUncaught
  | StepContinue (rest : list string) (config : Weld.SimulationConfig.t).

Definition first_step (arg : string) (rest : list string)
    (config : Weld.SimulationConfig.t) : arg_step :=
  if String.eqb arg "--help" then StepReturn 0
  else
    match String.eqb arg "--weld_process", rest with
    | true, value :: rest' =>
        if negb (String.eqb value "TIG") && negb (String.eqb value "Electrode")
        then StepReturn 1
        else StepContinue rest' (Weld.SimulationConfig.set_weld_process config value)
    | _, _ =>
      if String.eqb arg "--use_gas"
      then StepContinue rest (Weld.SimulationConfig.set_use_gas config true)
      else if String.eqb arg "--no-gas"
      then StepContinue rest (Weld.SimulationConfig.set_use_gas config false)
      else
        match WeldMain.numeric_option arg, rest with
        | Some assign, value :: rest' =>
            match stod value with
            | Some x => StepContinue rest' (assign config x)
            | None => StepUncaught
            end
        | _, _ =>
          if String.eqb arg "--save_video"
          then StepContinue rest (Weld.SimulationConfig.set_save_video_frames config true)
          else
            match String.eqb arg "--video_fps", rest with
            | true, value :: rest' =>
                match stoi value with
                | Some n =>
                    StepContinue rest'
                      (Weld.SimulationConfig.set_video_frames_per_second config n)
                | None => StepUncaught
                end
            | _, _ => StepReturn 1
            end
        end
    end.

Lemma parse_arguments_step arg rest config :
  WeldMain.parse_arguments stod stoi (arg :: rest) config
  = match first_step arg rest config with
    | StepReturn code => WeldMain.Return code
    | StepUncaught => WeldMain.Uncaught
    | StepContinue rest' config' => WeldMain.parse_arguments stod stoi rest' config'
    end.
Proof.
  cbn [WeldMain.parse_arguments]. unfold first_step.
  destruct (String.eqb arg "--help"); [done|].
  destruct (String.eqb arg "--weld_process"), rest as [|value rest'];
    try (destruct (_ && _); done);
    (destruct (String.eqb arg "--use_gas"); [done|]);
    (destruct (String.eqb arg "--no-gas"); [done|]);
    destruct (WeldMain.numeric_option arg);
    try (destruct (stod _); done);
    (destruct (String.eqb arg "--save_video"); [done|]);
    destruct (String.eqb arg "--video_fps"); try done;
    destruct (stoi _); done.
Qed.

(** The members that no option assigns. *)
Definition fixed_members (c : Weld.SimulationConfig.t) :=
  (Weld.SimulationConfig.Lx c, Weld.SimulationConfig.Ly c,
   Weld.SimulationConfig.thickness c, Weld.SimulationConfig.nx c,
   Weld.SimulationConfig.ny c, Weld.SimulationConfig.x_start c,
   Weld.SimulationConfig.y_arc c, Weld.SimulationConfig.a c,
   Weld.SimulationConfig.b c, Weld.SimulationConfig.ff c,
   Weld.SimulationConfig.fr c, Weld.SimulationConfig.T0 c,
   Weld.SimulationConfig.dt c,
   Weld.SimulationConfig.mat_1_name c, Weld.SimulationConfig.mat_1_T_crit c,
   Weld.SimulationConfig.mat_2_name c, Weld.SimulationConfig.mat_2_T_crit c,
   Weld.SimulationConfig.eta c, Weld.SimulationConfig.cf c,
   Weld.SimulationConfig.cr c, Weld.SimulationConfig.h_conv c,
   Weld.SimulationConfig.theta c).

Lemma numeric_option_fixed arg assign c x :
  WeldMain.numeric_option arg = Some assign →
  fixed_members (assign c x) = fixed_members c.
Proof.
  unfold WeldMain.numeric_option.
  repeat (destruct (String.eqb arg _); [by intros [= <-]|]). done.
Qed.

(** The value that an option has consumed was accepted by the option. *)
Definition accepted_value (v : string) : Prop :=
  v = "TIG" ∨ v = "Electrode" ∨ is_Some (stod v) ∨ is_Some (stoi v).

Lemma numeric_option_not_flag arg :
  is_Some (WeldMain.numeric_option arg) →
  String.eqb arg "--save_video" = false ∧ String.eqb arg "--video_fps" = false.
Proof.
  unfold WeldMain.numeric_option.
  repeat (destruct (String.eqb arg _) eqn:E;
          [apply String.eqb_eq in E; subst arg; intros _; split; reflexivity|clear E]).
  intros [? ?]; discriminate.
Qed.

Lemma weld_process_not_flag arg :
  String.eqb arg "--weld_process" = true →
  String.eqb arg "--use_gas" = false ∧ String.eqb arg "--no-gas" = false ∧
  WeldMain.numeric_option arg = None ∧
  String.eqb arg "--save_video" = false ∧ String.eqb arg "--video_fps" = false.
Proof. intros H. apply String.eqb_eq in H. subst arg. repeat split; reflexivity. Qed.

Lemma first_step_continue arg rest config rest' config' :
  first_step arg rest config = StepContinue rest' config' →
  arg ≠ "--help" ∧
  fixed_members config' = fixed_members config ∧
  (rest' = rest ∨ ∃ v, rest = v :: rest' ∧ accepted_value v) ∧
  ∀ tail, first_step arg (rest ++ tail) config = StepContinue (rest' ++ tail) config'.
Proof.
  unfold first_step.
  destruct (String.eqb arg "--help") eqn:Hhelp; [discriminate|].
  apply String.eqb_neq in Hhelp.
  destruct (String.eqb arg "--weld_process") eqn:Hwp.
  - destruct (weld_process_not_flag _ Hwp) as (-> & -> & -> & -> & ->).
    destruct rest as [|value rest1]; [discriminate|]. cbn [app].
    destruct (_ && _) eqn:Hv; [discriminate|]. intros [= <- <-].
    split; [done|]. split; [reflexivity|]. split; [|reflexivity].
    right. exists value. split; [done|].
    apply andb_false_iff in Hv as [Hv|Hv]; apply negb_false_iff, String.eqb_eq in Hv.
    + by left.
    + right. by left.
  - destruct (String.eqb arg "--use_gas").
    { intros [= <- <-]. split; [done|]. split; [reflexivity|]. split; [by left|].
      intros tail. by destruct (rest ++ tail). }
    destruct (String.eqb arg "--no-gas").
    { intros [= <- <-]. split; [done|]. split; [reflexivity|]. split; [by left|].
      intros tail. by destruct (rest ++ tail). }
    destruct (WeldMain.numeric_option arg) as [assign|] eqn:Hnum.
    + destruct (numeric_option_not_flag arg) as [-> ->]; [by rewrite Hnum|].
      destruct rest as [|value rest1]; [discriminate|]. cbn [app].
      destruct (stod value) as [x|] eqn:Hx; [|discriminate]. intros [= <- <-].
      split; [done|]. split; [by eapply numeric_option_fixed|]. split; [|reflexivity].
      right. exists value. split; [done|]. right. right. left. by rewrite Hx.
    + destruct (String.eqb arg "--save_video").
      { intros [= <- <-]. split; [done|]. split; [reflexivity|]. split; [by left|].
        intros tail. by destruct (rest ++ tail). }
      destruct (String.eqb arg "--video_fps"); [|by destruct rest].
      destruct rest as [|value rest1]; [discriminate|]. cbn [app].
      destruct (stoi value) as [n|] eqn:Hn; [|discriminate]. intros [= <- <-].
      split; [done|]. split; [reflexivity|]. split; [|reflexivity].
      right. exists value. split; [done|]. right. right. right. by rewrite Hn.
Qed.
Lemma first_step_return arg rest config code :
  first_step arg rest config = StepReturn code →
  (code = 0 ∧ arg = "--help")%Z ∨ (code = 1 ∧ arg ≠ "--help")%Z.
Proof.
  unfold first_step.
  destruct (String.eqb arg "--help") eqn:Hhelp.
  { apply String.eqb_eq in Hhelp. intros [= <-]. by left. }
  apply String.eqb_neq in Hhelp. intros H. right. split; [|done]. revert H.
  destruct (String.eqb arg "--weld_process"), rest as [|value rest'];
    try (destruct (_ && _); by intros [= <-]);
    (destruct (String.eqb arg "--use_gas"); [done|]);
    (destruct (String.eqb arg "--no-gas"); [done|]);
    destruct (WeldMain.numeric_option arg);
    try (destruct (stod _); done);
    (destruct (String.eqb arg "--save_video"); [done|]);
    destruct (String.eqb arg "--video_fps"); try (by intros [= <-]);
    destruct (stoi _); done.
Qed.

Lemma first_step_shorter arg rest config rest' config' :
  first_step arg rest config = StepContinue rest' config' →
  (length rest' ≤ length rest)%nat.
Proof.
  intros H. destruct (first_step_continue _ _ _ _ _ H) as (_ & _ & [->|(v & -> & _)] & _).
  - done.
  - simpl. lia.
Qed.

(** An induction principle that follows the loop: a property holds of every
    argument list when it holds of the empty one and is carried over each
    kind of step. *)
Lemma parse_arguments_ind (P : list string → Weld.SimulationConfig.t → Prop) :
  (∀ config, P [] config) →
  (∀ arg rest config,
     (∀ rest' config', first_step arg rest config = StepContinue rest' config' →
                       P rest' config') →
     P (arg :: rest) config) →
  ∀ args config, P args config.
Proof.
  intros Hnil Hcons args.
  assert (∀ n args, (length args ≤ n)%nat → ∀ config, P args config) as Hall.
  { induction n as [|n IH]; intros [|arg rest] Hlen config; try done.
    - simpl in Hlen. lia.
    - apply Hcons. intros rest' config' Hstep. apply IH.
      pose proof (first_step_shorter _ _ _ _ _ Hstep). simpl in Hlen. lia. }
  by apply (Hall (length args)).
Qed.

Lemma parse_arguments_app args1 args2 config config1 :
  WeldMain.parse_arguments stod stoi args1 config = WeldMain.Parsed config1 →
  WeldMain.parse_arguments stod stoi (args1 ++ args2) config
  = WeldMain.parse_arguments stod stoi args2 config1.
Proof.
  revert args1 config.
  refine (parse_arguments_ind _ _ _).
  - intros config [= ->]. done.
  - intros arg rest config IH. rewrite parse_arguments_step.
    destruct (first_step arg rest config) as [code| |rest' config'] eqn:Hstep; try done.
    intros Hp. change ((arg :: rest) ++ args2) with (arg :: rest ++ args2).
    rewrite parse_arguments_step.
    destruct (first_step_continue _ _ _ _ _ Hstep) as (_ & _ & _ & ->).
    by apply IH.
Qed.

Lemma parse_arguments_fixed args config config' :
  WeldMain.parse_arguments stod stoi args config = WeldMain.Parsed config' →
  fixed_members config' = fixed_members config.
Proof.
  revert args config.
  refine (parse_arguments_ind _ _ _).
  - by intros config [= ->].
  - intros arg rest config IH. rewrite parse_arguments_step.
    destruct (first_step arg rest config) as [code| |rest' config1] eqn:Hstep; try done.
    intros Hp. rewrite (IH _ _ eq_refl Hp).
    by destruct (first_step_continue _ _ _ _ _ Hstep) as (_ & -> & _).
Qed.

Lemma parse_arguments_return args config code :
  WeldMain.parse_arguments stod stoi args config = WeldMain.Return code →
  (code = 0%Z ∧ "--help" ∈ args) ∨ code = 1%Z.
Proof.
  revert args config.
  refine (parse_arguments_ind _ _ _).
  - done.
  - intros arg rest config IH. rewrite parse_arguments_step.
    destruct (first_step arg rest config) as [code'| |rest' config1] eqn:Hstep; try done.
    + intros [= ->].
      destruct (first_step_return _ _ _ _ Hstep) as [[-> ->]|[-> _]]; [left|by right].
      split; [done|]. apply elem_of_cons. by left.
    + intros Hp. destruct (IH _ _ eq_refl Hp) as [[-> Hin]| ->]; [left|by right].
      split; [done|]. apply elem_of_cons. right.
      destruct (first_step_continue _ _ _ _ _ Hstep) as (_ & _ & [->|(v & -> & _)] & _).
      * done.
      * apply elem_of_cons. by right.
Qed.

Lemma parse_arguments_help args config config' :
  stod "--help" = None → stoi "--help" = None →
  "--help" ∈ args →
  WeldMain.parse_arguments stod stoi args config ≠ WeldMain.Parsed config'.
Proof.
  intros Hd Hi. revert args config.
  refine (parse_arguments_ind _ _ _).
  - intros config Hin. by apply elem_of_nil in Hin.
  - intros arg rest config IH Hin. rewrite parse_arguments_step.
    destruct (first_step arg rest config) as [code| |rest' config1] eqn:Hstep; try done.
    apply (IH _ _ eq_refl).
    destruct (first_step_continue _ _ _ _ _ Hstep)
      as (Harg & _ & [->|(v & -> & Hv)] & _).
    + apply elem_of_cons in Hin as [Hin|Hin]; [by subst arg|done].
    + apply elem_of_cons in Hin as [Hin|Hin]; [by subst arg|].
      apply elem_of_cons in Hin as [Hin|Hin]; [|done]. subst v.
      destruct Hv as [Hv|[Hv|[Hv|Hv]]]; try done.
      * rewrite Hd in Hv. by destruct Hv.
      * rewrite Hi in Hv. by destruct Hv.
Qed.

(** The options that take a value. *)
Definition takes_value (arg : string) : Prop :=
  arg = "--weld_process" ∨ is_Some (WeldMain.numeric_option arg) ∨ arg = "--video_fps".

Lemma numeric_option_not_other arg :
  is_Some (WeldMain.numeric_option arg) →
  String.eqb arg "--help" = false ∧ String.eqb arg "--use_gas" = false ∧
  String.eqb arg "--no-gas" = false.
Proof.
  unfold WeldMain.numeric_option.
  repeat (destruct (String.eqb arg _) eqn:E;
          [apply String.eqb_eq in E; subst arg; intros _; repeat split; reflexivity
          |clear E]).
  intros [? ?]; discriminate.
Qed.

Lemma first_step_missing_value arg config :
  takes_value arg → first_step arg [] config = StepReturn 1.
Proof.
  intros [->|[H| ->]]; [reflexivity| |reflexivity].
  unfold first_step.
  destruct (numeric_option_not_other arg H) as (-> & -> & ->).
  destruct (numeric_option_not_flag arg H) as (-> & ->).
  destruct (String.eqb arg "--weld_process"); by destruct (WeldMain.numeric_option arg).
Qed.

Lemma parse_arguments_missing_value args arg config config1 :
  WeldMain.parse_arguments stod stoi args config = WeldMain.Parsed config1 →
  takes_value arg →
  WeldMain.parse_arguments stod stoi (args ++ [arg]) config = WeldMain.Return 1.
Proof.
  intros Hp Hv. rewrite (parse_arguments_app _ _ _ _ Hp), parse_arguments_step.
  by rewrite first_step_missing_value.
Qed.

End CommandLine.

(** ** From the configuration to the constructed object *)

Lemma weld_construct_config config sim :
  Weld.construct config = Weld.Constructed sim →
  Weld.SimulationConfig.dt (Weld.config_ sim) = Weld.SimulationConfig.dt config ∧
  Weld.SimulationConfig.v_weld (Weld.config_ sim) = Weld.SimulationConfig.v_weld config ∧
  Weld.SimulationConfig.x_start (Weld.config_ sim) = Weld.SimulationConfig.x_start config ∧
  Weld.SimulationConfig.Lx (Weld.config_ sim) = Weld.SimulationConfig.Lx config ∧
  Weld.SimulationConfig.T0 (Weld.config_ sim) = Weld.SimulationConfig.T0 config.
Proof.
  intros Hc.
  destruct (WeldRun.construct_inv _ _ Hc) as (_ & _ & _ & _ & _ & -> & _). done.
Qed.

Lemma weld_construct_ready config sim :
  Weld.construct config = Weld.Constructed sim →
  weld_config_positive config →
  Weld.SimulationConfig.Lx config ≠ 0 → Weld.SimulationConfig.Ly config ≠ 0 →
  WeldFacts.sizes_ok sim ∧ weld_materials_positive sim ∧
  Weld.dx_ sim ≠ 0 ∧ Weld.dy_ sim ≠ 0.
Proof.
  intros Hc Hpos HLx HLy.
  destruct (WeldRun.construct_inv _ _ Hc) as (Hnx & Hny & Hnx' & Hny' & _).
  destruct (WeldCtor.construct_spacing _ _ Hc) as [Hdx Hdy].
  destruct (weld_construct_static _ _ Hc) as (Hm1 & Hm2 & _).
  split; [by apply (WeldRun.construct_sizes config)|].
  split; [unfold weld_materials_positive; rewrite Hm1, Hm2; exact Hpos|].
  assert (∀ L n, L ≠ 0 → (2 ≤ n)%Z → L / IZR (n - 1) ≠ 0) as Hnz.
  { intros L n HL Hn. assert (1 <= IZR (n - 1)) by (apply IZR_le; lia).
    unfold Rdiv. apply Rmult_integral_contrapositive_currified; [done|].
    apply Rinv_neq_0_compat. lra. }
  rewrite Hdx, Hdy, Hnx', Hny'. split; by apply Hnz.
Qed.

Lemma field_le_make nx ny N x M : x <= M → 0 <= M → field_le nx ny (vec_make N x) M.
Proof.
  intros Hx HM i j _ _. unfold vec_get, vec_make.
  destruct (replicate _ _ !! _) as [y|] eqn:Hy; simpl; [|done].
  apply lookup_replicate in Hy as [-> _]. done.
Qed.

Lemma field_ge_make nx ny N x m : m <= x → m <= 0 → field_ge nx ny (vec_make N x) m.
Proof.
  intros Hx HM i j _ _. unfold vec_get, vec_make.
  destruct (replicate _ _ !! _) as [y|] eqn:Hy; simpl; [|done].
  apply lookup_replicate in Hy as [-> _]. done.
Qed.

(** ** The arc has left the plate before the run ends *)

Lemma weld_steps_cover config sim :
  Weld.construct config = Weld.Constructed sim →
  0 < Weld.SimulationConfig.dt config →
  Weld.t_end_ sim <= IZR (Weld.nt_ sim) * Weld.SimulationConfig.dt config
  < Weld.t_end_ sim + Weld.SimulationConfig.dt config.
Proof.
  intros Hc Hdt.
  destruct (weld_construct_static _ _ Hc) as (_ & _ & _ & _ & _ & _ & ->).
  set (dt := Weld.SimulationConfig.dt config) in *.
  assert (Weld.t_end_ sim = Weld.t_end_ sim / dt * dt) as Ht by (field; lra).
  destruct (ceil_int_spec (Weld.t_end_ sim / dt)) as [H1 H2].
  revert Ht H1 H2. generalize (Weld.t_end_ sim / dt) as q. intros q -> H1 H2.
  split; nra.
Qed.

Lemma weld_source_off_late config sim n :
  Weld.construct config = Weld.Constructed sim →
  0 < Weld.SimulationConfig.v_weld config →
  Weld.t_end_ sim - 10.0 < INR (S n) * Weld.SimulationConfig.dt config →
  weld_Qvol n sim = vec_make (Weld.N_ sim) 0.0 ∧
  Weld.flux_calls
    (Weld.heat_source (weld_after n sim)
       (Weld.arc_position (weld_after n sim) (weld_clock (S n) sim))) = [].
Proof.
  intros Hc Hv Hlate. apply weld_Qvol_off. rewrite weld_arc_eq.
  destruct (weld_construct_config _ _ Hc) as (-> & -> & -> & -> & _).
  destruct (weld_construct_static _ _ Hc) as (_ & _ & _ & _ & _ & Hte & _).
  rewrite Hte in Hlate.
  set (v := Weld.SimulationConfig.v_weld config) in *.
  set (L := Weld.SimulationConfig.Lx config) in *.
  set (x0 := Weld.SimulationConfig.x_start config) in *.
  set (t := INR (S n) * Weld.SimulationConfig.dt config) in *.
  assert ((L - x0) / v < t) as Ht by lra.
  assert ((L - x0) / v * v < t * v) as Hm by (apply Rmult_lt_compat_r; lra).
  replace ((L - x0) / v * v) with (L - x0) in Hm by (field; lra).
  lra.
Qed.

(** ** Zones along the run *)

Lemma weld_zone_flags config sim n index :
  Weld.construct config = Weld.Constructed sim → (0 ≤ index < Weld.N_ sim)%Z →
  ∃ zones, WeldStats.computeZones 1 (weld_after n sim) = Some zones ∧
    zones.1 !! Z.to_nat index
    = Some (in_fusion (Weld.T_melt_ sim)
              (vec_get (Weld.T_max_ (weld_after n sim)) index)) ∧
    zones.2 !! Z.to_nat index
    = Some (in_HAZ (Weld.T_melt_ sim) (Weld.T_crit_ sim)
              (vec_get (Weld.T_max_ (weld_after n sim)) index)).
Proof.
  intros Hc Hi.
  pose proof (weld_after_static n sim) as Hst.
  injection Hst as _ _ _ _ _ HN _ _ _ _ _ _ _ _ _ _ HTm HTc.
  rewrite <- HTm, <- HTc. apply computeZones_lookup.
  - apply weld_after_sizes. by apply (WeldRun.construct_sizes config).
  - by rewrite HN.
Qed.

(** ** Video frames when none are asked for *)

Lemma weld_output_no_frames sim n st :
  Weld.SimulationConfig.save_video_frames (Weld.config_ sim) = false →
  WeldOutput.run_steps n (weld_output_init sim) = Some st →
  WeldOutput.frame_counter st = 0%Z.
Proof.
  intros Hsave. revert st. induction n as [|n IH]; intros st H.
  - simpl in H. by injection H as <-.
  - destruct (weld_output_steps_S sim n st H) as (st1 & H1 & Hit & _).
    destruct (weld_output_iteration_inv _ _ _ Hit) as (_ & _ & _ & Hfc & _).
    destruct (weld_output_steps_config sim n st1 H1) as [Hc Hnt].
    rewrite Hfc, Hc, Hsave. cbn [andb]. by apply IH.
Qed.

(** ** The flux of the heat source *)

Lemma weld_goldak_point_range sim x_arc X Y :
  0 <= Weld.Q_total_ sim →
  0 < Weld.SimulationConfig.a (Weld.config_ sim) →
  0 < Weld.SimulationConfig.b (Weld.config_ sim) →
  0 <= Weld.SimulationConfig.ff (Weld.config_ sim) →
  0 <= Weld.SimulationConfig.fr (Weld.config_ sim) →
  0 <= Weld.goldak_point sim x_arc X Y
  <= Rmax (Weld.SimulationConfig.ff (Weld.config_ sim))
          (Weld.SimulationConfig.fr (Weld.config_ sim))
     * Weld.Q_total_ sim
     / (Weld.SimulationConfig.a (Weld.config_ sim)
        * Weld.SimulationConfig.b (Weld.config_ sim) * PI).
Proof.
  intros HQ Ha Hb Hff Hfr. unfold Weld.goldak_point. cbv zeta.
  set (a := Weld.SimulationConfig.a _) in *. set (b := Weld.SimulationConfig.b _) in *.
  set (ff := Weld.SimulationConfig.ff _) in *. set (fr := Weld.SimulationConfig.fr _) in *.
  set (Q := Weld.Q_total_ sim) in *.
  set (xi := X - x_arc). set (eta := Y - Weld.SimulationConfig.y_arc _).
  set (e := exp _).
  assert (0 < e <= 1) as He.
  { split; [apply exp_pos|]. rewrite <- exp_0. unfold e.
    destruct (Req_dec (- xi * xi / (a * a) - eta * eta / (b * b)) 0) as [->|Hne];
      [lra|].
    left. apply exp_increasing.
    assert (0 <= xi * xi / (a * a)).
    { apply Rmult_le_pos; [nra|]. left. apply Rinv_0_lt_compat. nra. }
    assert (0 <= eta * eta / (b * b)).
    { apply Rmult_le_pos; [nra|]. left. apply Rinv_0_lt_compat. nra. }
    replace (- xi * xi / (a * a)) with (- (xi * xi / (a * a))) in * by (field; lra).
    lra. }
  assert (0 < / (a * b * PI)) as Hden.
  { apply Rinv_0_lt_compat. pose proof PI_RGT_0. apply Rmult_lt_0_compat; [nra|lra]. }
  assert (∀ f, 0 <= f → f <= Rmax ff fr →
               0 <= f * Q / (a * b * PI) * e <= Rmax ff fr * Q / (a * b * PI)) as Hb'.
  { intros f Hf Hle. unfold Rdiv.
    set (d := / (a * b * PI)) in *.
    assert (0 <= f * Q * d) by (apply Rmult_le_pos; [nra|lra]).
    assert (f * Q * d <= Rmax ff fr * Q * d).
    { apply Rmult_le_compat_r; [lra|]. apply Rmult_le_compat_r; lra. }
    split; [nra|]. nra. }
  destruct (Rge_dec xi 0).
  - apply Hb'; [done|apply Rmax_l].
  - apply Hb'; [done|apply Rmax_r].
Qed.

Lemma weld_goldak_point_centre sim x_arc :
  Weld.goldak_point sim x_arc x_arc (Weld.SimulationConfig.y_arc (Weld.config_ sim))
  = Weld.SimulationConfig.ff (Weld.config_ sim) * Weld.Q_total_ sim
    / (Weld.SimulationConfig.a (Weld.config_ sim)
       * Weld.SimulationConfig.b (Weld.config_ sim) * PI).
Proof.
  unfold Weld.goldak_point. cbv zeta.
  replace (x_arc - x_arc) with 0 by ring.
  replace (_ - Weld.SimulationConfig.y_arc _) with 0 by ring.
  destruct (Rge_dec 0 0); [|lra].
  replace (- 0 * 0 / _ - 0 * 0 / _) with 0 by (unfold Rdiv; ring).
  rewrite exp_0. ring.
Qed.

(** ** The index of a cell *)

Lemma idx_onto nx ny index :
  (0 < nx)%Z → (0 ≤ index < nx * ny)%Z →
  ∃ i j, (0 ≤ i < nx)%Z ∧ (0 ≤ j < ny)%Z ∧ Weld.idx nx i j = index.
Proof.
  intros Hnx H.
  exists (index `mod` nx)%Z, (index `div` nx)%Z.
  pose proof (Z.mod_pos_bound index nx Hnx).
  pose proof (Z.div_mod index nx ltac:(lia)) as Hdm.
  split; [lia|]. split.
  - split; [apply Z.div_pos; lia|]. apply Z.div_lt_upper_bound; [lia|]. nia.
  - unfold Weld.idx. lia.
Qed.

(** * Properties of the material laws *)

(** The first material of the default configuration. *)
Definition mild_steel : Weld.Material.t :=
  Weld.Material.make "Mild Steel" 7850.0 500.0 45.0 1811.0 1273.0.

(** X1: whatever the temperature and whatever the two thresholds, the
    conductivity returned by [get_k] lies between the base value and 1.1
    times it, the specific heat of [get_cp] between the base value and 1.2
    times it, and the density of [get_rho] between 0.95 times the base value
    and the base value; in both programs. *)
Theorem material_properties_bounded :
  (∀ m T,
     0 <= Weld.Material.k m → 0 <= Weld.Material.cp m → 0 <= Weld.Material.rho m →
     Weld.Material.k m <= Weld.Material.get_k m T <= 1.1 * Weld.Material.k m ∧
     Weld.Material.cp m <= Weld.Material.get_cp m T <= 1.2 * Weld.Material.cp m ∧
     0.95 * Weld.Material.rho m <= Weld.Material.get_rho m T <= Weld.Material.rho m) ∧
  (∀ T T_crit T_melt k cp rho,
     0 <= k → 0 <= cp → 0 <= rho →
     k <= TIG.get_k T k T_crit T_melt <= 1.1 * k ∧
     cp <= TIG.get_cp T cp T_crit T_melt <= 1.2 * cp ∧
     0.95 * rho <= TIG.get_rho T rho T_crit T_melt <= rho).
Proof.
  split.
  - intros m T Hk Hcp Hrho.
    rewrite weld_get_k_tig, weld_get_cp_tig, weld_get_rho_tig.
    by apply tig_property_bounds.
  - intros. by apply tig_property_bounds.
Qed.

Lemma material_properties_bounded_witness :
  (Weld.Material.k mild_steel <= Weld.Material.get_k mild_steel 1500.0
     <= 1.1 * Weld.Material.k mild_steel ∧
   Weld.Material.cp mild_steel <= Weld.Material.get_cp mild_steel 1500.0
     <= 1.2 * Weld.Material.cp mild_steel ∧
   0.95 * Weld.Material.rho mild_steel <= Weld.Material.get_rho mild_steel 1500.0
     <= Weld.Material.rho mild_steel) ∧
  (45.0 <= TIG.get_k 1500.0 45.0 1273.0 1811.0 <= 1.1 * 45.0 ∧
   500.0 <= TIG.get_cp 1500.0 500.0 1273.0 1811.0 <= 1.2 * 500.0 ∧
   0.95 * 7850.0 <= TIG.get_rho 1500.0 7850.0 1273.0 1811.0 <= 7850.0).
Proof.
  split.
  - apply (proj1 material_properties_bounded mild_steel 1500.0); simpl; lra.
  - apply (proj2 material_properties_bounded 1500.0 1273.0 1811.0 45.0 500.0 7850.0);
      lra.
Defined.

(** X2: in both programs the conductivity and the specific heat never
    decrease when the temperature rises, and the density never increases,
    whatever the two thresholds. *)
Theorem material_properties_monotone :
  (∀ m T T',
     0 <= Weld.Material.k m → 0 <= Weld.Material.cp m → 0 <= Weld.Material.rho m →
     T <= T' →
     Weld.Material.get_k m T <= Weld.Material.get_k m T' ∧
     Weld.Material.get_cp m T <= Weld.Material.get_cp m T' ∧
     Weld.Material.get_rho m T' <= Weld.Material.get_rho m T) ∧
  (∀ T T' T_crit T_melt k cp rho,
     0 <= k → 0 <= cp → 0 <= rho → T <= T' →
     TIG.get_k T k T_crit T_melt <= TIG.get_k T' k T_crit T_melt ∧
     TIG.get_cp T cp T_crit T_melt <= TIG.get_cp T' cp T_crit T_melt ∧
     TIG.get_rho T' rho T_crit T_melt <= TIG.get_rho T rho T_crit T_melt).
Proof.
  split.
  - intros m T T' Hk Hcp Hrho HT.
    rewrite !weld_get_k_tig, !weld_get_cp_tig, !weld_get_rho_tig.
    by apply tig_property_monotone.
  - intros. by apply tig_property_monotone.
Qed.

Lemma material_properties_monotone_witness :
  (Weld.Material.get_k mild_steel 1300.0 <= Weld.Material.get_k mild_steel 1500.0 ∧
   Weld.Material.get_cp mild_steel 1300.0 <= Weld.Material.get_cp mild_steel 1500.0 ∧
   Weld.Material.get_rho mild_steel 1500.0 <= Weld.Material.get_rho mild_steel 1300.0) ∧
  (TIG.get_k 1300.0 45.0 1273.0 1811.0 <= TIG.get_k 1500.0 45.0 1273.0 1811.0 ∧
   TIG.get_cp 1300.0 500.0 1273.0 1811.0 <= TIG.get_cp 1500.0 500.0 1273.0 1811.0 ∧
   TIG.get_rho 1500.0 7850.0 1273.0 1811.0 <= TIG.get_rho 1300.0 7850.0 1273.0 1811.0).
Proof.
  split.
  - apply (proj1 material_properties_monotone mild_steel 1300.0 1500.0); simpl; lra.
  - apply (proj2 material_properties_monotone
             1300.0 1500.0 1273.0 1811.0 45.0 500.0 7850.0); lra.
Defined.



(** * Properties of the explicit solvers *)

(** ** A plate heated by one step

    The temperature of the centre cell after the first step of
    [weld_pass_config] and of [tig_pass_config]. *)

Lemma weld_pass_first_step I :
  ∃ sim, Weld.construct (weld_pass_config I) = Weld.Constructed sim ∧
    vec_get (Weld.T_ (weld_after 1 sim)) 4
    = Weld.clamp 293.0
        (293.0 + 0.02 * (0.6 * (0.75 * 25.0 * I) / (0.005 * 0.004 * PI) * exp (- 0.04)
                         / 0.006 / (7900.0 * 500.0))).
Proof.
  set (cfg := weld_pass_config I).
  assert (∃ sim, Weld.construct cfg = Weld.Constructed sim) as [sim Hc].
  { eexists. reflexivity. }
  exists sim. split; [done|].
  pose proof (WeldRun.construct_sizes _ _ Hc) as Hs.
  destruct (WeldRun.construct_inv _ _ Hc) as (_ & _ & Hnx & Hny & HN & Hcfg & HT & _).
  destruct (WeldCtor.construct_spacing _ _ Hc) as [Hdx Hdy].
  destruct (weld_construct_static _ _ Hc) as (Hm1 & Hm2 & Hmid & _).
  destruct (weld_construct_power _ _ Hc) as [_ HQ].
  destruct (WeldCtor.construct_mesh cfg sim 1 1 Hc) as [HX HY];
    [rewrite Hnx; cbn; lia|rewrite Hny; cbn; lia|].
  pose proof (WeldRun.step_interior sim (weld_clock 1 sim) (weld_Qvol 0 sim) 1 1 Hs)
    as Hstep.
  rewrite Hnx, Hny in Hstep. specialize (Hstep ltac:(cbn; lia) ltac:(cbn; lia)).
  cbn [cfg weld_pass_config Weld.SimulationConfig.nx] in Hstep.
  rewrite weld_after_S. change (weld_after 0 sim) with sim.
  apply vec_get_lookup. change (Z.to_nat 4) with (Z.to_nat (Weld.idx 3 1 1)).
  rewrite Hstep. f_equal.
  assert (Weld.SimulationConfig.T0 (Weld.config_ sim) = 293.0) as -> by (by rewrite Hcfg).
  f_equal.
  rewrite weld_interior_update_spec;
    [|done|rewrite Hnx; cbn; lia|rewrite Hny; cbn; lia].
  unfold weld_spec_update. cbv zeta.
  assert (∀ index, (0 ≤ index < 9)%Z → vec_get (Weld.T_ sim) index = 293.0) as HTv.
  { intros index Hi. rewrite HT, vec_get_vec_make; [done|]. rewrite HN. cbn. lia. }
  rewrite Hnx. cbn [cfg weld_pass_config Weld.SimulationConfig.nx].
  rewrite !HTv by (unfold Weld.idx; lia).
  assert (vec_get (Weld.X_ sim) (Weld.idx 3 1 1) = 0.075) as HX'.
  { rewrite Hnx in HX. cbn [cfg weld_pass_config Weld.SimulationConfig.nx] in HX.
    rewrite HX. cbn [cfg weld_pass_config Weld.SimulationConfig.Lx].
    change (3 - 1)%Z with 2%Z. lra. }
  assert (vec_get (Weld.Y_ sim) (Weld.idx 3 1 1) = 0.0) as HY'.
  { rewrite Hnx, Hny in HY. cbn [cfg weld_pass_config Weld.SimulationConfig.nx Weld.SimulationConfig.ny] in HY.
    rewrite HY. cbn [cfg weld_pass_config Weld.SimulationConfig.Ly].
    change (3 - 1)%Z with 2%Z. lra. }
  assert (Weld.material_at sim (Weld.idx 3 1 1) = Weld.mat_2_ sim) as ->.
  { unfold Weld.material_at. rewrite HX', Hmid.
    destruct (Rlt_dec _ _) as [Hlt|]; [|done]. exfalso.
    cbn [cfg weld_pass_config Weld.SimulationConfig.Lx] in Hlt. lra. }
  rewrite Hm2.
  cbn [cfg weld_pass_config Weld.SimulationConfig.mat_2_name
       Weld.SimulationConfig.mat_2_rho Weld.SimulationConfig.mat_2_cp
       Weld.SimulationConfig.mat_2_k Weld.SimulationConfig.mat_2_T_melt
       Weld.SimulationConfig.mat_2_T_crit].
  unfold Weld.Material.get_k, Weld.Material.get_rho, Weld.Material.get_cp,
    Weld.Material.make.
  cbn [Weld.Material.k Weld.Material.rho Weld.Material.cp Weld.Material.T_crit
       Weld.Material.T_melt].
  destruct (Rlt_dec 293.0 1273.0) as [_|Hn]; [|lra].
  assert (vec_get (weld_Qvol 0 sim) (Weld.idx 3 1 1)
          = 0.6 * (0.75 * 25.0 * I) / (0.005 * 0.004 * PI) * exp (- 0.04) / 0.006) as ->.
  { unfold weld_Qvol. change (weld_after 0 sim) with sim.
    pose proof (weld_Qvol_on sim (Weld.arc_position sim (weld_clock 1 sim)) 1 1 Hs) as HQv.
    rewrite Hnx, Hny in HQv.
    cbn [cfg weld_pass_config Weld.SimulationConfig.nx Weld.SimulationConfig.ny] in HQv.
    assert (Weld.arc_position sim (weld_clock 1 sim) = 0.074) as Harc.
    { unfold Weld.arc_position. rewrite weld_clock_linear, Hcfg. cbn. lra. }
    rewrite Harc in HQv |- *.
    rewrite HQv; [|rewrite Hcfg; cbn; lra|lia|lia].
    unfold Weld.goldak_cell. rewrite HX', HY'.
    unfold Weld.goldak_point. cbv zeta. rewrite HQ, Hcfg.
    assert ((Weld.adjust_efficiency cfg).1 = 0.75) as -> by reflexivity.
    cbn [cfg weld_pass_config Weld.SimulationConfig.set_eta
         Weld.SimulationConfig.y_arc Weld.SimulationConfig.ff
         Weld.SimulationConfig.fr Weld.SimulationConfig.thickness
         Weld.SimulationConfig.a Weld.SimulationConfig.b
         Weld.SimulationConfig.V Weld.SimulationConfig.I].
    destruct (Rge_dec (0.075 - 0.074) 0) as [_|Hn]; [|lra].
    replace (- (0.075 - 0.074) * (0.075 - 0.074) / (0.005 * 0.005)
             - (0.0 - 0.0) * (0.0 - 0.0) / (0.004 * 0.004)) with (- 0.04) by lra.
    done. }
  rewrite Hdx, Hdy, Hnx, Hny, Hcfg.
  cbn [cfg weld_pass_config Weld.SimulationConfig.set_eta
       Weld.SimulationConfig.nx Weld.SimulationConfig.ny
       Weld.SimulationConfig.Lx Weld.SimulationConfig.Ly Weld.SimulationConfig.dt].
  change (3 - 1)%Z with 2%Z.
  unfold spec_update. cbv zeta.
  replace (293.0 - 2 * 293.0 + 293.0) with 0 by lra.
  assert (effective_step 0.02 (0.15 / 2) (0.10 / 2) (16.3 / (7900.0 * 500.0)) = 0.02)
    as ->.
  { unfold effective_step. cbv zeta.
    replace (0.15 / 2) with 0.075 by lra. replace (0.10 / 2) with 0.05 by lra.
    replace (0.075 ^ 2) with 0.005625 by lra. replace (0.05 ^ 2) with 0.0025 by lra.
    replace (1 / 0.005625) with (1600 / 9) by lra.
    replace (1 / 0.0025) with 400 by lra.
    apply Rmin_left. apply Rle_div_r; lra. }
  replace (0 / (0.15 / 2) ^ 2) with 0 by (unfold Rdiv; ring).
  replace (0 / (0.10 / 2) ^ 2) with 0 by (unfold Rdiv; ring).
  by rewrite Rplus_0_r, Rmult_0_r, Rplus_0_l.
Qed.

Lemma exp_small_range x : x <= 0 → 1 + x <= exp x <= 1.
Proof.
  intros Hx. split; [apply exp_ineq1_le|].
  destruct (Req_dec x 0) as [->|Hne]; [rewrite exp_0; lra|].
  rewrite <- exp_0. left. apply exp_increasing. lra.
Qed.

Lemma weld_pass_heat_range I :
  0 <= I →
  0.113 * I
  <= 0.02 * (0.6 * (0.75 * 25.0 * I) / (0.005 * 0.004 * PI) * exp (- 0.04)
             / 0.006 / (7900.0 * 500.0))
  <= 0.159 * I.
Proof.
  intros HI. pose proof PI2_3_2 as H3. pose proof PI_4 as H4.
  pose proof (exp_small_range (- 0.04) ltac:(lra)) as He.
  set (e := exp (- 0.04)) in *.
  assert (0.96 * I <= I * e <= I) as Hx by nra.
  assert (0 < / PI) as Hinv by (apply Rinv_0_lt_compat; lra).
  assert (/ 4 <= / PI) as Hlo by (apply Rinv_le_contravar; lra).
  assert (/ PI <= / 3) as Hhi by (apply Rinv_le_contravar; lra).
  unfold Rdiv. rewrite Rinv_mult.
  replace (/ (0.005 * 0.004)) with 50000 by lra.
  replace (/ 0.006) with (500 / 3) by lra.
  replace (/ (7900.0 * 500.0)) with (1 / 3950000) by lra.
  set (p := / PI) in *.
  replace (0.02 * (0.6 * (0.75 * 25.0 * I) * (50000 * p) * e * (500 / 3)
                   * (1 / 3950000)))
    with (225 / 474 * ((I * e) * p)) by nra.
  set (x := I * e) in *.
  assert (x * / 4 <= x * p <= x * / 3) as Hxp by nra.
  nra.
Qed.

(** After the first step of that configuration the centre cell is heated. *)
Lemma weld_pass_centre I :
  0 <= I <= 29000 →
  ∃ sim, Weld.construct (weld_pass_config I) = Weld.Constructed sim ∧
    293.0 + 0.113 * I <= vec_get (Weld.T_ (weld_after 1 sim)) 4 <= 293.0 + 0.159 * I ∧
    vec_get (Weld.T_max_ (weld_after 1 sim)) 4 = vec_get (Weld.T_ (weld_after 1 sim)) 4.
Proof.
  intros HI. destruct (weld_pass_first_step I) as (sim & Hc & HT).
  exists sim. split; [done|].
  pose proof (weld_pass_heat_range I ltac:(lra)) as Hh.
  set (h := 0.02 * _) in *.
  assert (293.0 + 0.113 * I <= vec_get (Weld.T_ (weld_after 1 sim)) 4
          <= 293.0 + 0.159 * I) as Hr.
  { rewrite HT. clearbody h.
    destruct (WeldRun.clamp_cases 293.0 (293.0 + h)) as [[Hgt ->]|[(_ & Hlt & ->)|[_ ->]]];
      unfold Weld.T_MAX_REASONABLE in *; lra. }
  split; [done|].
  pose proof (WeldRun.construct_sizes _ _ Hc) as Hs.
  destruct (WeldRun.construct_inv _ _ Hc) as (_ & _ & _ & _ & HN & _ & _ & HTm).
  rewrite weld_after_S at 1.
  rewrite weld_step_peak;
    [|by apply weld_after_sizes|change (weld_after 0 sim) with sim; rewrite HN; cbn; lia].
  rewrite <- weld_after_S. change (weld_after 0 sim) with sim.
  rewrite HTm, vec_get_vec_make by (rewrite HN; cbn; lia).
  cbn [weld_pass_config Weld.SimulationConfig.T0].
  apply Rmax_right. lra.
Qed.

(** With a current of 15 kA the centre cell is fused after the first
    step. *)
Lemma weld_pass_fused :
  ∃ sim, Weld.construct (weld_pass_config 15000.0) = Weld.Constructed sim ∧
    Weld.T_melt_ (weld_after 1 sim) <= vec_get (Weld.T_max_ (weld_after 1 sim)) 4.
Proof.
  destruct (weld_pass_centre 15000.0) as (sim & Hc & [Hlo Hhi] & Hpk); [lra|].
  exists sim. split; [exact Hc|].
  change (Weld.T_melt_ (weld_after 1 sim)) with (Weld.T_melt_ sim).
  destruct (weld_construct_static _ _ Hc) as (_ & _ & _ & HTmelt & _).
  rewrite HTmelt, Hpk.
  cbn [weld_pass_config Weld.SimulationConfig.mat_1_T_melt
       Weld.SimulationConfig.mat_2_T_melt].
  lra.
Qed.

Lemma tig_pass_first_step I :
  ∃ s, TIG.construct (tig_pass_config I) = TIG.Constructed s ∧
    vec_get (TIG.T (tig_after 1 s)) 4
    = 293.0 + 0.02 *
        (TIG.goldak_flux (0.75 * 25.0 * I) 0.004 0.003 0.003 0.008 0.6 1.4
           (0.075 - (-0.006 + 4.0 * (1 * 0.02))) (0 - 0.0)
         / (7900.0 * 500.0)).
Proof.
  set (cfg := tig_pass_config I).
  destruct (tig_construct_succeeds cfg) as [s Hc]; [cbn; lia|].
  exists s. split; [done|].
  destruct (TIGCtor.tig_construct_inv _ _ Hc)
    as (Hcfg & HN & Hdx & Hdy & Hmid & HT & _ & Hs & HXY).
  set (s1 := tig_source_step 0 s).
  destruct (tig_source_step_fields 0 s)
    as (Hc1 & HN1 & Hdx1 & Hdy1 & Hmid1 & HX1 & HY1 & HT1).
  fold s1 in Hc1, HN1, Hdx1, Hdy1, Hmid1, HX1, HY1, HT1.
  change (tig_after 0 s) with s in *.
  assert (TIGFacts.sizes_ok s1) as Hs1 by (by apply TIGSteps.apply_heat_source_sizes).
  assert (vec_get (TIG.T (tig_after 1 s)) 4 = tig_nominal_update s1 4) as ->.
  { apply vec_get_lookup.
    pose proof (tig_interior_update_nominal s1 1 1 Hs1) as H.
    rewrite Hc1, Hcfg in H. apply H; cbn; lia. }
  assert (∀ idx, (0 ≤ idx < 9)%Z → vec_get (TIG.T s1) idx = 293.0) as HTv.
  { intros idx Hidx. rewrite HT1, HT, vec_get_vec_make; [done|]. rewrite HN. cbn. lia. }
  destruct (HXY 1%Z 1%Z) as [HXv HYv]; [cbn; lia..|].
  assert (vec_get (TIG.X s) 4 = 0.075) as HX.
  { erewrite vec_get_lookup by exact HXv.
    rewrite Hdx. cbn. change (3 - 1)%Z with 2%Z. lra. }
  assert (vec_get (TIG.Y s) 4 = 0) as HY.
  { erewrite vec_get_lookup by exact HYv.
    rewrite Hdy. cbn. change (3 - 1)%Z with 2%Z. lra. }
  assert (vec_get (TIG.Q_vol s1) 4
          = TIG.goldak_flux (0.75 * 25.0 * I) 0.004 0.003 0.003 0.008 0.6 1.4
              (0.075 - (-0.006 + 4.0 * (1 * 0.02))) (0 - 0.0)) as HQ.
  { assert (TIGSteps.arc_position s (IZR (Z.of_nat 1) * TIG.TIGConfig.dt (TIG.config s))
            <= TIG.TIGConfig.Lx (TIG.config s)) as Hon.
    { unfold TIGSteps.arc_position. rewrite Hcfg. cbn.
      change (Z.of_nat 1) with 1%Z. lra. }
    destruct (TIGSteps.apply_heat_source_on s _ 1 1 Hs Hon) as (_ & _ & HQv);
      [rewrite Hcfg; cbn; lia..|].
    unfold s1, tig_source_step. change (tig_after 0 s) with s.
    rewrite Hcfg in HQv |- *.
    erewrite vec_get_lookup by exact HQv.
    unfold TIGSteps.flux_at, TIGSteps.Q_total, TIGSteps.arc_position.
    rewrite Hcfg. cbn -[TIG.goldak_flux]. fold cfg.
    change (1 * 3 + 1)%Z with 4%Z. rewrite HX, HY. done. }
  unfold tig_nominal_update, nominal_update.
  unfold TIGSteps.k_of, TIGSteps.rho_of, TIGSteps.cp_of.
  rewrite Hc1, Hcfg, Hmid1, Hmid, Hdx1, Hdx, Hdy1, Hdy, HX1, HX, HQ.
  rewrite !HTv by (cbn; lia).
  destruct (Rlt_dec 0.075 _) as [Hlt|_]; [exfalso; cbn in Hlt; lra|].
  unfold TIG.get_k, TIG.get_rho, TIG.get_cp.
  cbn [TIG.TIGConfig.mat_2_k TIG.TIGConfig.mat_2_rho TIG.TIGConfig.mat_2_cp
       TIG.TIGConfig.mat_2_T_crit TIG.TIGConfig.mat_2_T_melt cfg tig_pass_config
       TIG.TIGConfig.dt TIG.TIGConfig.Lx TIG.TIGConfig.Ly TIG.TIGConfig.nx
       TIG.TIGConfig.ny].
  destruct (Rlt_dec 293.0 1273.0) as [_|Hn]; [|lra].
  replace (293.0 - 2 * 293.0 + 293.0) with 0 by lra.
  replace (0 / (0.15 / IZR (3 - 1)) ^ 2) with 0 by (unfold Rdiv; ring).
  replace (0 / (0.10 / IZR (3 - 1)) ^ 2) with 0 by (unfold Rdiv; ring).
  by rewrite Rplus_0_r, Rmult_0_r, Rplus_0_l.
Qed.

Lemma PI_sqrt_PI_ge_5 : 5.1 <= PI * sqrt PI.
Proof.
  pose proof PI2_3_2 as H3.
  assert (1.7 <= sqrt PI) as Hs.
  { replace 1.7 with (sqrt (1.7 * 1.7)) by (apply sqrt_square; lra).
    apply sqrt_le_1; lra. }
  nra.
Qed.

Lemma tig_pass_heat_range I :
  0 <= I →
  0.79 * I
  <= 0.02 * (TIG.goldak_flux (0.75 * 25.0 * I) 0.004 0.003 0.003 0.008 0.6 1.4
               (0.075 - (-0.006 + 4.0 * (1 * 0.02))) (0 - 0.0)
             / (7900.0 * 500.0))
  <= 1.87 * I.
Proof.
  intros HI. unfold TIG.goldak_flux. cbv zeta.
  destruct (Rge_dec _ _) as [_|Hn]; [|lra].
  set (arg := - 3.0 * _).
  assert (- (1 / 3) <= arg <= 0) as Harg by (unfold arg; lra).
  assert (2 / 3 <= exp arg <= 1) as He
    by (pose proof (exp_small_range arg ltac:(lra)); lra).
  clearbody arg. set (e := exp arg) in *. clearbody e. clear arg Harg.
  pose proof PI_sqrt_PI_le_8 as H8. pose proof PI_sqrt_PI_ge_5 as H5.
  replace (0.004 * 0.003 * 0.003 * PI * sqrt PI)
    with (0.000000036 * (PI * sqrt PI)) by lra.
  set (w := PI * sqrt PI) in *. clearbody w.
  assert (0 < / w) as Hinv by (apply Rinv_0_lt_compat; lra).
  assert (/ 8 <= / w) as Hlo by (apply Rinv_le_contravar; lra).
  assert (/ w <= / 5.1) as Hhi by (apply Rinv_le_contravar; lra).
  unfold Rdiv. rewrite Rinv_mult.
  replace (/ 0.000000036) with (1000000000 / 36) by lra.
  replace (/ (7900.0 * 500.0)) with (1 / 3950000) by lra.
  set (p := / w) in *.
  replace (0.02 * (6.0 * 0.6 * (0.75 * 25.0 * I) * (1000000000 / 36 * p) * e
                   * (1 / 3950000)))
    with (7500 / 790 * ((I * e) * p)) by nra.
  assert (2 / 3 * I <= I * e <= I) as Hx by nra.
  set (x := I * e) in *.
  assert (x * / 8 <= x * p <= x * / 5.1) as Hxp by nra.
  lra.
Qed.

Lemma tig_run_boundary cfg s n i j :
  TIG.construct cfg = TIG.Constructed s →
  (0 ≤ i < TIG.TIGConfig.nx cfg)%Z → (0 ≤ j < TIG.TIGConfig.ny cfg)%Z →
  (i = 0 ∨ i = TIG.TIGConfig.nx cfg - 1 ∨ j = 0 ∨ j = TIG.TIGConfig.ny cfg - 1)%Z →
  TIG.T (tig_after (S n) s) !! Z.to_nat (j * TIG.TIGConfig.nx cfg + i)
  = Some (TIG.TIGConfig.T0 cfg).
Proof.
  intros Hc Hi Hj Hb.
  destruct (TIGCtor.tig_construct_inv _ _ Hc) as (Hcfg & _ & _ & _ & _ & _ & _ & Hs & _).
  rewrite tig_after_S.
  destruct (tig_before_step_fields n s) as (Hc' & _).
  rewrite <- Hcfg, <- Hc'. rewrite <- Hcfg, <- Hc' in Hi, Hj, Hb.
  apply TIGRun.time_step_boundary; [|done..].
  by apply tig_before_step_sizes.
Qed.

(** ** What a configuration of moderate size provides *)

Lemma weld_well_posed_positive c :
  weld_well_posed c →
  weld_config_positive c ∧
  0 < Weld.SimulationConfig.Lx c ∧ 0 < Weld.SimulationConfig.Ly c ∧
  0 < Weld.SimulationConfig.v_weld c ∧ 0 < Weld.SimulationConfig.dt c.
Proof.
  intros (Hs & _). unfold weld_config_positive.
  repeat (apply Forall_cons in Hs as [? Hs]). unfold sizeable in *.
  repeat split; lra.
Qed.

Lemma tig_well_posed_positive c :
  tig_well_posed c →
  tig_materials_positive c ∧
  0 < TIG.TIGConfig.Lx c ∧ 0 < TIG.TIGConfig.Ly c ∧ 0 < TIG.TIGConfig.dt c ∧
  (2 ≤ TIG.TIGConfig.nx c)%Z ∧ (2 ≤ TIG.TIGConfig.ny c)%Z.
Proof.
  intros (Hs & _ & Hnx & Hny & _). unfold tig_materials_positive.
  repeat (apply Forall_cons in Hs as [? Hs]). unfold sizeable in *.
  repeat split; (lra || lia).
Qed.

Lemma tig_construct_spacing cfg s :
  TIG.construct cfg = TIG.Constructed s → tig_well_posed cfg →
  TIG.dx s ≠ 0 ∧ TIG.dy s ≠ 0.
Proof.
  intros Hc (_ & HL & HLy & _ & Hnx & Hny)%tig_well_posed_positive.
  destruct (TIGCtor.tig_construct_inv _ _ Hc) as (_ & _ & -> & -> & _).
  assert (∀ L n, 0 < L → (2 ≤ n)%Z → L / IZR (n - 1) ≠ 0) as Hnz.
  { intros L n HL' Hn. assert (1 <= IZR (n - 1)) by (apply IZR_le; lia).
    assert (0 < L / IZR (n - 1)); [|lra]. apply Rdiv_lt_0_compat; lra. }
  split; by apply Hnz.
Qed.

(** ** The update and the bounds of the field *)

(** The five temperatures that the update of the interior cell [(i, j)]
    reads. *)
Definition weld_stencil (sim : Weld.WeldingSimulation) (i j : Z) : list R :=
  [ vec_get (Weld.T_ sim) (Weld.idx (Weld.nx_ sim) i j);
    vec_get (Weld.T_ sim) (Weld.idx (Weld.nx_ sim) (i - 1) j);
    vec_get (Weld.T_ sim) (Weld.idx (Weld.nx_ sim) (i + 1) j);
    vec_get (Weld.T_ sim) (Weld.idx (Weld.nx_ sim) i (j - 1));
    vec_get (Weld.T_ sim) (Weld.idx (Weld.nx_ sim) i (j + 1)) ].


(** A temperature field on a 4 x 4 grid: ambient on the boundary, four
    different temperatures inside. *)
Definition sample_field : list R :=
  [293.0; 293.0; 293.0; 293.0;
   293.0; 400.0; 350.0; 293.0;
   293.0; 320.0; 300.0; 293.0;
   293.0; 293.0; 293.0; 293.0].





Lemma tig_default_stable s :
  TIG.dx s = 0.15 / IZR (151 - 1) → TIG.dy s = 0.10 / IZR (101 - 1) →
  TIG.dx s ≠ 0 ∧ TIG.dy s ≠ 0 ∧
  2 * (0.02 * (45.0 / (7850.0 * 500.0) * (1 / TIG.dx s ^ 2 + 1 / TIG.dy s ^ 2))) <= 1 ∧
  2 * (0.02 * (16.3 / (7900.0 * 500.0) * (1 / TIG.dx s ^ 2 + 1 / TIG.dy s ^ 2))) <= 1.
Proof.
  intros -> ->. change (151 - 1)%Z with 150%Z. change (101 - 1)%Z with 100%Z.
  replace (0.15 / 150) with 0.001 by lra. replace (0.10 / 100) with 0.001 by lra.
  replace (0.001 ^ 2) with 0.000001 by lra.
  replace (1 / 0.000001) with 1000000 by lra.
  repeat split; lra.
Qed.


(** X7: on a configuration without a zero divisor and of moderate size whose
    time step satisfies the stability bound, cpp-weld keeps, once the arc
    has passed the end of the plate, every bound [M >= T0] on the
    temperatures of the grid. *)
Theorem tig_cooling_keeps_bound cfg s n k M :
  TIG.construct cfg = TIG.Constructed s →
  tig_well_posed cfg →
  tig_stable cfg (TIG.dx s) (TIG.dy s) →
  0 <= TIG.TIGConfig.v_weld cfg →
  TIG.TIGConfig.T0 cfg <= M →
  TIG.TIGConfig.Lx cfg
    < TIG.TIGConfig.x_start cfg
      + TIG.TIGConfig.v_weld cfg * (IZR (Z.of_nat (S n)) * TIG.TIGConfig.dt cfg) →
  field_le (TIG.TIGConfig.nx cfg) (TIG.TIGConfig.ny cfg) (TIG.T (tig_after n s)) M →
  field_le (TIG.TIGConfig.nx cfg) (TIG.TIGConfig.ny cfg)
    (TIG.T (tig_after (n + k) s)) M.
Proof.
  intros Hc Hwp Hst Hv HT0 Harc HM.
  destruct (tig_construct_spacing _ _ Hc Hwp) as [Hdx Hdy].
  destruct (tig_well_posed_positive _ Hwp) as (Hpos & _ & _ & Hdt & _).
  apply (tig_run_upper cfg s); try done. lra.
Qed.

Lemma tig_cooling_keeps_bound_witness :
  ∃ s, TIG.construct (tig_pass_config 150.0) = TIG.Constructed s ∧
       411 <= vec_get (TIG.T (tig_after 1 s)) 4 ∧
       field_le 3 3 (TIG.T (tig_after (1 + 2) s)) 600.
Proof.
  destruct (tig_pass_first_step 150.0) as (s & Hc & HT).
  pose proof (tig_pass_heat_range 150.0 ltac:(lra)) as Hh.
  exists s. split; [exact Hc|]. split; [lra|].
  destruct (TIGCtor.tig_construct_inv _ _ Hc) as (_ & _ & Hdx0 & Hdy0 & _).
  destruct (tig_config_3x3_stable s Hdx0 Hdy0) as (_ & _ & H1 & H2).
  apply (tig_cooling_keeps_bound (tig_pass_config 150.0) s 1%nat 2%nat 600).
  - exact Hc.
  - apply tig_pass_config_well_posed. unfold moderate. lra.
  - split; [exact H1|exact H2].
  - unfold tig_pass_config. simpl. lra.
  - unfold tig_pass_config. simpl. lra.
  - unfold tig_pass_config. simpl. change (Z.of_nat 2) with 2%Z. lra.
  - intros i j Hi Hj.
    cbn [tig_pass_config TIG.TIGConfig.nx TIG.TIGConfig.ny] in Hi, Hj.
    destruct (decide (i = 1 ∧ j = 1)%Z) as [[-> ->]|Hb].
    + change (Weld.idx _ 1 1) with 4%Z. lra.
    + assert (i = 0 ∨ i = TIG.TIGConfig.nx (tig_pass_config 150.0) - 1 ∨
              j = 0 ∨ j = TIG.TIGConfig.ny (tig_pass_config 150.0) - 1)%Z
        as Hedge by (cbn [tig_pass_config TIG.TIGConfig.nx TIG.TIGConfig.ny]; lia).
      change (vec_get (TIG.T (tig_after 1 s))
                (j * TIG.TIGConfig.nx (tig_pass_config 150.0) + i) <= 600).
      rewrite (vec_get_lookup _ _ _
                 (tig_run_boundary (tig_pass_config 150.0) s 0 i j Hc Hi Hj Hedge)).
      simpl. lra.
Defined.

(** * Properties of the output of [run] *)

(** The number of steps for the default plate, start, speed and step. *)
Lemma weld_nt_default config sim :
  Weld.construct config = Weld.Constructed sim →
  Weld.SimulationConfig.Lx config = 0.15 →
  Weld.SimulationConfig.x_start config = 0.02 →
  Weld.SimulationConfig.v_weld config = 0.006 →
  Weld.SimulationConfig.dt config = 0.02 →
  Weld.nt_ sim = 1584%Z.
Proof.
  intros Hc HL Hx Hv Hdt.
  destruct (weld_construct_static _ _ Hc) as (_ & _ & _ & _ & _ & Hte & ->).
  rewrite Hte, HL, Hx, Hv, Hdt. apply ceil_int_unique. split; lra.
Qed.

Lemma weld_output_run_some config sim :
  Weld.construct config = Weld.Constructed sim →
  Weld.SimulationConfig.Lx config = 0.15 →
  Weld.SimulationConfig.x_start config = 0.02 →
  Weld.SimulationConfig.v_weld config = 0.006 →
  Weld.SimulationConfig.dt config = 0.02 →
  Weld.nt_ sim = 1584%Z ∧
  ∀ n, is_Some (WeldOutput.run_steps n (weld_output_init sim)).
Proof.
  intros Hc HL Hx Hv Hdt.
  pose proof (weld_nt_default _ _ Hc HL Hx Hv Hdt) as Hnt. split; [done|].
  intros n. apply weld_output_steps_defined. right. simpl. by rewrite Hnt.
Qed.

(** X8: the time loop of [run] evaluates [step % (nt_ / 10)] in its first
    iteration, so [run] divides by zero exactly when the number of steps
    [nt_] is between 1 and 9; for every other [nt_] the loop runs to its
    end. *)
Theorem weld_progress_division_by_zero sim :
  WeldOutput.run sim = None ↔ (1 ≤ Weld.nt_ sim ≤ 9)%Z.
Proof.
  unfold WeldOutput.run. fold (weld_output_init sim).
  pose proof (weld_output_steps_defined (Z.to_nat (Weld.nt_ sim)) (weld_output_init sim))
    as Hdef.
  simpl in Hdef.
  assert (Z.quot (Weld.nt_ sim) 10 = 0%Z ↔ (-10 < Weld.nt_ sim < 10)%Z) as Hq.
  { rewrite Z.quot_small_iff by lia. lia. }
  destruct (WeldOutput.run_steps _ _) as [st|].
  - split; [done|]. intros Hnt. exfalso. destruct Hdef as [Hd _].
    destruct Hd as [Hz|Hnz]; [eauto|lia|]. apply Hnz, Hq. lia.
  - split; [|done]. intros _.
    destruct (Z_le_gt_dec (Weld.nt_ sim) 0) as [Hle|Hgt].
    + destruct Hdef as [_ Hd]. destruct Hd as [? ?]; [left; lia|done].
    + destruct (Z_le_gt_dec 10 (Weld.nt_ sim)) as [Hge|Hlt]; [|lia].
      destruct Hdef as [_ Hd]. destruct Hd as [? ?]; [|done].
      right. rewrite Hq. lia.
Qed.

(** X9: when [run] reaches the end of its loop, the object is in the state
    that the thermal steps alone produce, [time_history_] holds the times
    [dt, 2 dt, ..., nt_ dt], and the history of each of the three monitoring
    points holds the temperature of its cell after each step, in order. *)
Theorem weld_monitoring_histories sim st :
  WeldOutput.run sim = Some st →
  WeldOutput.drv_state st = Weld.run sim ∧
  WeldOutput.time_history_ (WeldOutput.drv_monitoring st)
  = (λ m, INR (S m) * Weld.SimulationConfig.dt (Weld.config_ sim))
      <$> seq 0 (Z.to_nat (Weld.nt_ sim)) ∧
  WeldOutput.T_history_ (WeldOutput.drv_monitoring st)
  = (λ pt : Z * Z,
       (λ m, vec_get (Weld.T_ (weld_after (S m) sim))
               (Weld.idx (Weld.nx_ sim) pt.1 pt.2))
         <$> seq 0 (Z.to_nat (Weld.nt_ sim)))
      <$> WeldOutput.setupMonitoringPoints (Weld.nx_ sim) (Weld.ny_ sim).
Proof.
  unfold WeldOutput.run. fold (weld_output_init sim). intros H.
  split; [apply (weld_output_steps_state _ _ _ H)|].
  rewrite (weld_output_steps_monitoring _ _ _ H). unfold history_of.
  cbn [WeldOutput.time_history_ WeldOutput.T_history_].
  split.
  - apply list_fmap_ext. intros _ m _. apply weld_clock_linear.
  - apply list_fmap_ext. intros _ pt _. apply list_fmap_ext. intros _ m _.
    unfold probe.
    by destruct (weld_after_frame (S m) sim) as (_ & -> & _).
Qed.

Lemma weld_monitoring_histories_witness :
  ∃ sim st,
    Weld.construct (weld_config 3 3 293.0 150.0) = Weld.Constructed sim ∧
    WeldOutput.run sim = Some st ∧
    WeldOutput.drv_state st = Weld.run sim ∧
    WeldOutput.time_history_ (WeldOutput.drv_monitoring st)
    = (λ m, INR (S m) * Weld.SimulationConfig.dt (Weld.config_ sim))
        <$> seq 0 (Z.to_nat (Weld.nt_ sim)) ∧
    WeldOutput.T_history_ (WeldOutput.drv_monitoring st)
    = (λ pt : Z * Z,
         (λ m, vec_get (Weld.T_ (weld_after (S m) sim))
                 (Weld.idx (Weld.nx_ sim) pt.1 pt.2))
           <$> seq 0 (Z.to_nat (Weld.nt_ sim)))
        <$> WeldOutput.setupMonitoringPoints (Weld.nx_ sim) (Weld.ny_ sim).
Proof.
  eexists.
  match goal with |- ∃ st, _ = Weld.Constructed ?sim ∧ _ =>
    destruct (weld_output_run_some (weld_config 3 3 293.0 150.0) sim)
      as [Hnt Hsome]; [reflexivity|simpl; lra..|];
    destruct (Hsome (Z.to_nat (Weld.nt_ sim))) as [st Hst]
  end.
  exists st. split; [reflexivity|]. split; [exact Hst|].
  apply weld_monitoring_histories. exact Hst.
Defined.

(** X10: on a grid with at least one column and one row the three
    monitoring points of [setupMonitoringPoints] are cells of the grid, so
    [updateMonitoring] reads inside [T_]. *)
Theorem weld_monitoring_points_in_grid nx ny i j :
  (1 ≤ nx)%Z → (1 ≤ ny)%Z →
  (i, j) ∈ WeldOutput.setupMonitoringPoints nx ny →
  (0 ≤ i < nx)%Z ∧ (0 ≤ j < ny)%Z ∧ (0 ≤ Weld.idx nx i j < nx * ny)%Z.
Proof.
  intros Hnx Hny Hin.
  destruct (monitor_points_in_range nx ny i j Hnx Hny Hin) as [Hi Hj].
  split; [done|]. split; [done|]. unfold Weld.idx. nia.
Qed.

Lemma weld_monitoring_points_in_grid_witness :
  (0 ≤ 75 < 151)%Z ∧ (0 ≤ 50 < 101)%Z ∧ (0 ≤ Weld.idx 151 75 50 < 151 * 101)%Z.
Proof.
  apply (weld_monitoring_points_in_grid 151 101 75 50); [lia|lia|].
  apply elem_of_cons. right. apply elem_of_cons. left. reflexivity.
Defined.

(** X11: when [run] reaches the end of a loop of at least one step, the
    video frames it has exported are numbered 0, 1, 2, ... without gap or
    repetition; with [save_video_frames] there are
    [(nt_ - 1) / frame_interval + 1] of them and the last one shows the final
    time [nt_ dt], and without it there is none. *)
Theorem weld_video_frames sim st :
  (0 < Weld.nt_ sim)%Z →
  WeldOutput.run sim = Some st →
  frame_numbers (WeldOutput.drv_events st) = seqZ 0 (WeldOutput.frame_counter st) ∧
  WeldOutput.frame_counter st
  = (if Weld.SimulationConfig.save_video_frames (Weld.config_ sim)
     then (Weld.nt_ sim - 1) `div` WeldOutput.frame_interval (Weld.config_ sim) + 1
     else 0)%Z ∧
  (Weld.SimulationConfig.save_video_frames (Weld.config_ sim) = true →
   WeldOutput.ExportVideoFrame (WeldOutput.frame_counter st - 1)
     (IZR (Weld.nt_ sim) * Weld.SimulationConfig.dt (Weld.config_ sim))
   ∈ WeldOutput.drv_events st).
Proof.
  intros Hnt H. pose proof H as Hrun.
  unfold WeldOutput.run in H. fold (weld_output_init sim) in H.
  split; [apply (weld_output_frames_numbered _ _ _ H)|].
  destruct (Weld.SimulationConfig.save_video_frames (Weld.config_ sim)) eqn:Hsave.
  - destruct (weld_output_last_frame sim st Hnt Hsave Hrun) as [Hfc Hev].
    split; [done|]. intros _.
    rewrite weld_clock_linear, INR_IZR_INZ, Z2Nat.id in Hev by lia. done.
  - split; [|done]. apply (weld_output_no_frames sim _ st Hsave H).
Qed.

Lemma weld_video_frames_witness :
  ∃ sim st,
    Weld.construct
      (Weld.SimulationConfig.set_save_video_frames (weld_config 3 3 293.0 150.0) true)
    = Weld.Constructed sim ∧
    WeldOutput.run sim = Some st ∧
    frame_numbers (WeldOutput.drv_events st) = seqZ 0 (WeldOutput.frame_counter st) ∧
    WeldOutput.frame_counter st
    = (if Weld.SimulationConfig.save_video_frames (Weld.config_ sim)
       then (Weld.nt_ sim - 1) `div` WeldOutput.frame_interval (Weld.config_ sim) + 1
       else 0)%Z ∧
    (Weld.SimulationConfig.save_video_frames (Weld.config_ sim) = true →
     WeldOutput.ExportVideoFrame (WeldOutput.frame_counter st - 1)
       (IZR (Weld.nt_ sim) * Weld.SimulationConfig.dt (Weld.config_ sim))
     ∈ WeldOutput.drv_events st).
Proof.
  eexists.
  match goal with |- ∃ st, _ = Weld.Constructed ?sim ∧ _ =>
    destruct (weld_output_run_some
                (Weld.SimulationConfig.set_save_video_frames
                   (weld_config 3 3 293.0 150.0) true) sim)
      as [Hnt Hsome]; [reflexivity|simpl; lra..|];
    destruct (Hsome (Z.to_nat (Weld.nt_ sim))) as [st Hst]
  end.
  exists st. split; [reflexivity|]. split; [exact Hst|].
  apply weld_video_frames; [|exact Hst]. rewrite Hnt. lia.
Defined.

(** X12: when the number of steps is at most 21474836 (the progress line
    computes [100 * step] in [int]), the time step is not negative and the
    simulated time [nt_ * dt] is at most [2 * 10^9] seconds (the seconds of
    the file name are the clock converted to [int]), [run] exports no
    snapshot when [snapshot_time] is not positive, at most one snapshot in
    every case, and exactly one when [snapshot_time] is positive and at most
    [0.999] times the simulated time; the seconds in its file name are at
    least the whole seconds of [snapshot_time].  The step in which the
    snapshot is taken is left open: it depends on the clock, which the code
    accumulates in [double]. *)
Theorem weld_snapshot_once sim st :
  WeldOutput.run sim = Some st →
  (Weld.nt_ sim ≤ 21474836)%Z →
  0 <= Weld.SimulationConfig.dt (Weld.config_ sim) →
  IZR (Weld.nt_ sim) * Weld.SimulationConfig.dt (Weld.config_ sim) <= 2000000000 →
  (Weld.SimulationConfig.snapshot_time (Weld.config_ sim) <= 0 →
   snapshot_seconds (WeldOutput.drv_events st) = []) ∧
  (length (snapshot_seconds (WeldOutput.drv_events st)) ≤ 1)%nat ∧
  (0 < Weld.SimulationConfig.snapshot_time (Weld.config_ sim) →
   Weld.SimulationConfig.snapshot_time (Weld.config_ sim)
   <= 0.999 * (IZR (Weld.nt_ sim) * Weld.SimulationConfig.dt (Weld.config_ sim)) →
   ∃ k, snapshot_seconds (WeldOutput.drv_events st) = [k] ∧
        (trunc_int (Weld.SimulationConfig.snapshot_time (Weld.config_ sim)) ≤ k)%Z).
Proof.
  unfold WeldOutput.run. fold (weld_output_init sim). intros H _ Hdt Hb.
  pose proof (weld_output_snapshot sim _ st H) as Hs. cbv zeta in Hs.
  set (ts := Weld.SimulationConfig.snapshot_time (Weld.config_ sim)) in *.
  set (dt := Weld.SimulationConfig.dt (Weld.config_ sim)) in *.
  destruct (WeldOutput.snapshot_taken st).
  - destruct Hs as (Hts & m & Hm & Hge & Hlt & Hsn).
    split; [intros; lra|]. rewrite Hsn.
    split; [simpl; lia|]. intros _ _. eexists. split; [done|].
    apply trunc_int_mono; [lra|done].
  - destruct Hs as [Hsn Hlt]. split; [done|]. rewrite Hsn.
    split; [simpl; lia|]. intros Hts Hle. exfalso.
    assert (1 ≤ Weld.nt_ sim)%Z as Hnt.
    { destruct (Z_lt_le_dec (Weld.nt_ sim) 1) as [Hn|]; [|done].
      assert (IZR (Weld.nt_ sim) <= 0) by (apply IZR_le; lia). nra. }
    specialize (Hlt Hts (Z.to_nat (Weld.nt_ sim) - 1)%nat ltac:(lia)).
    rewrite weld_clock_linear in Hlt. fold dt in Hlt.
    replace (S (Z.to_nat (Weld.nt_ sim) - 1)) with (Z.to_nat (Weld.nt_ sim)) in Hlt
      by lia.
    rewrite INR_IZR_INZ, Z2Nat.id in Hlt by lia.
    assert (0 <= IZR (Weld.nt_ sim)) by (apply IZR_le; lia). nra.
Qed.

Lemma weld_snapshot_once_witness :
  ∃ sim st,
    Weld.construct
      (Weld.SimulationConfig.set_snapshot_time (weld_config 3 3 293.0 150.0) 5.0)
    = Weld.Constructed sim ∧
    WeldOutput.run sim = Some st ∧
    (length (snapshot_seconds (WeldOutput.drv_events st)) ≤ 1)%nat ∧
    ∃ k, snapshot_seconds (WeldOutput.drv_events st) = [k] ∧
         (trunc_int (Weld.SimulationConfig.snapshot_time (Weld.config_ sim)) ≤ k)%Z.
Proof.
  eexists.
  match goal with |- ∃ st, _ = Weld.Constructed ?sim ∧ _ =>
    destruct (weld_output_run_some
                (Weld.SimulationConfig.set_snapshot_time
                   (weld_config 3 3 293.0 150.0) 5.0) sim)
      as [Hnt Hsome]; [reflexivity|simpl; lra..|];
    destruct (Hsome (Z.to_nat (Weld.nt_ sim))) as [st Hst]
  end.
  exists st. split; [reflexivity|]. split; [exact Hst|].
  destruct (weld_snapshot_once _ st Hst) as (_ & Hlen & Hone).
  - rewrite Hnt. lia.
  - simpl. lra.
  - rewrite Hnt. simpl. lra.
  - split; [exact Hlen|]. apply Hone.
    + simpl. lra.
    + rewrite Hnt. simpl. lra.
Defined.

(** * Properties of the zones and of the statistics *)

(** X13: run by one thread, [computeZones] gives every cell one flag in each
    of its two vectors: the fusion flag is set exactly when the peak
    temperature of the cell is at least [T_melt_], the HAZ flag exactly when
    it is at least [T_crit_] and below [T_melt_], and no cell has both
    flags. *)
Theorem weld_zones_classify sim index :
  WeldFacts.sizes_ok sim → (0 ≤ index < Weld.N_ sim)%Z →
  ∃ (zones : list bool * list bool) (fusion HAZ : bool),
    WeldStats.computeZones 1 sim = Some zones ∧
    zones.1 !! Z.to_nat index = Some fusion ∧
    zones.2 !! Z.to_nat index = Some HAZ ∧
    (fusion = true ↔ Weld.T_melt_ sim <= vec_get (Weld.T_max_ sim) index) ∧
    (HAZ = true
     ↔ Weld.T_crit_ sim <= vec_get (Weld.T_max_ sim) index < Weld.T_melt_ sim) ∧
    fusion && HAZ = false.
Proof.
  intros Hs Hi. destruct (computeZones_lookup sim index Hs Hi) as (zones & Hz & Hf & Hh).
  exists zones. eexists _, _. split; [exact Hz|]. split; [exact Hf|]. split; [exact Hh|].
  split; [apply in_fusion_true|]. split; [apply in_HAZ_true|]. apply zones_disjoint.
Qed.

Lemma weld_zones_classify_witness :
  ∃ sim, Weld.construct (weld_pass_config 15000.0) = Weld.Constructed sim ∧
    Weld.T_melt_ (weld_after 1 sim) <= vec_get (Weld.T_max_ (weld_after 1 sim)) 4 ∧
    ∃ (zones : list bool * list bool) (fusion HAZ : bool),
      WeldStats.computeZones 1 (weld_after 1 sim) = Some zones ∧
      zones.1 !! Z.to_nat 4 = Some fusion ∧
      zones.2 !! Z.to_nat 4 = Some HAZ ∧
      (fusion = true
       ↔ Weld.T_melt_ (weld_after 1 sim) <= vec_get (Weld.T_max_ (weld_after 1 sim)) 4) ∧
      (HAZ = true
       ↔ Weld.T_crit_ (weld_after 1 sim) <= vec_get (Weld.T_max_ (weld_after 1 sim)) 4
         < Weld.T_melt_ (weld_after 1 sim)) ∧
      fusion && HAZ = false.
Proof.
  destruct weld_pass_fused as (sim & Hc & Hfused).
  exists sim. split; [exact Hc|]. split; [exact Hfused|].
  pose proof (WeldRun.construct_sizes _ _ Hc) as Hs.
  destruct (WeldRun.construct_inv _ _ Hc) as (_ & _ & _ & _ & HN & _).
  apply weld_zones_classify.
  - by apply weld_after_sizes.
  - change (Weld.N_ (weld_after 1 sim)) with (Weld.N_ sim). rewrite HN. cbn. lia.
Defined.

(** X14: the statistics printed by cpp-weld-2 on a peak field of [N_]
    cells, with [computeZones] run by one thread: the peak temperature is an
    element of [T_max_] that no element exceeds; each area is a number of
    cells times [dx_ * dy_] in square millimetres, the two numbers are not
    negative and together at most the number of cells; the fusion area is
    zero when the peak is below [T_melt_] and the HAZ area is zero when it
    is below [T_crit_].  Only on an empty field is there no result (the
    program dereferences [end()]). *)
Theorem weld_statistics sim :
  WeldFacts.sizes_ok sim →
  match WeldStats.printStatistics 1 sim with
  | None => Weld.T_max_ sim = []
  | Some st =>
      WeldStats.T_peak st ∈ Weld.T_max_ sim ∧
      (∀ x, x ∈ Weld.T_max_ sim → x <= WeldStats.T_peak st) ∧
      (WeldStats.T_peak st < Weld.T_melt_ sim → WeldStats.fusion_area_mm2 st = 0) ∧
      (WeldStats.T_peak st < Weld.T_crit_ sim → WeldStats.HAZ_area_mm2 st = 0) ∧
      ∃ fusion_count HAZ_count : Z,
        (0 ≤ fusion_count)%Z ∧ (0 ≤ HAZ_count)%Z ∧
        (fusion_count + HAZ_count ≤ Z.of_nat (length (Weld.T_max_ sim)))%Z ∧
        WeldStats.fusion_area_mm2 st
        = IZR fusion_count * (Weld.dx_ sim * Weld.dy_ sim) * 1e6 ∧
        WeldStats.HAZ_area_mm2 st
        = IZR HAZ_count * (Weld.dx_ sim * Weld.dy_ sim) * 1e6
  end.
Proof. apply printStatistics_spec. Qed.

Lemma weld_statistics_witness :
  ∃ sim, Weld.construct (weld_pass_config 15000.0) = Weld.Constructed sim ∧
    match WeldStats.printStatistics 1 (weld_after 1 sim) with
    | None => Weld.T_max_ (weld_after 1 sim) = []
    | Some st =>
        WeldStats.T_peak st ∈ Weld.T_max_ (weld_after 1 sim) ∧
        (∀ x, x ∈ Weld.T_max_ (weld_after 1 sim) → x <= WeldStats.T_peak st) ∧
        (WeldStats.T_peak st < Weld.T_melt_ (weld_after 1 sim) →
         WeldStats.fusion_area_mm2 st = 0) ∧
        (WeldStats.T_peak st < Weld.T_crit_ (weld_after 1 sim) →
         WeldStats.HAZ_area_mm2 st = 0) ∧
        ∃ fusion_count HAZ_count : Z,
          (0 ≤ fusion_count)%Z ∧ (0 ≤ HAZ_count)%Z ∧
          (fusion_count + HAZ_count
           ≤ Z.of_nat (length (Weld.T_max_ (weld_after 1 sim))))%Z ∧
          WeldStats.fusion_area_mm2 st
          = IZR fusion_count
            * (Weld.dx_ (weld_after 1 sim) * Weld.dy_ (weld_after 1 sim)) * 1e6 ∧
          WeldStats.HAZ_area_mm2 st
          = IZR HAZ_count
            * (Weld.dx_ (weld_after 1 sim) * Weld.dy_ (weld_after 1 sim)) * 1e6
    end.
Proof.
  destruct weld_pass_fused as (sim & Hc & _).
  exists sim. split; [exact Hc|].
  apply weld_statistics. apply weld_after_sizes.
  by apply (WeldRun.construct_sizes (weld_pass_config 15000.0)).
Defined.

(** X15: the analysis of cpp-weld, which counts the zones in one pass with
    [if / else if], and the statistics of cpp-weld-2, which count the flags
    of [computeZones] (run by one thread), give the same peak temperature
    and the same two areas on the same peak field with the same thresholds
    and spacings. *)
Theorem zone_statistics_agree sim s :
  length (Weld.T_max_ sim) = Z.to_nat (Weld.N_ sim) →
  length (TIG.T_max s) = Z.to_nat (TIG.N s) → (0 ≤ TIG.N s)%Z →
  Weld.T_max_ sim = TIG.T_max s →
  Weld.T_melt_ sim
  = (TIG.TIGConfig.mat_1_T_melt (TIG.config s)
     + TIG.TIGConfig.mat_2_T_melt (TIG.config s)) / 2.0 →
  Weld.T_crit_ sim
  = (TIG.TIGConfig.mat_1_T_crit (TIG.config s)
     + TIG.TIGConfig.mat_2_T_crit (TIG.config s)) / 2.0 →
  Weld.dx_ sim = TIG.dx s → Weld.dy_ sim = TIG.dy s →
  match WeldStats.printStatistics 1 sim, TIGStats.analyze_results s with
  | Some st, Some a =>
      WeldStats.T_peak st = TIGStats.peak_temp a ∧
      WeldStats.fusion_area_mm2 st = TIGStats.fusion_area_mm2 a ∧
      WeldStats.HAZ_area_mm2 st = TIGStats.haz_area_mm2 a
  | None, None => Weld.T_max_ sim = []
  | _, _ => False
  end.
Proof.
  intros Hl1 Hl2 HN HT Hm Hc Hdx Hdy.
  unfold WeldStats.printStatistics, TIGStats.analyze_results. cbv zeta.
  rewrite (computeZones_eq sim Hl1), (zone_counts_eq s _ _ Hl2 HN).
  rewrite <- Hm, <- Hc, <- Hdx, <- Hdy, <- HT.
  pose proof (max_element_spec (Weld.T_max_ sim)) as Hmax.
  destruct (max_element (Weld.T_max_ sim)) as [m|]; [|done].
  cbn [fst snd WeldStats.T_peak WeldStats.fusion_area_mm2 WeldStats.HAZ_area_mm2
       TIGStats.peak_temp TIGStats.peak_celsius TIGStats.fusion_area_mm2
       TIGStats.haz_area_mm2 TIGStats.total_area_mm2].
  repeat split; lra.
Qed.

(** A peak field on a 4 x 4 grid with one fused cell and two cells of the
    HAZ. *)
Definition sample_peak_field : list R :=
  [293.0; 293.0; 293.0; 293.0;
   293.0; 2000.0; 1500.0; 293.0;
   293.0; 1300.0; 400.0; 293.0;
   293.0; 293.0; 293.0; 293.0].

Lemma zone_statistics_agree_witness :
  ∃ sim s,
    Weld.construct (weld_config 4 4 293.0 150.0) = Weld.Constructed sim ∧
    TIG.construct (tig_config 4 4 293.0 150.0) = TIG.Constructed s ∧
    match WeldStats.printStatistics 1 (Weld.set_fields sim sample_peak_field sample_peak_field),
          TIGStats.analyze_results (TIG.set_fields s sample_peak_field sample_peak_field)
    with
    | Some st, Some a =>
        WeldStats.T_peak st = TIGStats.peak_temp a ∧
        WeldStats.fusion_area_mm2 st = TIGStats.fusion_area_mm2 a ∧
        WeldStats.HAZ_area_mm2 st = TIGStats.haz_area_mm2 a
    | None, None =>
        Weld.T_max_ (Weld.set_fields sim sample_peak_field sample_peak_field) = []
    | _, _ => False
    end.
Proof.
  eexists _, _. split; [reflexivity|]. split; [reflexivity|].
  apply zone_statistics_agree.
  - reflexivity.
  - reflexivity.
  - simpl. lia.
  - reflexivity.
  - reflexivity.
  - reflexivity.
  - match goal with
    | |- Weld.dx_ (Weld.set_fields ?sim _ _) = TIG.dx (TIG.set_fields ?s _ _) =>
        change (Weld.dx_ sim = TIG.dx s);
        rewrite (proj1 (WeldCtor.construct_spacing (weld_config 4 4 293.0 150.0) sim
                          eq_refl))
    end.
    reflexivity.
  - match goal with
    | |- Weld.dy_ (Weld.set_fields ?sim _ _) = TIG.dy (TIG.set_fields ?s _ _) =>
        change (Weld.dy_ sim = TIG.dy s);
        rewrite (proj2 (WeldCtor.construct_spacing (weld_config 4 4 293.0 150.0) sim
                          eq_refl))
    end.
    reflexivity.
Defined.

(** X16: in cpp-weld-2 the peak temperature of a boundary cell is [T0]
    after every number of steps. *)
Theorem weld_boundary_peak_ambient config sim n i j :
  Weld.construct config = Weld.Constructed sim →
  (0 ≤ i < Weld.SimulationConfig.nx config)%Z →
  (0 ≤ j < Weld.SimulationConfig.ny config)%Z →
  (i = 0 ∨ i = Weld.SimulationConfig.nx config - 1 ∨
   j = 0 ∨ j = Weld.SimulationConfig.ny config - 1)%Z →
  vec_get (Weld.T_max_ (weld_after n sim))
    (Weld.idx (Weld.SimulationConfig.nx config) i j)
  = Weld.SimulationConfig.T0 config.
Proof. apply weld_run_boundary_peak. Qed.

Lemma weld_boundary_peak_ambient_witness :
  ∃ sim, Weld.construct (weld_pass_config 150.0) = Weld.Constructed sim ∧
    vec_get (Weld.T_max_ (weld_after 2 sim)) (Weld.idx 3 0 1) = 293.0.
Proof.
  eexists. split; [reflexivity|].
  apply (weld_boundary_peak_ambient (weld_pass_config 150.0) _ 2%nat 0 1).
  - reflexivity.
  - simpl. lia.
  - simpl. lia.
  - by left.
Defined.

(** X17: in cpp-weld-2, on a configuration without a zero divisor and of
    moderate size, with [computeZones] run by one thread, the fusion zone
    only grows along the run: a cell flagged as fused after [n] steps is
    flagged as fused after every later step, and a cell of the HAZ stays in
    the HAZ or becomes fused. *)
Theorem weld_fusion_zone_grows config sim n k index :
  Weld.construct config = Weld.Constructed sim → weld_well_posed config →
  (0 ≤ index < Weld.N_ sim)%Z →
  ∃ zones zones' : list bool * list bool,
    WeldStats.computeZones 1 (weld_after n sim) = Some zones ∧
    WeldStats.computeZones 1 (weld_after (n + k) sim) = Some zones' ∧
    (zones.1 !! Z.to_nat index = Some true →
     zones'.1 !! Z.to_nat index = Some true) ∧
    (zones.2 !! Z.to_nat index = Some true →
     zones'.1 !! Z.to_nat index = Some true ∨
     zones'.2 !! Z.to_nat index = Some true).
Proof.
  intros Hc _ Hi.
  destruct (weld_zone_flags config sim n index Hc Hi) as (z & Hz & Hf & Hh).
  destruct (weld_zone_flags config sim (n + k) index Hc Hi) as (z' & Hz' & Hf' & Hh').
  destruct (weld_run_peak config sim n k index Hc Hi) as [Hle _].
  exists z, z'. split; [exact Hz|]. split; [exact Hz'|].
  rewrite Hf, Hh, Hf', Hh'. split.
  - intros [= E]. f_equal. apply in_fusion_true in E. apply in_fusion_true. lra.
  - intros [= E]. apply in_HAZ_true in E.
    destruct (Rlt_dec (vec_get (Weld.T_max_ (weld_after (n + k) sim)) index)
                (Weld.T_melt_ sim)) as [Hlt|Hge].
    + right. f_equal. apply in_HAZ_true. lra.
    + left. f_equal. apply in_fusion_true. lra.
Qed.

Lemma weld_fusion_zone_grows_witness :
  ∃ sim, Weld.construct (weld_pass_config 15000.0) = Weld.Constructed sim ∧
    ∃ zones zones' : list bool * list bool,
      WeldStats.computeZones 1 (weld_after 1 sim) = Some zones ∧
      WeldStats.computeZones 1 (weld_after (1 + 2) sim) = Some zones' ∧
      zones.1 !! Z.to_nat 4 = Some true ∧
      zones'.1 !! Z.to_nat 4 = Some true.
Proof.
  destruct weld_pass_fused as (sim & Hc & Hfused).
  exists sim. split; [exact Hc|].
  destruct (WeldRun.construct_inv _ _ Hc) as (_ & _ & _ & _ & HN & _).
  assert (0 ≤ 4 < Weld.N_ sim)%Z as Hi by (rewrite HN; cbn; lia).
  destruct (weld_fusion_zone_grows (weld_pass_config 15000.0) sim 1%nat 2%nat 4 Hc
              (weld_pass_config_well_posed 15000.0 ltac:(unfold moderate; lra)) Hi)
    as (z & z' & Hz & Hz' & Hf & _).
  exists z, z'. split; [exact Hz|]. split; [exact Hz'|].
  assert (z.1 !! Z.to_nat 4 = Some true) as H1.
  { destruct (weld_zone_flags (weld_pass_config 15000.0) sim 1%nat 4 Hc Hi)
      as (z1 & Hz1 & Hf1 & _).
    rewrite Hz1 in Hz. injection Hz as <-. rewrite Hf1.
    f_equal. apply in_fusion_true. exact Hfused. }
  split; [exact H1|]. exact (Hf H1).
Defined.

(** * Properties of the command line of cpp-weld-2 *)

(** A conversion that accepts the one string ["200"], and one that accepts
    none. *)
Definition stod_sample (s : string) : option R :=
  if String.eqb s "200" then Some 200 else None.

Definition stoi_sample (s : string) : option Z := None.

(** X18: the argument loop works through the command line from left to
    right: when a first part of the arguments is accepted and yields a
    configuration, the loop on the whole command line continues on the rest
    from that configuration. *)
Theorem parse_arguments_concat stod stoi args1 args2 config config1 :
  WeldMain.parse_arguments stod stoi args1 config = WeldMain.Parsed config1 →
  WeldMain.parse_arguments stod stoi (args1 ++ args2) config
  = WeldMain.parse_arguments stod stoi args2 config1.
Proof. apply parse_arguments_app. Qed.

Lemma parse_arguments_concat_witness :
  WeldMain.parse_arguments stod_sample stoi_sample
    (["--current"; "200"; "--no-gas"] ++ ["--save_video"]) Weld.SimulationConfig.default
  = WeldMain.parse_arguments stod_sample stoi_sample ["--save_video"]
      (Weld.SimulationConfig.set_use_gas
         (Weld.SimulationConfig.set_I Weld.SimulationConfig.default 200) false).
Proof.
  apply (parse_arguments_concat stod_sample stoi_sample
           ["--current"; "200"; "--no-gas"] ["--save_video"]).
  reflexivity.
Defined.

(** X19: no option of the command line assigns the plate, the grid, the
    start and the shape of the source, the ambient temperature, the time
    step, the material names and critical temperatures, [eta], [h_conv] or
    [theta]: an accepted command line leaves them as they were. *)
Theorem parse_arguments_keeps_grid stod stoi args config config' :
  WeldMain.parse_arguments stod stoi args config = WeldMain.Parsed config' →
  fixed_members config' = fixed_members config.
Proof. apply parse_arguments_fixed. Qed.

Lemma parse_arguments_keeps_grid_witness :
  fixed_members
    (Weld.SimulationConfig.set_use_gas
       (Weld.SimulationConfig.set_I Weld.SimulationConfig.default 200) false)
  = fixed_members Weld.SimulationConfig.default.
Proof.
  apply (parse_arguments_keeps_grid stod_sample stoi_sample
           ["--current"; "200"; "--no-gas"]).
  reflexivity.
Defined.

(** X20: when [main] returns from inside the argument loop, the exit code is
    0 or 1, and it is 0 only if [--help] is among the arguments. *)
Theorem parse_arguments_exit_codes stod stoi args config code :
  WeldMain.parse_arguments stod stoi args config = WeldMain.Return code →
  (code = 0%Z ∧ "--help" ∈ args) ∨ code = 1%Z.
Proof. apply parse_arguments_return. Qed.

Lemma parse_arguments_exit_codes_witness :
  (0%Z = 0%Z ∧ "--help" ∈ ["--no-gas"; "--help"; "--bogus"]) ∨ 0%Z = 1%Z.
Proof.
  apply (parse_arguments_exit_codes stod_sample stoi_sample
           ["--no-gas"; "--help"; "--bogus"] Weld.SimulationConfig.default 0).
  reflexivity.
Defined.

(** X21: when [--help] is among the arguments and neither [std::stod] nor
    [std::stoi] converts the string [--help], the argument loop never runs to
    its end and [main] never reaches the simulation. *)
Theorem help_never_simulates stod stoi args :
  stod "--help" = None → stoi "--help" = None → "--help" ∈ args →
  (∀ config config',
     WeldMain.parse_arguments stod stoi args config ≠ WeldMain.Parsed config') ∧
  (∀ final, WeldMain.main stod stoi args ≠ WeldMain.Simulated final).
Proof.
  intros Hd Hi Hin.
  assert (∀ config config',
            WeldMain.parse_arguments stod stoi args config ≠ WeldMain.Parsed config')
    as Hnp.
  { intros config config'. by apply parse_arguments_help. }
  split; [done|]. intros final. unfold WeldMain.main.
  destruct (WeldMain.parse_arguments stod stoi args Weld.SimulationConfig.default)
    as [code| |config] eqn:Hp; try done.
  by destruct (Hnp _ _ Hp).
Qed.

Lemma help_never_simulates_witness :
  (∀ config config',
     WeldMain.parse_arguments stod_sample stoi_sample ["--current"; "--help"] config
     ≠ WeldMain.Parsed config') ∧
  (∀ final,
     WeldMain.main stod_sample stoi_sample ["--current"; "--help"]
     ≠ WeldMain.Simulated final).
Proof.
  apply (help_never_simulates stod_sample stoi_sample ["--current"; "--help"]).
  - reflexivity.
  - reflexivity.
  - apply elem_of_cons. right. apply elem_of_cons. by left.
Defined.

(** X22: an option that takes a value and stands last on an otherwise
    accepted command line is not given a default: the loop takes the branch
    for unknown options and [main] returns 1. *)
Theorem missing_value_returns_1 stod stoi args arg config config1 :
  WeldMain.parse_arguments stod stoi args config = WeldMain.Parsed config1 →
  takes_value arg →
  WeldMain.parse_arguments stod stoi (args ++ [arg]) config = WeldMain.Return 1.
Proof. apply parse_arguments_missing_value. Qed.

Lemma missing_value_returns_1_witness :
  WeldMain.parse_arguments stod_sample stoi_sample (["--no-gas"] ++ ["--speed"])
    Weld.SimulationConfig.default
  = WeldMain.Return 1.
Proof.
  apply (missing_value_returns_1 stod_sample stoi_sample ["--no-gas"] "--speed"
           Weld.SimulationConfig.default
           (Weld.SimulationConfig.set_use_gas Weld.SimulationConfig.default false)).
  - reflexivity.
  - right. left. by eexists.
Defined.

(** * Further properties of the source, the run and the grid *)





(** X25: on a grid with at least one column, [idx] maps the cells
    [(i, j)] with [0 <= i < nx] and [0 <= j < ny] one-to-one onto the indices
    [0 .. nx * ny - 1]. *)
Theorem idx_row_major_bijection nx ny :
  (0 < nx)%Z →
  (∀ i j, (0 ≤ i < nx)%Z → (0 ≤ j < ny)%Z → (0 ≤ Weld.idx nx i j < nx * ny)%Z) ∧
  (∀ i j i' j', (0 ≤ i < nx)%Z → (0 ≤ i' < nx)%Z →
                Weld.idx nx i j = Weld.idx nx i' j' → i = i' ∧ j = j') ∧
  (∀ index, (0 ≤ index < nx * ny)%Z →
            ∃ i j, (0 ≤ i < nx)%Z ∧ (0 ≤ j < ny)%Z ∧ Weld.idx nx i j = index).
Proof.
  intros Hnx. split; [|split].
  - intros i j Hi Hj. unfold Weld.idx. nia.
  - unfold Weld.idx. intros i j i' j' Hi Hi' Heq.
    assert (j = j') by nia. subst. lia.
  - intros index Hindex. by apply idx_onto.
Qed.

Lemma idx_row_major_bijection_witness :
  (∀ i j, (0 ≤ i < 151)%Z → (0 ≤ j < 101)%Z → (0 ≤ Weld.idx 151 i j < 151 * 101)%Z) ∧
  (∀ i j i' j', (0 ≤ i < 151)%Z → (0 ≤ i' < 151)%Z →
                Weld.idx 151 i j = Weld.idx 151 i' j' → i = i' ∧ j = j') ∧
  (∀ index, (0 ≤ index < 151 * 101)%Z →
            ∃ i j, (0 ≤ i < 151)%Z ∧ (0 ≤ j < 101)%Z ∧ Weld.idx 151 i j = index).
Proof. apply (idx_row_major_bijection 151 101). lia. Defined.

(** ** The frames and the progress lines of [run_simulation] *)

Definition tig_output_init (s : TIG.TIGSimulator) : TIGOutput.driver :=
  TIGOutput.mkDriver (TIG.mkRun s []) [] [].

(** The steps of which a frame is saved. *)
Definition saved_steps (evs : list TIGOutput.event) : list Z :=
  omap (λ e, match e with TIGOutput.SaveFrame k _ => Some k | _ => None end) evs.

Lemma saved_steps_app evs1 evs2 :
  saved_steps (evs1 ++ evs2) = saved_steps evs1 ++ saved_steps evs2.
Proof. apply omap_app. Qed.

Lemma tig_output_iteration_inv nt step st st' :
  TIGOutput.run_iteration nt step st = Some st' →
  let rs := TIG.run_iteration step (TIGOutput.drv_state st) in
  let c := TIG.config (TIG.run_sim rs) in
  let save := ((Z.rem step (TIG.TIGConfig.frame_interval c) =? 0)%Z || (step =? nt)%Z) in
  TIG.TIGConfig.frame_interval c ≠ 0%Z ∧ TIG.TIGConfig.output_interval c ≠ 0%Z ∧
  TIGOutput.drv_state st' = rs ∧
  TIGOutput.frame_steps st'
  = TIGOutput.frame_steps st ++ (if save then [step] else []) ∧
  saved_steps (TIGOutput.drv_events st')
  = saved_steps (TIGOutput.drv_events st) ++ (if save then [step] else []).
Proof.
  unfold TIGOutput.run_iteration. cbv zeta.
  destruct (TIG.TIGConfig.frame_interval _ =? 0)%Z eqn:Hfi; [intros H; discriminate H|].
  apply Z.eqb_neq in Hfi.
  destruct (TIG.TIGConfig.output_interval _ =? 0)%Z eqn:Hoi; [intros H; discriminate H|].
  apply Z.eqb_neq in Hoi.
  intros H. split; [done|]. split; [done|]. revert H.
  destruct ((Z.rem step (TIG.TIGConfig.output_interval _) =? 0)%Z || (step =? nt)%Z).
  - destruct (max_element _) as [m|]; [|intros H; discriminate H].
    intros [= <-]. simpl. split; [done|].
    rewrite !saved_steps_app. destruct (_ || _); simpl; by rewrite ?app_nil_r.
  - intros [= <-]. simpl. split; [done|].
    rewrite !saved_steps_app. destruct (_ || _); simpl; by rewrite ?app_nil_r.
Qed.

Lemma tig_output_steps_state nt n st st' :
  TIGOutput.run_steps nt n st = Some st' →
  TIGOutput.drv_state st' = TIG.run_steps n (TIGOutput.drv_state st).
Proof.
  revert st'. induction n as [|n IH]; intros st' H.
  - simpl in H. by injection H as <-.
  - cbn [TIGOutput.run_steps] in H.
    destruct (TIGOutput.run_steps nt n st) as [st1|]; [|done].
    destruct (tig_output_iteration_inv _ _ _ _ H) as (_ & _ & -> & _).
    by rewrite (IH st1 eq_refl).
Qed.

(** The test of the frame branch. *)
Definition frame_due (fi nt : Z) (step : Z) : Prop :=
  Z.rem step fi = 0%Z ∨ step = nt.

#[local] Instance frame_due_dec fi nt step : Decision (frame_due fi nt step).
Proof. unfold frame_due. apply _. Defined.

Lemma tig_output_steps_frames nt n s st :
  TIGOutput.run_steps nt n (tig_output_init s) = Some st →
  TIGOutput.frame_steps st
  = filter (frame_due (TIG.TIGConfig.frame_interval (TIG.config s)) nt)
      (seqZ 1 (Z.of_nat n)) ∧
  saved_steps (TIGOutput.drv_events st) = TIGOutput.frame_steps st.
Proof.
  revert st. induction n as [|n IH]; intros st H.
  - simpl in H. by injection H as <-.
  - cbn [TIGOutput.run_steps] in H.
    destruct (TIGOutput.run_steps nt n (tig_output_init s)) as [st1|] eqn:H1; [|done].
    destruct (IH st1 eq_refl) as [IHf IHe].
    destruct (tig_output_iteration_inv _ _ _ _ H) as (_ & _ & _ & Hf & He).
    cbv zeta in Hf, He.
    rewrite (tig_output_steps_state _ _ _ _ H1) in Hf, He.
    assert (TIG.config (TIG.run_sim (TIG.run_iteration (Z.of_nat (S n))
              (TIG.run_steps n (TIGOutput.drv_state (tig_output_init s)))))
            = TIG.config s) as Hcfg.
    { apply (tig_after_config (S n) s). }
    rewrite Hcfg in Hf, He.
    split; [|by rewrite He, Hf, IHe].
    rewrite Hf, IHf.
    rewrite seqZ_S, filter_app. f_equal.
    replace (1 + Z.of_nat n)%Z with (Z.of_nat (S n)) by lia.
    rewrite filter_cons, filter_nil.
    destruct (decide (frame_due _ _ _)) as [Hd|Hd]; unfold frame_due in Hd.
    + replace (_ || _) with true; [done|]. symmetry. apply orb_true_iff.
      destruct Hd as [Hd|Hd]; [left|right]; by apply Z.eqb_eq.
    + replace (_ || _) with false; [done|]. symmetry. apply orb_false_iff.
      split; apply Z.eqb_neq; intros Hx; apply Hd; [by left|by right].
Qed.

(** The test of the progress branch. *)
Definition progress_due (oi nt : Z) (step : Z) : Prop :=
  Z.rem step oi = 0%Z ∨ step = nt.

Lemma max_element_none (v : list R) : max_element v = None ↔ v = [].
Proof. destruct v; split; done. Qed.

Lemma tig_after_nonempty n s :
  TIGFacts.sizes_ok s → (TIG.T (tig_after n s) = [] ↔ (TIG.N s ≤ 0)%Z).
Proof.
  intros Hs. pose proof (tig_after_sizes n s Hs) as Hs'.
  pose proof (TIGFacts.sizes_T _ Hs') as Hlen.
  pose proof (tig_after_static n s) as Hst. injection Hst as _ HN _ _ _ _ _.
  rewrite HN in Hlen. destruct (TIG.T (tig_after n s)); simpl in Hlen.
  - split; [lia|done].
  - split; [done|lia].
Qed.

Lemma tig_output_iteration_defined nt n s st :
  TIGFacts.sizes_ok s →
  TIGOutput.drv_state st = TIG.run_steps n (TIG.mkRun s []) →
  is_Some (TIGOutput.run_iteration nt (Z.of_nat (S n)) st)
  ↔ TIG.TIGConfig.frame_interval (TIG.config s) ≠ 0%Z ∧
    TIG.TIGConfig.output_interval (TIG.config s) ≠ 0%Z ∧
    (progress_due (TIG.TIGConfig.output_interval (TIG.config s)) nt (Z.of_nat (S n)) →
     (0 < TIG.N s)%Z).
Proof.
  intros Hs Hst. unfold TIGOutput.run_iteration. cbv zeta. rewrite Hst.
  change (TIG.run_sim (TIG.run_iteration (Z.of_nat (S n))
            (TIG.run_steps n (TIG.mkRun s []))))
    with (tig_after (S n) s).
  rewrite tig_after_config.
  pose proof (tig_after_nonempty (S n) s Hs) as Hne.
  pose proof (max_element_none (TIG.T (tig_after (S n) s))) as Hmax.
  destruct (TIG.TIGConfig.frame_interval _ =? 0)%Z eqn:Hfi;
    [apply Z.eqb_eq in Hfi|apply Z.eqb_neq in Hfi].
  { split; [by intros [? ?]|]. by intros [? _]. }
  destruct (TIG.TIGConfig.output_interval _ =? 0)%Z eqn:Hoi;
    [apply Z.eqb_eq in Hoi|apply Z.eqb_neq in Hoi].
  { split; [by intros [? ?]|]. by intros (_ & ? & _). }
  unfold progress_due.
  destruct ((Z.rem (Z.of_nat (S n)) (TIG.TIGConfig.output_interval _) =? 0)%Z
            || (Z.of_nat (S n) =? nt)%Z) eqn:Hdue.
  - assert (Z.rem (Z.of_nat (S n)) (TIG.TIGConfig.output_interval (TIG.config s)) = 0%Z
            ∨ Z.of_nat (S n) = nt) as Hd.
    { apply orb_true_iff in Hdue as [H|H]; apply Z.eqb_eq in H; [by left|by right]. }
    destruct (max_element _) as [m|].
    + split; [|eauto]. intros _. split; [done|]. split; [done|]. intros _.
      destruct (Z_lt_le_dec 0 (TIG.N s)) as [|Hle]; [done|].
      apply Hne in Hle. apply Hmax in Hle. done.
    + split; [by intros [? ?]|]. intros (_ & _ & HN). specialize (HN Hd).
      assert (TIG.T (tig_after (S n) s) = []) as HT by by apply Hmax.
      apply Hne in HT. lia.
  - split; [|eauto]. intros _. split; [done|]. split; [done|].
    apply orb_false_iff in Hdue as [H1 H2]. apply Z.eqb_neq in H1, H2.
    by intros [?|?].
Qed.

Lemma tig_output_steps_defined nt n s :
  TIGFacts.sizes_ok s →
  is_Some (TIGOutput.run_steps nt n (tig_output_init s))
  ↔ n = O ∨
    (TIG.TIGConfig.frame_interval (TIG.config s) ≠ 0%Z ∧
     TIG.TIGConfig.output_interval (TIG.config s) ≠ 0%Z ∧
     ((∃ k, (1 ≤ k ≤ Z.of_nat n)%Z ∧
            progress_due (TIG.TIGConfig.output_interval (TIG.config s)) nt k) →
      (0 < TIG.N s)%Z)).
Proof.
  intros Hs. induction n as [|n IH].
  - simpl. split; [by left|eauto].
  - cbn [TIGOutput.run_steps].
    destruct (TIGOutput.run_steps nt n (tig_output_init s)) as [st1|] eqn:H1.
    + pose proof (tig_output_steps_state _ _ _ _ H1) as Hst.
      rewrite (tig_output_iteration_defined nt n s st1 Hs Hst).
      destruct IH as [IH _]. specialize (IH ltac:(eauto)).
      split.
      * intros (Hfi & Hoi & HN). right. split; [done|]. split; [done|].
        intros (k & Hk & Hd).
        destruct (decide (k = Z.of_nat (S n))) as [->|Hne]; [by apply HN|].
        destruct IH as [->|(_ & _ & IH)]; [lia|]. apply IH. exists k. split; [lia|done].
      * intros [?|(Hfi & Hoi & HN)]; [done|]. split; [done|]. split; [done|].
        intros Hd. apply HN. exists (Z.of_nat (S n)). split; [lia|done].
    + split; [by intros [? ?]|]. intros [?|(Hfi & Hoi & HN)]; [done|].
      destruct IH as [_ IH]. destruct IH as [? ?]; [|done].
      destruct n as [|n]; [by left|right]. split; [done|]. split; [done|].
      intros (k & Hk & Hd). apply HN. exists k. split; [lia|done].
Qed.

Lemma tig_run_simulation_none cfg s :
  TIG.construct cfg = TIG.Constructed s →
  TIGOutput.run_simulation s = None
  ↔ (1 ≤ TIG.number_of_steps cfg)%Z ∧
    (TIG.TIGConfig.frame_interval cfg = 0%Z ∨ TIG.TIGConfig.output_interval cfg = 0%Z ∨
     TIG.N s = 0%Z).
Proof.
  intros Hc.
  destruct (TIGCtor.tig_construct_inv _ _ Hc) as (Hcfg & HN & _ & _ & _ & _ & _ & Hs & _).
  assert (0 ≤ TIG.N s)%Z as HN0.
  { unfold TIG.construct in Hc. destruct (_ <? 0)%Z eqn:Hneg; [done|].
    apply Z.ltb_ge in Hneg. by rewrite HN. }
  unfold TIGOutput.run_simulation. cbv zeta. fold (tig_output_init s). rewrite Hcfg.
  pose proof (tig_output_steps_defined (TIG.number_of_steps cfg)
                (Z.to_nat (TIG.number_of_steps cfg)) s Hs) as Hdef.
  rewrite Hcfg in Hdef.
  destruct (TIGOutput.run_steps _ _ _) as [st|].
  - split; [done|]. intros [Hnt Hbad]. exfalso.
    destruct Hdef as [Hd _]. destruct Hd as [Hz|(Hfi & Hoi & Hpos)]; [eauto|lia|].
    destruct Hbad as [?|[?|HN']]; [done|done|].
    assert (0 < TIG.N s)%Z; [|lia]. apply Hpos.
    exists (TIG.number_of_steps cfg). split; [lia|by right].
  - split; [|done]. intros _.
    destruct (Z_lt_le_dec (TIG.number_of_steps cfg) 1) as [Hlt|Hge].
    { destruct Hdef as [_ Hd]. destruct Hd as [? ?]; [left; lia|done]. }
    split; [done|].
    destruct (decide (TIG.TIGConfig.frame_interval cfg = 0%Z)) as [|Hfi]; [by left|].
    destruct (decide (TIG.TIGConfig.output_interval cfg = 0%Z)) as [|Hoi];
      [right; by left|].
    destruct (decide (TIG.N s = 0%Z)) as [|HNz]; [right; by right|].
    destruct Hdef as [_ Hd]. destruct Hd as [? ?]; [|done].
    right. split; [done|]. split; [done|]. intros _. lia.
Qed.

(** X26: cpp-weld's [run_simulation] reaches the end of its time loop
    unless there is at least one step and [frame_interval] is zero,
    [output_interval] is zero, or the grid has no cell; in these cases it
    divides by zero or dereferences the end of the empty [T]. *)
Theorem tig_run_simulation_defined cfg s :
  TIG.construct cfg = TIG.Constructed s →
  TIGOutput.run_simulation s = None
  ↔ (1 ≤ TIG.number_of_steps cfg)%Z ∧
    (TIG.TIGConfig.frame_interval cfg = 0%Z ∨ TIG.TIGConfig.output_interval cfg = 0%Z ∨
     TIG.N s = 0%Z).
Proof. apply tig_run_simulation_none. Qed.

Lemma tig_run_simulation_defined_witness :
  ∃ s, TIG.construct (tig_config 3 3 293.0 150.0) = TIG.Constructed s ∧
    (TIGOutput.run_simulation s = None
     ↔ (1 ≤ TIG.number_of_steps (tig_config 3 3 293.0 150.0))%Z ∧
       (TIG.TIGConfig.frame_interval (tig_config 3 3 293.0 150.0) = 0%Z ∨
        TIG.TIGConfig.output_interval (tig_config 3 3 293.0 150.0) = 0%Z ∨
        TIG.N s = 0%Z)).
Proof.
  eexists. split; [reflexivity|].
  apply (tig_run_simulation_defined (tig_config 3 3 293.0 150.0)). reflexivity.
Defined.

(** X27: when cpp-weld's [run_simulation] reaches the end of its loop, the
    simulator is in the state that the thermal steps alone produce, a frame
    has been saved for exactly the steps that are multiples of
    [frame_interval] and for the last step, in increasing order, and
    [frame_steps] lists these steps. *)
Theorem tig_frames_saved s st :
  TIGOutput.run_simulation s = Some st →
  TIGOutput.drv_state st = TIG.run_simulation s ∧
  TIGOutput.frame_steps st
  = filter (frame_due (TIG.TIGConfig.frame_interval (TIG.config s))
              (TIG.number_of_steps (TIG.config s)))
      (seqZ 1 (TIG.number_of_steps (TIG.config s))) ∧
  saved_steps (TIGOutput.drv_events st) = TIGOutput.frame_steps st ∧
  ((1 ≤ TIG.number_of_steps (TIG.config s))%Z →
   last (TIGOutput.frame_steps st) = Some (TIG.number_of_steps (TIG.config s))).
Proof.
  unfold TIGOutput.run_simulation. cbv zeta. fold (tig_output_init s). intros H.
  split; [apply (tig_output_steps_state _ _ _ _ H)|].
  destruct (tig_output_steps_frames _ _ _ _ H) as [Hf He].
  assert (seqZ 1 (Z.of_nat (Z.to_nat (TIG.number_of_steps (TIG.config s))))
          = seqZ 1 (TIG.number_of_steps (TIG.config s))) as Hseq.
  { unfold seqZ. by rewrite Nat2Z.id. }
  rewrite Hseq in Hf. split; [done|]. split; [done|].
  intros Hnt. rewrite Hf.
  set (nt := TIG.number_of_steps (TIG.config s)) in *.
  replace (seqZ 1 nt) with (seqZ 1 (Z.of_nat (S (Z.to_nat (nt - 1)))))
    by (f_equal; lia).
  rewrite seqZ_S, filter_app, filter_cons, filter_nil.
  replace (1 + Z.of_nat (Z.to_nat (nt - 1)))%Z with nt by lia.
  destruct (decide (frame_due _ nt nt)) as [|Hd].
  - by rewrite last_snoc.
  - destruct Hd. by right.
Qed.

Lemma tig_frames_saved_witness :
  ∃ s st,
    TIG.construct (tig_config 3 3 293.0 150.0) = TIG.Constructed s ∧
    TIGOutput.run_simulation s = Some st ∧
    TIGOutput.drv_state st = TIG.run_simulation s ∧
    TIGOutput.frame_steps st
    = filter (frame_due (TIG.TIGConfig.frame_interval (TIG.config s))
                (TIG.number_of_steps (TIG.config s)))
        (seqZ 1 (TIG.number_of_steps (TIG.config s))) ∧
    saved_steps (TIGOutput.drv_events st) = TIGOutput.frame_steps st ∧
    ((1 ≤ TIG.number_of_steps (TIG.config s))%Z →
     last (TIGOutput.frame_steps st) = Some (TIG.number_of_steps (TIG.config s))).
Proof.
  eexists.
  match goal with |- ∃ st, _ = TIG.Constructed ?s ∧ _ =>
    destruct (TIGOutput.run_simulation s) as [st|] eqn:Hrun
  end.
  - exists st. split; [reflexivity|]. split; [reflexivity|].
    apply tig_frames_saved. exact Hrun.
  - exfalso.
    apply (tig_run_simulation_none (tig_config 3 3 293.0 150.0) _ eq_refl) in Hrun.
    destruct Hrun as [_ [H|[H|H]]]; discriminate H.
Defined.

(** * The two materials on the grid *)

Lemma weld_material_column config sim i j :
  Weld.construct config = Weld.Constructed sim →
  0 < Weld.SimulationConfig.Lx config →
  (0 ≤ i < Weld.nx_ sim)%Z → (0 ≤ j < Weld.ny_ sim)%Z →
  Weld.material_at sim (Weld.idx (Weld.nx_ sim) i j)
  = if (2 * i <? Weld.nx_ sim - 1)%Z then Weld.mat_1_ sim else Weld.mat_2_ sim.
Proof.
  intros Hc HL Hi Hj. unfold Weld.material_at.
  destruct (WeldCtor.construct_mesh config sim i j Hc Hi Hj) as [-> _].
  destruct (weld_construct_static _ _ Hc) as (_ & _ & -> & _).
  destruct (WeldRun.construct_inv _ _ Hc) as (Hnx & _ & Hnx' & _).
  set (L := Weld.SimulationConfig.Lx config) in *.
  assert (1 <= IZR (Weld.nx_ sim - 1)) as Hd by (apply IZR_le; lia).
  set (d := IZR (Weld.nx_ sim - 1)) in *.
  assert (IZR i * L / d - L / 2.0 = L * (IZR (2 * i) - d) / (2 * d)) as Heq.
  { rewrite mult_IZR. replace 2.0 with 2 by lra. field. lra. }
  assert (0 < L / (2 * d)) as Hpos.
  { apply Rdiv_lt_0_compat; lra. }
  destruct (2 * i <? Weld.nx_ sim - 1)%Z eqn:Hlt.
  - apply Z.ltb_lt in Hlt. apply IZR_lt in Hlt. fold d in Hlt.
    destruct (Rlt_dec _ _) as [|Hn]; [done|]. exfalso. apply Hn.
    assert (L * (IZR (2 * i) - d) / (2 * d) < 0); [|lra].
    replace (L * (IZR (2 * i) - d) / (2 * d))
      with (L / (2 * d) * (IZR (2 * i) - d)) by (field; lra).
    nra.
  - apply Z.ltb_ge in Hlt. apply IZR_le in Hlt. fold d in Hlt.
    destruct (Rlt_dec _ _) as [Hy|]; [|done]. exfalso.
    assert (0 <= L * (IZR (2 * i) - d) / (2 * d)); [|lra].
    replace (L * (IZR (2 * i) - d) / (2 * d))
      with (L / (2 * d) * (IZR (2 * i) - d)) by (field; lra).
    nra.
Qed.

(** X28: in cpp-weld-2, on a plate of positive length of moderate size, the
    property arrays of a cell in column [i] are computed with the first
    material when [2 i < nx - 1] and with the second material when
    [2 i > nx - 1].  The column on the joint itself, [2 i = nx - 1] for an
    odd [nx], is left out: there the code compares two [double] values that
    are equal up to rounding. *)
Theorem weld_materials_by_column config sim T_vec i j :
  Weld.construct config = Weld.Constructed sim →
  sizeable (Weld.SimulationConfig.Lx config) →
  (0 ≤ i < Weld.nx_ sim)%Z → (0 ≤ j < Weld.ny_ sim)%Z →
  (2 * i ≠ Weld.nx_ sim - 1)%Z →
  vec_get (Weld.k_arr (Weld.computeMaterialProperties sim T_vec))
    (Weld.idx (Weld.nx_ sim) i j)
  = Weld.Material.get_k
      (if (2 * i <? Weld.nx_ sim - 1)%Z then Weld.mat_1_ sim else Weld.mat_2_ sim)
      (vec_get T_vec (Weld.idx (Weld.nx_ sim) i j)) ∧
  vec_get (Weld.cp_arr (Weld.computeMaterialProperties sim T_vec))
    (Weld.idx (Weld.nx_ sim) i j)
  = Weld.Material.get_cp
      (if (2 * i <? Weld.nx_ sim - 1)%Z then Weld.mat_1_ sim else Weld.mat_2_ sim)
      (vec_get T_vec (Weld.idx (Weld.nx_ sim) i j)) ∧
  vec_get (Weld.rho_arr (Weld.computeMaterialProperties sim T_vec))
    (Weld.idx (Weld.nx_ sim) i j)
  = Weld.Material.get_rho
      (if (2 * i <? Weld.nx_ sim - 1)%Z then Weld.mat_1_ sim else Weld.mat_2_ sim)
      (vec_get T_vec (Weld.idx (Weld.nx_ sim) i j)).
Proof.
  intros Hc HL Hi Hj _.
  assert (0 < Weld.SimulationConfig.Lx config) as HL' by (unfold sizeable in HL; lra).
  pose proof (WeldRun.construct_sizes _ _ Hc) as Hs.
  assert (0 ≤ Weld.idx (Weld.nx_ sim) i j < Weld.N_ sim)%Z as Hidx.
  { rewrite (WeldFacts.sizes_N sim Hs). unfold Weld.idx. nia. }
  rewrite WeldFacts.computeMaterialProperties_k, WeldFacts.computeMaterialProperties_cp,
    WeldFacts.computeMaterialProperties_rho by done.
  by rewrite (weld_material_column config sim i j Hc HL' Hi Hj).
Qed.

Lemma weld_materials_by_column_witness :
  ∃ sim, Weld.construct (weld_config 5 5 293.0 150.0) = Weld.Constructed sim ∧
    (vec_get (Weld.k_arr (Weld.computeMaterialProperties sim (Weld.T_ sim)))
       (Weld.idx (Weld.nx_ sim) 1 2)
     = Weld.Material.get_k
         (if (2 * 1 <? Weld.nx_ sim - 1)%Z then Weld.mat_1_ sim else Weld.mat_2_ sim)
         (vec_get (Weld.T_ sim) (Weld.idx (Weld.nx_ sim) 1 2)) ∧
     vec_get (Weld.cp_arr (Weld.computeMaterialProperties sim (Weld.T_ sim)))
       (Weld.idx (Weld.nx_ sim) 1 2)
     = Weld.Material.get_cp
         (if (2 * 1 <? Weld.nx_ sim - 1)%Z then Weld.mat_1_ sim else Weld.mat_2_ sim)
         (vec_get (Weld.T_ sim) (Weld.idx (Weld.nx_ sim) 1 2)) ∧
     vec_get (Weld.rho_arr (Weld.computeMaterialProperties sim (Weld.T_ sim)))
       (Weld.idx (Weld.nx_ sim) 1 2)
     = Weld.Material.get_rho
         (if (2 * 1 <? Weld.nx_ sim - 1)%Z then Weld.mat_1_ sim else Weld.mat_2_ sim)
         (vec_get (Weld.T_ sim) (Weld.idx (Weld.nx_ sim) 1 2))) ∧
    (vec_get (Weld.k_arr (Weld.computeMaterialProperties sim (Weld.T_ sim)))
       (Weld.idx (Weld.nx_ sim) 3 2)
     = Weld.Material.get_k
         (if (2 * 3 <? Weld.nx_ sim - 1)%Z then Weld.mat_1_ sim else Weld.mat_2_ sim)
         (vec_get (Weld.T_ sim) (Weld.idx (Weld.nx_ sim) 3 2)) ∧
     vec_get (Weld.cp_arr (Weld.computeMaterialProperties sim (Weld.T_ sim)))
       (Weld.idx (Weld.nx_ sim) 3 2)
     = Weld.Material.get_cp
         (if (2 * 3 <? Weld.nx_ sim - 1)%Z then Weld.mat_1_ sim else Weld.mat_2_ sim)
         (vec_get (Weld.T_ sim) (Weld.idx (Weld.nx_ sim) 3 2)) ∧
     vec_get (Weld.rho_arr (Weld.computeMaterialProperties sim (Weld.T_ sim)))
       (Weld.idx (Weld.nx_ sim) 3 2)
     = Weld.Material.get_rho
         (if (2 * 3 <? Weld.nx_ sim - 1)%Z then Weld.mat_1_ sim else Weld.mat_2_ sim)
         (vec_get (Weld.T_ sim) (Weld.idx (Weld.nx_ sim) 3 2))).
Proof.
  eexists. split; [reflexivity|]. split.
  - apply (weld_materials_by_column (weld_config 5 5 293.0 150.0)).
    + reflexivity.
    + unfold sizeable. simpl. lra.
    + simpl. lia.
    + simpl. lia.
    + simpl. lia.
  - apply (weld_materials_by_column (weld_config 5 5 293.0 150.0)).
    + reflexivity.
    + unfold sizeable. simpl. lra.
    + simpl. lia.
    + simpl. lia.
    + simpl. lia.
Defined.
